(** * Mesh segmentation (mmd_uuunyaa_tools/editors/segmentation.py)

    A shallow embedding of the greedy region-merging segmentation:
    the pair-id encodings, the perimeter cost, the vertex-group weight
    cost with its memo table, the adjacency-graph builder
    [_calc_segment_contacts], the merge engine [auto_segment] and the
    colour assignment [assign_vertex_colors].

    Conventions.
    - Python floats are modelled by rationals [Q]; [math.sqrt] and the
      constant [SQRT_PI] are parameters of the development.
    - Python exceptions are modelled by the [result] monad below.
    - A [Segment] (resp. [SegmentContact]) object is identified with its
      [index], which is what its [__hash__] and [__eq__] use; a reference
      to such an object is its index into a store of objects.
    - A Python [set] is a [gset]; wherever the source iterates over a set
      the order is given by a parameter [ord] applied to the elements. *)

From Stdlib Require Import ZArith QArith Qabs Qminmax Lia Lqa.
From stdpp Require Import base gmap sets list sorting strings.

Open Scope Z_scope.
Set Warnings "-clear-no-such-hyp".

(** ** Exceptions *)

Inductive exn : Type :=
| ZeroDivisionError
| KeyError
| ValueError
| IndexError
| UnboundLocalError
| RuntimeError
(** not a Python exception: a loop of the model ran out of fuel *)
| OutOfFuel.

Inductive result (A : Type) : Type :=
| Ok (a : A)
| Raise (e : exn).
Arguments Ok {A} a.
Arguments Raise {A} e.

Definition rbind {A B : Type} (m : result A) (k : A → result B) : result B :=
  match m with
  | Ok a => k a
  | Raise e => Raise e
  end.

#[global] Instance result_bind : MBind result := λ A B k m, rbind m k.
#[global] Instance result_ret : MRet result := @Ok.

Definition is_ok {A : Type} (m : result A) : bool :=
  match m with Ok _ => true | Raise _ => false end.

(** Float true division: a zero divisor raises. *)
Definition fdiv (x y : Q) : result Q :=
  if Qeq_bool y 0 then Raise ZeroDivisionError else Ok (x / y)%Q.

(** [a > b] on floats. *)
Definition Qgtb (a b : Q) : bool := negb (Qle_bool a b).
(** [a < b] on floats. *)
Definition Qltb (a b : Q) : bool := negb (Qle_bool b a).

(** ** Canonical pair ids *)

(** [int(math.log2(n) / 2 + 1)]; [math.log2(0)] raises [ValueError].
    For [n >= 1] the floor of [log2 n / 2 + 1] is [Z.log2 n / 2 + 1]. *)
Definition pair_shift (n : Z) : result Z :=
  if n <=? 0 then Raise ValueError else Ok (Z.log2 n / 2 + 1).

Definition _to_loop_pair_id (loop0_index loop1_index loop_pair_shift : Z) : Z :=
  if loop0_index >? loop1_index
  then loop1_index + Z.shiftl loop0_index loop_pair_shift
  else loop0_index + Z.shiftl loop1_index loop_pair_shift.

Definition _to_vertex_pair_id (vert0_index vert1_index vertex_pair_shift : Z) : Z :=
  if vert0_index >? vert1_index
  then vert1_index + Z.shiftl vert0_index vertex_pair_shift
  else vert0_index + Z.shiftl vert1_index vertex_pair_shift.

Definition _to_segment_pair_id (segment0_index segment1_index segment_pair_shift : Z) : Z :=
  if segment0_index >? segment1_index
  then segment1_index + Z.shiftl segment0_index segment_pair_shift
  else segment0_index + Z.shiftl segment1_index segment_pair_shift.

(** ** Data model *)

Record Segment : Type := mkSegment {
  seg_area : Q;
  seg_perimeter : Q;
  seg_non_contact_perimeter : Q;
  seg_tri_loop0s : gset Z;
  seg_segment_contact_ids : gset Z;
}.

(** The [index] of a contact is its key in the store of contact objects. *)
Record SegmentContact : Type := mkSegmentContact {
  sc_cost : Q;
  sc_cost_normalized : Q;
  sc_length : Q;
  sc_segment0 : Z;
  sc_segment1 : Z;
}.

(** [Segment(index)]: the dataclass defaults. *)
Definition new_Segment : Segment := mkSegment 0 0 0 ∅ ∅.

Definition segment_contacts (sc : SegmentContact) (segment : Z) : bool :=
  bool_decide (sc_segment0 sc = segment) || bool_decide (sc_segment1 sc = segment).

(** [segment_replace] mutates the contact and returns a flag. *)
Definition segment_replace (sc : SegmentContact) (src dst : Z)
  : SegmentContact * bool :=
  if bool_decide (sc_segment0 sc = src) then
    let sc1 := mkSegmentContact (sc_cost sc) (sc_cost_normalized sc)
                 (sc_length sc) dst (sc_segment1 sc) in
    if bool_decide (sc_segment1 sc1 = src) then
      (mkSegmentContact (sc_cost sc) (sc_cost_normalized sc)
         (sc_length sc) dst dst, true)
    else (sc1, true)
  else if bool_decide (sc_segment1 sc = src) then
    (mkSegmentContact (sc_cost sc) (sc_cost_normalized sc)
       (sc_length sc) (sc_segment0 sc) dst, true)
  else (sc, false).

Definition _get_cost_normalized (segment_contact : SegmentContact) : Q :=
  sc_cost_normalized segment_contact.

(** ** Perimeter cost *)

Section PerimeterCost.
(** [math.sqrt] and [SQRT_PI = math.sqrt(math.pi)]. *)
Variable sqrt : Q → Q.
Variable SQRT_PI : Q.

Definition _area_to_circumference (area : Q) : result Q :=
  fdiv (sqrt area) SQRT_PI.

Definition calc_perimeter_cost (segs : Z → Segment) (self : SegmentContact)
  : result Q :=
  let segment0 := segs (sc_segment0 self) in
  let segment0_perimeter := seg_perimeter segment0 in
  let segment0_area := seg_area segment0 in
  let segment1 := segs (sc_segment1 self) in
  let segment1_perimeter := seg_perimeter segment1 in
  let segment1_area := seg_area segment1 in
  c0 ← _area_to_circumference segment0_area;
  r0 ← fdiv segment0_perimeter c0;
  t0 ← fdiv segment0_area r0;
  c1 ← _area_to_circumference segment1_area;
  r1 ← fdiv segment1_perimeter c1;
  t1 ← fdiv segment1_area r1;
  mean_ratio ← fdiv (segment0_area + segment1_area)%Q (t0 + t1)%Q;
  cm ← _area_to_circumference (segment0_area + segment1_area)%Q;
  merged_ratio ←
    fdiv (segment0_perimeter + segment1_perimeter - 2 * sc_length self)%Q cm;
  q ← fdiv merged_ratio mean_ratio;
  Ok (Qmax (q - 1) 0).
End PerimeterCost.

(** A computable stand-in for [math.sqrt] on rationals (rounded down on the
    numerator), and a seven-digit [SQRT_PI]; used to run the model. *)
Definition approx_sqrt (q : Q) : Q :=
  Z.sqrt (Qnum q * Zpos (Qden q)) # Qden q.
Definition approx_SQRT_PI : Q := 17724539 # 10000000.

(** ** Vertex-group weights *)

(** A [Dict[int, float]] of vertex-group weights, in [items()] order. *)
Definition weights : Type := list (Z * Q).

(** [d.get(k, default)]. *)
Fixpoint dict_get (d : weights) (k : Z) (default : Q) : Q :=
  match d with
  | [] => default
  | (k', w) :: d' => if bool_decide (k' = k) then w else dict_get d' k default
  end.

Definition dict_keys (d : weights) : list Z := map fst d.

(** [_calc_vi2vgi2weights]: per vertex, the deform-layer items whose group
    is not in [ignore_vertex_group_indices]. *)
Definition _calc_vi2vgi2weights (deform : Z → weights)
    (ignore_vertex_group_indices : gset Z) : Z → weights :=
  λ v, filter (λ gw, fst gw ∉ ignore_vertex_group_indices) (deform v).

Section VertexGroupWeightCost.
Variable vi2vgi2weights : Z → weights.
Variable vertex_pair_shift : Z.

(** The two accumulation loops of [_calc_vertex_group_weight_cost]. *)
Definition weight_loop (acc : Q) (d other : weights) : Q :=
  fold_left (λ weight gw, (weight + Qabs (snd gw - dict_get other (fst gw) 0))%Q)
    d acc.

Definition pair_weight (vert0 vert1 : Z) : Q :=
  let vgi2weights0 := vi2vgi2weights vert0 in
  let vgi2weights1 := vi2vgi2weights vert1 in
  let weight := weight_loop 0 vgi2weights0 vgi2weights1 in
  weight_loop weight vgi2weights1 vgi2weights0.

(** [_calc_vertex_group_weight_cost], threading the memo [vpi2weights]. *)
Definition _calc_vertex_group_weight_cost (vpi2weights : gmap Z Q)
    (vert0 vert1 : Z) : Q * gmap Z Q :=
  let vpi := _to_vertex_pair_id vert0 vert1 vertex_pair_shift in
  match vpi2weights !! vpi with
  | Some w => (w, vpi2weights)
  | None =>
      let weight := pair_weight vert0 vert1 in
      (weight, <[vpi := weight]> vpi2weights)
  end.

(** Lines 554-556: the [this_loop] side, computed once per loop. *)
Definition this_loop_vertex_group_weight_cost (vpi2weights : gmap Z Q)
    (vert0 vert1 this_vert2 : Z) : Q * gmap Z Q :=
  let '(a, m1) := _calc_vertex_group_weight_cost vpi2weights vert0 this_vert2 in
  let '(b, m2) := _calc_vertex_group_weight_cost m1 vert1 this_vert2 in
  ((a + b)%Q, m2).

(** Lines 572-580. *)
Definition cost_vertex_group_weight (vpi2weights : gmap Z Q)
    (edge_length this_cost : Q) (vert0 vert1 that_vert2 : Z) : Q * gmap Z Q :=
  let '(a, m1) := _calc_vertex_group_weight_cost vpi2weights vert0 that_vert2 in
  let '(b, m2) := _calc_vertex_group_weight_cost m1 vert1 that_vert2 in
  ((edge_length * (1 # 4) * (this_cost + a + b))%Q, m2).

Definition Qsum (l : list Q) : Q := fold_right Qplus 0%Q l.






End VertexGroupWeightCost.

(** ** The mesh, as the builder reads it *)

(** Loops, faces, edges and vertices are named by their [index].
    [radial_others l] lists the loops met by following
    [link_loop_radial_next] from [l] until [l] comes round again. *)
Record BMesh : Type := mkBMesh {
  verts_len : Z;
  calc_loop_triangles : list (Z * Z * Z);
  loop_vert : Z → Z;
  loop_face : Z → Z;
  loop_edge : Z → Z;
  link_loop_next : Z → Z;
  link_loop_prev : Z → Z;
  radial_others : Z → list Z;
  face_select : Z → bool;
  face_material_index : Z → Z;
  edge_calc_length : Z → Q;
  edge_verts : Z → Z * Z;
  edge_smooth : Z → bool;
  edge_seam : Z → bool;
  vert_distance : Z → Z → Q;
  area_tri : Z → Z → Z → Q;
  normal_angle : Z → Z → Q;
  deform_weights : Z → weights;
}.

Record Params : Type := mkParams {
  cost_threshold : Q;
  maximum_area_threshold : Q;
  minimum_area_threshold : Q;
  contact_length_factor : Q;
  face_angle_cost_factor : Q;
  perimeter_cost_factor : Q;
  vertex_group_weight_cost_factor : Q;
  vertex_group_change_cost_factor : Q;
  material_change_cost_factor : Q;
  edge_sharp_cost_factor : Q;
  edge_seam_cost_factor : Q;
  ignore_vertex_group_indices : gset Z;
}.

(** Stores of mutable objects, indexed by object index. *)
Definition upd {A : Type} (f : Z → A) (k : Z) (v : A) : Z → A :=
  λ i, if bool_decide (i = k) then v else f i.

Definition set_area (s : Segment) (a : Q) : Segment :=
  mkSegment a (seg_perimeter s) (seg_non_contact_perimeter s)
    (seg_tri_loop0s s) (seg_segment_contact_ids s).
Definition set_perimeter (s : Segment) (p : Q) : Segment :=
  mkSegment (seg_area s) p (seg_non_contact_perimeter s)
    (seg_tri_loop0s s) (seg_segment_contact_ids s).
Definition set_non_contact_perimeter (s : Segment) (p : Q) : Segment :=
  mkSegment (seg_area s) (seg_perimeter s) p
    (seg_tri_loop0s s) (seg_segment_contact_ids s).
Definition set_tri_loop0s (s : Segment) (t : gset Z) : Segment :=
  mkSegment (seg_area s) (seg_perimeter s) (seg_non_contact_perimeter s)
    t (seg_segment_contact_ids s).
Definition set_segment_contact_ids (s : Segment) (c : gset Z) : Segment :=
  mkSegment (seg_area s) (seg_perimeter s) (seg_non_contact_perimeter s)
    (seg_tri_loop0s s) c.

Definition set_cost_normalized (sc : SegmentContact) (c : Q) : SegmentContact :=
  mkSegmentContact (sc_cost sc) c (sc_length sc)
    (sc_segment0 sc) (sc_segment1 sc).
Definition set_cost_length (sc : SegmentContact) (c l : Q) : SegmentContact :=
  mkSegmentContact c (sc_cost_normalized sc) l
    (sc_segment0 sc) (sc_segment1 sc).

Definition dummy_contact : SegmentContact := mkSegmentContact 0 0 0 0 0.

(** A loop over a list in the [result] monad. *)
Fixpoint for_each {S A : Type} (body : S → A → result S) (l : list A) (s : S)
  : result S :=
  match l with
  | [] => Ok s
  | a :: l' => s' ← body s a; for_each body l' s'
  end.

Definition _to_tri_loop_index (m : BMesh) (loop : Z) : Z :=
  let li0 := loop in
  let li1 := link_loop_next m loop in
  let li2 := link_loop_prev m loop in
  if li0 >? li1 then
    if li1 >? li2 then li2 else li1
  else if li0 >? li2 then li2 else li0.

(** ** Adjacency graph builder *)

Record BuildState : Type := mkBuildState {
  b_vpi2weights : gmap Z Q;
  b_tli2heaviest_vgi : gmap Z Z;
  b_processed_loop_pair_ids : gset Z;
  b_next_segment_id : Z;
  b_tli2segment : gmap Z Z;
  b_segs : Z → Segment;
  b_contacts : Z → SegmentContact;
  (** keys of [sci2segment_contacts], in insertion order *)
  b_sci_keys : list Z;
  b_next_segment_contact_id : Z;
}.

Definition b_set_vpi2weights (b : BuildState) (x : gmap Z Q) : BuildState :=
  mkBuildState x (b_tli2heaviest_vgi b) (b_processed_loop_pair_ids b)
    (b_next_segment_id b) (b_tli2segment b) (b_segs b) (b_contacts b)
    (b_sci_keys b) (b_next_segment_contact_id b).
Definition b_set_tli2heaviest_vgi (b : BuildState) (x : gmap Z Z) : BuildState :=
  mkBuildState (b_vpi2weights b) x (b_processed_loop_pair_ids b)
    (b_next_segment_id b) (b_tli2segment b) (b_segs b) (b_contacts b)
    (b_sci_keys b) (b_next_segment_contact_id b).
Definition b_set_processed (b : BuildState) (x : gset Z) : BuildState :=
  mkBuildState (b_vpi2weights b) (b_tli2heaviest_vgi b) x
    (b_next_segment_id b) (b_tli2segment b) (b_segs b) (b_contacts b)
    (b_sci_keys b) (b_next_segment_contact_id b).
Definition b_set_segs (b : BuildState) (x : Z → Segment) : BuildState :=
  mkBuildState (b_vpi2weights b) (b_tli2heaviest_vgi b) (b_processed_loop_pair_ids b)
    (b_next_segment_id b) (b_tli2segment b) x (b_contacts b)
    (b_sci_keys b) (b_next_segment_contact_id b).
Definition b_set_contacts (b : BuildState) (x : Z → SegmentContact) : BuildState :=
  mkBuildState (b_vpi2weights b) (b_tli2heaviest_vgi b) (b_processed_loop_pair_ids b)
    (b_next_segment_id b) (b_tli2segment b) (b_segs b) x
    (b_sci_keys b) (b_next_segment_contact_id b).

(** [tli2segment[tli]] on the [defaultdict(_new_segment)]. *)
Definition tli2segment_get (b : BuildState) (tli : Z) : Z * BuildState :=
  match b_tli2segment b !! tli with
  | Some s => (s, b)
  | None =>
      let id := b_next_segment_id b + 1 in
      (id, mkBuildState (b_vpi2weights b) (b_tli2heaviest_vgi b)
             (b_processed_loop_pair_ids b) id (<[tli := id]> (b_tli2segment b))
             (upd (b_segs b) id new_Segment) (b_contacts b)
             (b_sci_keys b) (b_next_segment_contact_id b))
  end.

(** Lines 604-615: create a contact and register it on both segments. *)
Definition b_add_contact (b : BuildState) (cost_total cost_normalized edge_length : Q)
    (this_segment that_segment : Z) : BuildState :=
  let id := b_next_segment_contact_id b + 1 in
  let segment_contact :=
    mkSegmentContact cost_total cost_normalized edge_length
      this_segment that_segment in
  let segs1 := upd (b_segs b) this_segment
      (set_segment_contact_ids (b_segs b this_segment)
         (seg_segment_contact_ids (b_segs b this_segment) ∪ {[id]})) in
  let segs2 := upd segs1 that_segment
      (set_segment_contact_ids (segs1 that_segment)
         (seg_segment_contact_ids (segs1 that_segment) ∪ {[id]})) in
  mkBuildState (b_vpi2weights b) (b_tli2heaviest_vgi b)
    (b_processed_loop_pair_ids b) (b_next_segment_id b) (b_tli2segment b)
    segs2 (upd (b_contacts b) id segment_contact)
    (b_sci_keys b ++ [id]) id.

Definition heaviest_step (acc : Z * Q * gmap Z Q) (gw : Z * Q) : Z * Q * gmap Z Q :=
  let '(max_vgi, max_weight, vgi2weights) := acc in
  let weight := (snd gw + default 0%Q (vgi2weights !! fst gw))%Q in
  if Qgtb weight max_weight
  then (fst gw, weight, <[fst gw := weight]> vgi2weights)
  else (max_vgi, max_weight, <[fst gw := weight]> vgi2weights).

Definition _calc_heaviest_vertex_group_index (m : BMesh) (vi2vgi2weights : Z → weights)
    (tli2heaviest_vgi : gmap Z Z) (tli loop : Z) : Z * gmap Z Z :=
  match tli2heaviest_vgi !! tli with
  | Some v => (v, tli2heaviest_vgi)
  | None =>
      let items :=
        vi2vgi2weights (loop_vert m loop)
        ++ vi2vgi2weights (loop_vert m (link_loop_next m loop))
        ++ vi2vgi2weights (loop_vert m (link_loop_prev m loop)) in
      let max_vgi := fst (fst (fold_left heaviest_step items (-1, (-1)%Q, ∅))) in
      (max_vgi, <[tli := max_vgi]> tli2heaviest_vgi)
  end.

(** What the [if edge_length < 0] block computes once per [this_loop]. *)
Record EdgeInfo : Type := mkEdgeInfo {
  e_edge_length : Q;
  e_vert0 : Z;
  e_vert1 : Z;
  e_this_loop_vertex_group_weight_cost : Q;
  e_cost_edge_sharp : Q;
  e_cost_edge_seam : Q;
}.

Section Builder.
Variable sqrt : Q → Q.
Variable SQRT_PI : Q.
(** [half_pi_inverse = 2 / math.pi] *)
Variable half_pi_inverse : Q.
Variable p : Params.
Variable m : BMesh.
Variable vi2vgi2weights : Z → weights.
Variable vertex_pair_shift : Z.
Variable loop_pair_shift : Z.

(** The state of one [for this_loop in tri_loop] iteration. *)
Definition LoopState : Type := BuildState * option EdgeInfo * Q.

(** Body of the [while (that_loop := ...radial_next) != this_loop] loop. *)
Definition radial_body (this_face this_segment this_heaviest this_loop : Z)
    (st : LoopState) (that_loop : Z) : result LoopState :=
  let '(b, info, this_segment_contact_perimeter) := st in
  let lpi := _to_loop_pair_id this_loop that_loop loop_pair_shift in
  if bool_decide (lpi ∈ b_processed_loop_pair_ids b) then Ok st
  else
    let b := b_set_processed b (b_processed_loop_pair_ids b ∪ {[lpi]}) in
    let that_face := loop_face m that_loop in
    if negb (face_select m that_face) then Ok (b, info, this_segment_contact_perimeter)
    else
      let '(b, ei) :=
        match info with
        | Some ei => (b, ei)
        | None =>
            let this_edge := loop_edge m this_loop in
            let edge_length := edge_calc_length m this_edge in
            let vert0 := fst (edge_verts m this_edge) in
            let vert1 := snd (edge_verts m this_edge) in
            let this_vert2 := loop_vert m (link_loop_prev m this_loop) in
            let '(c, memo) :=
              this_loop_vertex_group_weight_cost vi2vgi2weights vertex_pair_shift
                (b_vpi2weights b) vert0 vert1 this_vert2 in
            let this_loop_edge_sharp_cost := if edge_smooth m this_edge then 0%Q else 1%Q in
            let this_loop_edge_seam_cost := if edge_seam m this_edge then 1%Q else 0%Q in
            (b_set_vpi2weights b memo,
             mkEdgeInfo edge_length vert0 vert1 c
               (edge_length * this_loop_edge_sharp_cost)%Q
               (edge_length * this_loop_edge_seam_cost)%Q)
        end in
      let edge_length := e_edge_length ei in
      let that_tli := _to_tri_loop_index m that_loop in
      let '(that_heaviest, hmemo) :=
        _calc_heaviest_vertex_group_index m vi2vgi2weights
          (b_tli2heaviest_vgi b) that_tli that_loop in
      let b := b_set_tli2heaviest_vgi b hmemo in
      let that_vert2 := loop_vert m (link_loop_prev m that_loop) in
      let '(that_segment, b) := tli2segment_get b that_tli in
      let '(cost_vgw, memo) :=
        cost_vertex_group_weight vi2vgi2weights vertex_pair_shift (b_vpi2weights b)
          edge_length (e_this_loop_vertex_group_weight_cost ei)
          (e_vert0 ei) (e_vert1 ei) that_vert2 in
      let b := b_set_vpi2weights b memo in
      let cost_vertex_group_change :=
        (edge_length * (if bool_decide (this_heaviest = that_heaviest) then 0 else 1))%Q in
      let cost_face_angle :=
        (edge_length * half_pi_inverse * normal_angle m this_loop that_loop)%Q in
      let cost_material_change :=
        (edge_length
         * (if bool_decide (face_material_index m this_face = face_material_index m that_face)
            then 0 else 1))%Q in
      let cost_total :=
        (0 + vertex_group_weight_cost_factor p * cost_vgw
         + vertex_group_change_cost_factor p * cost_vertex_group_change
         + face_angle_cost_factor p * cost_face_angle
         + material_change_cost_factor p * cost_material_change
         + edge_sharp_cost_factor p * e_cost_edge_sharp ei
         + edge_seam_cost_factor p * e_cost_edge_seam ei)%Q in
      cn ← fdiv cost_total
             (if Qgtb (contact_length_factor p) 0
              then (edge_length * contact_length_factor p)%Q else 1%Q);
      Ok (b_add_contact b cost_total cn edge_length this_segment that_segment,
          Some ei, (this_segment_contact_perimeter + edge_length)%Q).

(** Body of [for this_loop in tri_loop]. *)
Definition loop_body (this_face this_segment this_heaviest : Z)
    (st : BuildState * Q) (this_loop : Z) : result (BuildState * Q) :=
  '(b, _, cp) ← for_each (radial_body this_face this_segment this_heaviest this_loop)
                  (radial_others m this_loop) (fst st, None, snd st);
  Ok (b, cp).

(** Body of [for tri_loop in tri_loops]. *)
Definition tri_body (b : BuildState) (tri_loop : Z * Z * Z) : result BuildState :=
  let '(tri_loop0, tri_loop1, tri_loop2) := tri_loop in
  let this_face := loop_face m tri_loop0 in
  if negb (face_select m this_face) then Ok b
  else
    let this_tli := _to_tri_loop_index m tri_loop0 in
    let '(this_heaviest, hmemo) :=
      _calc_heaviest_vertex_group_index m vi2vgi2weights
        (b_tli2heaviest_vgi b) this_tli tri_loop0 in
    let b := b_set_tli2heaviest_vgi b hmemo in
    let '(this_segment, b) := tli2segment_get b this_tli in
    let v0 := loop_vert m tri_loop0 in
    let v1 := loop_vert m tri_loop1 in
    let v2 := loop_vert m tri_loop2 in
    let s := b_segs b this_segment in
    let s := set_area s (area_tri m v0 v1 v2) in
    let s := set_perimeter s
        (vert_distance m v0 v1 + vert_distance m v1 v2 + vert_distance m v2 v0)%Q in
    let s := set_tri_loop0s s (seg_tri_loop0s s ∪ {[tri_loop0]}) in
    let b := b_set_segs b (upd (b_segs b) this_segment s) in
    '(b, this_segment_contact_perimeter) ←
      for_each (loop_body this_face this_segment this_heaviest)
        [tri_loop0; tri_loop1; tri_loop2] (b, 0%Q);
    let s := b_segs b this_segment in
    Ok (b_set_segs b
          (upd (b_segs b) this_segment
             (set_non_contact_perimeter s
                (seg_perimeter s - this_segment_contact_perimeter)%Q))).

(** Lines 619-621. *)
Definition add_perimeter_cost (b : BuildState) (sci : Z) : result BuildState :=
  let segment_contact := b_contacts b sci in
  c ← calc_perimeter_cost sqrt SQRT_PI (b_segs b) segment_contact;
  Ok (b_set_contacts b
        (upd (b_contacts b) sci
           (set_cost_normalized segment_contact
              (sc_cost_normalized segment_contact + perimeter_cost_factor p * c)%Q))).
End Builder.

Definition init_BuildState : BuildState :=
  mkBuildState ∅ ∅ ∅ 0 ∅ (λ _, new_Segment) (λ _, dummy_contact) [] 0.

Definition _calc_segment_contacts (sqrt : Q → Q) (SQRT_PI half_pi_inverse : Q)
    (p : Params) (vi2vgi2weights : Z → weights) (m : BMesh)
    (tri_loops : list (Z * Z * Z)) : result (BuildState * Z) :=
  let vertex_count := verts_len m in
  vertex_pair_shift ← pair_shift vertex_count;
  let loop_count := 3 * Z.of_nat (length tri_loops) in
  loop_pair_shift ← pair_shift loop_count;
  b ← for_each (tri_body half_pi_inverse p m vi2vgi2weights vertex_pair_shift loop_pair_shift)
        tri_loops init_BuildState;
  b ← (if negb (Qeq_bool (perimeter_cost_factor p) 0)
       then for_each (add_perimeter_cost sqrt SQRT_PI p) (b_sci_keys b) b
       else Ok b);
  Ok (b, Z.of_nat (size (b_tli2segment b))).

(** ** Merge engine *)

(** One accepted merge, recorded at lines 299-300 (a ghost trace: the
    source keeps only [last_merged_cost]). *)
Record MergeEvent : Type := mkMergeEvent {
  ev_sci : Z;
  ev_cost : Q;
  ev_dst : Z;
  ev_src : Z;
  ev_dst_area : Q;
  ev_src_area : Q;
}.

Record EngineState : Type := mkEngineState {
  segs : Z → Segment;
  contacts : Z → SegmentContact;
  (** keys of the dict [sci2segment_contacts]; key [k] maps to object [k] *)
  sci2segment_contacts : gset Z;
  (** the list holds references to the contact objects *)
  cost_sorted_segment_contacts : list Z;
  result_segments : gset Z;
  result_loop_count : Z;
  last_merged_cost : Q;
  (** the local [i] of the repositioning loop, [None] while unbound *)
  loop_i : option nat;
  merge_log : list MergeEvent;
}.

Definition set_segs (st : EngineState) (x : Z → Segment) : EngineState :=
  mkEngineState x (contacts st) (sci2segment_contacts st)
    (cost_sorted_segment_contacts st) (result_segments st) (result_loop_count st)
    (last_merged_cost st) (loop_i st) (merge_log st).
Definition set_contacts (st : EngineState) (x : Z → SegmentContact) : EngineState :=
  mkEngineState (segs st) x (sci2segment_contacts st)
    (cost_sorted_segment_contacts st) (result_segments st) (result_loop_count st)
    (last_merged_cost st) (loop_i st) (merge_log st).
Definition set_sci2segment_contacts (st : EngineState) (x : gset Z) : EngineState :=
  mkEngineState (segs st) (contacts st) x
    (cost_sorted_segment_contacts st) (result_segments st) (result_loop_count st)
    (last_merged_cost st) (loop_i st) (merge_log st).
Definition set_cost_sorted (st : EngineState) (x : list Z) : EngineState :=
  mkEngineState (segs st) (contacts st) (sci2segment_contacts st)
    x (result_segments st) (result_loop_count st)
    (last_merged_cost st) (loop_i st) (merge_log st).
Definition set_loop_i (st : EngineState) (x : option nat) : EngineState :=
  mkEngineState (segs st) (contacts st) (sci2segment_contacts st)
    (cost_sorted_segment_contacts st) (result_segments st) (result_loop_count st)
    (last_merged_cost st) x (merge_log st).

(** [bisect.bisect_left(a, x, key=_get_cost_normalized)]: binary search on
    the window [lo, hi). *)
Fixpoint bisect_go (keyat : nat → Q) (x : Q) (fuel lo hi : nat) : nat :=
  match fuel with
  | O => lo
  | S fuel' =>
      if (lo <? hi)%nat then
        let mid := ((lo + hi) / 2)%nat in
        if Qltb (keyat mid) x
        then bisect_go keyat x fuel' (mid + 1)%nat hi
        else bisect_go keyat x fuel' lo mid
      else lo
  end.

Definition bisect_left (cs : Z → SegmentContact) (a : list Z) (x : Q) : nat :=
  bisect_go (λ i, _get_cost_normalized (cs (nth i a 0))) x (length a) 0%nat (length a).

(** [for i in range(start, len(a)): if sc != a[i]: continue; <found>]:
    the first position from [start] on that holds the contact. *)
Fixpoint find_from (a : list Z) (start : nat) (sci : Z) : option nat :=
  match a with
  | [] => None
  | x :: a' =>
      match start with
      | O => if bool_decide (x = sci) then Some O else S <$> find_from a' O sci
      | S start' => S <$> find_from a' start' sci
      end
  end.

Definition discard_contact_id (sg : Z → Segment) (s sci : Z) : Z → Segment :=
  upd sg s (set_segment_contact_ids (sg s) (seg_segment_contact_ids (sg s) ∖ {[sci]})).

Definition _remove_segment_contact (st : EngineState) (sci : Z) : result EngineState :=
  if bool_decide (sci ∈ sci2segment_contacts st) then
    let sc := contacts st sci in
    let st := set_sci2segment_contacts st (sci2segment_contacts st ∖ {[sci]}) in
    let st := set_segs st (discard_contact_id (segs st) (sc_segment0 sc) sci) in
    let st := set_segs st (discard_contact_id (segs st) (sc_segment1 sc) sci) in
    let a := cost_sorted_segment_contacts st in
    match find_from a (bisect_left (contacts st) a (sc_cost_normalized sc)) sci with
    | Some i => Ok (set_cost_sorted st (delete i a))
    | None => Ok st
    end
  else Raise KeyError.

(** [bisect.insort_left(a, x, key=_get_cost_normalized)] *)
Definition insort_left (cs : Z → SegmentContact) (a : list Z) (x : Z) : list Z :=
  let lo := bisect_left cs a (_get_cost_normalized (cs x)) in
  take lo a ++ x :: drop lo a.

(** [sorted(values, key=_get_cost_normalized)]: a stable sort. *)
Fixpoint insert_stable (cs : Z → SegmentContact) (x : Z) (l : list Z) : list Z :=
  match l with
  | [] => [x]
  | y :: l' =>
      if Qltb (_get_cost_normalized (cs y)) (_get_cost_normalized (cs x))
      then y :: insert_stable cs x l'
      else x :: l
  end.

Definition sorted_by_cost (cs : Z → SegmentContact) (values : list Z) : list Z :=
  fold_right (insert_stable cs) [] values.

Inductive control : Type := Break | Continue.

Section Engine.
Variable sqrt : Q → Q.
Variable SQRT_PI : Q.
(** the order in which a set yields its elements *)
Variable ord : list Z → list Z.
Variable p : Params.
Variable segment_pair_shift : Z.

Definition iter_set (s : gset Z) : list Z := ord (elements s).

Definition is_not_perimeter_cost_factor_0 : bool :=
  negb (Qeq_bool (perimeter_cost_factor p) 0).

(** Lines 310-315, for one [src_sci]. *)
Definition repoint (src_segment dst_segment : Z) (st : EngineState) (src_sci : Z)
  : result EngineState :=
  if bool_decide (src_sci ∈ sci2segment_contacts st) then
    let '(sc, replaced) := segment_replace (contacts st src_sci) src_segment dst_segment in
    let st := set_contacts st (upd (contacts st) src_sci sc) in
    if replaced then
      if bool_decide (sc_segment0 sc = sc_segment1 sc) then
        st ← _remove_segment_contact st src_sci;
        (* the set under iteration is dst's own set when src is dst *)
        if bool_decide (src_segment = dst_segment) then Raise RuntimeError else Ok st
      else
        Ok (set_segs st
              (upd (segs st) dst_segment
                 (set_segment_contact_ids (segs st dst_segment)
                    (seg_segment_contact_ids (segs st dst_segment) ∪ {[src_sci]}))))
    else Ok st
  else Raise KeyError.

(** Lines 324-326: [sum(sci2segment_contacts[sci].length for sci in ids)]. *)
Definition sum_lengths (st : EngineState) (ids : gset Z) : result Q :=
  for_each (λ (acc : Q) sci,
              if bool_decide (sci ∈ sci2segment_contacts st)
              then Ok (acc + sc_length (contacts st sci))%Q
              else Raise KeyError)
    (iter_set ids) 0%Q.

(** [spi2mergable_segment_contacts[spi].add(sc)] on the defaultdict,
    kept in insertion order of its keys. *)
Fixpoint group_add (groups : list (Z * gset Z)) (spi sci : Z) : list (Z * gset Z) :=
  match groups with
  | [] => [(spi, {[sci]})]
  | (k, g) :: groups' =>
      if bool_decide (k = spi) then (k, g ∪ {[sci]}) :: groups'
      else (k, g) :: group_add groups' spi sci
  end.

(** Lines 330-333. *)
Definition collect (st : EngineState) (groups : list (Z * gset Z)) (edge_sci : Z)
  : result (list (Z * gset Z)) :=
  if bool_decide (edge_sci ∈ sci2segment_contacts st) then
    let sc := contacts st edge_sci in
    let spi := _to_segment_pair_id (sc_segment0 sc) (sc_segment1 sc) segment_pair_shift in
    Ok (group_add groups spi edge_sci)
  else Raise KeyError.

(** Lines 343-345, for one [sc] of the group. *)
Definition absorb (merged_sc : Z) (st : EngineState) (sc : Z) : result EngineState :=
  let m := contacts st merged_sc in
  let c := contacts st sc in
  let st := set_contacts st
      (upd (contacts st) merged_sc
         (set_cost_length m (sc_cost m + sc_cost c)%Q (sc_length m + sc_length c)%Q)) in
  _remove_segment_contact st sc.

(** Lines 356-358. *)
Definition new_cost_normalized (st : EngineState) (merged_sc : Z) : result Q :=
  let m := contacts st merged_sc in
  pc ← (if is_not_perimeter_cost_factor_0
        then c ← calc_perimeter_cost sqrt SQRT_PI (segs st) m;
             Ok (perimeter_cost_factor p * c)%Q
        else Ok 0%Q);
  d ← fdiv (sc_cost m)
        (if Qgtb (contact_length_factor p) 0
         then (sc_length m * contact_length_factor p)%Q else 1%Q);
  Ok (pc + d)%Q.

(** Lines 337-359, for one group of [spi2mergable_segment_contacts]. *)
Definition fold_parallel (st : EngineState) (mergable_segment_contacts : gset Z)
  : result EngineState :=
  if (size mergable_segment_contacts <=? 1)%nat then Ok st
  else
    match iter_set mergable_segment_contacts with
    | [] => Ok st
    | merged_sc :: rest =>
        st ← for_each (absorb merged_sc) rest st;
        let a := cost_sorted_segment_contacts st in
        let start := bisect_left (contacts st) a (sc_cost_normalized (contacts st merged_sc)) in
        let st :=
          match find_from a start merged_sc with
          | Some i => set_loop_i st (Some i)
          | None =>
              if (start <? length a)%nat
              then set_loop_i st (Some (length a - 1)%nat)
              else st
          end in
        cn ← new_cost_normalized st merged_sc;
        let st := set_contacts st
            (upd (contacts st) merged_sc
               (set_cost_normalized (contacts st merged_sc) cn)) in
        match loop_i st with
        | None => Raise UnboundLocalError
        | Some i =>
            match a !! i with
            | None => Raise IndexError
            | Some x =>
                Ok (set_cost_sorted st (insort_left (contacts st) (delete i a) x))
            end
        end
    end.
(** Lines 299-303: the merge is accepted. *)
Definition accept (st : EngineState) (sci : Z) : EngineState :=
  let segment_contact := contacts st sci in
  let cost := sc_cost_normalized segment_contact in
  let dst_segment := sc_segment0 segment_contact in
  let src_segment := sc_segment1 segment_contact in
  let src_segment_area := seg_area (segs st src_segment) in
  let d := segs st dst_segment in
  let d := set_tri_loop0s d (seg_tri_loop0s d ∪ seg_tri_loop0s (segs st src_segment)) in
  let d := set_area d (seg_area d + src_segment_area)%Q in
  mkEngineState (upd (segs st) dst_segment d) (contacts st) (sci2segment_contacts st)
    (cost_sorted_segment_contacts st) (result_segments st) (result_loop_count st)
    cost (loop_i st)
    (merge_log st ++
       [mkMergeEvent sci cost dst_segment src_segment
          (seg_area (segs st dst_segment)) src_segment_area]).

(** Lines 319-320. *)
Definition isolate (st : EngineState) (dst_segment : Z) : EngineState :=
  mkEngineState (segs st) (contacts st) (sci2segment_contacts st)
    (cost_sorted_segment_contacts st) (result_segments st ∪ {[dst_segment]})
    (result_loop_count st + Z.of_nat (size (seg_tri_loop0s (segs st dst_segment))))
    (last_merged_cost st) (loop_i st) (merge_log st).

(** Lines 323-362: the destination still has contacts. *)
Definition repair (st : EngineState) (dst_segment : Z) : result EngineState :=
  st ← (if is_not_perimeter_cost_factor_0 then
          total ← sum_lengths st (seg_segment_contact_ids (segs st dst_segment));
          let d := segs st dst_segment in
          Ok (set_segs st
                (upd (segs st) dst_segment
                   (set_perimeter d (seg_non_contact_perimeter d + total)%Q)))
        else Ok st);
  spi2mergable_segment_contacts ←
    for_each (collect st) (iter_set (seg_segment_contact_ids (segs st dst_segment))) [];
  for_each fold_parallel (map snd spi2mergable_segment_contacts) st.

(** Area guard of line 296: [true] when the merge is rejected. *)
Definition area_rejects (st : EngineState) (sci : Z) : bool :=
  let segment_contact := contacts st sci in
  let dst_segment := sc_segment0 segment_contact in
  let src_segment := sc_segment1 segment_contact in
  let src_segment_area := seg_area (segs st src_segment) in
  Qgtb src_segment_area (minimum_area_threshold p)
  && Qgtb (seg_area (segs st dst_segment) + src_segment_area)%Q (maximum_area_threshold p).

(** Body of [for segment_contact in cost_sorted_segment_contacts]
    (lines 286-362).  Returns how the [for] loop goes on, whether a merge
    was accepted, and the new state. *)
Definition scan_iter (st : EngineState) (sci : Z)
  : result (control * bool * EngineState) :=
  let segment_contact := contacts st sci in
  let cost := sc_cost_normalized segment_contact in
  if Qgtb cost (cost_threshold p) then Ok (Break, false, st)
  else
    let dst_segment := sc_segment0 segment_contact in
    let src_segment := sc_segment1 segment_contact in
    if area_rejects st sci then Ok (Continue, false, st)
    else
      let st := accept st sci in
      st ← _remove_segment_contact st sci;
      st ← for_each (repoint src_segment dst_segment)
             (iter_set (seg_segment_contact_ids (segs st src_segment))) st;
      if (size (seg_segment_contact_ids (segs st dst_segment)) =? 0)%nat
      then Ok (Continue, true, isolate st dst_segment)
      else
        st ← repair st dst_segment;
        Ok (Break, true, st).

(** The [for] loop over the list under mutation: Python's list iterator
    keeps a position [k] and stops when [k] is past the end. *)
Fixpoint scan (fuel k : nat) (merging : bool) (st : EngineState)
  : result (bool * EngineState) :=
  match fuel with
  | O => Raise OutOfFuel
  | S fuel' =>
      match cost_sorted_segment_contacts st !! k with
      | None => Ok (merging, st)
      | Some sci =>
          '(ctl, accepted, st') ← scan_iter st sci;
          match ctl with
          | Break => Ok (merging || accepted, st')
          | Continue => scan fuel' (S k) (merging || accepted) st'
          end
      end
  end.

(** One pass of the [while merging] loop. *)
Definition pass (st : EngineState) : result (bool * EngineState) :=
  scan (S (length (cost_sorted_segment_contacts st))) 0 false st.

Fixpoint merge_loop (fuel : nat) (st : EngineState) : result EngineState :=
  match fuel with
  | O => Raise OutOfFuel
  | S fuel' =>
      '(merging, st') ← pass st;
      if (merging : bool) then merge_loop fuel' st' else Ok st'
  end.
End Engine.

Record SegmentResult : Type := mkSegmentResult {
  segments : gset Z;
  remain_segment_contacts : list Z;
  r_last_merged_cost : Q;
  tri_loops : list (Z * Z * Z);
  (** the objects the references above point to *)
  r_segs : Z → Segment;
  r_contacts : Z → SegmentContact;
  r_merge_log : list MergeEvent;
}.

Definition start_state (b : BuildState) : EngineState :=
  mkEngineState (b_segs b) (b_contacts b) (list_to_set (b_sci_keys b))
    (sorted_by_cost (b_contacts b) (b_sci_keys b)) ∅ 0 0 None [].

(** Line 364. *)
Definition endpoints (cs : Z → SegmentContact) (a : list Z) : gset Z :=
  list_to_set (concat (map (λ sc, [sc_segment0 (cs sc); sc_segment1 (cs sc)]) a)).

Definition auto_segment (sqrt : Q → Q) (SQRT_PI half_pi_inverse : Q)
    (ord : list Z → list Z) (target_bmesh : BMesh) (p : Params)
  : result SegmentResult :=
  let tri_loops := calc_loop_triangles target_bmesh in
  let vi2vgi2weights :=
    _calc_vi2vgi2weights (deform_weights target_bmesh) (ignore_vertex_group_indices p) in
  '(b, segment_count) ←
    _calc_segment_contacts sqrt SQRT_PI half_pi_inverse p vi2vgi2weights
      target_bmesh tri_loops;
  if segment_count =? 0
  then Ok (mkSegmentResult ∅ [] 0 [] (b_segs b) (b_contacts b) [])
  else
    segment_pair_shift ← pair_shift segment_count;
    let st := start_state b in
    st ← merge_loop sqrt SQRT_PI ord p segment_pair_shift
           (S (size (sci2segment_contacts st))) st;
    Ok (mkSegmentResult
          (result_segments st
           ∪ endpoints (contacts st) (cost_sorted_segment_contacts st))
          (cost_sorted_segment_contacts st) (last_merged_cost st) tri_loops
          (segs st) (contacts st) (merge_log st)).

(** ** Colour assignment *)

Definition RGBA : Type := (Q * Q * Q * Q)%type.

Definition _to_blender_color (uint8_color : Z) : Q :=
  (Z.min (Z.max 0 uint8_color) 255 # 1) / 255.

Definition SEGMANTATION_RGB : list Z := [
  0x787878; 0xb47878; 0x06e6e6; 0x503232; 0x04c803; 0x787850; 0x8c8c8c; 0xcc05ff;
  0xe6e6e6; 0x04fa07; 0xe005ff; 0xebff07; 0x96053d; 0x787846; 0x08ff33; 0xff0652;
  0x8fff8c; 0xccff04; 0xff3307; 0xcc4603; 0x0066c8; 0x3de6fa; 0xff0633; 0x0b66ff;
  0xff0747; 0xff09e0; 0x0907e6; 0xdcdcdc; 0xff095c; 0x7009ff; 0x08ffd6; 0x07ffe0;
  0xffb806; 0x0aff47; 0xff290a; 0x07ffff; 0xe0ff08; 0x6608ff; 0xff3d06; 0xffc207;
  0xff7a08; 0x00ff14; 0xff0829; 0xff0599; 0x0633ff; 0xeb0cff; 0xa09614; 0x00a3ff;
  0x8c8c8c; 0xfa0a0f; 0x14ff00; 0x1fff00; 0xff1f00; 0xffe000; 0x99ff00; 0x0000ff;
  0xff4700; 0x00ebff; 0x00adff; 0x1f00ff; 0x0bc8c8; 0xff5200; 0x00fff5; 0x003dff;
  0x00ff70; 0x00ff85; 0xff0000; 0xffa300; 0xff6600; 0xc2ff00; 0x008fff; 0x33ff00;
  0x0052ff; 0x00ff29; 0x00ffad; 0x0a00ff; 0xadff00; 0x00ff99; 0xff5c00; 0xff00ff;
  0xff00f5; 0xff0066; 0xffad00; 0xff0014; 0xffb8b8; 0x001fff; 0x00ff3d; 0x0047ff;
  0xff00cc; 0x00ffc2; 0x00ff52; 0x000aff; 0x0070ff; 0x3300ff; 0x00c2ff; 0x007aff;
  0x00ffa3; 0xff9900; 0x00ff0a; 0xff7000; 0x8fff00; 0x5200ff; 0xa3ff00; 0xffeb00;
  0x08b8aa; 0x8500ff; 0x00ff5c; 0xb800ff; 0xff001f; 0x00b8ff; 0x00d6ff; 0xff0070;
  0x5cff00; 0x00e0ff; 0x70e0ff; 0x46b8a0; 0xa300ff; 0x9900ff; 0x47ff00; 0xff00a3;
  0xffcc00; 0xff008f; 0x00ffeb; 0x85ff00; 0xff00eb; 0xf500ff; 0xff007a; 0xfff500;
  0x0abed4; 0xd6ff00; 0x00ccff; 0x1400ff; 0xffff00; 0x0099ff; 0x0029ff; 0x00ffcc;
  0x2900ff; 0x29ff00; 0xad00ff; 0x00f5ff; 0x4700ff; 0x7a00ff; 0x00ffb8; 0x005cff;
  0xb8ff00; 0x0085ff; 0xffd600; 0x19c2c2; 0x66ff00; 0x5c00ff
].

Definition SEGMANTATION_COLORS : list RGBA :=
  map (λ rgb,
         (_to_blender_color (Z.land 0xff (Z.shiftr rgb 16)),
          _to_blender_color (Z.land 0xff (Z.shiftr rgb 8)),
          _to_blender_color (Z.land 0xff rgb),
          1%Q))
    SEGMANTATION_RGB.

Section Colors.
(** [random.Random(seed).shuffle] *)
Variable shuffle : Z → list RGBA → list RGBA.
Variable m : BMesh.
(** iteration order of a [Set[BMLoop]] *)
Variable ord : list Z → list Z.

Definition paint_triangle (segmentation_color : RGBA)
    (color_layer : gmap Z RGBA) (tri_loop0 : Z) : gmap Z RGBA :=
  let l := <[tri_loop0 := segmentation_color]> color_layer in
  let l := <[link_loop_prev m tri_loop0 := segmentation_color]> l in
  <[link_loop_next m tri_loop0 := segmentation_color]> l.

(** Body of [for index, segment in enumerate(segments)]. *)
Definition paint_segment (segs : Z → Segment) (segmantation_colors : list RGBA)
    (acc : nat * gmap Z RGBA) (segment : Z) : result (nat * gmap Z RGBA) :=
  let '(index, color_layer) := acc in
  let segmantation_color_count := length segmantation_colors in
  match segmantation_colors !! (index mod segmantation_color_count)%nat with
  | None => Raise IndexError
  | Some segmentation_color =>
      Ok (S index,
          fold_left (paint_triangle segmentation_color)
            (ord (elements (seg_tri_loop0s (segs segment)))) color_layer)
  end.

(** [segments] is the result set in its enumeration order. *)
Definition assign_vertex_colors (segs : Z → Segment) (segments : list Z)
    (color_layer : gmap Z RGBA) (segmentation_vertex_color_random_seed : Z)
  : result (gmap Z RGBA) :=
  let segmantation_colors := SEGMANTATION_COLORS in
  let segmantation_colors :=
    if bool_decide (segmentation_vertex_color_random_seed ≠ 0)
    then shuffle segmentation_vertex_color_random_seed segmantation_colors
    else segmantation_colors in
  r ← for_each (paint_segment segs segmantation_colors) segments (O, color_layer);
  Ok (snd r).
End Colors.

(** ** Test meshes *)

(** A mesh of triangular faces: face [f] owns loops [3f], [3f+1], [3f+2];
    an edge is named by its two vertices; unit edge lengths. *)
Record Tri : Type := mkTri {
  t_verts : Z * Z * Z;
  t_select : bool;
  t_material : Z;
}.

Definition tri_corner (t : Tri) (c : Z) : Z :=
  let '(a, b, c') := t_verts t in
  if c =? 0 then a else if c =? 1 then b else c'.

Definition default_tri : Tri := mkTri (0, 0, 0) false 0.

Section TestMesh.
Variable nverts : Z.
Variable tris : list Tri.

Definition tm_face (l : Z) : Z := l / 3.
Definition tm_tri (l : Z) : Tri := nth (Z.to_nat (tm_face l)) tris default_tri.
Definition tm_vert (l : Z) : Z := tri_corner (tm_tri l) (l mod 3).
Definition tm_next (l : Z) : Z := 3 * tm_face l + (l + 1) mod 3.
Definition tm_prev (l : Z) : Z := 3 * tm_face l + (l + 2) mod 3.
Definition tm_edge (l : Z) : Z :=
  let a := tm_vert l in
  let b := tm_vert (tm_next l) in
  Z.min a b * nverts + Z.max a b.
Definition tm_loops : list Z := map Z.of_nat (seq 0 (3 * length tris)).
Definition tm_radial (l : Z) : list Z :=
  filter (λ l', l < l' ∧ tm_edge l' = tm_edge l) tm_loops
  ++ filter (λ l', l' < l ∧ tm_edge l' = tm_edge l) tm_loops.

Definition test_mesh (area : Z → Z → Z → Q) (angle : Z → Z → Q)
    (seam : Z → bool) (deform : Z → weights) : BMesh :=
  mkBMesh nverts
    (map (λ f, (3 * Z.of_nat f, 3 * Z.of_nat f + 1, 3 * Z.of_nat f + 2))
       (seq 0 (length tris)))
    tm_vert tm_face tm_edge tm_next tm_prev tm_radial
    (λ f, t_select (nth (Z.to_nat f) tris default_tri))
    (λ f, t_material (nth (Z.to_nat f) tris default_tri))
    (λ _, 1%Q) (λ e, (e / nverts, e mod nverts)) (λ _, true) seam
    (λ _ _, 1%Q) area angle deform.
End TestMesh.

Definition test_params (thr max_area min_area : Q) : Params :=
  mkParams thr max_area min_area 0 0 0 0 0 1 0 1 ∅.

Definition ascending (l : list Z) : list Z := merge_sort Z.le l.
Definition descending (l : list Z) : list Z := merge_sort Z.ge l.

(** ** Observations and invariants *)

(** The selected triangles of a mesh, named by their first loop. *)
Definition selected_triangles (m : BMesh) : gset Z :=
  list_to_set
    (map (λ t : Z * Z * Z, t.1.1)
       (filter (λ t : Z * Z * Z, face_select m (loop_face m t.1.1) = true)
          (calc_loop_triangles m))).

(** The union of the member-triangle sets of the result segments. *)
Definition member_triangles (r : SegmentResult) : gset Z :=
  ⋃ (map (λ s, seg_tri_loop0s (r_segs r s)) (elements (segments r))).

(** What a caller can read off a result: each segment with its member
    triangles, the remaining contacts, and the contact and cost of each
    accepted merge in order. *)
Definition observe (x : result SegmentResult)
  : result (list (Z * list Z) * list Z * list (Z * Q)) :=
  r ← x;
  Ok (map (λ s, (s, merge_sort Z.le (elements (seg_tri_loop0s (r_segs r s)))))
        (merge_sort Z.le (elements (segments r))),
      remain_segment_contacts r,
      map (λ e, (ev_sci e, Qred (ev_cost e))) (r_merge_log r)).

(** Two contacts connect the same unordered pair of segments. *)
Definition same_pair (c c' : SegmentContact) : Prop :=
  (sc_segment0 c = sc_segment0 c' ∧ sc_segment1 c = sc_segment1 c')
  ∨ (sc_segment0 c = sc_segment1 c' ∧ sc_segment1 c = sc_segment0 c').

Definition no_parallel_contacts (st : EngineState) : Prop :=
  ∀ i j, i ∈ sci2segment_contacts st → j ∈ sci2segment_contacts st →
    same_pair (contacts st i) (contacts st j) → i = j.

(** Every live contact is registered on both of its endpoints. *)
Definition contacts_registered (st : EngineState) : Prop :=
  ∀ i, i ∈ sci2segment_contacts st →
    i ∈ seg_segment_contact_ids (segs st (sc_segment0 (contacts st i)))
    ∧ i ∈ seg_segment_contact_ids (segs st (sc_segment1 (contacts st i))).

(** The area guard of an accepted merge. *)
Definition area_guard (p : Params) (dst_area src_area : Q) : Prop :=
  (src_area <= minimum_area_threshold p)%Q
  ∨ (dst_area + src_area <= maximum_area_threshold p)%Q.

(** The graph as built, ready for the merge loop. *)
Definition built_state (sqrt : Q → Q) (SQRT_PI half_pi_inverse : Q)
    (m : BMesh) (p : Params) : result EngineState :=
  x ← _calc_segment_contacts sqrt SQRT_PI half_pi_inverse p
         (_calc_vi2vgi2weights (deform_weights m) (ignore_vertex_group_indices p))
         m (calc_loop_triangles m);
  Ok (start_state x.1).

(** What every repair operation of a merge step respects: no contact is
    created, the priority list does not grow, the trace is untouched. *)
Definition shrinks (st st' : EngineState) : Prop :=
  sci2segment_contacts st' ⊆ sci2segment_contacts st
  ∧ (length (cost_sorted_segment_contacts st')
     ≤ length (cost_sorted_segment_contacts st))%nat
  ∧ merge_log st' = merge_log st.

(** The trace records only merges that passed the area guard. *)
Definition log_guarded (p : Params) (log : list MergeEvent) : Prop :=
  Forall (λ e, area_guard p (ev_dst_area e) (ev_src_area e)) log.

(** A computation ends with a result or a Python exception. *)
Definition terminates {A : Type} (x : result A) : Prop := x ≠ Raise OutOfFuel.

Definition touches (dst : Z) (c : SegmentContact) : Prop :=
  sc_segment0 c = dst ∨ sc_segment1 c = dst.

(** Steps that only drop contacts: the surviving contacts keep their
    endpoints and their registrations. *)
Definition keeps (st st' : EngineState) : Prop :=
  sci2segment_contacts st' ⊆ sci2segment_contacts st
  ∧ (∀ c, sc_segment0 (contacts st' c) = sc_segment0 (contacts st c)
          ∧ sc_segment1 (contacts st' c) = sc_segment1 (contacts st c))
  ∧ (∀ x i, i ∈ sci2segment_contacts st' →
            i ∈ seg_segment_contact_ids (segs st x) →
            i ∈ seg_segment_contact_ids (segs st' x)).

(** Steps that may also re-point an endpoint of a contact to [dst],
    registering the contact there. *)
Definition repoints (dst : Z) (st st' : EngineState) : Prop :=
  sci2segment_contacts st' ⊆ sci2segment_contacts st
  ∧ (∀ x i, i ∈ sci2segment_contacts st' →
            i ∈ seg_segment_contact_ids (segs st x) →
            i ∈ seg_segment_contact_ids (segs st' x))
  ∧ (∀ c, c ∈ sci2segment_contacts st' →
       (sc_segment0 (contacts st' c) = sc_segment0 (contacts st c)
        ∨ (sc_segment0 (contacts st' c) = dst
           ∧ c ∈ seg_segment_contact_ids (segs st' dst)))
       ∧ (sc_segment1 (contacts st' c) = sc_segment1 (contacts st c)
          ∨ (sc_segment1 (contacts st' c) = dst
             ∧ c ∈ seg_segment_contact_ids (segs st' dst)))).

(** The pair id the grouping of line 332 gives a contact. *)
Definition spi_of (shift : Z) (st : EngineState) (c : Z) : Z :=
  _to_segment_pair_id (sc_segment0 (contacts st c)) (sc_segment1 (contacts st c)) shift.

Definition groups_ok (shift : Z) (st : EngineState) (groups : list (Z * gset Z)) : Prop :=
  NoDup (map fst groups)
  ∧ ∀ k g c, (k, g) ∈ groups → c ∈ g → spi_of shift st c = k.

Definition covered (shift : Z) (st : EngineState) (groups : list (Z * gset Z))
    (c : Z) : Prop :=
  ∃ g, (spi_of shift st c, g) ∈ groups ∧ c ∈ g.

(** ** Inputs used to run the model *)

Definition degenerate_segs : Z → Segment :=
  λ s, if s =? 1 then mkSegment 0 3 3 ∅ ∅ else mkSegment 1 3 3 ∅ ∅.
(** Unit areas, perimeters 3 and 5. *)
Definition stretched_segs : Z → Segment :=
  λ s, if s =? 1 then mkSegment 1 3 3 ∅ ∅ else mkSegment 1 5 5 ∅ ∅.
Definition contact_1_2 : SegmentContact := mkSegmentContact 0 0 1 1 2.

Definition one_group_weights : Z → weights :=
  λ v, if v =? 0 then [(1, 1%Q)] else [].

Definition flat_area : Z → Z → Z → Q := λ _ _ _, 1%Q.
Definition flat_angle : Z → Z → Q := λ _ _, 0%Q.
Definition no_seam : Z → bool := λ _, false.
Definition no_weights : Z → weights := λ _, [].

(** Three vertices and no face. *)
Definition empty_mesh : BMesh :=
  test_mesh 3 [] flat_area flat_angle no_seam no_weights.

(** One selected triangle on its own. *)
Definition lone_triangle : BMesh :=
  test_mesh 3 [mkTri (0, 1, 2) true 0] flat_area flat_angle no_seam no_weights.

(** Two triangles sharing the edge (1,2); only the first is selected. *)
Definition half_selected : BMesh :=
  test_mesh 4 [mkTri (0, 1, 2) true 0; mkTri (2, 1, 3) false 0]
    flat_area flat_angle no_seam no_weights.

(** A strip of three selected triangles: 0-2 share edge (1,2), 1-2 share
    edge (2,3). *)
Definition strip : BMesh :=
  test_mesh 5 [mkTri (0, 1, 2) true 0; mkTri (3, 4, 2) true 0; mkTri (3, 2, 1) true 0]
    flat_area flat_angle no_seam no_weights.

(** Two adjacent selected triangles and a third selected one apart. *)
Definition pair_and_lone : BMesh :=
  test_mesh 7 [mkTri (0, 1, 2) true 0; mkTri (2, 1, 3) true 0; mkTri (4, 5, 6) true 0]
    flat_area flat_angle no_seam no_weights.

(** The same face twice, with opposite winding. *)
Definition double_face : BMesh :=
  test_mesh 3 [mkTri (0, 1, 2) true 0; mkTri (0, 2, 1) true 0]
    flat_area flat_angle no_seam no_weights.



(** Three triangles around vertex 0; edges (0,2) and (0,3) are seams. *)
Definition fan : BMesh :=
  test_mesh 4 [mkTri (0, 1, 2) true 0; mkTri (0, 2, 3) true 0; mkTri (0, 3, 1) true 0]
    flat_area flat_angle (λ e, bool_decide (e = 2 ∨ e = 3)) no_weights.

Definition run (ord : list Z → list Z) (m : BMesh) (p : Params)
  : result SegmentResult :=
  auto_segment approx_sqrt approx_SQRT_PI (2 # 3) ord m p.

Definition built (m : BMesh) (p : Params) : result EngineState :=
  built_state approx_sqrt approx_SQRT_PI (2 # 3) m p.

(** Two unit-area segments joined by contact 1 of cost 0, written out. *)
Definition unit_segs : Z → Segment :=
  λ s, mkSegment 1 3 2 {[3 * (s - 1)]} {[1]}.
Definition single_contact : Z → SegmentContact :=
  λ _, mkSegmentContact 0 0 1 1 2.
Definition two_segments_state : EngineState :=
  mkEngineState unit_segs single_contact {[1]} [1] ∅ 0 0 None [].

(** The state after the scan has merged them. *)
Definition merged_state : EngineState :=
  match scan_iter approx_sqrt approx_SQRT_PI ascending (test_params 10 100 100) 1
          two_segments_state 1 with
  | Ok (_, _, st) => st
  | Raise _ => two_segments_state
  end.

(** The graphs built for [double_face] and [fan], and [fan] after the
    scan has merged its cheapest contact. *)
Definition state_or_default (x : result EngineState) : EngineState :=
  match x with Ok st => st | Raise _ => two_segments_state end.
Definition double_face_state : EngineState :=
  state_or_default (built double_face (test_params 10 100 100)).
Definition fan_state : EngineState :=
  state_or_default (built fan (test_params 10 2 1)).
Definition fan_merged_state : EngineState :=
  match scan_iter approx_sqrt approx_SQRT_PI ascending (test_params 10 2 1) 2
          fan_state 1 with
  | Ok (_, _, st) => st
  | Raise _ => fan_state
  end.

(** Two one-triangle segments to be coloured: segment 1 holds the
    triangle of loop 0, segment 2 the triangle of loop 3. *)
Definition one_triangle_segs : Z → Segment :=
  λ s, mkSegment 1 3 3 {[3 * (s - 1)]} ∅.
Definition no_shuffle : Z → list RGBA → list RGBA := λ _ l, l.
Definition colour_at (x : result (gmap Z RGBA)) (l : Z) : option RGBA :=
  match x with Ok layer => layer !! l | Raise _ => None end.
Definition colours (segments : list Z) : result (gmap Z RGBA) :=
  assign_vertex_colors no_shuffle half_selected ascending one_triangle_segs
    segments ∅ 0.

(** ** Painting the selected faces *)

(** The loop of [paint_selected_face_colors] between [from_mesh] and
    [to_mesh]; [choice] is [random.choice]. *)
Definition paint_selected_face_colors (choice : list RGBA → RGBA) (m : BMesh)
    (color : option RGBA) (color_layer : gmap Z RGBA) : gmap Z RGBA :=
  let color :=
    match color with
    | Some c => c
    | None => choice SEGMANTATION_COLORS
    end in
  fold_left
    (λ layer (tri_loop : Z * Z * Z),
       if negb (face_select m (loop_face m tri_loop.1.1)) then layer
       else
         <[tri_loop.2 := color]>
           (<[tri_loop.1.2 := color]> (<[tri_loop.1.1 := color]> layer)))
    (calc_loop_triangles m) color_layer.

(** The colour [paint_selected_face_colors] paints with. *)
Definition painting_color (choice : list RGBA → RGBA) (color : option RGBA) : RGBA :=
  match color with Some c => c | None => choice SEGMANTATION_COLORS end.

(** [l] is one of the three loops of a triangle of a selected face. *)
Definition in_selected_triangle (m : BMesh) (l : Z) : bool :=
  existsb
    (λ t : Z * Z * Z,
       face_select m (loop_face m t.1.1)
       && (bool_decide (l = t.1.1) || bool_decide (l = t.1.2) || bool_decide (l = t.2)))
    (calc_loop_triangles m).

(** ** Ignored vertex groups *)

Record Bone : Type := mkBone {
  bone_name : string;
  use_deform : bool;
}.

(** A modifier; [mod_object] is [m.object.data.bones], absent when the
    modifier has no object. *)
Record Modifier : Type := mkModifier {
  is_active : bool;
  mod_type : string;
  mod_object : option (list Bone);
}.

Record VertexGroup : Type := mkVertexGroup {
  vg_index : Z;
  vg_name : string;
}.

Definition is_armature (md : Modifier) : bool :=
  is_active md && bool_decide (mod_type md = "ARMATURE"%string).

(** The set comprehension [deform_bone_names]; [None] stands for the
    [AttributeError] of [m.object.data] on a modifier without object. *)
Fixpoint deform_bone_names (modifiers : list Modifier) : option (list string) :=
  match modifiers with
  | [] => Some []
  | md :: rest =>
      if is_armature md then
        match mod_object md with
        | None => None
        | Some bones =>
            names ← deform_bone_names rest;
            Some (map bone_name (filter (λ b, use_deform b = true) bones) ++ names)
        end
      else deform_bone_names rest
  end.

Definition get_ignore_vertex_group_indices (modifiers : list Modifier)
    (vertex_groups : list VertexGroup) : option (gset Z) :=
  names ← deform_bone_names modifiers;
  Some (list_to_set
          (map vg_index (filter (λ vg, vg_name vg ∉ names) vertex_groups))).

(** The same contact seen from its other end. *)
Definition swap_contact (c : SegmentContact) : SegmentContact :=
  mkSegmentContact (sc_cost c) (sc_cost_normalized c) (sc_length c)
    (sc_segment1 c) (sc_segment0 c).

Definition valid_channel (x : Q) : Prop := (0 <= x)%Q ∧ (x <= 1)%Q.

(** [name] is the name of a deform bone of an active armature modifier. *)
Definition deform_bone_of (modifiers : list Modifier) (name : string) : Prop :=
  ∃ md bones b,
    md ∈ modifiers ∧ is_armature md = true ∧ mod_object md = Some bones
    ∧ b ∈ bones ∧ use_deform b = true ∧ bone_name b = name.

(** An active armature modifier that has no object. *)
Definition broken_armature (modifiers : list Modifier) : Prop :=
  ∃ md, md ∈ modifiers ∧ is_armature md = true ∧ mod_object md = None.

(** ** Colouring the segments *)

(** Segment [s] paints loop [l]: [l] is a [tri_loop0] of [s] or the
    previous or next loop of one. *)
Definition paints (m : BMesh) (segs : Z → Segment) (s l : Z) : Prop :=
  ∃ t, t ∈ seg_tri_loop0s (segs s)
       ∧ (l = t ∨ l = link_loop_prev m t ∨ l = link_loop_next m t).

(** The palette [assign_vertex_colors] indexes. *)
Definition palette (shuffle : Z → list RGBA → list RGBA) (seed : Z) : list RGBA :=
  if bool_decide (seed ≠ 0) then shuffle seed SEGMANTATION_COLORS
  else SEGMANTATION_COLORS.

(** ** Heaviest vertex group *)

(** The chained items [_calc_heaviest_vertex_group_index] runs over. *)
Definition heaviest_items (m : BMesh) (vi2vgi2weights : Z → weights) (loop : Z)
  : weights :=
  vi2vgi2weights (loop_vert m loop)
  ++ vi2vgi2weights (loop_vert m (link_loop_next m loop))
  ++ vi2vgi2weights (loop_vert m (link_loop_prev m loop)).

(** The summed weight of group [g] over the items. *)
Definition group_total (items : list (Z * Q)) (g : Z) : Q :=
  Qsum (map snd (filter (λ gw : Z * Q, gw.1 = g) items)).

(** One selected triangle whose vertex 0 has weight 1 in group 1. *)
Definition weighted_triangle : BMesh :=
  test_mesh 3 [mkTri (0, 1, 2) true 0] flat_area flat_angle no_seam one_group_weights.

(** ** The priority list *)

(** [x] comes no later than [y] in the order of the normalised cost. *)
Definition by_cost (cs : Z → SegmentContact) (x y : Z) : Prop :=
  (_get_cost_normalized (cs x) <= _get_cost_normalized (cs y))%Q.

Definition cost_sorted (cs : Z → SegmentContact) (a : list Z) : Prop :=
  StronglySorted (by_cost cs) a.

(** The priority list holds every live contact once, in the order of
    the normalised cost, and nothing else. *)
Definition priority_ok (st : EngineState) : Prop :=
  cost_sorted (contacts st) (cost_sorted_segment_contacts st)
  ∧ NoDup (cost_sorted_segment_contacts st)
  ∧ ∀ c, c ∈ cost_sorted_segment_contacts st ↔ c ∈ sci2segment_contacts st.

(** A contact the scan would not merge: over the cost threshold, or
    rejected by the area guard. *)
Definition unmergeable (p : Params) (st : EngineState) (c : Z) : Prop :=
  Qgtb (sc_cost_normalized (contacts st c)) (cost_threshold p) = true
  ∨ area_rejects p st c = true.

(** ** The graph the builder hands over *)

(** Contacts are numbered 1, 2, ... in creation order and segments
    1, 2, ... one for each tri-loop index met; a contact joins two
    existing segments and is registered on both; a segment registers
    only contacts that end on it. *)
Definition build_ok (b : BuildState) : Prop :=
  b_sci_keys b = map Z.of_nat (seq 1 (length (b_sci_keys b)))
  ∧ b_next_segment_contact_id b = Z.of_nat (length (b_sci_keys b))
  ∧ b_next_segment_id b = Z.of_nat (size (b_tli2segment b))
  ∧ (∀ tli s, b_tli2segment b !! tli = Some s → 1 ≤ s ≤ b_next_segment_id b)
  ∧ (∀ k, k ∈ b_sci_keys b →
       (1 ≤ sc_segment0 (b_contacts b k) ≤ b_next_segment_id b)
       ∧ (1 ≤ sc_segment1 (b_contacts b k) ≤ b_next_segment_id b)
       ∧ k ∈ seg_segment_contact_ids (b_segs b (sc_segment0 (b_contacts b k)))
       ∧ k ∈ seg_segment_contact_ids (b_segs b (sc_segment1 (b_contacts b k))))
  ∧ (∀ s k, k ∈ seg_segment_contact_ids (b_segs b s) →
       k ∈ b_sci_keys b
       ∧ (sc_segment0 (b_contacts b k) = s ∨ sc_segment1 (b_contacts b k) = s)).

(** A segment registers only live contacts that end on it. *)
Definition registrations_exact (st : EngineState) : Prop :=
  ∀ s k, k ∈ seg_segment_contact_ids (segs st s) →
    k ∈ sci2segment_contacts st
    ∧ (sc_segment0 (contacts st k) = s ∨ sc_segment1 (contacts st k) = s).

(** The graph built for [fan]. *)
Definition fan_graph : BuildState * Z :=
  match _calc_segment_contacts approx_sqrt approx_SQRT_PI (2 # 3) (test_params 10 2 1)
          (_calc_vi2vgi2weights (deform_weights fan)
             (ignore_vertex_group_indices (test_params 10 2 1)))
          fan (calc_loop_triangles fan) with
  | Ok x => x
  | Raise _ => (init_BuildState, 0)
  end.

(** The run on [fan] with the sets iterated in descending order. *)
Definition fan_result : SegmentResult :=
  match run descending fan (test_params 10 2 1) with
  | Ok r => r
  | Raise _ => mkSegmentResult ∅ [] 0 [] (λ _, new_Segment) (λ _, dummy_contact) []
  end.

(** Every merge of the trace was within the cost threshold, and
    [last_merged_cost] is the cost of the last one, 0 when there is
    none. *)
Definition costs_logged (p : Params) (log : list MergeEvent) (last_cost : Q) : Prop :=
  Forall (λ e, (ev_cost e <= cost_threshold p)%Q) log
  ∧ last_cost = default 0%Q (last (map ev_cost log)).

(** ** The contact graph during the merge loop *)

(** The contact set of segment [x] holds live contacts that end on [x],
    and nothing else. *)
Definition exact_at (st : EngineState) (x : Z) : Prop :=
  ∀ k, k ∈ seg_segment_contact_ids (segs st x) →
    k ∈ sci2segment_contacts st ∧ touches x (contacts st k).

(** No live contact joins a segment to itself. *)
Definition no_self_contacts (st : EngineState) : Prop :=
  ∀ i, i ∈ sci2segment_contacts st →
    sc_segment0 (contacts st i) ≠ sc_segment1 (contacts st i).

(** Segment [x] is an endpoint of a live contact. *)
Definition active (st : EngineState) (x : Z) : Prop :=
  ∃ i, i ∈ sci2segment_contacts st ∧ touches x (contacts st i).

(** The graph invariant relative to a set [B] of segments: live contacts
    end on segments of [B], are registered on both ends and are no
    self-contacts, and the contact sets of the segments of [B] are
    exact. *)
Definition graph_inv (B : Z → Prop) (st : EngineState) : Prop :=
  contacts_registered st
  ∧ no_self_contacts st
  ∧ (∀ i x, i ∈ sci2segment_contacts st → touches x (contacts st i) → B x)
  ∧ (∀ x, B x → exact_at st x).

(** The state the merge loop works on is consistent: the priority list
    is in order, and the contact sets of the segments that still have
    live contacts are exact. *)
Definition graph_ok (st : EngineState) : Prop :=
  priority_ok st ∧ graph_inv (active st) st.

(** The computation returns a value satisfying [post], or raises
    [ZeroDivisionError]. *)
Definition only_zero_division {A : Type} (post : A → Prop) (x : result A) : Prop :=
  match x with
  | Ok a => post a
  | Raise e => e = ZeroDivisionError
  end.

(** An exception of the arithmetic: a division by zero or the logarithm
    of zero. *)
Definition arithmetic_error (e : exn) : Prop :=
  e = ZeroDivisionError ∨ e = ValueError.

(** ** The triangles of the segments *)

(** [t] is the first loop of a triangle of [tris] on a selected face. *)
Definition selected_first_loop (m : BMesh) (tris : list (Z * Z * Z)) (t : Z) : Prop :=
  ∃ tri : Z * Z * Z,
    tri ∈ tris ∧ face_select m (loop_face m tri.1.1) = true ∧ tri.1.1 = t.

(** After the triangles [done]: a segment holds the first loops of the
    selected triangles whose tri-loop index is mapped to it. *)
Definition tri_inv (m : BMesh) (done : list (Z * Z * Z)) (b : BuildState) : Prop :=
  (∀ k v, b_tli2segment b !! k = Some v → v ≤ b_next_segment_id b)
  ∧ (∀ s, b_next_segment_id b < s → seg_tri_loop0s (b_segs b s) = ∅)
  ∧ (∀ t, selected_first_loop m done t →
          is_Some (b_tli2segment b !! _to_tri_loop_index m t))
  ∧ (∀ s t, t ∈ seg_tri_loop0s (b_segs b s)
            ↔ selected_first_loop m done t
              ∧ b_tli2segment b !! _to_tri_loop_index m t = Some s).

(** ** The partition of the triangles *)

(** A segment that is part of the answer so far: isolated earlier, or
    still an endpoint of a live contact. *)
Definition alive (st : EngineState) (x : Z) : Prop :=
  x ∈ result_segments st ∨ active st x.

(** No triangle is in two segments of the answer. *)
Definition tri_partition (st : EngineState) : Prop :=
  ∀ x y t, alive st x → alive st y →
    t ∈ seg_tri_loop0s (segs st x) → t ∈ seg_tri_loop0s (segs st y) → x = y.

(** Triangle [t] is in a segment of the answer. *)
Definition covered_tri (st : EngineState) (t : Z) : Prop :=
  ∃ x, alive st x ∧ t ∈ seg_tri_loop0s (segs st x).

Definition nonneg_endpoints (st : EngineState) : Prop :=
  ∀ i, i ∈ sci2segment_contacts st →
    0 ≤ sc_segment0 (contacts st i) ∧ 0 ≤ sc_segment1 (contacts st i).

(** The merge loop's invariant for the partition: a consistent graph
    over non-negative segment ids, isolated segments without live
    contacts, and disjoint triangle sets. *)
Definition partition_inv (st : EngineState) : Prop :=
  graph_ok st
  ∧ nonneg_endpoints st
  ∧ (∀ x, x ∈ result_segments st → ¬ active st x)
  ∧ tri_partition st.

(** Steps that move no triangle and isolate no segment. *)
Definition same_tris (st st' : EngineState) : Prop :=
  (∀ x, seg_tri_loop0s (segs st' x) = seg_tri_loop0s (segs st x))
  ∧ result_segments st' = result_segments st.

(** Steps that change no area. *)
Definition same_area (st st' : EngineState) : Prop :=
  ∀ x, seg_area (segs st' x) = seg_area (segs st x).

(** The summed area of the segments of [X]. *)
Definition total_area (sg : Z → Segment) (X : gset Z) : Q :=
  Qsum (map (λ s, seg_area (sg s)) (elements X)).

(** One iteration of the scan either leaves the state as it is, or
    merges [src] into [dst]: [src] leaves the answer, [dst] stays in it
    with the two areas added, and every other segment is as before. *)
Definition merged_into (st st' : EngineState) : Prop :=
  st' = st
  ∨ ∃ dst src,
      src ≠ dst ∧ alive st src ∧ alive st dst ∧ alive st' dst ∧ ¬ alive st' src
      ∧ (∀ z, z ≠ src → z ≠ dst → (alive st' z ↔ alive st z))
      ∧ (∀ x, seg_area (segs st' x)
              = if decide (x = dst)
                then (seg_area (segs st dst) + seg_area (segs st src))%Q
                else seg_area (segs st x)).

(** ** Area and perimeters of the built segments *)

Definition selected_tri (m : BMesh) (tri : Z * Z * Z) : Prop :=
  face_select m (loop_face m tri.1.1) = true.

(** The summed length of the contacts whose first endpoint is [s]: the
    contacts created while the triangle of [s] was processed. *)
Definition contact_length_from (cs : Z → SegmentContact) (keys : list Z) (s : Z) : Q :=
  Qsum (map (λ k, sc_length (cs k)) (filter (λ k, sc_segment0 (cs k) = s) keys)).

(** Segment [s] carries the measures of triangle [tri]. *)
Definition measured (m : BMesh) (b : BuildState) (tri : Z * Z * Z) (s : Z) : Prop :=
  seg_area (b_segs b s)
  = area_tri m (loop_vert m tri.1.1) (loop_vert m tri.1.2) (loop_vert m tri.2)
  ∧ seg_perimeter (b_segs b s)
    = (vert_distance m (loop_vert m tri.1.1) (loop_vert m tri.1.2)
       + vert_distance m (loop_vert m tri.1.2) (loop_vert m tri.2)
       + vert_distance m (loop_vert m tri.2) (loop_vert m tri.1.1))%Q
  ∧ (seg_non_contact_perimeter (b_segs b s)
     == seg_perimeter (b_segs b s)
        - contact_length_from (b_contacts b) (b_sci_keys b) s)%Q.

Definition tli_injective (b : BuildState) : Prop :=
  ∀ k k' v, b_tli2segment b !! k = Some v → b_tli2segment b !! k' = Some v → k = k'.

(** After the triangles [done]. *)
Definition measures_inv (m : BMesh) (done : list (Z * Z * Z)) (b : BuildState) : Prop :=
  build_ok b
  ∧ tli_injective b
  ∧ (∀ c, c ∈ b_sci_keys b →
       ∃ tri, tri ∈ done ∧ selected_tri m tri
              ∧ b_tli2segment b !! _to_tri_loop_index m tri.1.1
                = Some (sc_segment0 (b_contacts b c)))
  ∧ (∀ tri, tri ∈ done → selected_tri m tri →
       ∃ s, b_tli2segment b !! _to_tri_loop_index m tri.1.1 = Some s
            ∧ measured m b tri s).

(** While the loops of triangle [tri], of segment [this], run with the
    contact perimeter [cp] accumulated so far. *)
Definition measuring (m : BMesh) (done : list (Z * Z * Z)) (tri : Z * Z * Z)
    (this : Z) (b : BuildState) (cp : Q) : Prop :=
  build_ok b
  ∧ 1 ≤ this ≤ b_next_segment_id b
  ∧ tli_injective b
  ∧ (∀ c, c ∈ b_sci_keys b →
       (∃ tri', tri' ∈ done ∧ selected_tri m tri'
                ∧ b_tli2segment b !! _to_tri_loop_index m tri'.1.1
                  = Some (sc_segment0 (b_contacts b c)))
       ∨ sc_segment0 (b_contacts b c) = this)
  ∧ (∀ tri', tri' ∈ done → selected_tri m tri' →
       ∃ s, s ≠ this
            ∧ b_tli2segment b !! _to_tri_loop_index m tri'.1.1 = Some s
            ∧ measured m b tri' s)
  ∧ b_tli2segment b !! _to_tri_loop_index m tri.1.1 = Some this
  ∧ (cp == contact_length_from (b_contacts b) (b_sci_keys b) this)%Q
  ∧ seg_area (b_segs b this)
    = area_tri m (loop_vert m tri.1.1) (loop_vert m tri.1.2) (loop_vert m tri.2)
  ∧ seg_perimeter (b_segs b this)
    = (vert_distance m (loop_vert m tri.1.1) (loop_vert m tri.1.2)
       + vert_distance m (loop_vert m tri.1.2) (loop_vert m tri.2)
       + vert_distance m (loop_vert m tri.2) (loop_vert m tri.1.1))%Q.

(** No two selected triangles of the list have the same tri-loop index:
    every selected face is a triangle and is listed once. *)
Definition distinct_triangles (m : BMesh) (tris : list (Z * Z * Z)) : Prop :=
  NoDup (map (λ tri, _to_tri_loop_index m tri.1.1)
             (filter (λ tri, face_select m (loop_face m tri.1.1) = true) tris)).

(** Steps that leave every segment's non-contact perimeter as it is. *)
Definition same_ncp (st st' : EngineState) : Prop :=
  ∀ x, seg_non_contact_perimeter (segs st' x) = seg_non_contact_perimeter (segs st x).

(** The segment set of line 364: the isolated segments and the endpoints
    of the remaining contacts. *)
Definition answer (st : EngineState) : gset Z :=
  result_segments st ∪ endpoints (contacts st) (cost_sorted_segment_contacts st).

(** ** The cost of a built contact *)








(** The graph [b'] extends [b]: the two maps have kept their entries and
    the contacts of [b] are contacts of [b'] with the same cost, length
    and endpoints. *)
Definition b_extends (b b' : BuildState) : Prop :=
  (∀ k v, b_tli2segment b !! k = Some v → b_tli2segment b' !! k = Some v)
  ∧ (∀ k v, b_tli2heaviest_vgi b !! k = Some v → b_tli2heaviest_vgi b' !! k = Some v)
  ∧ (∀ k, k ∈ b_sci_keys b →
       k ∈ b_sci_keys b'
       ∧ sc_cost (b_contacts b' k) = sc_cost (b_contacts b k)
       ∧ sc_length (b_contacts b' k) = sc_length (b_contacts b k)
       ∧ sc_segment0 (b_contacts b' k) = sc_segment0 (b_contacts b k)
       ∧ sc_segment1 (b_contacts b' k) = sc_segment1 (b_contacts b k)).





(** ** The cost and the length between two segments *)

(** Contact [c] joins the segments [a] and [b]. *)
Definition joins (a b : Z) (c : SegmentContact) : bool :=
  bool_decide (sc_segment0 c = a ∧ sc_segment1 c = b)
  || bool_decide (sc_segment0 c = b ∧ sc_segment1 c = a).

(** The sum of [f] (the cost or the length) over the contacts of [X] that
    join [a] and [b] when looked at through [view]. *)
Definition pair_sum (f : SegmentContact → Q) (view : SegmentContact → SegmentContact)
    (cs : Z → SegmentContact) (X : gset Z) (a b : Z) : Q :=
  Qsum (map (λ k, if joins a b (view (cs k)) then f (cs k) else 0%Q) (elements X)).

(** Over the live contacts as they are ... *)
Definition pair_total (f : SegmentContact → Q) (st : EngineState) (a b : Z) : Q :=
  pair_sum f (λ c, c) (contacts st) (sci2segment_contacts st) a b.

(** ... and with [src] counted as [dst], as [segment_replace] leaves the
    endpoints of a contact. *)
Definition merged_total (f : SegmentContact → Q) (st : EngineState)
    (src dst a b : Z) : Q :=
  pair_sum f (λ c, (segment_replace c src dst).1) (contacts st)
    (sci2segment_contacts st) a b.

Definition cost_or_length (f : SegmentContact → Q) : Prop :=
  f = sc_cost ∨ f = sc_length.

(** * Properties *)

(** ** Float comparisons and division *)

Lemma Qgtb_true (a b : Q) : Qgtb a b = true ↔ (b < a)%Q.
Proof.
  unfold Qgtb. rewrite negb_true_iff. split.
  - intros H. apply Qnot_le_lt. intros Hle.
    apply Qle_bool_iff in Hle. congruence.
  - intros H. destruct (Qle_bool a b) eqn:E; [|done].
    apply Qle_bool_iff in E. exfalso. eapply Qlt_not_le; eauto.
Qed.

Lemma Qgtb_false (a b : Q) : Qgtb a b = false ↔ (a <= b)%Q.
Proof.
  unfold Qgtb. rewrite negb_false_iff. apply Qle_bool_iff.
Qed.

Lemma fdiv_ok (x y : Q) : ¬ (y == 0)%Q → fdiv x y = Ok (x / y)%Q.
Proof.
  intros H. unfold fdiv. destruct (Qeq_bool y 0) eqn:E; [|done].
  apply Qeq_bool_iff in E. contradiction.
Qed.

Lemma fdiv_zero (x y : Q) : (y == 0)%Q → fdiv x y = Raise ZeroDivisionError.
Proof.
  intros H. unfold fdiv. apply Qeq_bool_iff in H. by rewrite H.
Qed.


Lemma fdiv_pos (x y : Q) :
  (0 < x)%Q → (0 < y)%Q → fdiv x y = Ok (x / y)%Q ∧ (0 < x / y)%Q.
Proof.
  intros Hx Hy. split.
  - apply fdiv_ok. intros E. rewrite E in Hy. by apply Qlt_irrefl in Hy.
  - apply Qlt_shift_div_l; [done|]. by rewrite Qmult_0_l.
Qed.

Lemma bind_Ok {A B : Type} (a : A) (k : A → result B) : (Ok a ≫= k) = k a.
Proof. reflexivity. Qed.

Lemma bind_Raise {A B : Type} (e : exn) (k : A → result B) :
  (Raise e ≫= k) = Raise e.
Proof. reflexivity. Qed.

(** ** Perimeter cost *)

Section PerimeterCostFacts.
Variable sqrt : Q → Q.
Variable SQRT_PI : Q.

(** A zero-area first endpoint makes the first ratio divide by zero. *)
Lemma calc_perimeter_cost_zero_area0 (sg : Z → Segment) (sc : SegmentContact) :
  (sqrt (seg_area (sg (sc_segment0 sc))) == 0)%Q →
  calc_perimeter_cost sqrt SQRT_PI sg sc = Raise ZeroDivisionError.
Proof.
  intros H. unfold calc_perimeter_cost, _area_to_circumference.
  destruct (fdiv (sqrt (seg_area (sg (sc_segment0 sc)))) SQRT_PI) as [c0|e] eqn:E.
  - unfold fdiv in E. destruct (Qeq_bool SQRT_PI 0); [done|].
    injection E as <-. rewrite bind_Ok.
    rewrite (fdiv_zero (seg_perimeter _) (sqrt _ / SQRT_PI)); [reflexivity|].
    rewrite H. reflexivity.
  - unfold fdiv in E. destruct (Qeq_bool SQRT_PI 0); [|done].
    injection E as <-. reflexivity.
Qed.

(** C2 (amended): with positive areas and perimeters on both sides the
    perimeter cost is evaluated without any division by zero, and its
    value is [max(merged_ratio / mean_ratio - 1, 0)], which is
    non-negative. *)
Theorem C2_perimeter_cost_defined (sg : Z → Segment) (sc : SegmentContact) :
  (0 < SQRT_PI)%Q →
  (∀ x, (0 < x)%Q → (0 < sqrt x)%Q) →
  (0 < seg_area (sg (sc_segment0 sc)))%Q →
  (0 < seg_perimeter (sg (sc_segment0 sc)))%Q →
  (0 < seg_area (sg (sc_segment1 sc)))%Q →
  (0 < seg_perimeter (sg (sc_segment1 sc)))%Q →
  let A0 := seg_area (sg (sc_segment0 sc)) in
  let P0 := seg_perimeter (sg (sc_segment0 sc)) in
  let A1 := seg_area (sg (sc_segment1 sc)) in
  let P1 := seg_perimeter (sg (sc_segment1 sc)) in
  let circumference := λ area : Q, (sqrt area / SQRT_PI)%Q in
  let mean_ratio :=
    ((A0 + A1) / (A0 / (P0 / circumference A0) + A1 / (P1 / circumference A1)))%Q in
  let merged_ratio :=
    ((P0 + P1 - 2 * sc_length sc) / circumference (A0 + A1))%Q in
  calc_perimeter_cost sqrt SQRT_PI sg sc
  = Ok (Qmax (merged_ratio / mean_ratio - 1) 0)
  ∧ (0 <= Qmax (merged_ratio / mean_ratio - 1) 0)%Q.
Proof.
  intros Hpi Hsqrt HA0 HP0 HA1 HP1 A0 P0 A1 P1 circumference mean_ratio merged_ratio.
  split; [|apply Q.le_max_r].
  subst mean_ratio merged_ratio circumference. cbv beta.
  unfold calc_perimeter_cost, _area_to_circumference.
  fold A0 P0 A1 P1.
  change (0 < A0)%Q in HA0. change (0 < P0)%Q in HP0.
  change (0 < A1)%Q in HA1. change (0 < P1)%Q in HP1.
  clearbody A0 P0 A1 P1.
  destruct (fdiv_pos (sqrt A0) SQRT_PI (Hsqrt _ HA0) Hpi) as [E0 Hc0].
  rewrite E0, bind_Ok.
  destruct (fdiv_pos P0 _ HP0 Hc0) as [E1 Hr0]. rewrite E1, bind_Ok.
  destruct (fdiv_pos A0 _ HA0 Hr0) as [E2 Ht0]. rewrite E2, bind_Ok.
  destruct (fdiv_pos (sqrt A1) SQRT_PI (Hsqrt _ HA1) Hpi) as [E3 Hc1].
  rewrite E3, bind_Ok.
  destruct (fdiv_pos P1 _ HP1 Hc1) as [E4 Hr1]. rewrite E4, bind_Ok.
  destruct (fdiv_pos A1 _ HA1 Hr1) as [E5 Ht1]. rewrite E5, bind_Ok.
  assert (HA : (0 < A0 + A1)%Q) by lra.
  match goal with |- context [fdiv (A0 + A1)%Q ?d] =>
    assert (Hd : (0 < d)%Q) by lra;
    destruct (fdiv_pos (A0 + A1)%Q d HA Hd) as [E6 Hmean]
  end.
  rewrite E6, bind_Ok.
  destruct (fdiv_pos (sqrt (A0 + A1)) SQRT_PI (Hsqrt _ HA) Hpi) as [E7 Hcm].
  rewrite E7, bind_Ok.
  rewrite fdiv_ok; [|intros E; rewrite E in Hcm; by apply Qlt_irrefl in Hcm].
  rewrite bind_Ok.
  rewrite fdiv_ok; [|intros E; rewrite E in Hmean; by apply Qlt_irrefl in Hmean].
  rewrite bind_Ok. reflexivity.
Qed.
End PerimeterCostFacts.


(** C2 (as stated) fails: a contact whose first endpoint has zero area
    does not get perimeter cost 0; the evaluation divides by zero. *)
Lemma C2_zero_area_divides_by_zero :
  (seg_area (degenerate_segs (sc_segment0 contact_1_2)) == 0)%Q
  ∧ calc_perimeter_cost approx_sqrt approx_SQRT_PI degenerate_segs contact_1_2
    = Raise ZeroDivisionError.
Proof. split; reflexivity. Qed.

Lemma approx_sqrt_pos (x : Q) : (0 < x)%Q → (0 < approx_sqrt x)%Q.
Proof.
  destruct x as [n d]. unfold Qlt, approx_sqrt. simpl.
  rewrite !Z.mul_1_r. intros Hn.
  apply Z.sqrt_pos. lia.
Qed.

Lemma C2_perimeter_cost_defined_witness :
  calc_perimeter_cost approx_sqrt approx_SQRT_PI stretched_segs contact_1_2
  = Ok (Qmax ((3 + 5 - 2 * 1) / (approx_sqrt (1 + 1) / approx_SQRT_PI)
              / ((1 + 1) / (1 / (3 / (approx_sqrt 1 / approx_SQRT_PI))
                            + 1 / (5 / (approx_sqrt 1 / approx_SQRT_PI)))) - 1) 0)
  ∧ (0 <= Qmax ((3 + 5 - 2 * 1) / (approx_sqrt (1 + 1) / approx_SQRT_PI)
                / ((1 + 1) / (1 / (3 / (approx_sqrt 1 / approx_SQRT_PI))
                              + 1 / (5 / (approx_sqrt 1 / approx_SQRT_PI)))) - 1) 0)%Q.
Proof.
  apply (C2_perimeter_cost_defined approx_sqrt approx_SQRT_PI stretched_segs contact_1_2).
  - reflexivity.
  - exact approx_sqrt_pos.
  - reflexivity.
  - reflexivity.
  - reflexivity.
  - reflexivity.
Defined.

(** ** Vertex-group weight cost *)

Lemma dict_get_elem (d : weights) (g : Z) (w def : Q) :
  NoDup (dict_keys d) → (g, w) ∈ d → dict_get d g def = w.
Proof.
  induction d as [|[k x] d IH]; intros Hnd Hin.
  - by apply elem_of_nil in Hin.
  - simpl in *. apply NoDup_cons in Hnd as [Hk Hnd].
    apply elem_of_cons in Hin as [Heq|Hin].
    + injection Heq as -> ->. by rewrite bool_decide_eq_true_2.
    + rewrite bool_decide_eq_false_2; [by apply IH|].
      intros ->. apply Hk. apply list_elem_of_fmap. by exists (g, w).
Qed.

Lemma weight_loop_sum (acc : Q) (d other : weights) :
  (weight_loop acc d other
   == acc + Qsum (map (λ gw, Qabs (snd gw - dict_get other (fst gw) 0)) d))%Q.
Proof.
  unfold weight_loop, Qsum. revert acc.
  induction d as [|gw d IH]; intros acc; cbn [fold_left map fold_right].
  - ring.
  - rewrite IH. ring.
Qed.

Lemma Qsum_ext {A : Type} (f g : A → Q) (l : list A) :
  (∀ a, a ∈ l → (f a == g a)%Q) → (Qsum (map f l) == Qsum (map g l))%Q.
Proof.
  unfold Qsum. induction l as [|a l IH]; intros H; cbn [map fold_right]; [reflexivity|].
  apply Qplus_comp.
  - apply H, list_elem_of_here.
  - apply IH. intros b Hb. apply H. by apply list_elem_of_further.
Qed.






(** ** The model at work on small meshes *)

(** C7: with zero selected triangles because the mesh has no face at all,
    [auto_segment] does not return the empty partition: [math.log2(0)]
    raises while the loop-pair shift is computed. *)
Lemma C7_no_faces_raises :
  selected_triangles empty_mesh = ∅
  ∧ run ascending empty_mesh (test_params 10 100 100) = Raise ValueError.
Proof. split; vm_compute; reflexivity. Qed.

(** On a mesh that has faces, none of them selected, the early return of
    line 255 is taken. *)
Lemma no_selection_returns_empty :
  observe (run ascending
             (test_mesh 4 [mkTri (0, 1, 2) false 0; mkTri (2, 1, 3) false 0]
                flat_area flat_angle no_seam no_weights)
             (test_params 10 100 100))
  = Ok ([], [], []).
Proof. vm_compute. reflexivity. Qed.

(** With faces and vertices but no selected face nothing is built and the
    early return of lines 254-255 gives the empty partition. *)
Lemma auto_segment_no_selection sqrt SQRT_PI hpi ord (m : BMesh) (p : Params) :
  0 < verts_len m →
  calc_loop_triangles m ≠ [] →
  (∀ t, t ∈ calc_loop_triangles m → face_select m (loop_face m t.1.1) = false) →
  auto_segment sqrt SQRT_PI hpi ord m p
  = Ok (mkSegmentResult ∅ [] 0 [] (b_segs init_BuildState)
          (b_contacts init_BuildState) []).
Proof.
  intros Hv Ht Hsel. unfold auto_segment, _calc_segment_contacts, pair_shift.
  destruct (verts_len m <=? 0) eqn:E1; [apply Z.leb_le in E1; lia|].
  rewrite bind_Ok.
  destruct (3 * Z.of_nat (length (calc_loop_triangles m)) <=? 0) eqn:E2.
  { apply Z.leb_le in E2. destruct (calc_loop_triangles m); [done|].
    cbn [length] in E2. lia. }
  rewrite bind_Ok.
  assert (Hloop : ∀ l b,
    (∀ t, t ∈ l → face_select m (loop_face m t.1.1) = false) →
    for_each (tri_body hpi p m
                (_calc_vi2vgi2weights (deform_weights m) (ignore_vertex_group_indices p))
                (Z.log2 (verts_len m) / 2 + 1)
                (Z.log2 (3 * Z.of_nat (length (calc_loop_triangles m))) / 2 + 1))
      l b = Ok b).
  { induction l as [|[[l0 l1] l2] l IH]; intros b Hl; [done|].
    cbn [for_each].
    pose proof (Hl (l0, l1, l2) (list_elem_of_here _ _)) as E. cbn [fst] in E.
    assert (Ebody : ∀ vs ls, tri_body hpi p m
        (_calc_vi2vgi2weights (deform_weights m) (ignore_vertex_group_indices p))
        vs ls b (l0, l1, l2) = Ok b).
    { intros vs ls. unfold tri_body. by rewrite E. }
    rewrite Ebody, bind_Ok. apply IH. intros t Hin. apply Hl.
    by apply list_elem_of_further. }
  rewrite (Hloop _ _ Hsel), bind_Ok.
  cbn [b_sci_keys init_BuildState for_each].
  destruct (negb _); reflexivity.
Qed.

(** C1: a selected triangle without a selected neighbour is missing from
    the result, which is empty. *)
Lemma C1_lone_triangle_dropped :
  selected_triangles lone_triangle = {[0]}
  ∧ observe (run ascending lone_triangle (test_params 10 100 100)) = Ok ([], [], [])
  ∧ selected_triangles half_selected = {[0]}
  ∧ observe (run ascending half_selected (test_params 10 100 100)) = Ok ([], [], []).
Proof. repeat split; vm_compute; reflexivity. Qed.

(** The loop-pair ids of loops (1,7) and (5,6) collide for nine loops, so
    the contact between the second and third triangle of the strip is
    never created and the second triangle is dropped as well. *)
Lemma strip_loses_a_triangle :
  selected_triangles strip = {[0; 3; 6]}
  ∧ observe (run ascending strip (test_params (-1) 100 100))
    = Ok ([(1, [0]); (2, [6])], [1], []).
Proof. split; vm_compute; reflexivity. Qed.

(** C8: under the area lockout no merge is accepted, yet the result holds
    two segments for three selected triangles. *)
Lemma C8_lockout_drops_lone_triangle :
  selected_triangles pair_and_lone = {[0; 3; 6]}
  ∧ observe (run ascending pair_and_lone (test_params 10 0 (1 # 2)))
    = Ok ([(1, [0]); (2, [3])], [1], []).
Proof. split; vm_compute; reflexivity. Qed.

(** ** Loops in the [result] monad *)

Lemma bind_Ok_inv {A B : Type} (x : result A) (k : A → result B) (b : B) :
  (x ≫= k) = Ok b → ∃ a, x = Ok a ∧ k a = Ok b.
Proof. destruct x as [a|e]; [|discriminate]. intros H. by exists a. Qed.

Lemma terminates_bind {A B : Type} (x : result A) (k : A → result B) :
  terminates x → (∀ a, x = Ok a → terminates (k a)) → terminates (x ≫= k).
Proof.
  intros Hx Hk. destruct x as [a|e]; [by apply Hk|].
  unfold terminates in *. intros H. apply Hx.
  change (@Raise B e = Raise OutOfFuel) in H. by injection H as ->.
Qed.

Lemma for_each_preserves {S A : Type} (R : S → S → Prop)
    `{!Reflexive R} `{!Transitive R} (body : S → A → result S) (l : list A) :
  (∀ s a s', a ∈ l → body s a = Ok s' → R s s') →
  ∀ s s', for_each body l s = Ok s' → R s s'.
Proof.
  induction l as [|a l IH]; intros Hbody s s' H; simpl in H.
  - injection H as ->. reflexivity.
  - apply bind_Ok_inv in H as (s1 & H1 & H2).
    transitivity s1.
    + eapply Hbody; [apply list_elem_of_here|done].
    + apply IH; [|done]. intros ? ? ? ? ?. eapply Hbody; [|done].
      by apply list_elem_of_further.
Qed.

Lemma for_each_terminates {S A : Type} (body : S → A → result S) (l : list A) :
  (∀ s a, terminates (body s a)) → ∀ s, terminates (for_each body l s).
Proof.
  intros Hbody. induction l as [|a l IH]; intros s; simpl; [done|].
  apply terminates_bind; [apply Hbody|]. intros. apply IH.
Qed.

Lemma fdiv_terminates (x y : Q) : terminates (fdiv x y).
Proof. unfold fdiv. by destruct (Qeq_bool y 0). Qed.

Lemma pair_shift_terminates (n : Z) : terminates (pair_shift n).
Proof. unfold pair_shift. by destruct (n <=? 0). Qed.

Lemma calc_perimeter_cost_terminates sqrt SQRT_PI sg sc :
  terminates (calc_perimeter_cost sqrt SQRT_PI sg sc).
Proof.
  unfold calc_perimeter_cost, _area_to_circumference.
  repeat (apply terminates_bind; [apply fdiv_terminates|intros ? _]).
  done.
Qed.

#[local] Instance shrinks_refl : Reflexive shrinks.
Proof. intros st. by repeat split. Qed.

#[local] Instance shrinks_trans : Transitive shrinks.
Proof.
  intros a b c (H1 & H2 & H3) (H4 & H5 & H6). repeat split.
  - set_solver.
  - lia.
  - congruence.
Qed.

(** ** Removing a contact *)

Lemma length_delete_le {A : Type} (i : nat) (l : list A) :
  (length (delete i l) ≤ length l)%nat.
Proof.
  revert i. induction l as [|x l IH]; intros [|i]; simpl; try lia.
  specialize (IH i). lia.
Qed.

Lemma _remove_segment_contact_spec (st st' : EngineState) (sci : Z) :
  _remove_segment_contact st sci = Ok st' →
  sci ∈ sci2segment_contacts st
  ∧ sci2segment_contacts st' = sci2segment_contacts st ∖ {[sci]}
  ∧ contacts st' = contacts st
  ∧ segs st' =
      discard_contact_id
        (discard_contact_id (segs st) (sc_segment0 (contacts st sci)) sci)
        (sc_segment1 (contacts st sci)) sci
  ∧ shrinks st st'
  ∧ result_segments st' = result_segments st
  ∧ last_merged_cost st' = last_merged_cost st.
Proof.
  unfold _remove_segment_contact.
  destruct (bool_decide (sci ∈ sci2segment_contacts st)) eqn:E; [|discriminate].
  apply bool_decide_eq_true in E. cbn [cost_sorted_segment_contacts set_segs
    set_sci2segment_contacts contacts segs].
  destruct (find_from _ _ _) as [i|]; intros [= <-];
    cbn; repeat split; try done; try set_solver.
  apply length_delete_le.
Qed.

Lemma _remove_segment_contact_terminates st sci :
  terminates (_remove_segment_contact st sci).
Proof.
  unfold _remove_segment_contact.
  destruct (bool_decide _); [|done].
  by destruct (find_from _ _ _).
Qed.

(** ** The repair operations shrink the graph *)

Lemma repoint_shrinks (src dst : Z) (st st' : EngineState) (c : Z) :
  repoint src dst st c = Ok st' → shrinks st st'.
Proof.
  unfold repoint.
  destruct (bool_decide (c ∈ sci2segment_contacts st)); [|discriminate].
  destruct (segment_replace (contacts st c) src dst) as [sc [|]];
    [|by intros [= <-]].
  destruct (bool_decide (sc_segment0 sc = sc_segment1 sc)).
  - intros H. apply bind_Ok_inv in H as (st1 & H1 & H2).
    destruct (bool_decide (src = dst)); [discriminate|]. injection H2 as <-.
    apply _remove_segment_contact_spec in H1 as (_ & _ & _ & _ & Hs & _).
    exact Hs.
  - by intros [= <-].
Qed.

Lemma repoint_terminates (src dst : Z) (st : EngineState) (c : Z) :
  terminates (repoint src dst st c).
Proof.
  unfold repoint.
  destruct (bool_decide (c ∈ sci2segment_contacts st)); [|done].
  destruct (segment_replace (contacts st c) src dst) as [sc [|]]; [|done].
  destruct (bool_decide (sc_segment0 sc = sc_segment1 sc)); [|done].
  apply terminates_bind; [apply _remove_segment_contact_terminates|].
  intros. by destruct (bool_decide (src = dst)).
Qed.

Lemma absorb_shrinks (merged_sc : Z) (st st' : EngineState) (c : Z) :
  absorb merged_sc st c = Ok st' → shrinks st st'.
Proof.
  unfold absorb. intros H.
  apply _remove_segment_contact_spec in H as (_ & _ & _ & _ & Hs & _).
  exact Hs.
Qed.

Lemma length_insort_left (cs : Z → SegmentContact) (a : list Z) (x : Z) :
  length (insort_left cs a x) = S (length a).
Proof.
  unfold insort_left. rewrite length_app. cbn [length].
  rewrite Nat.add_succ_r, <- length_app, take_drop. reflexivity.
Qed.

Lemma length_delete_lookup {A : Type} (i : nat) (l : list A) (x : A) :
  l !! i = Some x → S (length (delete i l)) = length l.
Proof.
  revert i. induction l as [|y l IH]; intros [|i] H; simpl in *; try done.
  f_equal. by apply IH.
Qed.

Lemma new_cost_normalized_terminates sqrt SQRT_PI p (st : EngineState) (c : Z) :
  terminates (new_cost_normalized sqrt SQRT_PI p st c).
Proof.
  unfold new_cost_normalized.
  apply terminates_bind.
  - destruct (is_not_perimeter_cost_factor_0 p); [|done].
    apply terminates_bind; [apply calc_perimeter_cost_terminates|done].
  - intros. apply terminates_bind; [apply fdiv_terminates|done].
Qed.

Lemma fold_parallel_shrinks sqrt SQRT_PI ord p (st st' : EngineState) (g : gset Z) :
  fold_parallel sqrt SQRT_PI ord p st g = Ok st' → shrinks st st'.
Proof.
  unfold fold_parallel.
  destruct (size g <=? 1)%nat; [by intros [= <-]|].
  destruct (iter_set ord g) as [|merged_sc rest]; [by intros [= <-]|].
  intros H. apply bind_Ok_inv in H as (st1 & H1 & H).
  apply (for_each_preserves shrinks) in H1;
    [|intros ? ? ? _; apply absorb_shrinks].
  apply bind_Ok_inv in H as (cn & _ & H).
  destruct (loop_i _) as [i|]; [|discriminate].
  destruct (cost_sorted_segment_contacts st1 !! i) as [x|] eqn:Ei; [|discriminate].
  injection H as <-.
  transitivity st1; [exact H1|].
  assert (Hlen := length_delete_lookup _ _ _ Ei).
  destruct (find_from _ _ _); [|destruct (_ <? _)%nat];
    (split; [done|split; [|done]]);
    cbn [cost_sorted_segment_contacts set_cost_sorted];
    rewrite length_insort_left; lia.
Qed.

Lemma fold_parallel_terminates sqrt SQRT_PI ord p (st : EngineState) (g : gset Z) :
  terminates (fold_parallel sqrt SQRT_PI ord p st g).
Proof.
  unfold fold_parallel.
  destruct (size g <=? 1)%nat; [done|].
  destruct (iter_set ord g) as [|merged_sc rest]; [done|].
  apply terminates_bind.
  - apply for_each_terminates. intros. apply _remove_segment_contact_terminates.
  - intros st1 _. apply terminates_bind; [apply new_cost_normalized_terminates|].
    intros cn _. destruct (loop_i _); [|done]. by destruct (_ !! _).
Qed.

Lemma repair_shrinks sqrt SQRT_PI ord p shift (st st' : EngineState) (dst : Z) :
  repair sqrt SQRT_PI ord p shift st dst = Ok st' → shrinks st st'.
Proof.
  unfold repair. intros H.
  apply bind_Ok_inv in H as (st1 & H1 & H).
  apply bind_Ok_inv in H as (groups & _ & H).
  apply (for_each_preserves shrinks) in H;
    [|intros ? ? ? _; apply fold_parallel_shrinks].
  transitivity st1; [|exact H].
  destruct (is_not_perimeter_cost_factor_0 p); [|by injection H1 as <-].
  apply bind_Ok_inv in H1 as (total & _ & H1). by injection H1 as <-.
Qed.

Lemma repair_terminates sqrt SQRT_PI ord p shift (st : EngineState) (dst : Z) :
  terminates (repair sqrt SQRT_PI ord p shift st dst).
Proof.
  unfold repair. apply terminates_bind.
  - destruct (is_not_perimeter_cost_factor_0 p); [|done].
    apply terminates_bind; [|done].
    unfold sum_lengths. apply for_each_terminates.
    intros acc c. by destruct (bool_decide _).
  - intros st1 _. apply terminates_bind.
    + apply for_each_terminates. intros groups c. unfold collect.
      by destruct (bool_decide _).
    + intros groups _. apply for_each_terminates.
      intros. apply fold_parallel_terminates.
Qed.

(** ** One iteration of the scan *)

(** The ways an iteration of the scan can end without an exception. *)
Lemma scan_iter_inv sqrt SQRT_PI ord p shift (st st' : EngineState) (sci : Z)
    (ctl : control) (accepted : bool) :
  scan_iter sqrt SQRT_PI ord p shift st sci = Ok (ctl, accepted, st') →
  let dst := sc_segment0 (contacts st sci) in
  let src := sc_segment1 (contacts st sci) in
  (accepted = false ∧ st' = st
   ∧ ((ctl = Break ∧ Qgtb (sc_cost_normalized (contacts st sci)) (cost_threshold p) = true)
      ∨ (ctl = Continue
         ∧ Qgtb (sc_cost_normalized (contacts st sci)) (cost_threshold p) = false
         ∧ area_rejects p st sci = true)))
  ∨ (accepted = true
     ∧ Qgtb (sc_cost_normalized (contacts st sci)) (cost_threshold p) = false
     ∧ area_rejects p st sci = false
     ∧ ∃ st1 st2,
         _remove_segment_contact (accept st sci) sci = Ok st1
         ∧ for_each (repoint src dst)
             (iter_set ord (seg_segment_contact_ids (segs st1 src))) st1 = Ok st2
         ∧ ((ctl = Continue
             ∧ size (seg_segment_contact_ids (segs st2 dst)) = 0%nat
             ∧ st' = isolate st2 dst)
            ∨ (ctl = Break
               ∧ size (seg_segment_contact_ids (segs st2 dst)) ≠ 0%nat
               ∧ repair sqrt SQRT_PI ord p shift st2 dst = Ok st'))).
Proof.
  intros H dst src. unfold scan_iter in H.
  destruct (Qgtb _ (cost_threshold p)) eqn:Ethr.
  { injection H as <- <- <-. left. repeat split. by left. }
  destruct (area_rejects p st sci) eqn:Erej.
  { injection H as <- <- <-. left. repeat split. by right. }
  right. apply bind_Ok_inv in H as (st1 & H1 & H).
  apply bind_Ok_inv in H as (st2 & H2 & H).
  fold dst src in H2, H.
  destruct (size (seg_segment_contact_ids (segs st2 dst)) =? 0)%nat eqn:Esz.
  - injection H as <- <- <-. apply Nat.eqb_eq in Esz.
    repeat split; try done. exists st1, st2. repeat split; try done. by left.
  - apply bind_Ok_inv in H as (st3 & H3 & H). injection H as <- <- <-.
    apply Nat.eqb_neq in Esz.
    repeat split; try done. exists st1, st2. repeat split; try done. by right.
Qed.

Lemma scan_iter_terminates sqrt SQRT_PI ord p shift (st : EngineState) (sci : Z) :
  terminates (scan_iter sqrt SQRT_PI ord p shift st sci).
Proof.
  unfold scan_iter.
  destruct (Qgtb _ (cost_threshold p)); [done|].
  destruct (area_rejects p st sci); [done|].
  apply terminates_bind; [apply _remove_segment_contact_terminates|].
  intros st1 _. apply terminates_bind.
  - apply for_each_terminates. intros. apply repoint_terminates.
  - intros st2 _. destruct (_ =? _)%nat; [done|].
    apply terminates_bind; [apply repair_terminates|done].
Qed.

(** An accepted merge consumes its contact, creates none, does not
    lengthen the priority list and adds one event to the trace. *)
Lemma scan_iter_accepted sqrt SQRT_PI ord p shift (st st' : EngineState) (sci : Z)
    (ctl : control) :
  scan_iter sqrt SQRT_PI ord p shift st sci = Ok (ctl, true, st') →
  sci ∈ sci2segment_contacts st
  ∧ sci2segment_contacts st' ⊆ sci2segment_contacts st ∖ {[sci]}
  ∧ (length (cost_sorted_segment_contacts st')
     ≤ length (cost_sorted_segment_contacts st))%nat
  ∧ merge_log st' =
      merge_log st ++
        [mkMergeEvent sci (sc_cost_normalized (contacts st sci))
           (sc_segment0 (contacts st sci)) (sc_segment1 (contacts st sci))
           (seg_area (segs st (sc_segment0 (contacts st sci))))
           (seg_area (segs st (sc_segment1 (contacts st sci))))].
Proof.
  intros H. apply scan_iter_inv in H as [(? & _)|(_ & _ & _ & st1 & st2 & H1 & H2 & H)];
    [discriminate|].
  apply _remove_segment_contact_spec in H1 as (Hin & Hsci & _ & _ & Hs1 & _).
  apply (for_each_preserves shrinks) in H2;
    [|intros ? ? ? _; apply repoint_shrinks].
  assert (Hs3 : shrinks st2 st').
  { destruct H as [(_ & _ & ->)|(_ & _ & H)].
    - by repeat split.
    - by apply repair_shrinks in H. }
  assert (Hs : shrinks st1 st') by (by transitivity st2).
  destruct Hs as (Hsub & Hlen & Hlog). destruct Hs1 as (_ & Hlen1 & Hlog1).
  cbn in Hin, Hsci, Hlen1, Hlog1.
  repeat split.
  - exact Hin.
  - rewrite <- Hsci. exact Hsub.
  - lia.
  - by rewrite Hlog, Hlog1.
Qed.

Lemma area_rejects_false (p : Params) (st : EngineState) (sci : Z) :
  area_rejects p st sci = false →
  area_guard p (seg_area (segs st (sc_segment0 (contacts st sci))))
    (seg_area (segs st (sc_segment1 (contacts st sci)))).
Proof.
  unfold area_rejects, area_guard. intros H.
  apply andb_false_iff in H as [H|H]; apply Qgtb_false in H; [by left|by right].
Qed.

Lemma area_rejects_true (p : Params) (st : EngineState) (sci : Z) :
  area_rejects p st sci = true →
  ¬ area_guard p (seg_area (segs st (sc_segment0 (contacts st sci))))
      (seg_area (segs st (sc_segment1 (contacts st sci)))).
Proof.
  unfold area_rejects, area_guard. intros H.
  apply andb_true_iff in H as [H1 H2].
  apply Qgtb_true in H1. apply Qgtb_true in H2.
  intros [H|H]; [exact (Qlt_not_le _ _ H1 H)|exact (Qlt_not_le _ _ H2 H)].
Qed.

(** ** The scan and the outer loop *)

Lemma scan_spec sqrt SQRT_PI ord p shift (fuel : nat) :
  ∀ (k : nat) (merging : bool) (st : EngineState),
  (length (cost_sorted_segment_contacts st) - k < fuel)%nat →
  terminates (scan sqrt SQRT_PI ord p shift fuel k merging st)
  ∧ ∀ merging' st',
      scan sqrt SQRT_PI ord p shift fuel k merging st = Ok (merging', st') →
      sci2segment_contacts st' ⊆ sci2segment_contacts st
      ∧ (merging' = true →
         merging = true
         ∨ (size (sci2segment_contacts st') < size (sci2segment_contacts st))%nat)
      ∧ (merging = true → merging' = true)
      ∧ (merging' = false → st' = st)
      ∧ (log_guarded p (merge_log st) → log_guarded p (merge_log st')).
Proof.
  induction fuel as [|fuel IH]; intros k merging st Hfuel; [lia|].
  cbn [scan].
  destruct (cost_sorted_segment_contacts st !! k) as [sci|] eqn:Ek.
  2:{ split; [done|]. intros ? ? [= <- <-]. repeat split; auto. }
  apply lookup_lt_Some in Ek.
  pose proof (scan_iter_terminates sqrt SQRT_PI ord p shift st sci) as Hterm.
  destruct (scan_iter sqrt SQRT_PI ord p shift st sci) as [[[ctl acc] st1]|e] eqn:Eit.
  2:{ rewrite bind_Raise. split; [|intros ? ? H; discriminate H].
      intros [= ->]. by apply Hterm. }
  rewrite bind_Ok.
  assert (Hst1 :
    sci2segment_contacts st1 ⊆ sci2segment_contacts st
    ∧ (length (cost_sorted_segment_contacts st1)
       ≤ length (cost_sorted_segment_contacts st))%nat
    ∧ (acc = true →
       (size (sci2segment_contacts st1) < size (sci2segment_contacts st))%nat)
    ∧ (acc = false → st1 = st)
    ∧ (log_guarded p (merge_log st) → log_guarded p (merge_log st1))).
  { destruct acc.
    - pose proof (scan_iter_inv _ _ _ _ _ _ _ _ _ _ Eit) as Hinv.
      apply scan_iter_accepted in Eit as (Hin & Hsub & Hlen & Hlog).
      repeat split; [set_solver|exact Hlen| |done|].
      + intros _. apply subset_size. set_solver.
      + intros Hg. rewrite Hlog. apply Forall_app. split; [exact Hg|].
        apply Forall_singleton. cbn.
        destruct Hinv as [(? & _)|(_ & _ & Hrej & _)]; [discriminate|].
        by apply area_rejects_false.
    - apply scan_iter_inv in Eit as [(_ & -> & _)|(? & _)]; [|discriminate].
      repeat split; auto; done. }
  destruct Hst1 as (Hsub & Hlen & Hacc & Hrej & Hlog).
  destruct ctl.
  - split; [done|]. intros ? ? [= <- <-]. repeat split.
    + exact Hsub.
    + intros H. apply orb_true_iff in H as [H|H]; [by left|right; by apply Hacc].
    + intros ->. reflexivity.
    + intros H. apply orb_false_iff in H as [_ H]. by apply Hrej.
    + exact Hlog.
  - destruct (IH (S k) (merging || acc) st1) as [Ht Hres]; [lia|].
    split; [exact Ht|]. intros mg' st' H.
    destruct (Hres mg' st' H) as (Hsub' & Hmg & Hup & Hno & Hlog').
    repeat split.
    + set_solver.
    + intros E. destruct (Hmg E) as [Hm|Hm].
      * apply orb_true_iff in Hm as [Hm|Hm]; [by left|right].
        specialize (Hacc Hm).
        pose proof (subseteq_size _ _ Hsub'). lia.
      * right. pose proof (subseteq_size _ _ Hsub). lia.
    + intros ->. by apply Hup.
    + intros E. specialize (Hno E). subst st'.
      apply Hrej. destruct acc; [|done].
      rewrite orb_true_r in Hup. rewrite Hup in E; done.
    + auto.
Qed.

Lemma pass_spec sqrt SQRT_PI ord p shift (st : EngineState) :
  terminates (pass sqrt SQRT_PI ord p shift st)
  ∧ ∀ merging st',
      pass sqrt SQRT_PI ord p shift st = Ok (merging, st') →
      sci2segment_contacts st' ⊆ sci2segment_contacts st
      ∧ (merging = true →
         (size (sci2segment_contacts st') < size (sci2segment_contacts st))%nat)
      ∧ (merging = false → st' = st)
      ∧ (log_guarded p (merge_log st) → log_guarded p (merge_log st')).
Proof.
  unfold pass.
  destruct (scan_spec sqrt SQRT_PI ord p shift
              (S (length (cost_sorted_segment_contacts st))) 0 false st) as [Ht Hres];
    [lia|].
  split; [exact Ht|]. intros mg st' H.
  destruct (Hres mg st' H) as (Hsub & Hmg & _ & Hno & Hlog).
  repeat split; auto.
  intros E. by destruct (Hmg E).
Qed.

Lemma merge_loop_spec sqrt SQRT_PI ord p shift (fuel : nat) :
  ∀ st : EngineState,
  (size (sci2segment_contacts st) < fuel)%nat →
  terminates (merge_loop sqrt SQRT_PI ord p shift fuel st)
  ∧ ∀ st',
      merge_loop sqrt SQRT_PI ord p shift fuel st = Ok st' →
      sci2segment_contacts st' ⊆ sci2segment_contacts st
      ∧ (log_guarded p (merge_log st) → log_guarded p (merge_log st')).
Proof.
  induction fuel as [|fuel IH]; intros st Hfuel; [lia|].
  cbn [merge_loop].
  destruct (pass_spec sqrt SQRT_PI ord p shift st) as [Ht Hres].
  destruct (pass sqrt SQRT_PI ord p shift st) as [[mg st1]|e] eqn:Ep.
  2:{ rewrite bind_Raise. split; [|intros ? H; discriminate H].
      intros [= ->]. by apply Ht. }
  rewrite bind_Ok. cbn.
  destruct (Hres mg st1 eq_refl) as (Hsub & Hmg & _ & Hlog).
  destruct mg.
  - specialize (Hmg eq_refl).
    destruct (IH st1) as [Ht1 Hres1]; [lia|].
    split; [exact Ht1|]. intros st' H.
    destruct (Hres1 st' H) as [Hsub' Hlog']. split; [set_solver|auto].
  - split; [done|]. intros st' [= <-]. split; [exact Hsub|exact Hlog].
Qed.

(** ** The builder ends *)

Lemma radial_body_terminates hpi p m vi2 vshift lshift this_face this_segment
    this_heaviest this_loop (st : LoopState) (that_loop : Z) :
  terminates (radial_body hpi p m vi2 vshift lshift this_face this_segment
                this_heaviest this_loop st that_loop).
Proof.
  unfold radial_body. destruct st as [[b info] cp].
  destruct (bool_decide _); [done|].
  destruct (negb _); [done|].
  destruct info as [ei|].
  - destruct (_calc_heaviest_vertex_group_index _ _ _ _ _) as [h hm].
    destruct (tli2segment_get _ _) as [s b'].
    destruct (cost_vertex_group_weight _ _ _ _ _ _ _ _) as [c mm].
    apply terminates_bind; [apply fdiv_terminates|done].
  - destruct (this_loop_vertex_group_weight_cost _ _ _ _ _ _) as [c0 m0].
    destruct (_calc_heaviest_vertex_group_index _ _ _ _ _) as [h hm].
    destruct (tli2segment_get _ _) as [s b'].
    destruct (cost_vertex_group_weight _ _ _ _ _ _ _ _) as [c mm].
    apply terminates_bind; [apply fdiv_terminates|done].
Qed.

Lemma tri_body_terminates hpi p m vi2 vshift lshift (b : BuildState)
    (tri_loop : Z * Z * Z) :
  terminates (tri_body hpi p m vi2 vshift lshift b tri_loop).
Proof.
  unfold tri_body. destruct tri_loop as [[l0 l1] l2].
  destruct (negb _); [done|].
  destruct (_calc_heaviest_vertex_group_index _ _ _ _ _) as [h hm].
  destruct (tli2segment_get _ _) as [s b'].
  apply terminates_bind.
  - apply for_each_terminates. intros st l. unfold loop_body.
    apply terminates_bind.
    + apply for_each_terminates. intros. apply radial_body_terminates.
    + by intros [[? ?] ?] _.
  - by intros [? ?] _.
Qed.

Lemma _calc_segment_contacts_terminates sqrt SQRT_PI hpi p vi2 m tris :
  terminates (_calc_segment_contacts sqrt SQRT_PI hpi p vi2 m tris).
Proof.
  unfold _calc_segment_contacts.
  apply terminates_bind; [apply pair_shift_terminates|]. intros vshift _.
  apply terminates_bind; [apply pair_shift_terminates|]. intros lshift _.
  apply terminates_bind.
  { apply for_each_terminates. intros. apply tri_body_terminates. }
  intros b _. apply terminates_bind; [|done].
  destruct (negb _); [|done].
  apply for_each_terminates. intros b' c. unfold add_perimeter_cost.
  apply terminates_bind; [apply calc_perimeter_cost_terminates|done].
Qed.

(** ** Termination *)

Lemma auto_segment_terminates sqrt SQRT_PI hpi ord m p :
  terminates (auto_segment sqrt SQRT_PI hpi ord m p).
Proof.
  unfold auto_segment.
  apply terminates_bind; [apply _calc_segment_contacts_terminates|].
  intros [b n] _. destruct (n =? 0); [done|].
  apply terminates_bind; [apply pair_shift_terminates|].
  intros shift _. apply terminates_bind; [|done].
  apply merge_loop_spec. lia.
Qed.

(** C10: [auto_segment] terminates on every input.  The outer loop is run
    with one more pass than there are contacts and each pass with one more
    iteration than the priority list is long; that fuel is never used up,
    so a run ends with a result or with a Python exception.  An accepted
    merge removes the consumed contact from the live contacts and adds
    none, and a pass without an accepted merge leaves the outer loop. *)
Theorem C10_auto_segment_terminates sqrt SQRT_PI hpi ord p :
  (∀ m, terminates (auto_segment sqrt SQRT_PI hpi ord m p))
  ∧ (∀ shift st,
       terminates (merge_loop sqrt SQRT_PI ord p shift
                     (S (size (sci2segment_contacts st))) st))
  ∧ (∀ shift st,
       terminates (pass sqrt SQRT_PI ord p shift st))
  ∧ (∀ shift st sci ctl st',
       scan_iter sqrt SQRT_PI ord p shift st sci = Ok (ctl, true, st') →
       sci ∈ sci2segment_contacts st
       ∧ sci2segment_contacts st' ⊆ sci2segment_contacts st ∖ {[sci]})
  ∧ (∀ shift st st' fuel,
       pass sqrt SQRT_PI ord p shift st = Ok (false, st') →
       merge_loop sqrt SQRT_PI ord p shift (S fuel) st = Ok st').
Proof.
  split; [|split; [|split; [|split]]].
  - intros m. apply auto_segment_terminates.
  - intros shift st. apply merge_loop_spec. lia.
  - intros shift st. apply pass_spec.
  - intros shift st sci ctl st' H.
    apply scan_iter_accepted in H as (H1 & H2 & _). by split.
  - intros shift st st' fuel H. cbn [merge_loop]. rewrite H. reflexivity.
Qed.

Lemma C10_auto_segment_terminates_witness :
  1 ∈ sci2segment_contacts two_segments_state
  ∧ sci2segment_contacts merged_state
    ⊆ sci2segment_contacts two_segments_state ∖ {[1]}.
Proof.
  apply (proj1 (proj2 (proj2 (proj2
           (C10_auto_segment_terminates approx_sqrt approx_SQRT_PI (2 # 3)
              ascending (test_params 10 100 100)))))
           1 two_segments_state 1 Continue merged_state).
  vm_compute. reflexivity.
Defined.

(** ** Area guard *)

Lemma auto_segment_log_guarded sqrt SQRT_PI hpi ord m p r :
  auto_segment sqrt SQRT_PI hpi ord m p = Ok r → log_guarded p (r_merge_log r).
Proof.
  unfold auto_segment. intros H.
  apply bind_Ok_inv in H as ([b n] & _ & H).
  destruct (n =? 0).
  { injection H as <-. apply Forall_nil_2. }
  apply bind_Ok_inv in H as (shift & _ & H).
  apply bind_Ok_inv in H as (st & Hloop & H). injection H as <-. cbn.
  eapply merge_loop_spec; [|exact Hloop|apply Forall_nil_2]. lia.
Qed.

(** C3: every accepted merge satisfies the area guard in the state in
    which it is accepted (dst is the contact's first endpoint, src its
    second), so every merge of a run does; a contact within the cost
    threshold that fails the guard is skipped with the state, and so the
    priority list, left as it was. *)
Theorem C3_area_guard sqrt SQRT_PI hpi ord p :
  (∀ shift st sci ctl st',
     scan_iter sqrt SQRT_PI ord p shift st sci = Ok (ctl, true, st') →
     area_guard p (seg_area (segs st (sc_segment0 (contacts st sci))))
       (seg_area (segs st (sc_segment1 (contacts st sci)))))
  ∧ (∀ shift st sci,
       Qgtb (sc_cost_normalized (contacts st sci)) (cost_threshold p) = false →
       ¬ area_guard p (seg_area (segs st (sc_segment0 (contacts st sci))))
           (seg_area (segs st (sc_segment1 (contacts st sci)))) →
       scan_iter sqrt SQRT_PI ord p shift st sci = Ok (Continue, false, st))
  ∧ (∀ m r,
       auto_segment sqrt SQRT_PI hpi ord m p = Ok r →
       log_guarded p (r_merge_log r)).
Proof.
  split; [|split].
  - intros shift st sci ctl st' H.
    apply scan_iter_inv in H as [(? & _)|(_ & _ & Hrej & _)]; [discriminate|].
    by apply area_rejects_false.
  - intros shift st sci Hthr Hguard. unfold scan_iter. rewrite Hthr.
    destruct (area_rejects p st sci) eqn:E; [reflexivity|].
    exfalso. apply Hguard. by apply area_rejects_false.
  - intros m r. apply auto_segment_log_guarded.
Qed.

Lemma C3_area_guard_witness :
  scan_iter approx_sqrt approx_SQRT_PI ascending (test_params 10 0 (1 # 2)) 1
    two_segments_state 1 = Ok (Continue, false, two_segments_state).
Proof.
  apply (proj1 (proj2 (C3_area_guard approx_sqrt approx_SQRT_PI (2 # 3)
                         ascending (test_params 10 0 (1 # 2))))).
  - reflexivity.
  - intros [H|H]; vm_compute in H; by apply H.
Defined.

(** ** Where the scan goes on after a merge *)

Lemma scan_merging_mono sqrt SQRT_PI ord p shift (fuel : nat) :
  ∀ k st merging' st',
  scan sqrt SQRT_PI ord p shift fuel k true st = Ok (merging', st') →
  merging' = true.
Proof.
  induction fuel as [|fuel IH]; intros k st mg' st' H; [done|].
  cbn [scan] in H.
  destruct (cost_sorted_segment_contacts st !! k) as [sci|];
    [|by injection H as <- <-].
  apply bind_Ok_inv in H as ([[ctl acc] st1] & _ & H).
  destruct ctl; [by injection H as <- <-|]. by eapply IH.
Qed.




(** ** Parallel contacts *)

Ltac state_simpl :=
  unfold set_segs, set_contacts, set_sci2segment_contacts, set_cost_sorted,
    set_loop_i, isolate, accept in *;
  cbn [segs contacts sci2segment_contacts cost_sorted_segment_contacts
       result_segments merge_log loop_i last_merged_cost result_loop_count] in *.

#[local] Instance keeps_refl : Reflexive keeps.
Proof. intros st. repeat split; auto. Qed.

#[local] Instance keeps_trans : Transitive keeps.
Proof.
  intros a b c (H1 & H2 & H3) (H4 & H5 & H6). repeat split.
  - set_solver.
  - rewrite (proj1 (H5 c0)). apply H2.
  - rewrite (proj2 (H5 c0)). apply H2.
  - intros x i Hi Hx. apply H6; [done|]. apply H3; [set_solver|done].
Qed.

#[local] Instance repoints_refl dst : Reflexive (repoints dst).
Proof. intros st. repeat split; auto. Qed.

#[local] Instance repoints_trans dst : Transitive (repoints dst).
Proof.
  intros a b c (H1 & H2 & H3) (H4 & H5 & H6). repeat split.
  - set_solver.
  - intros x i Hi Hx. apply H5; [done|]. apply H2; [set_solver|done].
  - destruct (H6 c0 H) as [[E|E] _]; [|by right].
    rewrite E. destruct (H3 c0) as [[E'|[E' Hin]] _]; [set_solver|by left|].
    right. split; [done|]. by apply H5.
  - destruct (H6 c0 H) as [_ [E|E]]; [|by right].
    rewrite E. destruct (H3 c0) as [_ [E'|[E' Hin]]]; [set_solver|by left|].
    right. split; [done|]. by apply H5.
Qed.

Lemma keeps_repoints dst st st' : keeps st st' → repoints dst st st'.
Proof.
  intros (H1 & H2 & H3). repeat split; auto; left; apply H2.
Qed.

Lemma repoints_registered dst st st' :
  repoints dst st st' → contacts_registered st → contacts_registered st'.
Proof.
  intros (H1 & H2 & H3) Hreg i Hi.
  destruct (Hreg i) as [R0 R1]; [set_solver|].
  destruct (H3 i Hi) as [[E0|[E0 D0]] [E1|[E1 D1]]]; split;
    rewrite ?E0, ?E1; auto.
Qed.

Lemma keeps_no_parallel st st' :
  keeps st st' → no_parallel_contacts st → no_parallel_contacts st'.
Proof.
  intros (H1 & H2 & _) Hnp i j Hi Hj Hsame.
  apply Hnp; [set_solver|set_solver|].
  unfold same_pair in *.
  by rewrite <- !(proj1 (H2 _)), <- !(proj2 (H2 _)).
Qed.

(** Contacts away from [dst] were not re-pointed, so they are no more
    parallel than they were. *)
Lemma repoints_no_parallel_away dst st st' i j :
  repoints dst st st' → no_parallel_contacts st →
  i ∈ sci2segment_contacts st' → j ∈ sci2segment_contacts st' →
  same_pair (contacts st' i) (contacts st' j) →
  ¬ touches dst (contacts st' i) → i = j.
Proof.
  intros (H1 & _ & H3) Hnp Hi Hj Hsame Haway.
  apply Hnp; [set_solver|set_solver|].
  unfold same_pair, touches in *.
  destruct (H3 i Hi) as [[Ei0|[Ei0 _]] [Ei1|[Ei1 _]]]; try tauto.
  destruct (H3 j Hj) as [[Ej0|[Ej0 _]] [Ej1|[Ej1 _]]];
    rewrite <- ?Ei0, <- ?Ei1, <- ?Ej0, <- ?Ej1; try tauto;
    destruct Hsame as [[? ?]|[? ?]]; exfalso; apply Haway; intuition congruence.
Qed.

Lemma same_pair_spi (shift : Z) (c c' : SegmentContact) :
  same_pair c c' →
  _to_segment_pair_id (sc_segment0 c) (sc_segment1 c) shift
  = _to_segment_pair_id (sc_segment0 c') (sc_segment1 c') shift.
Proof.
  intros [[-> ->]|[-> ->]]; [done|].
  unfold _to_segment_pair_id.
  destruct (Z.gtb_spec (sc_segment1 c') (sc_segment0 c'));
    destruct (Z.gtb_spec (sc_segment0 c') (sc_segment1 c')); try lia; try done.
  by replace (sc_segment1 c') with (sc_segment0 c') by lia.
Qed.

Lemma ids_discard (sg : Z → Segment) (s c x : Z) :
  seg_segment_contact_ids (discard_contact_id sg s c x)
  = if bool_decide (x = s) then seg_segment_contact_ids (sg x) ∖ {[c]}
    else seg_segment_contact_ids (sg x).
Proof.
  unfold discard_contact_id, upd.
  destruct (bool_decide (x = s)) eqn:E; [|done].
  apply bool_decide_eq_true in E. by subst.
Qed.

Lemma _remove_segment_contact_keeps (st st' : EngineState) (c : Z) :
  _remove_segment_contact st c = Ok st' →
  keeps st st' ∧ sci2segment_contacts st' = sci2segment_contacts st ∖ {[c]}.
Proof.
  intros H.
  apply _remove_segment_contact_spec in H as (_ & Hl & Hc & Hs & _).
  split; [|done]. repeat split.
  - set_solver.
  - by rewrite Hc.
  - by rewrite Hc.
  - intros x i Hi Hx. rewrite Hs, !ids_discard.
    repeat destruct (bool_decide _); set_solver.
Qed.

Lemma accept_keeps (st : EngineState) (sci : Z) : keeps st (accept st sci).
Proof.
  repeat split; try done.
  intros x i _ Hx. cbn. unfold upd.
  destruct (bool_decide _) eqn:E; [|done].
  apply bool_decide_eq_true in E. by subst.
Qed.

Lemma isolate_keeps (st : EngineState) (dst : Z) : keeps st (isolate st dst).
Proof. by repeat split. Qed.

Lemma segment_replace_spec (c c' : SegmentContact) (src dst : Z) (r : bool) :
  segment_replace c src dst = (c', r) →
  (r = false ∧ c' = c)
  ∨ (r = true
     ∧ touches dst c'
     ∧ (sc_segment0 c' = sc_segment0 c ∨ sc_segment0 c' = dst)
     ∧ (sc_segment1 c' = sc_segment1 c ∨ sc_segment1 c' = dst)).
Proof.
  unfold segment_replace, touches.
  repeat destruct (bool_decide _); intros [= <- <-]; cbn; auto 10.
Qed.

Lemma repoint_repoints (src dst : Z) (st st' : EngineState) (c : Z) :
  repoint src dst st c = Ok st' → repoints dst st st'.
Proof.
  unfold repoint.
  destruct (bool_decide (c ∈ sci2segment_contacts st)) eqn:Ec; [|discriminate].
  destruct (segment_replace (contacts st c) src dst) as [sc r] eqn:Er.
  apply segment_replace_spec in Er as [[-> ->]|(-> & Ht & E0 & E1)].
  { intros [= <-]. repeat split; auto; cbn; left; unfold upd;
      (destruct (bool_decide (c0 = c)) eqn:E;
       [apply bool_decide_eq_true in E; by subst|done]). }
  destruct (bool_decide (sc_segment0 sc = sc_segment1 sc)).
  - intros H. apply bind_Ok_inv in H as (st1 & H1 & H2).
    destruct (bool_decide (src = dst)); [discriminate|]. injection H2 as <-.
    apply _remove_segment_contact_keeps in H1 as [(K1 & K2 & K3) Hl].
    cbn in K1, K2, K3, Hl. repeat split.
    + exact K1.
    + exact K3.
    + left. rewrite (proj1 (K2 c0)). unfold upd.
      rewrite bool_decide_eq_false_2; [done|]. set_solver.
    + left. rewrite (proj2 (K2 c0)). unfold upd.
      rewrite bool_decide_eq_false_2; [done|]. set_solver.
  - intros [= <-]. repeat split; state_simpl; try done.
    + intros x i _ Hx. unfold upd.
      destruct (bool_decide (x = dst)) eqn:E; [|exact Hx].
      apply bool_decide_eq_true in E. subst. cbn. set_solver.
    + unfold upd at 1 2. destruct (bool_decide (c0 = c)) eqn:E; [|by left].
      apply bool_decide_eq_true in E. subst c0.
      destruct E0 as [E0|E0]; [by left|right]. split; [done|].
      unfold upd. rewrite bool_decide_eq_true_2 by done. cbn. set_solver.
    + unfold upd at 1 2. destruct (bool_decide (c0 = c)) eqn:E; [|by left].
      apply bool_decide_eq_true in E. subst c0.
      destruct E1 as [E1|E1]; [by left|right]. split; [done|].
      unfold upd. rewrite bool_decide_eq_true_2 by done. cbn. set_solver.
Qed.

Lemma absorb_keeps (merged_sc : Z) (st st' : EngineState) (c : Z) :
  absorb merged_sc st c = Ok st' →
  keeps st st' ∧ sci2segment_contacts st' = sci2segment_contacts st ∖ {[c]}.
Proof.
  unfold absorb. intros H.
  apply _remove_segment_contact_keeps in H as [(K1 & K2 & K3) Hl].
  cbn in K1, K2, K3, Hl. split; [|done]. repeat split; auto.
  - rewrite (proj1 (K2 c0)). unfold upd. by destruct (bool_decide _) eqn:E;
      [apply bool_decide_eq_true in E; subst|].
  - rewrite (proj2 (K2 c0)). unfold upd. by destruct (bool_decide _) eqn:E;
      [apply bool_decide_eq_true in E; subst|].
Qed.

Lemma group_add_keys (gs : list (Z * gset Z)) (k c k' : Z) :
  k' ∈ map fst (group_add gs k c) → k' = k ∨ k' ∈ map fst gs.
Proof.
  induction gs as [|[k0 g] gs IH]; cbn.
  - intros H. apply list_elem_of_singleton in H. by left.
  - destruct (bool_decide (k0 = k)); cbn; intros H;
      apply elem_of_cons in H as [->|H]; try (right; by left).
    + right. by right.
    + destruct (IH H) as [->|?]; [by left|right; by right].
Qed.

Lemma group_add_spec shift st (gs : list (Z * gset Z)) (c : Z) :
  groups_ok shift st gs →
  groups_ok shift st (group_add gs (spi_of shift st c) c)
  ∧ covered shift st (group_add gs (spi_of shift st c) c) c
  ∧ (∀ c', covered shift st gs c' →
           covered shift st (group_add gs (spi_of shift st c) c) c').
Proof.
  induction gs as [|[k0 g] gs IH]; intros [Hnd Hmem]; cbn.
  - split; [split|split].
    + cbn. apply NoDup_singleton.
    + intros k g' c' Hin Hc'. apply list_elem_of_singleton in Hin.
      injection Hin as -> ->. apply elem_of_singleton in Hc'. by subst.
    + exists {[c]}. split; [apply list_elem_of_here|set_solver].
    + intros c' (g' & Hin & _). by apply elem_of_nil in Hin.
  - cbn in Hnd. apply NoDup_cons in Hnd as [Hk0 Hnd].
    destruct (bool_decide (k0 = spi_of shift st c)) eqn:E.
    + apply bool_decide_eq_true in E. subst k0. split; [split|split].
      * cbn. by apply NoDup_cons.
      * intros k g' c' Hin Hc'. apply elem_of_cons in Hin as [Hin|Hin].
        -- injection Hin as -> ->. apply elem_of_union in Hc' as [Hc'|Hc'].
           ++ eapply Hmem; [apply list_elem_of_here|done].
           ++ apply elem_of_singleton in Hc'. by subst.
        -- eapply Hmem; [by apply list_elem_of_further|done].
      * exists (g ∪ {[c]}). split; [apply list_elem_of_here|set_solver].
      * intros c' (g' & Hin & Hc'). apply elem_of_cons in Hin as [Hin|Hin].
        -- injection Hin as Hk ->. exists (g ∪ {[c]}). rewrite Hk.
           split; [apply list_elem_of_here|set_solver].
        -- exists g'. split; [by apply list_elem_of_further|done].
    + apply bool_decide_eq_false in E.
      destruct IH as ([Hnd' Hmem'] & Hcov & Hpres).
      { split; [done|]. intros k g' c' Hin. apply Hmem.
        by apply list_elem_of_further. }
      split; [split|split].
      * cbn. apply NoDup_cons. split; [|done].
        intros Hin. apply group_add_keys in Hin as [->|Hin]; [done|].
        by apply Hk0.
      * intros k g' c' Hin Hc'. apply elem_of_cons in Hin as [Hin|Hin].
        -- injection Hin as -> ->. eapply Hmem; [apply list_elem_of_here|done].
        -- by eapply Hmem'.
      * destruct Hcov as (g' & Hin & Hc'). exists g'.
        split; [by apply list_elem_of_further|done].
      * intros c' (g' & Hin & Hc'). apply elem_of_cons in Hin as [Hin|Hin].
        -- injection Hin as Hk ->. exists g. rewrite Hk.
           split; [apply list_elem_of_here|done].
        -- destruct (Hpres c') as (g'' & Hin' & Hc''); [by exists g'|].
           exists g''. split; [by apply list_elem_of_further|done].
Qed.

Lemma collect_all shift st (l : list Z) :
  ∀ gs gs',
  for_each (collect shift st) l gs = Ok gs' →
  groups_ok shift st gs →
  groups_ok shift st gs'
  ∧ (∀ c, c ∈ l → covered shift st gs' c)
  ∧ (∀ c, covered shift st gs c → covered shift st gs' c).
Proof.
  induction l as [|c l IH]; intros gs gs' H Hok; cbn in H.
  - injection H as <-. repeat split; try apply Hok; auto.
    intros c Hc. by apply elem_of_nil in Hc.
  - apply bind_Ok_inv in H as (gs1 & H1 & H).
    unfold collect in H1. destruct (bool_decide _); [|discriminate].
    injection H1 as <-. fold (spi_of shift st c) in H.
    destruct (group_add_spec shift st gs c Hok) as (Hok1 & Hcov1 & Hpres1).
    destruct (IH _ _ H Hok1) as (Hok' & Hcov' & Hpres').
    repeat split; try apply Hok'.
    + intros c' Hc'. apply elem_of_cons in Hc' as [->|Hc']; auto.
    + auto.
Qed.

Lemma keeps_intro (st st' : EngineState) :
  sci2segment_contacts st' = sci2segment_contacts st →
  segs st' = segs st →
  (∀ c, sc_segment0 (contacts st' c) = sc_segment0 (contacts st c)
        ∧ sc_segment1 (contacts st' c) = sc_segment1 (contacts st c)) →
  keeps st st'.
Proof.
  intros Hl Hs Hc. repeat split; try apply Hc.
  - by rewrite Hl.
  - intros x i _. by rewrite Hs.
Qed.

Lemma absorb_all (merged_sc : Z) (rest : list Z) :
  ∀ st st',
  for_each (absorb merged_sc) rest st = Ok st' →
  keeps st st' ∧ ∀ r, r ∈ rest → r ∉ sci2segment_contacts st'.
Proof.
  induction rest as [|c rest IH]; intros st st' H; cbn in H.
  - injection H as <-. split; [reflexivity|]. intros r Hr.
    by apply elem_of_nil in Hr.
  - apply bind_Ok_inv in H as (st1 & H1 & H).
    apply absorb_keeps in H1 as [K1 Hl].
    destruct (IH _ _ H) as [K2 Hrest].
    split; [by transitivity st1|].
    intros r Hr. apply elem_of_cons in Hr as [->|Hr]; [|by apply Hrest].
    destruct K2 as (Hsub & _). set_solver.
Qed.

(** After a group has been folded at most one of its contacts is live. *)
Lemma fold_parallel_spec sqrt SQRT_PI ord p (st st' : EngineState) (g : gset Z) :
  (∀ l, ord l ≡ₚ l) →
  fold_parallel sqrt SQRT_PI ord p st g = Ok st' →
  keeps st st'
  ∧ ∀ c c', c ∈ g → c' ∈ g →
      c ∈ sci2segment_contacts st' → c' ∈ sci2segment_contacts st' → c = c'.
Proof.
  intros Hord. unfold fold_parallel.
  destruct (size g <=? 1)%nat eqn:Esz.
  { intros [= <-]. split; [reflexivity|]. intros c c' Hc Hc' _ _.
    apply Nat.leb_le in Esz.
    destruct (size g) as [|[|n]] eqn:En;
      [|exact (size_singleton_inv g c c' En Hc Hc')|lia].
    apply size_empty_iff in En. set_solver. }
  destruct (iter_set ord g) as [|merged_sc rest] eqn:Eit.
  { intros [= <-]. split; [reflexivity|]. intros c c' Hc _ _ _.
    exfalso. apply elem_of_elements in Hc. unfold iter_set in Eit.
    rewrite <- (Hord (elements g)), Eit in Hc. by apply elem_of_nil in Hc. }
  intros H. apply bind_Ok_inv in H as (st1 & H1 & H).
  apply absorb_all in H1 as [K1 Hrest].
  apply bind_Ok_inv in H as (cn & _ & H).
  destruct (loop_i _) as [i|]; [|discriminate].
  destruct (cost_sorted_segment_contacts st1 !! i) as [x|]; [|discriminate].
  injection H as <-.
  match goal with |- keeps st ?S ∧ _ => assert (K2 : keeps st1 S) end.
  { apply keeps_intro.
    - destruct (find_from _ _ _); [|destruct (_ <? _)%nat]; reflexivity.
    - destruct (find_from _ _ _); [|destruct (_ <? _)%nat]; reflexivity.
    - intros c. state_simpl. unfold upd.
      destruct (bool_decide (c = merged_sc)) eqn:E;
        [apply bool_decide_eq_true in E; subst c|];
        (destruct (find_from _ _ _); [|destruct (_ <? _)%nat]); done. }
  split; [by transitivity st1|].
  intros c c' Hc Hc' Hl Hl'.
  destruct K2 as (Hsub & _).
  assert (Hhead : ∀ y, y ∈ g → y ∈ sci2segment_contacts st1 → y = merged_sc).
  { intros y Hy Hly. apply elem_of_elements in Hy. unfold iter_set in Eit.
    rewrite <- (Hord (elements g)), Eit in Hy.
    apply elem_of_cons in Hy as [->|Hy]; [done|]. by apply Hrest in Hy. }
  transitivity merged_sc; [|symmetry]; apply Hhead; set_solver.
Qed.

Lemma fold_groups_spec sqrt SQRT_PI ord p (gs : list (gset Z)) :
  (∀ l, ord l ≡ₚ l) →
  ∀ st st',
  for_each (fold_parallel sqrt SQRT_PI ord p) gs st = Ok st' →
  keeps st st'
  ∧ ∀ g c c', g ∈ gs → c ∈ g → c' ∈ g →
      c ∈ sci2segment_contacts st' → c' ∈ sci2segment_contacts st' → c = c'.
Proof.
  intros Hord. induction gs as [|g gs IH]; intros st st' H; cbn in H.
  - injection H as <-. split; [reflexivity|]. intros g c c' Hg.
    by apply elem_of_nil in Hg.
  - apply bind_Ok_inv in H as (st1 & H1 & H).
    apply fold_parallel_spec in H1 as [K1 Hone]; [|done].
    destruct (IH _ _ H) as [K2 Hrest].
    split; [by transitivity st1|].
    intros g' c c' Hg Hc Hc' Hl Hl'.
    apply elem_of_cons in Hg as [->|Hg]; [|by eapply Hrest].
    destruct K2 as (Hsub & _). apply Hone; set_solver.
Qed.

(** After [repair], no two live contacts registered on [dst] have the
    same pair id. *)
Lemma repair_spec sqrt SQRT_PI ord p shift (st st' : EngineState) (dst : Z) :
  (∀ l, ord l ≡ₚ l) →
  repair sqrt SQRT_PI ord p shift st dst = Ok st' →
  keeps st st'
  ∧ ∀ c c',
      c ∈ seg_segment_contact_ids (segs st dst) →
      c' ∈ seg_segment_contact_ids (segs st dst) →
      c ∈ sci2segment_contacts st' → c' ∈ sci2segment_contacts st' →
      spi_of shift st c = spi_of shift st c' → c = c'.
Proof.
  intros Hord. unfold repair. intros H.
  apply bind_Ok_inv in H as (st1 & H1 & H).
  assert (K1 : keeps st st1
               ∧ seg_segment_contact_ids (segs st1 dst)
                 = seg_segment_contact_ids (segs st dst)
               ∧ ∀ c, spi_of shift st1 c = spi_of shift st c).
  { destruct (is_not_perimeter_cost_factor_0 p).
    - apply bind_Ok_inv in H1 as (total & _ & H1). injection H1 as <-.
      split; [|split; [|done]].
      + repeat split; try done. intros x i _ Hx. state_simpl. unfold upd.
        destruct (bool_decide (x = dst)) eqn:E; [|exact Hx].
        apply bool_decide_eq_true in E. by subst.
      + state_simpl. unfold upd. by rewrite bool_decide_eq_true_2.
    - injection H1 as <-. by repeat split. }
  destruct K1 as (K1 & Hids & Hspi).
  apply bind_Ok_inv in H as (groups & Hcol & H).
  apply collect_all in Hcol as ([Hnd Hmem] & Hcov & _);
    [|split; [apply NoDup_nil_2|intros ? ? ? Hin; by apply elem_of_nil in Hin]].
  apply fold_groups_spec in H as [K2 Hone]; [|done].
  split; [by transitivity st1|].
  intros c c' Hc Hc' Hl Hl' Hsame.
  assert (Hin : ∀ y, y ∈ seg_segment_contact_ids (segs st dst) →
                     covered shift st1 groups y).
  { intros y Hy. apply Hcov. unfold iter_set. rewrite (Hord _).
    apply elem_of_elements. by rewrite Hids. }
  destruct (Hin c Hc) as (g & Hg & Hcg).
  destruct (Hin c' Hc') as (g' & Hg' & Hcg').
  rewrite !Hspi in Hg, Hg'. rewrite <- Hsame in Hg'.
  assert (g' = g) as ->.
  { clear -Hnd Hg Hg'. induction groups as [|[k0 g0] groups IH]; cbn in *.
    - by apply elem_of_nil in Hg.
    - apply NoDup_cons in Hnd as [Hk Hnd].
      apply elem_of_cons in Hg as [Hg|Hg]; apply elem_of_cons in Hg' as [Hg'|Hg'].
      + congruence.
      + injection Hg as <- <-. exfalso. apply Hk.
        apply list_elem_of_fmap. by exists (spi_of shift st c, g').
      + injection Hg' as <- <-. exfalso. apply Hk.
        apply list_elem_of_fmap. by exists (spi_of shift st c, g).
      + by apply IH. }
  apply (Hone g c c'); try done.
  apply list_elem_of_fmap. by exists (spi_of shift st c, g).
Qed.

(** An iteration of the scan keeps the graph free of parallel contacts:
    if every live contact is registered on both its endpoints and no two
    live contacts connect the same unordered pair of segments before it,
    the same holds after it, whatever order the sets are iterated in. *)
Lemma scan_iter_no_parallel sqrt SQRT_PI ord p shift
    (st st' : EngineState) (sci : Z) (ctl : control) (accepted : bool) :
  (∀ l, ord l ≡ₚ l) →
  contacts_registered st →
  no_parallel_contacts st →
  scan_iter sqrt SQRT_PI ord p shift st sci = Ok (ctl, accepted, st') →
  contacts_registered st' ∧ no_parallel_contacts st'.
Proof.
  intros Hord Hreg Hnp H.
  apply scan_iter_inv in H
    as [(_ & -> & _)|(_ & _ & _ & st1 & st2 & H1 & H2 & H)]; [done|].
  set (dst := sc_segment0 (contacts st sci)) in *.
  set (src := sc_segment1 (contacts st sci)) in *.
  apply _remove_segment_contact_keeps in H1 as [K1 _].
  assert (K01 : keeps st st1) by (transitivity (accept st sci); [apply accept_keeps|done]).
  assert (Hreg1 := repoints_registered dst _ _ (keeps_repoints dst _ _ K01) Hreg).
  assert (Hnp1 := keeps_no_parallel _ _ K01 Hnp).
  apply (for_each_preserves (repoints dst)) in H2;
    [|intros ? ? ? _; apply repoint_repoints].
  assert (Hreg2 := repoints_registered dst _ _ H2 Hreg1).
  assert (K23 : keeps st2 st'
    ∧ ∀ c c',
        c ∈ seg_segment_contact_ids (segs st2 dst) →
        c' ∈ seg_segment_contact_ids (segs st2 dst) →
        c ∈ sci2segment_contacts st' → c' ∈ sci2segment_contacts st' →
        spi_of shift st2 c = spi_of shift st2 c' → c = c').
  { destruct H as [(_ & Hsz & ->)|(_ & _ & H)].
    - split; [apply isolate_keeps|]. intros c c' Hc.
      apply size_empty_iff in Hsz. set_solver.
    - by apply repair_spec in H. }
  destruct K23 as [K23 Hdst].
  split; [exact (repoints_registered dst _ _ (keeps_repoints dst _ _ K23) Hreg2)|].
  intros i j Hi Hj Hsame.
  destruct K23 as (Hsub & Hends & _).
  assert (Hsame2 : same_pair (contacts st2 i) (contacts st2 j)).
  { unfold same_pair in *.
    by rewrite <- !(proj1 (Hends _)), <- !(proj2 (Hends _)). }
  destruct (decide (touches dst (contacts st2 i))) as [Ht|Ht].
  - assert (Ht' : touches dst (contacts st2 j)).
    { unfold touches, same_pair in *. intuition congruence. }
    apply Hdst; try done.
    + destruct (Hreg2 i) as [R0 R1]; [set_solver|].
      destruct Ht as [<-|<-]; done.
    + destruct (Hreg2 j) as [R0 R1]; [set_solver|].
      destruct Ht' as [<-|<-]; done.
    + by apply same_pair_spi.
  - eapply (repoints_no_parallel_away dst st1 st2); try done; set_solver.
Qed.

(** C4 (as stated) fails right after the build: the two faces of
    [double_face] share three edges, so contacts 1 and 2 (and 3) are live
    and connect the same pair of segments. *)
Lemma C4_parallel_contacts_after_build :
  is_ok (built double_face (test_params 10 100 100)) = true
  ∧ ¬ no_parallel_contacts double_face_state.
Proof.
  split; [vm_compute; reflexivity|].
  intros H. specialize (H 1 2).
  assert (E : 1 = 2); [|discriminate E].
  apply H.
  - apply (bool_decide_unpack _). vm_compute. exact I.
  - apply (bool_decide_unpack _). vm_compute. exact I.
  - left. split; vm_compute; reflexivity.
Qed.

Lemma fan_state_live : sci2segment_contacts fan_state = {[1; 2; 3]}.
Proof. vm_compute. reflexivity. Qed.

(** ** Iteration order *)

(** The order in which a set yields its elements is a parameter of the
    model, and the result depends on it: on [fan] the set of the two
    parallel contacts left by the first merge yields its survivor first;
    iterated in ascending order the run ends with one segment and two
    merges, in descending order with two segments and one merge.  And the
    colour of a triangle follows the position of its segment in the
    enumeration of the result set. *)
Lemma iteration_order_changes_outcome :
  (∀ l, ascending l ≡ₚ l) ∧ (∀ l, descending l ≡ₚ l)
  ∧ observe (run ascending fan (test_params 10 2 1))
    = Ok ([(1, [0; 3; 6])], [], [(1, 0%Q); (2, 2%Q)])
  ∧ observe (run descending fan (test_params 10 2 1))
    = Ok ([(1, [0; 6]); (3, [3])], [3], [(1, 0%Q)])
  ∧ colour_at (colours [1; 2]) 0 ≠ colour_at (colours [2; 1]) 0.
Proof.
  split; [|split; [|split; [|split]]].
  - intros l. apply merge_sort_Permutation.
  - intros l. apply merge_sort_Permutation.
  - vm_compute. reflexivity.
  - vm_compute. reflexivity.
  - vm_compute. discriminate.
Qed.

Lemma for_each_ext {S A : Type} (f g : S → A → result S) (l : list A) :
  (∀ s a, f s a = g s a) → ∀ s, for_each f l s = for_each g l s.
Proof.
  intros H. induction l as [|a l IH]; intros s; cbn; [done|].
  rewrite H. destruct (g s a); cbn; [apply IH|done].
Qed.

Lemma paint_triangle_lookup (m : BMesh) (col : RGBA) (layer : gmap Z RGBA) (t k : Z) :
  paint_triangle m col layer t !! k
  = if decide (k = t ∨ k = link_loop_prev m t ∨ k = link_loop_next m t)
    then Some col else layer !! k.
Proof.
  unfold paint_triangle.
  destruct (decide _) as [H|H].
  - destruct (decide (k = link_loop_next m t)) as [->|Hn];
      [by rewrite lookup_insert_eq|rewrite lookup_insert_ne by done].
    destruct (decide (k = link_loop_prev m t)) as [->|Hp];
      [by rewrite lookup_insert_eq|rewrite lookup_insert_ne by done].
    destruct H as [->|[?|?]]; [by rewrite lookup_insert_eq|done|done].
  - rewrite !lookup_insert_ne by (intros E; apply H; subst; auto). done.
Qed.

Lemma paint_triangle_comm (m : BMesh) (col : RGBA) (layer : gmap Z RGBA) (a b : Z) :
  paint_triangle m col (paint_triangle m col layer a) b
  = paint_triangle m col (paint_triangle m col layer b) a.
Proof.
  apply map_eq. intros k. rewrite !paint_triangle_lookup.
  by repeat destruct (decide _).
Qed.

Lemma paint_permutation (m : BMesh) (col : RGBA) (l l' : list Z) :
  l ≡ₚ l' →
  ∀ layer, fold_left (paint_triangle m col) l layer
           = fold_left (paint_triangle m col) l' layer.
Proof.
  induction 1 as [|x l l' _ IH|x y l|l l' l'' _ IH1 _ IH2]; intros layer; cbn.
  - reflexivity.
  - apply IH.
  - by rewrite paint_triangle_comm.
  - by rewrite IH1.
Qed.

(** The colours do not depend on the order in which a segment's triangle
    set is iterated. *)
Lemma assign_vertex_colors_order shuffle m ord1 ord2 segs segments layer seed :
  (∀ l, ord1 l ≡ₚ l) → (∀ l, ord2 l ≡ₚ l) →
  assign_vertex_colors shuffle m ord1 segs segments layer seed
  = assign_vertex_colors shuffle m ord2 segs segments layer seed.
Proof.
  intros H1 H2. unfold assign_vertex_colors.
  set (palette := if bool_decide (seed ≠ 0) then _ else _).
  rewrite (for_each_ext (paint_segment m ord1 segs palette)
             (paint_segment m ord2 segs palette)); [done|].
  intros [index color_layer] segment. unfold paint_segment.
  destruct (_ !! _) as [col|]; [|done].
  do 2 f_equal. apply paint_permutation. by rewrite H1, H2.
Qed.

(** ** Area lockout *)

(** When every contact within the cost threshold is rejected by the area
    guard, a pass changes nothing and reports no merge. *)
Lemma rejecting_scan sqrt SQRT_PI ord p shift (st : EngineState) (fuel : nat) :
  (∀ c, c ∈ cost_sorted_segment_contacts st → area_rejects p st c = true) →
  ∀ k merging,
  (length (cost_sorted_segment_contacts st) - k < fuel)%nat →
  scan sqrt SQRT_PI ord p shift fuel k merging st = Ok (merging, st).
Proof.
  intros Hrej. induction fuel as [|fuel IH]; intros k merging Hfuel; [lia|].
  cbn [scan].
  destruct (cost_sorted_segment_contacts st !! k) as [sci|] eqn:Ek; [|done].
  assert (Hin : sci ∈ cost_sorted_segment_contacts st)
    by (by eapply list_elem_of_lookup_2).
  apply lookup_lt_Some in Ek.
  unfold scan_iter. destruct (Qgtb _ _).
  - rewrite bind_Ok. by rewrite orb_false_r.
  - rewrite (Hrej sci Hin), bind_Ok, orb_false_r. apply IH. lia.
Qed.

(** With [maximum_area_threshold = 0], positive areas and every area above
    [minimum_area_threshold], the merge loop accepts nothing and returns
    the graph as built. *)
Lemma lockout_accepts_nothing sqrt SQRT_PI ord p shift (st : EngineState) (fuel : nat) :
  (maximum_area_threshold p == 0)%Q →
  (∀ s, (minimum_area_threshold p < seg_area (segs st s))%Q
        ∧ (0 < seg_area (segs st s))%Q) →
  merge_loop sqrt SQRT_PI ord p shift (S fuel) st = Ok st.
Proof.
  intros Hmax Harea. cbn [merge_loop]. unfold pass.
  rewrite rejecting_scan; [done| |lia].
  intros c _. unfold area_rejects. apply andb_true_iff. split.
  - apply Qgtb_true. apply Harea.
  - apply Qgtb_true. rewrite Hmax.
    destruct (Harea (sc_segment0 (contacts st c))) as [_ H0].
    destruct (Harea (sc_segment1 (contacts st c))) as [_ H1].
    lra.
Qed.

(** ** Binary search *)

Lemma bisect_go_fuel (keyat : nat → Q) (x : Q) (fuel : nat) :
  ∀ fuel' lo hi,
  (hi - lo ≤ fuel)%nat → (hi - lo ≤ fuel')%nat →
  bisect_go keyat x fuel lo hi = bisect_go keyat x fuel' lo hi.
Proof.
  induction fuel as [|fuel IH]; intros fuel' lo hi H H'.
  - destruct fuel'; cbn [bisect_go]; [done|].
    destruct (lo <? hi)%nat eqn:E; [|done]. apply Nat.ltb_lt in E. lia.
  - destruct fuel'; cbn [bisect_go].
    + destruct (lo <? hi)%nat eqn:E; [|done]. apply Nat.ltb_lt in E. lia.
    + destruct (lo <? hi)%nat eqn:E; [|done]. apply Nat.ltb_lt in E.
      assert (Hmid : (lo ≤ (lo + hi) / 2 ∧ (lo + hi) / 2 < hi)%nat).
      { split.
        - apply Nat.div_le_lower_bound; lia.
        - apply Nat.Div0.div_lt_upper_bound; lia. }
      destruct (Qltb _ _); apply IH; lia.
Qed.

(** * Further properties *)

(** ** Triangle and pair ids *)

Lemma _to_tri_loop_index_min (m : BMesh) (loop : Z) :
  _to_tri_loop_index m loop
  = Z.min loop (Z.min (link_loop_next m loop) (link_loop_prev m loop)).
Proof.
  unfold _to_tri_loop_index.
  destruct (Z.gtb_spec loop (link_loop_next m loop));
    destruct (Z.gtb_spec (link_loop_next m loop) (link_loop_prev m loop));
    destruct (Z.gtb_spec loop (link_loop_prev m loop)); lia.
Qed.

(** X1: [_to_tri_loop_index] is the minimum of the index of the loop and
    of its two neighbours in the face, as its comment says; in particular
    it is one of the three and none of them is smaller. *)
Theorem X1_tri_loop_index_is_min (m : BMesh) (loop : Z) :
  let tli := _to_tri_loop_index m loop in
  tli = Z.min loop (Z.min (link_loop_next m loop) (link_loop_prev m loop))
  ∧ (tli = loop ∨ tli = link_loop_next m loop ∨ tli = link_loop_prev m loop)
  ∧ tli ≤ loop ∧ tli ≤ link_loop_next m loop ∧ tli ≤ link_loop_prev m loop.
Proof.
  intros tli. subst tli. rewrite _to_tri_loop_index_min. lia.
Qed.

(** X2: on a triangular face the three loops have the same triangle index,
    so the index names the triangle whichever loop it is computed from. *)
Theorem X2_tri_loop_index_of_triangle (m : BMesh) (a b c : Z) :
  link_loop_next m a = b → link_loop_next m b = c → link_loop_next m c = a →
  link_loop_prev m a = c → link_loop_prev m b = a → link_loop_prev m c = b →
  _to_tri_loop_index m a = _to_tri_loop_index m b
  ∧ _to_tri_loop_index m b = _to_tri_loop_index m c.
Proof.
  intros Hab Hbc Hca Hac Hba Hcb.
  rewrite !_to_tri_loop_index_min, Hab, Hbc, Hca, Hac, Hba, Hcb. lia.
Qed.

Lemma X2_tri_loop_index_of_triangle_witness :
  _to_tri_loop_index lone_triangle 0 = _to_tri_loop_index lone_triangle 1
  ∧ _to_tri_loop_index lone_triangle 1 = _to_tri_loop_index lone_triangle 2.
Proof.
  apply (X2_tri_loop_index_of_triangle lone_triangle 0 1 2); reflexivity.
Defined.

Lemma pair_id_value (i0 i1 shift : Z) :
  0 ≤ shift →
  _to_segment_pair_id i0 i1 shift = Z.min i0 i1 + Z.max i0 i1 * 2 ^ shift.
Proof.
  intros Hs. unfold _to_segment_pair_id. rewrite !Z.shiftl_mul_pow2 by done.
  destruct (Z.gtb_spec i0 i1); [rewrite Z.min_r, Z.max_l by lia|
                                rewrite Z.min_l, Z.max_r by lia]; reflexivity.
Qed.




(** X4: two pairs that share an index get different ids unless they are
    the same pair, for any non-negative indices, however large: the
    grouping of the contacts of one segment by pair id never puts
    contacts to different neighbours together. *)
Theorem X4_pair_id_shared_index (d a b shift : Z) :
  0 ≤ shift → 0 ≤ d → 0 ≤ a → 0 ≤ b →
  _to_segment_pair_id d a shift = _to_segment_pair_id d b shift → a = b.
Proof.
  intros Hs Hd Ha Hb. rewrite !pair_id_value by done. intros H.
  assert (HP : 1 ≤ 2 ^ shift) by (pose proof (Z.pow_pos_nonneg 2 shift); lia).
  destruct (Z.le_gt_cases d a), (Z.le_gt_cases d b);
    rewrite ?Z.min_l, ?Z.max_r, ?Z.min_r, ?Z.max_l in H by lia; nia.
Qed.

Lemma X4_pair_id_shared_index_witness :
  _to_segment_pair_id 5 7 2 = _to_segment_pair_id 5 7 2 ∧ (7 : Z) = 7.
Proof.
  split; [reflexivity|].
  apply (X4_pair_id_shared_index 5 7 7 2); [lia|lia|lia|lia|reflexivity].
Defined.

(** X5: [pair_shift n], that is [int(math.log2(n) / 2 + 1)], raises
    [ValueError] exactly when [n] is not positive; for positive [n] it is
    the [s >= 1] with [4 ^ (s - 1) <= n < 4 ^ s], so [2 ^ s] exceeds the
    square root of [n] but in general not [n] itself. *)
Theorem X5_pair_shift_range (n : Z) :
  (n ≤ 0 → pair_shift n = Raise ValueError)
  ∧ (0 < n → ∃ s, pair_shift n = Ok s ∧ 1 ≤ s ∧ 4 ^ (s - 1) ≤ n < 4 ^ s).
Proof.
  unfold pair_shift. split; intros Hn.
  - by rewrite (proj2 (Z.leb_le n 0) Hn).
  - rewrite (proj2 (Z.leb_gt n 0) Hn). eexists. split; [reflexivity|].
    pose proof (Z.log2_spec n Hn) as [Hlo Hhi].
    pose proof (Z.log2_nonneg n) as Hk.
    set (k := Z.log2 n) in *. set (q := k / 2).
    assert (Hq : 2 * q ≤ k ≤ 2 * q + 1)
      by (unfold q; pose proof (Z.div_mod k 2); pose proof (Z.mod_pos_bound k 2); lia).
    assert (Hq0 : 0 ≤ q) by lia.
    split; [lia|].
    replace (q + 1 - 1) with q by lia.
    change 4 with (2 ^ 2). rewrite <- !Z.pow_mul_r by lia.
    split.
    + transitivity (2 ^ k); [apply Z.pow_le_mono_r; lia|done].
    + eapply Z.lt_le_trans; [exact Hhi|]. apply Z.pow_le_mono_r; lia.
Qed.

Lemma X5_pair_shift_range_witness :
  (0 ≤ 0 → pair_shift 0 = Raise ValueError)
  ∧ (0 < 9 → ∃ s, pair_shift 9 = Ok s ∧ 1 ≤ s ∧ 4 ^ (s - 1) ≤ 9 < 4 ^ s).
Proof.
  split.
  - apply (proj1 (X5_pair_shift_range 0)).
  - apply (proj2 (X5_pair_shift_range 9)).
Defined.

(** ** Contacts *)

(** X6: [segment_replace] returns whether the contact touched [src]
    ([segment_contacts]); if it did not, the contact is unchanged; if it
    did, the contact touches [dst] afterwards; in any case it no longer
    touches [src] (when [src] is not [dst]), an endpoint other than [src]
    stays, and cost, normalized cost and length are not altered. *)
Theorem X6_segment_replace (c : SegmentContact) (src dst : Z) :
  let c' := (segment_replace c src dst).1 in
  let replaced := (segment_replace c src dst).2 in
  replaced = segment_contacts c src
  ∧ (replaced = false → c' = c)
  ∧ (replaced = true → segment_contacts c' dst = true)
  ∧ (src ≠ dst → segment_contacts c' src = false)
  ∧ (sc_segment0 c ≠ src → sc_segment0 c' = sc_segment0 c)
  ∧ (sc_segment1 c ≠ src → sc_segment1 c' = sc_segment1 c)
  ∧ sc_cost c' = sc_cost c
  ∧ sc_cost_normalized c' = sc_cost_normalized c
  ∧ sc_length c' = sc_length c.
Proof.
  unfold segment_replace, segment_contacts. cbn [sc_segment1].
  repeat case_bool_decide; cbn; repeat split; intros;
    repeat case_bool_decide; simplify_eq; try done; try congruence.
Qed.

Lemma X6_segment_replace_witness :
  let c' := (segment_replace contact_1_2 2 1).1 in
  let replaced := (segment_replace contact_1_2 2 1).2 in
  replaced = segment_contacts contact_1_2 2
  ∧ (replaced = false → c' = contact_1_2)
  ∧ (replaced = true → segment_contacts c' 1 = true)
  ∧ (2 ≠ 1 → segment_contacts c' 2 = false)
  ∧ (sc_segment0 contact_1_2 ≠ 2 → sc_segment0 c' = sc_segment0 contact_1_2)
  ∧ (sc_segment1 contact_1_2 ≠ 2 → sc_segment1 c' = sc_segment1 contact_1_2)
  ∧ sc_cost c' = sc_cost contact_1_2
  ∧ sc_cost_normalized c' = sc_cost_normalized contact_1_2
  ∧ sc_length c' = sc_length contact_1_2.
Proof. exact (X6_segment_replace contact_1_2 2 1). Defined.

(** ** Colours *)

(** X7: [_to_blender_color] clamps to the byte range and scales into
    [0, 1]: a byte [c] gives [c / 255], anything below 0 gives 0 and
    anything above 255 gives 1; every palette colour has its three
    channels in [0, 1] and alpha 1. *)
Theorem X7_blender_color_range (c : Z) :
  valid_channel (_to_blender_color c)
  ∧ (0 ≤ c ≤ 255 → _to_blender_color c == (c # 1) / 255)%Q
  ∧ (c ≤ 0 → _to_blender_color c == 0)%Q
  ∧ (255 ≤ c → _to_blender_color c == 1)%Q
  ∧ Forall (λ col : RGBA,
              valid_channel col.1.1.1 ∧ valid_channel col.1.1.2
              ∧ valid_channel col.1.2 ∧ col.2 = 1%Q)
      SEGMANTATION_COLORS.
Proof.
  assert (Hvalid : ∀ z, valid_channel (_to_blender_color z)).
  { intros z. unfold _to_blender_color, valid_channel.
    set (x := Z.min (Z.max 0 z) 255). assert (0 ≤ x ≤ 255) by lia.
    split.
    - apply Qle_shift_div_l; [reflexivity|]. unfold Qle. cbn. lia.
    - apply Qle_shift_div_r; [reflexivity|]. unfold Qle. cbn. lia. }
  split; [apply Hvalid|]. split; [|split; [|split]].
  - intros H. unfold _to_blender_color.
    by rewrite Z.max_r, Z.min_l by lia.
  - intros H. unfold _to_blender_color.
    rewrite Z.max_l, Z.min_l by lia. reflexivity.
  - intros H. unfold _to_blender_color.
    rewrite Z.max_r, Z.min_r by lia. reflexivity.
  - unfold SEGMANTATION_COLORS. apply Forall_forall. intros col Hin.
    apply list_elem_of_fmap in Hin as (rgb & -> & _). cbn [fst snd].
    repeat split; apply Hvalid.
Qed.

Lemma X7_blender_color_range_witness :
  (_to_blender_color 120 == (120 # 1) / 255)%Q.
Proof. apply (proj1 (proj2 (X7_blender_color_range 120))). lia. Defined.

(** ** Perimeter cost, continued *)

Lemma fdiv_inv (x y z : Q) : fdiv x y = Ok z → ¬ (y == 0)%Q ∧ z = (x / y)%Q.
Proof.
  unfold fdiv. destruct (Qeq_bool y 0) eqn:E; [discriminate|].
  intros [= <-]. split; [|done]. intros H. apply Qeq_bool_iff in H. congruence.
Qed.

Lemma fdiv_raise (x y : Q) (e : exn) : fdiv x y = Raise e → e = ZeroDivisionError.
Proof. unfold fdiv. destruct (Qeq_bool y 0); by intros [= <-]. Qed.

Lemma Qplus_comm_eq (x y : Q) : (x + y)%Q = (y + x)%Q.
Proof.
  destruct x as [a b], y as [c d]. unfold Qplus. cbn.
  f_equal; [lia|apply Pos.mul_comm].
Qed.

Ltac split_fdiv x y :=
  let E := fresh "E" in
  destruct (fdiv x y) as [?|?] eqn:E;
  [|let H := fresh "H" in pose proof (fdiv_raise _ _ _ E) as H; subst].

Lemma calc_perimeter_cost_swap sqrt SQRT_PI (sg : Z → Segment)
    (c : SegmentContact) :
  calc_perimeter_cost sqrt SQRT_PI sg (swap_contact c)
  = calc_perimeter_cost sqrt SQRT_PI sg c.
Proof.
  unfold calc_perimeter_cost, _area_to_circumference, swap_contact.
  cbn [sc_segment0 sc_segment1 sc_length].
  set (A0 := seg_area (sg (sc_segment0 c))).
  set (P0 := seg_perimeter (sg (sc_segment0 c))).
  set (A1 := seg_area (sg (sc_segment1 c))).
  set (P1 := seg_perimeter (sg (sc_segment1 c))).
  rewrite (Qplus_comm_eq A1 A0), (Qplus_comm_eq P1 P0).
  repeat first
    [ rewrite bind_Ok
    | rewrite bind_Raise
    | match goal with
      | H : fdiv ?x ?y = _ |- context [fdiv ?x ?y] => rewrite H
      end
    | match goal with
      | |- context [fdiv (sqrt A0) SQRT_PI ≫= _] => split_fdiv (sqrt A0) SQRT_PI
      | |- context [fdiv (sqrt A1) SQRT_PI ≫= _] => split_fdiv (sqrt A1) SQRT_PI
      | |- context [fdiv P0 ?y ≫= _] => split_fdiv P0 y
      | |- context [fdiv P1 ?y ≫= _] => split_fdiv P1 y
      | |- context [fdiv A0 ?y ≫= _] => split_fdiv A0 y
      | |- context [fdiv A1 ?y ≫= _] => split_fdiv A1 y
      end ];
    try reflexivity.
  match goal with
  | |- context [fdiv _ (?a + ?b)%Q] => rewrite (Qplus_comm_eq a b)
  end.
  reflexivity.
Qed.

(** X9: the perimeter cost of a contact, value or exception, does not
    depend on which of its two segments is the first endpoint. *)
Theorem X9_perimeter_cost_symmetric sqrt SQRT_PI (sg : Z → Segment)
    (c : SegmentContact) :
  calc_perimeter_cost sqrt SQRT_PI sg (swap_contact c)
  = calc_perimeter_cost sqrt SQRT_PI sg c.
Proof. apply calc_perimeter_cost_swap. Qed.

Lemma calc_perimeter_cost_raises sqrt SQRT_PI sg c e :
  calc_perimeter_cost sqrt SQRT_PI sg c = Raise e → e = ZeroDivisionError.
Proof.
  unfold calc_perimeter_cost, _area_to_circumference.
  repeat match goal with
         | |- context [fdiv ?x ?y ≫= _] =>
             split_fdiv x y; [rewrite bind_Ok|rewrite bind_Raise; by intros [= <-]]
         end.
  discriminate.
Qed.

Lemma calc_perimeter_cost_zero_first sqrt SQRT_PI sg c :
  (∀ x, (x == 0)%Q → (sqrt x == 0)%Q) →
  (seg_area (sg (sc_segment0 c)) == 0)%Q
  ∨ (seg_perimeter (sg (sc_segment0 c)) == 0)%Q →
  calc_perimeter_cost sqrt SQRT_PI sg c = Raise ZeroDivisionError.
Proof.
  intros Hsqrt [HA|HP].
  - apply calc_perimeter_cost_zero_area0. by apply Hsqrt.
  - unfold calc_perimeter_cost, _area_to_circumference.
    destruct (fdiv (sqrt (seg_area (sg (sc_segment0 c)))) SQRT_PI) as [c0|e] eqn:E0;
      [|by rewrite (fdiv_raise _ _ _ E0)].
    rewrite bind_Ok.
    destruct (fdiv (seg_perimeter (sg (sc_segment0 c))) c0) as [r0|e] eqn:E1;
      [|by rewrite (fdiv_raise _ _ _ E1)].
    rewrite bind_Ok. apply fdiv_inv in E1 as [_ ->].
    rewrite (fdiv_zero (seg_area (sg (sc_segment0 c)))
               (seg_perimeter (sg (sc_segment0 c)) / c0)); [reflexivity|].
    rewrite HP. reflexivity.
Qed.

(** X8: the perimeter cost fails with [ZeroDivisionError], and with no
    other exception, whenever one of the two segments has zero area or
    zero perimeter ([math.sqrt] being 0 at 0). *)
Theorem X8_perimeter_cost_zero_raises sqrt SQRT_PI (sg : Z → Segment)
    (c : SegmentContact) :
  (∀ x, (x == 0)%Q → (sqrt x == 0)%Q) →
  (seg_area (sg (sc_segment0 c)) == 0)%Q
  ∨ (seg_perimeter (sg (sc_segment0 c)) == 0)%Q
  ∨ (seg_area (sg (sc_segment1 c)) == 0)%Q
  ∨ (seg_perimeter (sg (sc_segment1 c)) == 0)%Q →
  calc_perimeter_cost sqrt SQRT_PI sg c = Raise ZeroDivisionError
  ∧ ∀ c' e, calc_perimeter_cost sqrt SQRT_PI sg c' = Raise e → e = ZeroDivisionError.
Proof.
  intros Hsqrt H. split; [|intros c' e; apply calc_perimeter_cost_raises].
  destruct H as [H|[H|[H|H]]].
  - apply calc_perimeter_cost_zero_first; auto.
  - apply calc_perimeter_cost_zero_first; auto.
  - rewrite <- calc_perimeter_cost_swap.
    apply calc_perimeter_cost_zero_first; auto.
  - rewrite <- calc_perimeter_cost_swap.
    apply calc_perimeter_cost_zero_first; auto.
Qed.

Lemma approx_sqrt_zero (x : Q) : (x == 0)%Q → (approx_sqrt x == 0)%Q.
Proof.
  destruct x as [n d]. unfold Qeq, approx_sqrt. cbn.
  rewrite !Z.mul_1_r. intros ->. reflexivity.
Qed.

Lemma X8_perimeter_cost_zero_raises_witness :
  calc_perimeter_cost approx_sqrt approx_SQRT_PI degenerate_segs contact_1_2
  = Raise ZeroDivisionError
  ∧ ∀ c' e,
      calc_perimeter_cost approx_sqrt approx_SQRT_PI degenerate_segs c' = Raise e →
      e = ZeroDivisionError.
Proof.
  apply (X8_perimeter_cost_zero_raises approx_sqrt approx_SQRT_PI
           degenerate_segs contact_1_2).
  - exact approx_sqrt_zero.
  - left. reflexivity.
Defined.

(** ** Vertex-group weights, continued *)

Lemma Qsum_abs_nonneg {A : Type} (f : A → Q) (l : list A) :
  (0 <= Qsum (map (λ a, Qabs (f a)) l))%Q.
Proof.
  unfold Qsum. induction l as [|a l IH]; cbn [map fold_right]; [apply Qle_refl|].
  pose proof (Qabs_nonneg (f a)). lra.
Qed.

Lemma pair_weight_value (vi2 : Z → weights) (a b : Z) :
  (pair_weight vi2 a b
   == Qsum (map (λ gw, Qabs (gw.2 - dict_get (vi2 b) gw.1 0)) (vi2 a))
      + Qsum (map (λ gw, Qabs (gw.2 - dict_get (vi2 a) gw.1 0)) (vi2 b)))%Q.
Proof.
  unfold pair_weight. rewrite !weight_loop_sum. ring.
Qed.

Lemma _to_vertex_pair_id_comm (a b shift : Z) :
  _to_vertex_pair_id a b shift = _to_vertex_pair_id b a shift.
Proof.
  unfold _to_vertex_pair_id.
  destruct (Z.gtb_spec a b), (Z.gtb_spec b a); try lia; try done.
  by replace a with b by lia.
Qed.

(** X10: the weight of a vertex pair is symmetric, like the unordered
    pair id its memo is keyed by; it is never negative and is 0 for a
    vertex paired with itself; and asking for (b, a) after (a, b) is
    answered from the memo with the very same value, the memo left as it
    is. *)
Theorem X10_pair_weight (vi2 : Z → weights) (shift : Z) (memo : gmap Z Q) (a b : Z) :
  (pair_weight vi2 a b == pair_weight vi2 b a)%Q
  ∧ (0 <= pair_weight vi2 a b)%Q
  ∧ (NoDup (dict_keys (vi2 a)) → pair_weight vi2 a a == 0)%Q
  ∧ (let first := _calc_vertex_group_weight_cost vi2 shift memo a b in
     _calc_vertex_group_weight_cost vi2 shift first.2 b a = (first.1, first.2)).
Proof.
  split; [|split; [|split]].
  - rewrite !pair_weight_value. ring.
  - rewrite pair_weight_value.
    pose proof (Qsum_abs_nonneg (λ gw : Z * Q, gw.2 - dict_get (vi2 b) gw.1 0)%Q (vi2 a)).
    pose proof (Qsum_abs_nonneg (λ gw : Z * Q, gw.2 - dict_get (vi2 a) gw.1 0)%Q (vi2 b)).
    cbv beta in *. lra.
  - intros Hnd. rewrite pair_weight_value.
    assert (E : (Qsum (map (λ gw : Z * Q, Qabs (gw.2 - dict_get (vi2 a) gw.1 0)%Q) (vi2 a))
                 == Qsum (map (λ _ : Z * Q, 0%Q) (vi2 a)))%Q).
    { apply Qsum_ext. intros [g w] Hin. cbn [fst snd].
      rewrite (dict_get_elem (vi2 a) g w 0 Hnd Hin).
      assert (Eww : (w - w == 0)%Q) by ring.
      rewrite (Qabs_wd _ _ Eww). reflexivity. }
    rewrite E.
    assert (Z0 : ∀ l : list (Z * Q), (Qsum (map (λ _, 0%Q) l) == 0)%Q).
    { unfold Qsum. induction l as [|x l IH]; cbn [map fold_right]; [reflexivity|].
      rewrite IH. ring. }
    rewrite Z0. ring.
  - unfold _calc_vertex_group_weight_cost.
    rewrite (_to_vertex_pair_id_comm b a).
    destruct (memo !! _to_vertex_pair_id a b shift) as [w|] eqn:E; cbn [fst snd].
    + by rewrite E.
    + by rewrite lookup_insert_eq.
Qed.

Lemma X10_pair_weight_witness :
  (pair_weight one_group_weights 0 0 == 0)%Q.
Proof.
  apply (proj1 (proj2 (proj2 (X10_pair_weight one_group_weights 2 ∅ 0 0)))).
  change (NoDup [1%Z]). apply NoDup_singleton.
Defined.

Lemma dict_get_filter (P : Z → Prop) `{∀ g, Decision (P g)} (d : list (Z * Q))
    (g : Z) (def : Q) :
  dict_get (filter (λ gw : Z * Q, P gw.1) d) g def
  = if decide (P g) then dict_get d g def else def.
Proof.
  induction d as [|[k w] d IH]; cbn [dict_get].
  - by destruct (decide (P g)).
  - rewrite filter_cons. cbn [fst].
    destruct (decide (P k)) as [Hk|Hk]; cbn [dict_get].
    + destruct (decide (k = g)) as [->|Hne].
      * rewrite !bool_decide_eq_true_2 by done. by destruct (decide (P g)).
      * rewrite !bool_decide_eq_false_2 by done. exact IH.
    + rewrite IH. destruct (decide (k = g)) as [->|Hne].
      * rewrite !bool_decide_eq_true_2 by done. by destruct (decide (P g)).
      * by rewrite !bool_decide_eq_false_2 by done.
Qed.

Lemma dict_keys_filter (P : Z → Prop) `{∀ g, Decision (P g)} (d : list (Z * Q))
    (g : Z) :
  g ∈ dict_keys (filter (λ gw : Z * Q, P gw.1) d) ↔ g ∈ dict_keys d ∧ P g.
Proof.
  unfold dict_keys. split.
  - intros Hin. apply list_elem_of_fmap in Hin as ([k w] & -> & Hin).
    apply list_elem_of_filter in Hin as [Hk Hin]. split; [|exact Hk].
    apply list_elem_of_fmap. by exists (k, w).
  - intros [Hin HP]. apply list_elem_of_fmap in Hin as ([k w] & -> & Hin).
    apply list_elem_of_fmap. exists (k, w). split; [done|].
    apply list_elem_of_filter. by split.
Qed.

(** X11: [_calc_vi2vgi2weights] hides the ignored groups and nothing
    else: for every vertex, a [get] of an ignored group gives the
    default and a [get] of any other group gives what the deform layer
    gives; the keys are the deform layer's keys outside the ignored set;
    the items keep the deform layer's order. *)
Theorem X11_ignored_groups_filtered (deform : Z → weights) (ignore : gset Z)
    (v g : Z) (def : Q) :
  dict_get (_calc_vi2vgi2weights deform ignore v) g def
  = (if decide (g ∈ ignore) then def else dict_get (deform v) g def)
  ∧ (g ∈ dict_keys (_calc_vi2vgi2weights deform ignore v)
     ↔ g ∈ dict_keys (deform v) ∧ g ∉ ignore)
  ∧ sublist (_calc_vi2vgi2weights deform ignore v) (deform v).
Proof.
  unfold _calc_vi2vgi2weights. split; [|split].
  - etrans; [exact (dict_get_filter (λ k, k ∉ ignore) (deform v) g def)|].
    cbv beta. repeat case_match; first [done | tauto].
  - exact (dict_keys_filter (λ k, k ∉ ignore) (deform v) g).
  - apply sublist_filter.
Qed.

(** ** Ignored vertex groups *)

Lemma deform_bone_names_None (modifiers : list Modifier) :
  deform_bone_names modifiers = None ↔ broken_armature modifiers.
Proof.
  unfold broken_armature. induction modifiers as [|md rest IH]; cbn.
  - split; [done|]. intros (md & Hin & _). by apply elem_of_nil in Hin.
  - destruct (is_armature md) eqn:Ea.
    + destruct (mod_object md) as [bones|] eqn:Eo.
      * destruct (deform_bone_names rest) as [names|]; cbn.
        -- split; [done|]. intros (md' & Hin & Ha & Ho).
           apply elem_of_cons in Hin as [->|Hin]; [congruence|].
           assert (None = Some names → False) by done.
           destruct IH as [_ IH]. discriminate IH. by exists md'.
        -- split; [|done]. intros _.
           destruct IH as [IH _]. destruct (IH eq_refl) as (md' & Hin & Ha & Ho).
           exists md'. split; [by apply list_elem_of_further|done].
      * split; [|done]. intros _. exists md. split; [apply list_elem_of_here|done].
    + rewrite IH. split.
      * intros (md' & Hin & Ha & Ho). exists md'.
        split; [by apply list_elem_of_further|done].
      * intros (md' & Hin & Ha & Ho).
        apply elem_of_cons in Hin as [->|Hin]; [congruence|]. by exists md'.
Qed.

Lemma deform_bone_names_Some (modifiers : list Modifier) (names : list string) :
  deform_bone_names modifiers = Some names →
  ∀ name, name ∈ names ↔ deform_bone_of modifiers name.
Proof.
  unfold deform_bone_of.
  revert names. induction modifiers as [|md rest IH]; intros names; cbn.
  - intros [= <-] name. split; [by intros ?%elem_of_nil|].
    intros (md & ? & ? & Hin & _). by apply elem_of_nil in Hin.
  - destruct (is_armature md) eqn:Ea.
    + destruct (mod_object md) as [bones|] eqn:Eo; [|done].
      destruct (deform_bone_names rest) as [names'|]; [|done]. cbn.
      intros [= <-] name. rewrite elem_of_app, (IH names' eq_refl name). split.
      * intros [Hin|(md' & bones' & b & Hin & Ha & Ho & Hb & Hd & Hn)].
        -- apply list_elem_of_fmap in Hin as (b & -> & Hin).
           apply list_elem_of_filter in Hin as [Hd Hin].
           exists md, bones, b. split; [apply list_elem_of_here|done].
        -- exists md', bones', b. split; [by apply list_elem_of_further|done].
      * intros (md' & bones' & b & Hin & Ha & Ho & Hb & Hd & Hn).
        apply elem_of_cons in Hin as [->|Hin].
        -- left. rewrite Eo in Ho. injection Ho as <-.
           apply list_elem_of_fmap. exists b. split; [done|].
           apply list_elem_of_filter. by split.
        -- right. by exists md', bones', b.
    + intros Hn name. rewrite (IH names Hn name). split.
      * intros (md' & bones' & b & Hin & Hrest). exists md', bones', b.
        split; [by apply list_elem_of_further|done].
      * intros (md' & bones' & b & Hin & Ha & Hrest).
        apply elem_of_cons in Hin as [->|Hin]; [congruence|].
        by exists md', bones', b.
Qed.

(** X12: [get_ignore_vertex_group_indices] fails exactly when an active
    armature modifier has no object; otherwise it returns the indices of
    the vertex groups whose name is not the name of a deform bone of an
    active armature modifier. *)
Theorem X12_ignore_vertex_group_indices (modifiers : list Modifier)
    (vertex_groups : list VertexGroup) :
  match get_ignore_vertex_group_indices modifiers vertex_groups with
  | None => broken_armature modifiers
  | Some ignore =>
      ¬ broken_armature modifiers
      ∧ ∀ i, i ∈ ignore ↔
             ∃ vg, vg ∈ vertex_groups ∧ vg_index vg = i
                   ∧ ¬ deform_bone_of modifiers (vg_name vg)
  end.
Proof.
  unfold get_ignore_vertex_group_indices.
  destruct (deform_bone_names modifiers) as [names|] eqn:En; cbn.
  - split.
    + intros Hb. apply deform_bone_names_None in Hb. congruence.
    + intros i. rewrite elem_of_list_to_set, list_elem_of_fmap.
      pose proof (deform_bone_names_Some modifiers names En) as Hn.
      split.
      * intros (vg & -> & Hin). apply list_elem_of_filter in Hin as [Hnot Hin].
        exists vg. repeat split; [done|]. by rewrite <- Hn.
      * intros (vg & Hin & <- & Hnot). exists vg. split; [done|].
        apply list_elem_of_filter. split; [|done]. by rewrite Hn.
  - by apply deform_bone_names_None.
Qed.

(** ** Painting *)

Lemma paint_selected_fold (m : BMesh) (color : RGBA) (tris : list (Z * Z * Z)) :
  ∀ (layer : gmap Z RGBA) (l : Z),
  fold_left
    (λ layer (tri_loop : Z * Z * Z),
       if negb (face_select m (loop_face m tri_loop.1.1)) then layer
       else
         <[tri_loop.2 := color]>
           (<[tri_loop.1.2 := color]> (<[tri_loop.1.1 := color]> layer)))
    tris layer !! l
  = if existsb
         (λ t : Z * Z * Z,
            face_select m (loop_face m t.1.1)
            && (bool_decide (l = t.1.1) || bool_decide (l = t.1.2)
                || bool_decide (l = t.2)))
         tris
    then Some color else layer !! l.
Proof.
  induction tris as [|[[a b] c] tris IH]; intros layer l; [done|].
  cbn [fold_left existsb fst snd]. rewrite IH.
  destruct (existsb _ tris); [by rewrite orb_true_r|rewrite orb_false_r].
  destruct (face_select m (loop_face m a)); cbn [negb andb]; [|done].
  repeat case_bool_decide; subst; cbn [orb];
    rewrite ?lookup_insert_eq; try done;
    rewrite ?lookup_insert_ne by done; rewrite ?lookup_insert_eq; try done;
    rewrite ?lookup_insert_ne by done; rewrite ?lookup_insert_eq; done.
Qed.

(** X13: [paint_selected_face_colors] gives the colour (the one passed,
    or the randomly chosen palette colour when none is passed) to every
    loop of every triangle whose first loop lies on a selected face, and
    leaves every other loop of the layer as it was. *)
Theorem X13_paint_selected_faces (choice : list RGBA → RGBA) (m : BMesh)
    (color : option RGBA) (color_layer : gmap Z RGBA) (l : Z) :
  paint_selected_face_colors choice m color color_layer !! l
  = if in_selected_triangle m l then Some (painting_color choice color)
    else color_layer !! l.
Proof.
  unfold paint_selected_face_colors, in_selected_triangle, painting_color.
  apply paint_selected_fold.
Qed.

Lemma paint_fold_lookup (m : BMesh) (col : RGBA) (ts : list Z) :
  ∀ (layer : gmap Z RGBA) (l : Z),
  (∃ t, t ∈ ts ∧ (l = t ∨ l = link_loop_prev m t ∨ l = link_loop_next m t))
  ∧ fold_left (paint_triangle m col) ts layer !! l = Some col
  ∨ (¬ ∃ t, t ∈ ts ∧ (l = t ∨ l = link_loop_prev m t ∨ l = link_loop_next m t))
    ∧ fold_left (paint_triangle m col) ts layer !! l = layer !! l.
Proof.
  induction ts as [|t ts IH]; intros layer l; cbn [fold_left].
  - right. split; [|done]. intros (t & Hin & _). by apply elem_of_nil in Hin.
  - destruct (IH (paint_triangle m col layer t) l) as [[(t' & Hin & Ht') E]|[Hno E]].
    + left. split; [|exact E]. exists t'. split; [by apply list_elem_of_further|done].
    + rewrite E, paint_triangle_lookup. destruct (decide _) as [Ht|Ht].
      * left. split; [|done]. exists t. split; [apply list_elem_of_here|done].
      * right. split; [|done]. intros (t' & Hin & Ht').
        apply elem_of_cons in Hin as [->|Hin]; [done|].
        apply Hno. by exists t'.
Qed.

Lemma paint_segment_spec (m : BMesh) (ord : list Z → list Z) (segs : Z → Segment)
    (colors : list RGBA) (index : nat) (layer : gmap Z RGBA) (s : Z) :
  (∀ l, ord l ≡ₚ l) → colors ≠ [] →
  ∃ col layer',
    colors !! (index mod length colors)%nat = Some col
    ∧ paint_segment m ord segs colors (index, layer) s = Ok (S index, layer')
    ∧ ∀ l, (paints m segs s l ∧ layer' !! l = Some col)
           ∨ (¬ paints m segs s l ∧ layer' !! l = layer !! l).
Proof.
  intros Hord Hne. unfold paint_segment.
  assert (Hlt : (index mod length colors < length colors)%nat).
  { apply Nat.mod_upper_bound. by destruct colors. }
  apply lookup_lt_is_Some_2 in Hlt as [col Hcol].
  exists col, (fold_left (paint_triangle m col)
                 (ord (elements (seg_tri_loop0s (segs s)))) layer).
  rewrite Hcol. split; [done|]. split; [done|]. intros l.
  assert (Hiff : ∀ t, t ∈ ord (elements (seg_tri_loop0s (segs s)))
                      ↔ t ∈ seg_tri_loop0s (segs s)).
  { intros t. by rewrite Hord, elem_of_elements. }
  destruct (paint_fold_lookup m col (ord (elements (seg_tri_loop0s (segs s)))) layer l)
    as [[(t & Hin & Ht) E]|[Hno E]].
  - left. split; [|exact E]. exists t. split; [by apply Hiff|done].
  - right. split; [|exact E]. intros (t & Hin & Ht). apply Hno.
    exists t. split; [by apply Hiff|done].
Qed.

Lemma paint_segments_spec (m : BMesh) (ord : list Z → list Z) (segs : Z → Segment)
    (colors : list RGBA) (segments : list Z) :
  (∀ l, ord l ≡ₚ l) → colors ≠ [] →
  ∀ (index : nat) (layer : gmap Z RGBA),
  ∃ layer',
    for_each (paint_segment m ord segs colors) segments (index, layer)
    = Ok ((index + length segments)%nat, layer')
    ∧ ∀ l,
        (∃ i s, segments !! i = Some s ∧ paints m segs s l
                ∧ (∀ j s', (i < j)%nat → segments !! j = Some s' →
                           ¬ paints m segs s' l)
                ∧ layer' !! l = colors !! ((index + i) mod length colors)%nat)
        ∨ ((∀ j s', segments !! j = Some s' → ¬ paints m segs s' l)
           ∧ layer' !! l = layer !! l).
Proof.
  intros Hord Hne. induction segments as [|s segments IH]; intros index layer.
  - exists layer. cbn. rewrite Nat.add_0_r. split; [done|]. intros l. right.
    split; [|done]. intros j s' Hj. by rewrite lookup_nil in Hj.
  - destruct (paint_segment_spec m ord segs colors index layer s Hord Hne)
      as (col & layer1 & Hcol & Hstep & Hl1).
    destruct (IH (S index) layer1) as (layer' & Hrest & Hl').
    exists layer'. cbn [for_each]. rewrite Hstep, bind_Ok, Hrest. split.
    { do 2 f_equal. cbn [length]. lia. }
    intros l. destruct (Hl' l) as [(i & s' & Hi & Hp & Hlater & E)|[Hnone E]].
    + left. exists (S i), s'. repeat split; [done|done| |].
      * intros j s'' Hlt Hj. destruct j as [|j]; [lia|].
        apply (Hlater j s''); [lia|done].
      * rewrite E. do 2 f_equal. lia.
    + destruct (Hl1 l) as [[Hp E1]|[Hp E1]].
      * left. exists 0%nat, s. repeat split; [done| |].
        -- intros j s'' Hlt Hj. destruct j as [|j]; [lia|]. by apply (Hnone j s'').
        -- rewrite E, E1, Nat.add_0_r. done.
      * right. split; [|by rewrite E, E1].
        intros j s'' Hj. destruct j as [|j]; [by injection Hj as <-|].
        by apply (Hnone j s'').
Qed.

(** X14: when the shuffle permutes the palette, [assign_vertex_colors]
    raises nothing; a loop painted by some segment ends with the palette
    entry at the position (modulo the palette length) of the last
    segment of the enumeration that paints it, and a loop painted by no
    segment keeps its colour. *)
Theorem X14_assign_vertex_colors (shuffle : Z → list RGBA → list RGBA) (m : BMesh)
    (ord : list Z → list Z) (segs : Z → Segment) (segments : list Z)
    (color_layer : gmap Z RGBA) (seed : Z) :
  (∀ s l, shuffle s l ≡ₚ l) → (∀ l, ord l ≡ₚ l) →
  ∃ layer',
    assign_vertex_colors shuffle m ord segs segments color_layer seed = Ok layer'
    ∧ ∀ l,
        (∃ i s, segments !! i = Some s ∧ paints m segs s l
                ∧ (∀ j s', (i < j)%nat → segments !! j = Some s' →
                           ¬ paints m segs s' l)
                ∧ layer' !! l
                  = palette shuffle seed !! (i mod length SEGMANTATION_COLORS)%nat)
        ∨ ((∀ j s', segments !! j = Some s' → ¬ paints m segs s' l)
           ∧ layer' !! l = color_layer !! l).
Proof.
  intros Hsh Hord. unfold assign_vertex_colors. fold (palette shuffle seed).
  assert (Hlen : length (palette shuffle seed) = length SEGMANTATION_COLORS).
  { unfold palette. case_bool_decide; [by rewrite Hsh|done]. }
  assert (Hne : palette shuffle seed ≠ []).
  { intros E. rewrite E in Hlen. discriminate Hlen. }
  destruct (paint_segments_spec m ord segs (palette shuffle seed) segments Hord Hne
              0%nat color_layer) as (layer' & Hrun & Hl).
  exists layer'. rewrite Hrun, bind_Ok. split; [done|].
  intros l. destruct (Hl l) as [(i & s & Hi & Hp & Hlater & E)|H]; [left|by right].
  exists i, s. repeat split; try done. by rewrite E, Hlen.
Qed.

Lemma X14_assign_vertex_colors_witness :
  ∃ layer',
    assign_vertex_colors no_shuffle half_selected ascending one_triangle_segs
      [1; 2] ∅ 0 = Ok layer'
    ∧ ∀ l,
        (∃ i s, [1; 2] !! i = Some s ∧ paints half_selected one_triangle_segs s l
                ∧ (∀ j s', (i < j)%nat → [1; 2] !! j = Some s' →
                           ¬ paints half_selected one_triangle_segs s' l)
                ∧ layer' !! l
                  = palette no_shuffle 0 !! (i mod length SEGMANTATION_COLORS)%nat)
        ∨ ((∀ j s', [1; 2] !! j = Some s' →
                    ¬ paints half_selected one_triangle_segs s' l)
           ∧ layer' !! l = (∅ : gmap Z RGBA) !! l).
Proof.
  apply (X14_assign_vertex_colors no_shuffle half_selected ascending
           one_triangle_segs [1; 2] ∅ 0).
  - intros s l. reflexivity.
  - intros l. apply merge_sort_Permutation.
Defined.

(** ** Heaviest vertex group *)

Lemma group_total_snoc (pre : list (Z * Q)) (x : Z * Q) (k : Z) :
  (group_total (pre ++ [x]) k
   == group_total pre k + (if decide (x.1 = k) then x.2 else 0))%Q.
Proof.
  unfold group_total, Qsum. rewrite filter_app, map_app.
  induction (filter (λ gw : Z * Q, gw.1 = k) pre) as [|y l IH]; cbn [app map fold_right].
  - rewrite filter_cons, filter_nil.
    destruct (decide (x.1 = k)); cbn [map fold_right]; ring.
  - rewrite IH. ring.
Qed.

Lemma group_total_nonneg (items : list (Z * Q)) (k : Z) :
  (∀ gw, gw ∈ items → (0 <= gw.2)%Q) → (0 <= group_total items k)%Q.
Proof.
  unfold group_total, Qsum. induction items as [|x items IH]; intros H.
  - cbn. apply Qle_refl.
  - rewrite filter_cons.
    assert (0 <= fold_right Qplus 0 (map snd (filter (λ gw : Z * Q, gw.1 = k) items)))%Q
      as IH' by (apply IH; intros gw Hin; apply H; by apply list_elem_of_further).
    destruct (decide (x.1 = k)); [|exact IH'].
    cbn [map fold_right]. pose proof (H x (list_elem_of_here _ _)). lra.
Qed.

Lemma heaviest_fold (items : list (Z * Q)) :
  (∀ gw, gw ∈ items → (0 <= gw.2)%Q) →
  ∃ g w tot,
    fold_left heaviest_step items (-1, (-1)%Q, ∅) = (g, w, tot)
    ∧ (∀ k, default 0%Q (tot !! k) == group_total items k)%Q
    ∧ ((items = [] ∧ g = -1 ∧ w = (-1)%Q)
       ∨ (items ≠ [] ∧ g ∈ dict_keys items
          ∧ (w <= group_total items g)%Q
          ∧ ∀ k, (group_total items k <= w)%Q)).
Proof.
  induction items as [|x pre IH] using rev_ind; intros Hnn.
  - exists (-1), (-1)%Q, ∅. split; [done|]. split; [|by left].
    intros k. rewrite lookup_empty. reflexivity.
  - destruct IH as (g & w & tot & Hfold & Htot & Hmax).
    { intros gw Hin. apply Hnn. apply elem_of_app. by left. }
    assert (Hx : (0 <= x.2)%Q).
    { apply Hnn. apply elem_of_app. right. apply list_elem_of_here. }
    rewrite fold_left_app, Hfold. cbn [fold_left heaviest_step].
    set (weight := (x.2 + default 0%Q (tot !! x.1))%Q).
    assert (Hweight : (weight == group_total (pre ++ [x]) x.1)%Q).
    { unfold weight. rewrite group_total_snoc, (Htot x.1).
      destruct (decide (x.1 = x.1)); [ring|done]. }
    assert (Hw0 : (0 <= weight)%Q).
    { rewrite Hweight. by apply group_total_nonneg. }
    assert (Htot' : ∀ k, (default 0%Q (<[x.1 := weight]> tot !! k)
                          == group_total (pre ++ [x]) k)%Q).
    { intros k. destruct (decide (x.1 = k)) as [<-|Hne].
      - rewrite lookup_insert_eq. exact Hweight.
      - rewrite lookup_insert_ne by done. rewrite group_total_snoc, (Htot k).
        destruct (decide (x.1 = k)); [done|ring]. }
    assert (Hmono : ∀ k, (group_total pre k <= group_total (pre ++ [x]) k)%Q).
    { intros k. rewrite group_total_snoc. destruct (decide (x.1 = k)); lra. }
    assert (Hother : ∀ k, x.1 ≠ k →
                          (group_total (pre ++ [x]) k == group_total pre k)%Q).
    { intros k Hne. rewrite group_total_snoc.
      destruct (decide (x.1 = k)); [done|ring]. }
    assert (Hne : pre ++ [x] ≠ []) by (by destruct pre).
    assert (Hkey : x.1 ∈ dict_keys (pre ++ [x])).
    { unfold dict_keys. rewrite map_app. apply elem_of_app. right.
      apply list_elem_of_here. }
    destruct (Qgtb weight w) eqn:Egt.
    + apply Qgtb_true in Egt.
      exists x.1, weight, (<[x.1 := weight]> tot).
      split; [done|]. split; [exact Htot'|]. right.
      split; [exact Hne|]. split; [exact Hkey|]. split.
      * rewrite Hweight. apply Qle_refl.
      * intros k. destruct (decide (x.1 = k)) as [<-|Hk].
        -- rewrite Hweight. apply Qle_refl.
        -- rewrite (Hother k Hk).
           destruct Hmax as [(-> & _ & ->)|(_ & _ & _ & Hle)].
           ++ assert (E0 : (group_total [] k == 0)%Q) by reflexivity.
              rewrite E0. lra.
           ++ specialize (Hle k). lra.
    + apply Qgtb_false in Egt.
      exists g, w, (<[x.1 := weight]> tot).
      split; [done|]. split; [exact Htot'|]. right.
      destruct Hmax as [(-> & _ & ->)|(_ & Hg & Hge & Hle)].
      { exfalso. lra. }
      split; [exact Hne|]. split.
      { unfold dict_keys in *. rewrite map_app. apply elem_of_app. by left. }
      split.
      * specialize (Hmono g). lra.
      * intros k. destruct (decide (x.1 = k)) as [<-|Hk].
        -- rewrite <- Hweight. exact Egt.
        -- rewrite (Hother k Hk). apply Hle.
Qed.

(** X15: on a tri-loop index not yet memoised and non-negative weights,
    [_calc_heaviest_vertex_group_index] memoises what it returns; it
    returns -1 when the three vertices carry no weight item, and
    otherwise a group of one of the three vertices whose summed weight
    over the three vertices is the largest. *)
Theorem X15_heaviest_vertex_group (m : BMesh) (vi2vgi2weights : Z → weights)
    (memo : gmap Z Z) (tli loop : Z) :
  memo !! tli = None →
  (∀ gw, gw ∈ heaviest_items m vi2vgi2weights loop → (0 <= gw.2)%Q) →
  ∃ r, _calc_heaviest_vertex_group_index m vi2vgi2weights memo tli loop
       = (r, <[tli := r]> memo)
       ∧ match heaviest_items m vi2vgi2weights loop with
         | [] => r = -1
         | _ :: _ =>
             r ∈ dict_keys (heaviest_items m vi2vgi2weights loop)
             ∧ ∀ g, (group_total (heaviest_items m vi2vgi2weights loop) g
                     <= group_total (heaviest_items m vi2vgi2weights loop) r)%Q
         end.
Proof.
  intros Hmiss Hnn. unfold _calc_heaviest_vertex_group_index. rewrite Hmiss.
  fold (heaviest_items m vi2vgi2weights loop).
  destruct (heaviest_fold _ Hnn) as (g & w & tot & -> & _ & Hmax).
  exists g. split; [done|].
  destruct Hmax as [(-> & -> & _)|(Hne & Hg & Hge & Hle)]; [done|].
  destruct (heaviest_items m vi2vgi2weights loop) as [|y items]; [done|].
  split; [exact Hg|]. intros k. specialize (Hle k). lra.
Qed.

Lemma X15_heaviest_vertex_group_witness :
  ∃ r, _calc_heaviest_vertex_group_index weighted_triangle one_group_weights ∅ 0 0
       = (r, <[0 := r]> ∅)
       ∧ match heaviest_items weighted_triangle one_group_weights 0 with
         | [] => r = -1
         | _ :: _ =>
             r ∈ dict_keys (heaviest_items weighted_triangle one_group_weights 0)
             ∧ ∀ g, (group_total (heaviest_items weighted_triangle one_group_weights 0) g
                     <= group_total
                          (heaviest_items weighted_triangle one_group_weights 0) r)%Q
         end.
Proof.
  apply (X15_heaviest_vertex_group weighted_triangle one_group_weights ∅ 0 0).
  - reflexivity.
  - intros gw Hin. change (gw ∈ [(1, 1%Q)]) in Hin.
    apply list_elem_of_singleton in Hin as ->. done.
Defined.

(** ** The priority list *)

Lemma Qltb_true (a b : Q) : Qltb a b = true ↔ (a < b)%Q.
Proof. exact (Qgtb_true b a). Qed.

Lemma Qltb_false (a b : Q) : Qltb a b = false ↔ (b <= a)%Q.
Proof. exact (Qgtb_false b a). Qed.

Lemma bisect_go_spec (keyat : nat → Q) (x : Q) (n : nat) :
  (∀ i j, (i ≤ j)%nat → (j < n)%nat → (keyat i <= keyat j)%Q) →
  ∀ fuel lo hi,
  (hi - lo ≤ fuel)%nat → (lo ≤ hi)%nat → (hi ≤ n)%nat →
  (∀ i, (i < lo)%nat → (keyat i < x)%Q) →
  (∀ i, (hi ≤ i)%nat → (i < n)%nat → (x <= keyat i)%Q) →
  (lo ≤ bisect_go keyat x fuel lo hi)%nat
  ∧ (bisect_go keyat x fuel lo hi ≤ hi)%nat
  ∧ (∀ i, (i < bisect_go keyat x fuel lo hi)%nat → (keyat i < x)%Q)
  ∧ (∀ i, (bisect_go keyat x fuel lo hi ≤ i)%nat → (i < n)%nat → (x <= keyat i)%Q).
Proof.
  intros Hsorted. induction fuel as [|fuel IH]; intros lo hi Hfuel Hlh Hn Hlo Hhi.
  - cbn [bisect_go]. assert (lo = hi) as -> by lia. auto.
  - cbn [bisect_go]. destruct (lo <? hi)%nat eqn:E.
    2:{ apply Nat.ltb_ge in E. assert (lo = hi) as -> by lia. auto. }
    apply Nat.ltb_lt in E.
    assert (Hmid : (lo ≤ (lo + hi) / 2 ∧ (lo + hi) / 2 < hi)%nat).
    { split.
      - apply Nat.div_le_lower_bound; lia.
      - apply Nat.Div0.div_lt_upper_bound; lia. }
    destruct (Qltb (keyat ((lo + hi) / 2)%nat) x) eqn:Ek.
    + apply Qltb_true in Ek.
      destruct (IH ((lo + hi) / 2 + 1)%nat hi) as (H1 & H2 & H3 & H4);
        [lia|lia|lia| |exact Hhi|].
      * intros i Hi. eapply Qle_lt_trans; [|exact Ek]. apply Hsorted; lia.
      * repeat split; [lia|exact H2|exact H3|exact H4].
    + apply Qltb_false in Ek.
      destruct (IH lo ((lo + hi) / 2)%nat) as (H1 & H2 & H3 & H4);
        [lia|lia|lia|exact Hlo| |].
      * intros i Hi Hi'. eapply Qle_trans; [exact Ek|]. apply Hsorted; lia.
      * repeat split; [exact H1|lia|exact H3|exact H4].
Qed.

Lemma StronglySorted_lookup {A : Type} (R : relation A) (l : list A) :
  StronglySorted R l →
  ∀ i j x y, (i < j)%nat → l !! i = Some x → l !! j = Some y → R x y.
Proof.
  induction 1 as [|a l Hs IH Hall]; intros i j x y Hij Hi Hj.
  - by rewrite lookup_nil in Hi.
  - destruct j as [|j]; [lia|]. cbn in Hj. destruct i as [|i]; cbn in Hi.
    + injection Hi as <-. rewrite Forall_forall in Hall.
      apply Hall. by eapply list_elem_of_lookup_2.
    + apply (IH i j); [lia|done|done].
Qed.

Lemma nth_lookup_Z (a : list Z) (i : nat) (c : Z) :
  a !! i = Some c → nth i a 0 = c.
Proof.
  revert i. induction a as [|y a IH]; intros [|i] H; cbn in *; try done.
  - by injection H.
  - by apply IH.
Qed.

(** On a list sorted by cost [bisect_left] returns the partition point
    of [x]. *)
Lemma bisect_left_spec (cs : Z → SegmentContact) (a : list Z) (x : Q) :
  cost_sorted cs a →
  (bisect_left cs a x ≤ length a)%nat
  ∧ (∀ i c, (i < bisect_left cs a x)%nat → a !! i = Some c →
            (_get_cost_normalized (cs c) < x)%Q)
  ∧ (∀ i c, (bisect_left cs a x ≤ i)%nat → a !! i = Some c →
            (x <= _get_cost_normalized (cs c))%Q).
Proof.
  intros Hs. unfold bisect_left.
  set (keyat := λ i : nat, _get_cost_normalized (cs (nth i a 0))).
  destruct (bisect_go_spec keyat x (length a)) with
    (fuel := length a) (lo := 0%nat) (hi := length a) as (_ & H2 & H3 & H4).
  - intros i j Hij Hj. unfold keyat.
    destruct (lookup_lt_is_Some_2 a j Hj) as [y Hy].
    destruct (lookup_lt_is_Some_2 a i) as [z Hz]; [lia|].
    rewrite (nth_lookup_Z _ _ _ Hy), (nth_lookup_Z _ _ _ Hz).
    destruct (decide (i = j)) as [->|Hne].
    + rewrite Hy in Hz. injection Hz as <-. apply Qle_refl.
    + apply (StronglySorted_lookup _ _ Hs i j); [lia|done|done].
  - lia.
  - lia.
  - lia.
  - intros i Hi. lia.
  - intros i Hi Hi'. lia.
  - split; [exact H2|]. split.
    + intros i c Hi Hc. specialize (H3 i Hi). unfold keyat in H3.
      by rewrite (nth_lookup_Z _ _ _ Hc) in H3.
    + intros i c Hi Hc. apply lookup_lt_Some in Hc as Hlt.
      specialize (H4 i Hi Hlt). unfold keyat in H4.
      by rewrite (nth_lookup_Z _ _ _ Hc) in H4.
Qed.

Lemma find_from_Some (a : list Z) (c : Z) :
  ∀ start i, find_from a start c = Some i → (start ≤ i)%nat ∧ a !! i = Some c.
Proof.
  induction a as [|y a IH]; intros start i H; [done|].
  cbn [find_from] in H. destruct start as [|start].
  - case_bool_decide.
    + injection H as <-. subst. split; [lia|done].
    + destruct (find_from a 0 c) as [k|] eqn:E; [|done].
      injection H as <-. destruct (IH _ _ E) as [_ Hk]. split; [lia|done].
  - destruct (find_from a start c) as [k|] eqn:E; [|done].
    injection H as <-. destruct (IH _ _ E) as [Hk1 Hk]. split; [lia|done].
Qed.

Lemma find_from_complete (a : list Z) (c : Z) :
  ∀ start j, (start ≤ j)%nat → a !! j = Some c → is_Some (find_from a start c).
Proof.
  induction a as [|y a IH]; intros start j Hj H; [by rewrite lookup_nil in H|].
  cbn [find_from]. destruct start as [|start].
  - case_bool_decide; [done|]. destruct j as [|j]; cbn in H; [congruence|].
    destruct (IH 0%nat j) as [k ->]; [lia|done|]. done.
  - destruct j as [|j]; [lia|]. cbn in H.
    destruct (IH start j) as [k ->]; [lia|done|]. done.
Qed.

(** On a sorted list, the search of [_remove_segment_contact] finds a
    contact that is in the list. *)
Lemma find_in_sorted (cs : Z → SegmentContact) (a : list Z) (c : Z) :
  cost_sorted cs a →
  (c ∈ a → ∃ i, find_from a (bisect_left cs a (sc_cost_normalized (cs c))) c = Some i
                ∧ a !! i = Some c)
  ∧ (c ∉ a → find_from a (bisect_left cs a (sc_cost_normalized (cs c))) c = None).
Proof.
  intros Hs. split.
  - intros Hin. apply list_elem_of_lookup_1 in Hin as [j Hj].
    destruct (bisect_left_spec cs a (sc_cost_normalized (cs c)) Hs) as (_ & Hlt & _).
    assert (Hle : (bisect_left cs a (sc_cost_normalized (cs c)) ≤ j)%nat).
    { destruct (le_lt_dec (bisect_left cs a (sc_cost_normalized (cs c))) j) as [|Hgt];
        [done|].
      specialize (Hlt j c Hgt Hj). unfold _get_cost_normalized in Hlt.
      exfalso. exact (Qlt_irrefl _ Hlt). }
    destruct (find_from_complete a c _ j Hle Hj) as [i Hi].
    exists i. split; [exact Hi|]. by apply find_from_Some in Hi as [_ ?].
  - intros Hnot. destruct (find_from a _ c) as [i|] eqn:E; [|done].
    apply find_from_Some in E as [_ E]. exfalso. apply Hnot.
    by eapply list_elem_of_lookup_2.
Qed.

Lemma delete_take_drop_Z (a : list Z) (i : nat) :
  delete i a = take i a ++ drop (S i) a.
Proof.
  revert i. induction a as [|y a IH]; intros [|i]; cbn; try done.
  f_equal. apply IH.
Qed.

Lemma cost_sorted_delete (cs : Z → SegmentContact) (a : list Z) (i : nat) :
  cost_sorted cs a → cost_sorted cs (delete i a).
Proof.
  unfold cost_sorted. intros Hs. rewrite delete_take_drop_Z.
  rewrite <- (take_drop i a) in Hs.
  apply StronglySorted_app in Hs as (Hx & H1 & H2).
  apply StronglySorted_app_2; [|exact H1|].
  - intros x1 x2 Hx1 Hx2. apply Hx; [done|].
    rewrite <- (take_drop 1 (drop i a)), drop_drop. apply elem_of_app. right.
    by replace (i + 1)%nat with (S i) by lia.
  - rewrite <- (take_drop 1 (drop i a)) in H2.
    apply StronglySorted_app_1_r in H2. rewrite drop_drop in H2.
    by replace (i + 1)%nat with (S i) in H2 by lia.
Qed.

Lemma cost_sorted_ext (cs cs' : Z → SegmentContact) (a : list Z) :
  (∀ c, c ∈ a → sc_cost_normalized (cs' c) = sc_cost_normalized (cs c)) →
  cost_sorted cs a → cost_sorted cs' a.
Proof.
  unfold cost_sorted. induction a as [|y a IH]; intros Hk Hs; [constructor|].
  apply StronglySorted_cons in Hs as [Hall Hs]. constructor.
  - apply IH; [|exact Hs]. intros c Hc. apply Hk. by apply list_elem_of_further.
  - rewrite Forall_forall in *. intros z Hz. unfold by_cost, _get_cost_normalized.
    rewrite (Hk y (list_elem_of_here _ _)), (Hk z (list_elem_of_further _ _ _ Hz)).
    by apply Hall.
Qed.

Lemma insort_left_sorted (cs : Z → SegmentContact) (a : list Z) (x : Z) :
  cost_sorted cs a → cost_sorted cs (insort_left cs a x).
Proof.
  intros Hs. unfold insort_left.
  destruct (bisect_left_spec cs a (_get_cost_normalized (cs x)) Hs) as (Hlen & Hlt & Hge).
  set (lo := bisect_left cs a (_get_cost_normalized (cs x))) in *.
  unfold cost_sorted in *.
  pose proof Hs as Hs'. rewrite <- (take_drop lo a) in Hs'.
  apply StronglySorted_app in Hs' as (Hx & H1 & H2).
  assert (Hafter : ∀ z, z ∈ drop lo a → by_cost cs x z).
  { intros z Hz. apply list_elem_of_lookup_1 in Hz as [k Hk].
    rewrite lookup_drop in Hk. apply (Hge (lo + k)%nat z); [lia|done]. }
  assert (Hbefore : ∀ z, z ∈ take lo a → by_cost cs z x).
  { intros z Hz. apply list_elem_of_lookup_1 in Hz as [k Hk].
    apply lookup_take_Some in Hk as [Hk Hklo].
    apply Qlt_le_weak. by apply (Hlt k z). }
  apply StronglySorted_app_2; [|exact H1|].
  - intros x1 x2 Hx1 Hx2. apply elem_of_cons in Hx2 as [->|Hx2].
    + by apply Hbefore.
    + by apply Hx.
  - constructor; [exact H2|]. rewrite Forall_forall. exact Hafter.
Qed.

Lemma insort_left_Permutation (cs : Z → SegmentContact) (a : list Z) (x : Z) :
  insort_left cs a x ≡ₚ x :: a.
Proof.
  unfold insort_left. rewrite <- Permutation_middle.
  by rewrite take_drop.
Qed.

Lemma for_each_invariant {S A : Type} (I : S → Prop) (body : S → A → result S)
    (l : list A) :
  (∀ s a s', a ∈ l → I s → body s a = Ok s' → I s') →
  ∀ s s', I s → for_each body l s = Ok s' → I s'.
Proof.
  induction l as [|a l IH]; intros Hbody s s' HI H; cbn in H.
  - by injection H as <-.
  - apply bind_Ok_inv in H as (s1 & H1 & H2).
    apply (IH (λ s a s' Ha, Hbody s a s' (list_elem_of_further _ _ _ Ha)) s1 s');
      [|exact H2].
    apply (Hbody s a s1); [apply list_elem_of_here|exact HI|exact H1].
Qed.

Lemma elem_of_delete_NoDup (a : list Z) (i : nat) (x c : Z) :
  NoDup a → a !! i = Some x → (c ∈ delete i a ↔ c ∈ a ∧ c ≠ x).
Proof.
  intros Hnd Hi. pose proof (delete_Permutation a i x Hi) as Hp.
  apply (NoDup_Permutation_proper _ _ Hp) in Hnd. apply NoDup_cons in Hnd as [Hx _].
  rewrite (elem_of_Permutation_proper c _ _ Hp), elem_of_cons. split.
  - intros Hc. split; [by right|]. by intros ->.
  - intros [[->|Hc] Hne]; done.
Qed.

Lemma priority_ok_same (st st' : EngineState) :
  (∀ c, sc_cost_normalized (contacts st' c) = sc_cost_normalized (contacts st c)) →
  cost_sorted_segment_contacts st' = cost_sorted_segment_contacts st →
  sci2segment_contacts st' = sci2segment_contacts st →
  priority_ok st → priority_ok st'.
Proof.
  intros Hc Hl Hk (Hs & Hnd & Hel). unfold priority_ok. rewrite Hl, Hk.
  split; [|done]. eapply cost_sorted_ext; [|exact Hs]. intros c _. apply Hc.
Qed.

(** Under the priority invariant [_remove_segment_contact] takes the
    contact out of the list and keeps the invariant. *)
Lemma _remove_segment_contact_priority (st st' : EngineState) (sci : Z) :
  priority_ok st → _remove_segment_contact st sci = Ok st' →
  priority_ok st'
  ∧ (sci ∉ cost_sorted_segment_contacts st')
  ∧ (cost_sorted_segment_contacts st' ⊆+ cost_sorted_segment_contacts st).
Proof.
  intros (Hs & Hnd & Hel) H. unfold _remove_segment_contact in H.
  case_bool_decide as Hin; [|discriminate]. state_simpl.
  destruct (find_in_sorted (contacts st) (cost_sorted_segment_contacts st) sci Hs)
    as [Hfind _].
  destruct Hfind as (i & Hfind & Hi); [by apply Hel|].
  rewrite Hfind in H. injection H as <-. unfold priority_ok. state_simpl.
  pose proof (elem_of_delete_NoDup (cost_sorted_segment_contacts st) i sci) as Hdel.
  split; [split; [|split]|split].
  - by apply cost_sorted_delete.
  - eapply sublist_NoDup; [exact Hnd|apply sublist_delete].
  - intros c. rewrite (Hdel c Hnd Hi), Hel. set_solver.
  - rewrite (Hdel sci Hnd Hi). by intros [_ ?].
  - apply sublist_submseteq, sublist_delete.
Qed.

Lemma segment_replace_cost (c : SegmentContact) (src dst : Z) :
  sc_cost_normalized (segment_replace c src dst).1 = sc_cost_normalized c.
Proof. unfold segment_replace. by repeat case_bool_decide. Qed.

Lemma upd_cost_same (cs : Z → SegmentContact) (c k : Z) (sc : SegmentContact) :
  sc_cost_normalized sc = sc_cost_normalized (cs c) →
  sc_cost_normalized (upd cs c sc k) = sc_cost_normalized (cs k).
Proof. intros E. unfold upd. case_bool_decide; [by subst|done]. Qed.

Lemma repoint_priority (src dst : Z) (st st' : EngineState) (c : Z) :
  priority_ok st → repoint src dst st c = Ok st' → priority_ok st'.
Proof.
  intros Hok H. unfold repoint in H.
  destruct (bool_decide (c ∈ sci2segment_contacts st)); [|discriminate].
  pose proof (segment_replace_cost (contacts st c) src dst) as Hcost.
  destruct (segment_replace (contacts st c) src dst) as [sc replaced].
  cbn [fst] in Hcost.
  assert (Hok1 : priority_ok (set_contacts st (upd (contacts st) c sc))).
  { eapply priority_ok_same; [| | |exact Hok]; state_simpl; try done.
    intros k. by apply upd_cost_same. }
  destruct replaced; [|by injection H as <-].
  destruct (bool_decide (sc_segment0 sc = sc_segment1 sc)).
  - apply bind_Ok_inv in H as (st1 & H1 & H).
    destruct (bool_decide (src = dst)); [discriminate|]. injection H as <-.
    by apply _remove_segment_contact_priority in H1 as [? _].
  - injection H as <-.
    eapply priority_ok_same; [| | |exact Hok1]; by state_simpl.
Qed.

Lemma absorb_priority (merged_sc : Z) (st st' : EngineState) (c : Z) :
  priority_ok st → absorb merged_sc st c = Ok st' → priority_ok st'.
Proof.
  intros Hok H. unfold absorb in H.
  apply _remove_segment_contact_priority in H as [? _]; [done|].
  eapply priority_ok_same; [| | |exact Hok]; state_simpl; try done.
  intros k. by apply upd_cost_same.
Qed.

Lemma fold_parallel_priority sqrt SQRT_PI ord p (st st' : EngineState) (g : gset Z) :
  priority_ok st → fold_parallel sqrt SQRT_PI ord p st g = Ok st' → priority_ok st'.
Proof.
  intros Hok H. unfold fold_parallel in H.
  destruct (size g <=? 1)%nat; [by injection H as <-|].
  destruct (iter_set ord g) as [|merged_sc rest]; [by injection H as <-|].
  apply bind_Ok_inv in H as (st1 & H1 & H).
  apply (for_each_invariant priority_ok) in H1;
    [|intros ? ? ? _; apply absorb_priority|exact Hok].
  destruct H1 as (Hs & Hnd & Hel).
  set (a := cost_sorted_segment_contacts st1) in *.
  destruct (find_in_sorted (contacts st1) a merged_sc Hs) as [Hfound Hmissing].
  set (st2 := match find_from a _ merged_sc with Some i => _ | None => _ end) in H.
  assert (Hst2 : segs st2 = segs st1 ∧ contacts st2 = contacts st1
                 ∧ sci2segment_contacts st2 = sci2segment_contacts st1
                 ∧ cost_sorted_segment_contacts st2 = a
                 ∧ ∀ i, loop_i st2 = Some i →
                        a !! i = Some merged_sc ∨ merged_sc ∉ a).
  { subst st2. destruct (decide (merged_sc ∈ a)) as [Hin|Hin].
    - destruct (Hfound Hin) as (i & -> & Hi). state_simpl.
      repeat split. intros ? [= <-]. by left.
    - rewrite (Hmissing Hin). destruct (_ <? _)%nat; state_simpl;
        repeat split; intros; by right. }
  destruct Hst2 as (Esegs & Econt & Ekeys & Elist & Hloop).
  apply bind_Ok_inv in H as (cn & _ & H). state_simpl.
  destruct (loop_i st2) as [i|] eqn:Ei; [|discriminate].
  destruct (a !! i) as [x|] eqn:Ex; [|discriminate].
  injection H as <-. unfold priority_ok. state_simpl. rewrite Econt, Ekeys.
  set (cs' := upd (contacts st1) merged_sc
                (set_cost_normalized (contacts st1 merged_sc) cn)).
  assert (Hnot : merged_sc ∉ delete i a).
  { rewrite (elem_of_delete_NoDup a i x merged_sc Hnd Ex).
    destruct (Hloop i eq_refl) as [Hi|Hi]; [|tauto].
    rewrite Hi in Ex. injection Ex as <-. tauto. }
  assert (Hperm : insort_left cs' (delete i a) x ≡ₚ a).
  { rewrite insort_left_Permutation. symmetry. by apply delete_Permutation. }
  split; [|split].
  - apply insort_left_sorted.
    apply (cost_sorted_ext (contacts st1)); [|by apply cost_sorted_delete].
    intros c Hc. unfold cs', upd. case_bool_decide; [by subst|done].
  - by rewrite Hperm.
  - intros c. rewrite Hperm. apply Hel.
Qed.

Lemma repair_priority sqrt SQRT_PI ord p shift (st st' : EngineState) (dst : Z) :
  priority_ok st → repair sqrt SQRT_PI ord p shift st dst = Ok st' → priority_ok st'.
Proof.
  intros Hok H. unfold repair in H.
  apply bind_Ok_inv in H as (st1 & H1 & H).
  apply bind_Ok_inv in H as (groups & _ & H).
  apply (for_each_invariant priority_ok) in H;
    [done|intros ? ? ? _; apply fold_parallel_priority|].
  destruct (is_not_perimeter_cost_factor_0 p); [|by injection H1 as <-].
  apply bind_Ok_inv in H1 as (total & _ & H1). injection H1 as <-.
  eapply priority_ok_same; [| | |exact Hok]; by state_simpl.
Qed.

Lemma scan_iter_priority sqrt SQRT_PI ord p shift (st st' : EngineState) (sci : Z)
    (ctl : control) (accepted : bool) :
  priority_ok st →
  scan_iter sqrt SQRT_PI ord p shift st sci = Ok (ctl, accepted, st') →
  priority_ok st'.
Proof.
  intros Hok H.
  apply scan_iter_inv in H as [(_ & -> & _)|(_ & _ & _ & st1 & st2 & H1 & H2 & H)];
    [done|].
  apply _remove_segment_contact_priority in H1 as [Hok1 _].
  2:{ eapply priority_ok_same; [| | |exact Hok]; by state_simpl. }
  apply (for_each_invariant priority_ok) in H2;
    [|intros ? ? ? _; apply repoint_priority|exact Hok1].
  destruct H as [(_ & _ & ->)|(_ & _ & H)].
  - eapply priority_ok_same; [| | |exact H2]; by state_simpl.
  - by apply repair_priority in H.
Qed.

(** An invariant of the scan body is an invariant of the scan, of a
    pass and of the merge loop. *)
Lemma scan_invariant (I : EngineState → Prop) sqrt SQRT_PI ord p shift :
  (∀ st sci ctl accepted st',
     I st → sci ∈ cost_sorted_segment_contacts st →
     scan_iter sqrt SQRT_PI ord p shift st sci = Ok (ctl, accepted, st') → I st') →
  ∀ fuel k merging st merging' st',
  I st → scan sqrt SQRT_PI ord p shift fuel k merging st = Ok (merging', st') →
  I st'.
Proof.
  intros Hbody. induction fuel as [|fuel IH]; intros k mg st mg' st' HI H; [done|].
  cbn [scan] in H.
  destruct (cost_sorted_segment_contacts st !! k) as [sci|] eqn:Ek;
    [|by injection H as <- <-].
  apply bind_Ok_inv in H as ([[ctl acc] st1] & H1 & H).
  assert (I st1) as HI1.
  { eapply Hbody; [exact HI| |exact H1]. by eapply list_elem_of_lookup_2. }
  destruct ctl; [by injection H as <- <-|]. by eapply IH.
Qed.

Lemma merge_loop_invariant (I : EngineState → Prop) sqrt SQRT_PI ord p shift :
  (∀ st sci ctl accepted st',
     I st → sci ∈ cost_sorted_segment_contacts st →
     scan_iter sqrt SQRT_PI ord p shift st sci = Ok (ctl, accepted, st') → I st') →
  ∀ fuel st st',
  I st → merge_loop sqrt SQRT_PI ord p shift fuel st = Ok st' → I st'.
Proof.
  intros Hbody. induction fuel as [|fuel IH]; intros st st' HI H; [done|].
  cbn [merge_loop] in H.
  apply bind_Ok_inv in H as ([mg st1] & H1 & H).
  assert (I st1) as HI1 by (by eapply scan_invariant).
  destruct mg; [by eapply IH|by injection H as <-].
Qed.

(** ** The graph the builder hands over *)

Lemma build_ok_ext (b b' : BuildState) :
  b_sci_keys b' = b_sci_keys b →
  b_next_segment_contact_id b' = b_next_segment_contact_id b →
  b_next_segment_id b' = b_next_segment_id b →
  b_tli2segment b' = b_tli2segment b →
  (∀ s, seg_segment_contact_ids (b_segs b' s) = seg_segment_contact_ids (b_segs b s)) →
  (∀ k, sc_segment0 (b_contacts b' k) = sc_segment0 (b_contacts b k)
        ∧ sc_segment1 (b_contacts b' k) = sc_segment1 (b_contacts b k)) →
  build_ok b → build_ok b'.
Proof.
  intros Ek Ec Es Et Eids Eends (H1 & H2 & H3 & H4 & H5 & H6).
  unfold build_ok. rewrite Ek, Ec, Es, Et.
  split; [done|]. split; [done|]. split; [done|]. split; [done|]. split.
  - intros k Hk. destruct (Eends k) as [-> ->]. rewrite !Eids. by apply H5.
  - intros s k. destruct (Eends k) as [-> ->]. rewrite Eids. apply H6.
Qed.

Lemma upd_same {A : Type} (f : Z → A) (k : Z) (v : A) : upd f k v k = v.
Proof. unfold upd. by rewrite bool_decide_eq_true_2. Qed.

Lemma upd_other {A : Type} (f : Z → A) (k i : Z) (v : A) :
  i ≠ k → upd f k v i = f i.
Proof. intros. unfold upd. by rewrite bool_decide_eq_false_2. Qed.

Lemma upd_ids_same (sg : Z → Segment) (x : Z) (s' : Segment) (s : Z) :
  seg_segment_contact_ids s' = seg_segment_contact_ids (sg x) →
  seg_segment_contact_ids (upd sg x s' s) = seg_segment_contact_ids (sg s).
Proof.
  intros E. destruct (decide (s = x)) as [->|Hne];
    [by rewrite upd_same|by rewrite upd_other].
Qed.

Lemma elem_of_seq_keys (n : nat) (k : Z) :
  k ∈ map Z.of_nat (seq 1 n) ↔ 1 ≤ k ≤ Z.of_nat n.
Proof.
  rewrite list_elem_of_fmap. split.
  - intros (i & -> & Hi). apply elem_of_seq in Hi. lia.
  - intros Hk. exists (Z.to_nat k). split; [lia|]. apply elem_of_seq. lia.
Qed.

Lemma tli2segment_get_ok (b b' : BuildState) (tli s : Z) :
  build_ok b → tli2segment_get b tli = (s, b') →
  build_ok b' ∧ 1 ≤ s ≤ b_next_segment_id b'
  ∧ b_next_segment_id b ≤ b_next_segment_id b'.
Proof.
  intros Hok H. pose proof Hok as (H1 & H2 & H3 & H4 & H5 & H6).
  unfold tli2segment_get in H.
  destruct (b_tli2segment b !! tli) as [s0|] eqn:E.
  - injection H as <- <-. split; [done|]. split; [by eapply H4|lia].
  - injection H as <- <-. cbn. split; [|lia].
    assert (Hfresh : ∀ e, 1 ≤ e ≤ b_next_segment_id b →
                          upd (b_segs b) (b_next_segment_id b + 1) new_Segment e
                          = b_segs b e).
    { intros e He. apply upd_other. lia. }
    unfold build_ok. cbn.
    split; [done|]. split; [done|]. split.
    { rewrite map_size_insert_None by done. lia. }
    split.
    { intros t s Ht. destruct (decide (t = tli)) as [->|Hne].
      - rewrite lookup_insert_eq in Ht. injection Ht as <-. lia.
      - rewrite lookup_insert_ne in Ht by done. apply H4 in Ht. lia. }
    split.
    + intros k Hk. destruct (H5 k Hk) as (Ha & Hb & Hc & Hd).
      rewrite !Hfresh by done. repeat split; try done; lia.
    + intros s k Hk.
      destruct (decide (s = b_next_segment_id b + 1)) as [->|Hne].
      * rewrite upd_same in Hk. cbn in Hk. set_solver.
      * rewrite upd_other in Hk by done. by apply H6.
Qed.

Lemma b_add_contact_ok (b : BuildState) (cost_total cn edge_length : Q)
    (this_segment that_segment : Z) :
  build_ok b →
  1 ≤ this_segment ≤ b_next_segment_id b →
  1 ≤ that_segment ≤ b_next_segment_id b →
  build_ok (b_add_contact b cost_total cn edge_length this_segment that_segment).
Proof.
  intros (H1 & H2 & H3 & H4 & H5 & H6) Hthis Hthat.
  set (id := b_next_segment_contact_id b + 1).
  assert (Hold : ∀ k, k ∈ b_sci_keys b → k ≠ id).
  { intros k Hk. rewrite H1 in Hk. apply elem_of_seq_keys in Hk. unfold id. lia. }
  assert (Hids : ∀ s,
    seg_segment_contact_ids
      (b_segs (b_add_contact b cost_total cn edge_length this_segment that_segment) s)
    = seg_segment_contact_ids (b_segs b s)
      ∪ (if decide (s = this_segment ∨ s = that_segment) then {[id]} else ∅)).
  { intros s. unfold b_add_contact. cbn. fold id.
    destruct (decide (s = that_segment)) as [->|Hn2].
    - rewrite upd_same. cbn. rewrite decide_True by auto.
      destruct (decide (that_segment = this_segment)) as [->|Hn1].
      + rewrite upd_same. cbn. set_solver.
      + by rewrite upd_other by done.
    - rewrite upd_other by done.
      destruct (decide (s = this_segment)) as [->|Hn1].
      + rewrite upd_same. cbn. by rewrite decide_True by auto.
      + rewrite upd_other by done. rewrite decide_False by tauto. set_solver. }
  unfold build_ok. setoid_rewrite Hids. unfold b_add_contact. cbn. fold id.
  rewrite length_app. cbn [length].
  split.
  { replace (length (b_sci_keys b) + 1)%nat with (S (length (b_sci_keys b))) by lia.
    rewrite seq_S, map_app. cbn. rewrite <- H1. do 2 f_equal. unfold id. lia. }
  split; [unfold id; lia|]. split; [done|]. split; [done|]. split.
  - intros k Hk. apply elem_of_app in Hk as [Hk|Hk].
    + rewrite upd_other by (by apply Hold).
      destruct (H5 k Hk) as (Ha & Hb & Hc & Hd).
      repeat split; try done; set_solver.
    + apply list_elem_of_singleton in Hk as ->. rewrite upd_same. cbn.
      repeat split; try lia.
      * rewrite decide_True by auto. set_solver.
      * rewrite decide_True by auto. set_solver.
  - intros s k Hk. apply elem_of_union in Hk as [Hk|Hk].
    + destruct (H6 s k Hk) as [Hin Hend].
      rewrite upd_other by (by apply Hold). split; [|done].
      apply elem_of_app. by left.
    + destruct (decide (s = this_segment ∨ s = that_segment)) as [Hs|Hs];
        [|set_solver].
      apply elem_of_singleton in Hk as ->. rewrite upd_same. cbn.
      split; [apply elem_of_app; right; apply list_elem_of_here|].
      destruct Hs as [->| ->]; auto.
Qed.

Lemma radial_body_ok hpi p m vi2 vshift lshift this_face this_segment this_heaviest
    this_loop (st st' : LoopState) (that_loop : Z) :
  build_ok st.1.1 ∧ 1 ≤ this_segment ≤ b_next_segment_id st.1.1 →
  radial_body hpi p m vi2 vshift lshift this_face this_segment this_heaviest
    this_loop st that_loop = Ok st' →
  build_ok st'.1.1 ∧ 1 ≤ this_segment ≤ b_next_segment_id st'.1.1.
Proof.
  destruct st as [[b info] cp]. cbn [fst]. intros [Hok Hthis] H.
  unfold radial_body in H.
  destruct (bool_decide _); [by injection H as <-|].
  assert (Hok0 : ∀ x, build_ok (b_set_processed b x)).
  { intros x. by eapply build_ok_ext; [..|exact Hok]. }
  destruct (negb _); [injection H as <-; cbn; by split|].
  revert H.
  set (b0 := b_set_processed b _).
  assert (Hb0 : build_ok b0 ∧ b_next_segment_id b0 = b_next_segment_id b)
    by (split; [apply Hok0|done]).
  clearbody b0.
  assert (Hgo : ∀ (b1 : BuildState) (ei : EdgeInfo),
    build_ok b1 ∧ b_next_segment_id b1 = b_next_segment_id b →
    (let edge_length := e_edge_length ei in
     let that_tli := _to_tri_loop_index m that_loop in
     let '(that_heaviest, hmemo) :=
       _calc_heaviest_vertex_group_index m vi2 (b_tli2heaviest_vgi b1) that_tli
         that_loop in
     let b2 := b_set_tli2heaviest_vgi b1 hmemo in
     let that_vert2 := loop_vert m (link_loop_prev m that_loop) in
     let '(that_segment, b3) := tli2segment_get b2 that_tli in
     let '(cost_vgw, memo) :=
       cost_vertex_group_weight vi2 vshift (b_vpi2weights b3) edge_length
         (e_this_loop_vertex_group_weight_cost ei) (e_vert0 ei) (e_vert1 ei)
         that_vert2 in
     let b4 := b_set_vpi2weights b3 memo in
     let cost_vertex_group_change :=
       (edge_length * (if bool_decide (this_heaviest = that_heaviest) then 0 else 1))%Q in
     let cost_face_angle :=
       (edge_length * hpi * normal_angle m this_loop that_loop)%Q in
     let cost_material_change :=
       (edge_length
        * (if bool_decide (face_material_index m this_face
                           = face_material_index m (loop_face m that_loop))
           then 0 else 1))%Q in
     let cost_total :=
       (0 + vertex_group_weight_cost_factor p * cost_vgw
        + vertex_group_change_cost_factor p * cost_vertex_group_change
        + face_angle_cost_factor p * cost_face_angle
        + material_change_cost_factor p * cost_material_change
        + edge_sharp_cost_factor p * e_cost_edge_sharp ei
        + edge_seam_cost_factor p * e_cost_edge_seam ei)%Q in
     cn ← fdiv cost_total
            (if Qgtb (contact_length_factor p) 0
             then (edge_length * contact_length_factor p)%Q else 1%Q);
     Ok (b_add_contact b4 cost_total cn edge_length this_segment that_segment,
         Some ei, (cp + edge_length)%Q)) = Ok st' →
    build_ok st'.1.1 ∧ 1 ≤ this_segment ≤ b_next_segment_id st'.1.1).
  { intros b1 ei [Hok1 Hn1]. cbv zeta.
    destruct (_calc_heaviest_vertex_group_index _ _ _ _ _) as [h hm].
    destruct (tli2segment_get _ _) as [that b3] eqn:Eget.
    destruct (cost_vertex_group_weight _ _ _ _ _ _ _ _) as [c mm].
    intros H. apply bind_Ok_inv in H as (cn & _ & H). injection H as <-.
    cbn [fst].
    apply tli2segment_get_ok in Eget as (Hok3 & Hthat & Hle).
    2:{ by eapply build_ok_ext; [..|exact Hok1]. }
    cbn in Hle. split; [|cbn; lia].
    apply b_add_contact_ok; [by eapply build_ok_ext; [..|exact Hok3]| |]; cbn; lia. }
  destruct info as [ei|].
  - apply Hgo. exact Hb0.
  - destruct (this_loop_vertex_group_weight_cost _ _ _ _ _ _) as [c0 m0].
    apply Hgo. destruct Hb0 as [Hb0 En]. split; [|exact En].
    by eapply build_ok_ext; [..|exact Hb0].
Qed.

Lemma tri_body_ok hpi p m vi2 vshift lshift (b b' : BuildState)
    (tri_loop : Z * Z * Z) :
  build_ok b → tri_body hpi p m vi2 vshift lshift b tri_loop = Ok b' → build_ok b'.
Proof.
  intros Hok H. unfold tri_body in H. destruct tri_loop as [[l0 l1] l2].
  destruct (negb _); [by injection H as <-|].
  destruct (_calc_heaviest_vertex_group_index _ _ _ _ _) as [h hm].
  destruct (tli2segment_get _ _) as [this b1] eqn:Eget.
  apply tli2segment_get_ok in Eget as (Hok1 & Hthis & _).
  2:{ by eapply build_ok_ext; [..|exact Hok]. }
  apply bind_Ok_inv in H as ([b2 cp] & Hloop & H). injection H as <-.
  apply (for_each_invariant
           (λ st : BuildState * Q,
              build_ok st.1 ∧ 1 ≤ this ≤ b_next_segment_id st.1)) in Hloop.
  - cbn [fst] in Hloop. destruct Hloop as [Hok2 _].
    eapply build_ok_ext; [..|exact Hok2]; try done.
    intros s. cbn. by apply upd_ids_same.
  - intros [b3 cp3] l [b4 cp4] _ Hinv Hbody. unfold loop_body in Hbody.
    apply bind_Ok_inv in Hbody as ([[b5 info] cp5] & Hrad & Hbody).
    injection Hbody as <- <-. cbn [fst snd] in *.
    apply (for_each_invariant
             (λ st : LoopState,
                build_ok st.1.1 ∧ 1 ≤ this ≤ b_next_segment_id st.1.1)) in Hrad;
      [exact Hrad| |exact Hinv].
    intros st0 that st1 _. apply radial_body_ok.
  - cbn [fst]. split; [|exact Hthis].
    eapply build_ok_ext; [..|exact Hok1]; try done.
    intros s. cbn. by apply upd_ids_same.
Qed.

Lemma add_perimeter_cost_ok sqrt SQRT_PI p (b b' : BuildState) (sci : Z) :
  build_ok b → add_perimeter_cost sqrt SQRT_PI p b sci = Ok b' → build_ok b'.
Proof.
  intros Hok H. unfold add_perimeter_cost in H.
  apply bind_Ok_inv in H as (c & _ & H). injection H as <-.
  eapply build_ok_ext; [..|exact Hok]; try done.
  intros k. cbn. unfold upd. by case_bool_decide; subst.
Qed.

Lemma init_BuildState_ok : build_ok init_BuildState.
Proof.
  unfold build_ok, init_BuildState. cbn.
  repeat split; try done; try (intros; set_solver).
Qed.

Lemma _calc_segment_contacts_ok sqrt SQRT_PI hpi p vi2 m tris (b : BuildState) (n : Z) :
  _calc_segment_contacts sqrt SQRT_PI hpi p vi2 m tris = Ok (b, n) →
  build_ok b ∧ n = b_next_segment_id b.
Proof.
  intros H. unfold _calc_segment_contacts in H.
  apply bind_Ok_inv in H as (vshift & _ & H).
  apply bind_Ok_inv in H as (lshift & _ & H).
  apply bind_Ok_inv in H as (b1 & Htri & H).
  apply bind_Ok_inv in H as (b2 & Hper & H). injection H as <- <-.
  apply (for_each_invariant build_ok) in Htri;
    [|intros ? ? ? _; apply tri_body_ok|apply init_BuildState_ok].
  assert (Hok2 : build_ok b2).
  { destruct (negb _); [|by injection Hper as <-].
    apply (for_each_invariant build_ok) in Hper;
      [done|intros ? ? ? _; apply add_perimeter_cost_ok|exact Htri]. }
  split; [exact Hok2|]. by destruct Hok2 as (_ & _ & -> & _).
Qed.

Lemma insert_stable_sorted (cs : Z → SegmentContact) (x : Z) (l : list Z) :
  cost_sorted cs l → cost_sorted cs (insert_stable cs x l) ∧ insert_stable cs x l ≡ₚ x :: l.
Proof.
  unfold cost_sorted. induction l as [|y l IH]; intros Hs; cbn [insert_stable].
  - split; [repeat constructor|done].
  - apply StronglySorted_cons in Hs as Hs'. destruct Hs' as [Hall Hl].
    destruct (Qltb _ _) eqn:E.
    + apply Qltb_true in E. destruct (IH Hl) as [IH1 IH2]. split.
      * constructor; [exact IH1|]. rewrite IH2. constructor; [|exact Hall].
        by apply Qlt_le_weak.
      * rewrite IH2. apply perm_swap.
    + apply Qltb_false in E. split; [|done].
      constructor; [exact Hs|]. constructor; [exact E|].
      rewrite Forall_forall in *. intros z Hz.
      unfold by_cost in *. eapply Qle_trans; [exact E|]. by apply Hall.
Qed.

Lemma sorted_by_cost_spec (cs : Z → SegmentContact) (values : list Z) :
  cost_sorted cs (sorted_by_cost cs values) ∧ sorted_by_cost cs values ≡ₚ values.
Proof.
  unfold sorted_by_cost. induction values as [|x l [IH1 IH2]]; cbn [fold_right].
  - split; [constructor|done].
  - destruct (insert_stable_sorted cs x _ IH1) as [H1 H2].
    split; [exact H1|]. by rewrite H2, IH2.
Qed.

Lemma start_state_ok (b : BuildState) :
  build_ok b →
  priority_ok (start_state b) ∧ contacts_registered (start_state b)
  ∧ registrations_exact (start_state b).
Proof.
  intros (H1 & H2 & H3 & H4 & H5 & H6).
  destruct (sorted_by_cost_spec (b_contacts b) (b_sci_keys b)) as [Hs Hp].
  unfold priority_ok, contacts_registered, registrations_exact, start_state. cbn.
  split; [split; [exact Hs|split]|split].
  - rewrite Hp, H1. apply NoDup_fmap_2; [intros ? ? ?; lia|apply NoDup_seq].
  - intros c. by rewrite Hp, elem_of_list_to_set.
  - intros i Hi. apply elem_of_list_to_set in Hi.
    by destruct (H5 i Hi) as (_ & _ & ? & ?).
  - intros s k Hk. rewrite elem_of_list_to_set. by apply H6.
Qed.

(** X16: the graph [_calc_segment_contacts] returns.  Contacts are
    numbered 1, 2, ... in creation order and the returned count is the
    number of segments, numbered 1, 2, ...; every contact joins two of
    these segments and is registered on both, and a segment registers
    only contacts that end on it.  Sorted by normalised cost, the
    contacts form a priority list that holds each of them once. *)
Theorem X16_built_graph sqrt SQRT_PI hpi p vi2 m tris (b : BuildState) (n : Z) :
  _calc_segment_contacts sqrt SQRT_PI hpi p vi2 m tris = Ok (b, n) →
  build_ok b
  ∧ n = Z.of_nat (size (b_tli2segment b))
  ∧ priority_ok (start_state b)
  ∧ contacts_registered (start_state b)
  ∧ registrations_exact (start_state b).
Proof.
  intros H. apply _calc_segment_contacts_ok in H as [Hok ->].
  split; [exact Hok|]. split; [by destruct Hok as (_ & _ & -> & _)|].
  by apply start_state_ok.
Qed.

Lemma X16_built_graph_witness :
  build_ok fan_graph.1
  ∧ fan_graph.2 = Z.of_nat (size (b_tli2segment fan_graph.1))
  ∧ priority_ok (start_state fan_graph.1)
  ∧ contacts_registered (start_state fan_graph.1)
  ∧ registrations_exact (start_state fan_graph.1).
Proof.
  apply (X16_built_graph approx_sqrt approx_SQRT_PI (2 # 3) (test_params 10 2 1)
           (_calc_vi2vgi2weights (deform_weights fan)
              (ignore_vertex_group_indices (test_params 10 2 1)))
           fan (calc_loop_triangles fan) fan_graph.1 fan_graph.2).
  vm_compute. reflexivity.
Defined.

(** ** Removing a contact *)

Lemma discard_ids (sg : Z → Segment) (x c s : Z) :
  seg_segment_contact_ids (discard_contact_id sg x c s)
  = if decide (s = x) then seg_segment_contact_ids (sg s) ∖ {[c]}
    else seg_segment_contact_ids (sg s).
Proof.
  unfold discard_contact_id. destruct (decide (s = x)) as [->|Hne].
  - by rewrite upd_same.
  - by rewrite upd_other.
Qed.

(** X17: [_remove_segment_contact] raises [KeyError] exactly on an id
    that is no key of the contact dict.  On a key, and with the priority
    list sorted and holding the live contacts once each, it removes the
    id from the dict, from the contact sets of both endpoints and from
    the priority list, changes no contact and no other contact set, and
    leaves the list sorted and in step with the dict. *)
Theorem X17_remove_segment_contact (st : EngineState) (sci : Z) :
  priority_ok st →
  match _remove_segment_contact st sci with
  | Raise e => e = KeyError ∧ sci ∉ sci2segment_contacts st
  | Ok st' =>
      sci ∈ sci2segment_contacts st
      ∧ sci2segment_contacts st' = sci2segment_contacts st ∖ {[sci]}
      ∧ (∀ c, c ∈ cost_sorted_segment_contacts st'
              ↔ c ∈ cost_sorted_segment_contacts st ∧ c ≠ sci)
      ∧ (∀ s, seg_segment_contact_ids (segs st' s)
              = if decide (s = sc_segment0 (contacts st sci)
                           ∨ s = sc_segment1 (contacts st sci))
                then seg_segment_contact_ids (segs st s) ∖ {[sci]}
                else seg_segment_contact_ids (segs st s))
      ∧ contacts st' = contacts st
      ∧ priority_ok st'
  end.
Proof.
  intros Hok. destruct (_remove_segment_contact st sci) as [st'|e] eqn:E.
  - pose proof (_remove_segment_contact_priority st st' sci Hok E) as (Hok' & _ & _).
    apply _remove_segment_contact_spec in E as (Hin & Hkeys & Hcont & Hsegs & _).
    split; [exact Hin|]. split; [exact Hkeys|]. split; [|split; [|by split]].
    + intros c. destruct Hok as (_ & _ & Hel). destruct Hok' as (_ & _ & Hel').
      rewrite Hel', Hel, Hkeys. set_solver.
    + intros s. rewrite Hsegs, !discard_ids.
      destruct (decide (s = sc_segment1 (contacts st sci)));
        destruct (decide (s = sc_segment0 (contacts st sci)));
        destruct (decide (_ ∨ _)); try tauto; set_solver.
  - unfold _remove_segment_contact in E. case_bool_decide as Hin.
    + by destruct (find_from _ _ _).
    + by injection E as <-.
Qed.

Lemma two_segments_state_priority : priority_ok two_segments_state.
Proof.
  unfold priority_ok, cost_sorted. cbn. split; [|split].
  - repeat constructor.
  - apply NoDup_singleton.
  - intros c. set_solver.
Qed.

Lemma X17_remove_segment_contact_witness :
  match _remove_segment_contact two_segments_state 1 with
  | Raise e => e = KeyError ∧ 1 ∉ sci2segment_contacts two_segments_state
  | Ok st' =>
      1 ∈ sci2segment_contacts two_segments_state
      ∧ sci2segment_contacts st' = sci2segment_contacts two_segments_state ∖ {[1]}
      ∧ (∀ c, c ∈ cost_sorted_segment_contacts st'
              ↔ c ∈ cost_sorted_segment_contacts two_segments_state ∧ c ≠ 1)
      ∧ (∀ s, seg_segment_contact_ids (segs st' s)
              = if decide (s = sc_segment0 (contacts two_segments_state 1)
                           ∨ s = sc_segment1 (contacts two_segments_state 1))
                then seg_segment_contact_ids (segs two_segments_state s) ∖ {[1]}
                else seg_segment_contact_ids (segs two_segments_state s))
      ∧ contacts st' = contacts two_segments_state
      ∧ priority_ok st'
  end.
Proof.
  apply (X17_remove_segment_contact two_segments_state 1).
  apply two_segments_state_priority.
Defined.

(** ** What the merge loop leaves *)

(** A scan that accepts nothing changes nothing, and every contact from
    its position on is over the threshold or rejected by the area
    guard. *)
Lemma scan_quiet sqrt SQRT_PI ord p shift (fuel : nat) :
  ∀ k st st',
  cost_sorted (contacts st) (cost_sorted_segment_contacts st) →
  scan sqrt SQRT_PI ord p shift fuel k false st = Ok (false, st') →
  st' = st
  ∧ ∀ j c, (k ≤ j)%nat → cost_sorted_segment_contacts st !! j = Some c →
           unmergeable p st c.
Proof.
  induction fuel as [|fuel IH]; intros k st st' Hs H; [done|].
  cbn [scan] in H.
  destruct (cost_sorted_segment_contacts st !! k) as [sci|] eqn:Ek.
  2:{ injection H as <-. split; [done|]. intros j c Hj Hc.
      apply lookup_ge_None_1 in Ek. apply lookup_lt_Some in Hc. lia. }
  apply bind_Ok_inv in H as ([[ctl acc] st1] & H1 & H).
  apply scan_iter_inv in H1 as [(-> & -> & Hcase)|(-> & _)].
  - destruct Hcase as [(-> & Hthr)|(-> & Hthr & Hrej)].
    + injection H as <-. split; [done|]. intros j c Hj Hc. left.
      destruct (decide (j = k)) as [->|Hne].
      * rewrite Ek in Hc. by injection Hc as <-.
      * apply Qgtb_true. apply Qgtb_true in Hthr.
        eapply Qlt_le_trans; [exact Hthr|].
        apply (StronglySorted_lookup _ _ Hs k j sci c); [lia|done|done].
    + cbn [orb] in H. destruct (IH _ _ _ Hs H) as [-> Hrest].
      split; [done|]. intros j c Hj Hc.
      destruct (decide (j = k)) as [->|Hne].
      * rewrite Ek in Hc. injection Hc as <-. by right.
      * apply (Hrest j c); [lia|done].
  - destruct ctl; [cbn in H; discriminate H|].
    cbn [orb] in H. by apply scan_merging_mono in H.
Qed.

(** The merge loop keeps the priority invariant and stops only when no
    contact of the list can be merged. *)
Lemma merge_loop_fixed_point sqrt SQRT_PI ord p shift (fuel : nat) :
  ∀ st st',
  priority_ok st → merge_loop sqrt SQRT_PI ord p shift fuel st = Ok st' →
  priority_ok st'
  ∧ ∀ c, c ∈ cost_sorted_segment_contacts st' → unmergeable p st' c.
Proof.
  induction fuel as [|fuel IH]; intros st st' Hok H; [done|].
  cbn [merge_loop] in H.
  apply bind_Ok_inv in H as ([mg st1] & H1 & H).
  assert (Hok1 : priority_ok st1).
  { apply (scan_invariant priority_ok sqrt SQRT_PI ord p shift) in H1; [done| |done].
    intros ? ? ? ? ? ? _. by apply scan_iter_priority. }
  destruct mg; [by eapply IH|]. injection H as <-.
  unfold pass in H1. apply scan_quiet in H1 as [-> Hq]; [|by destruct Hok].
  split; [exact Hok|]. intros c Hc.
  apply list_elem_of_lookup_1 in Hc as [j Hj]. apply (Hq j c); [lia|done].
Qed.

Lemma auto_segment_remaining sqrt SQRT_PI hpi ord m p (r : SegmentResult) :
  auto_segment sqrt SQRT_PI hpi ord m p = Ok r →
  ∃ st, remain_segment_contacts r = cost_sorted_segment_contacts st
        ∧ r_contacts r = contacts st ∧ r_segs r = segs st
        ∧ priority_ok st
        ∧ ∀ c, c ∈ cost_sorted_segment_contacts st → unmergeable p st c.
Proof.
  unfold auto_segment. intros H.
  apply bind_Ok_inv in H as ([b n] & Hb & H).
  destruct (n =? 0).
  { injection H as <-.
    exists (mkEngineState (b_segs b) (b_contacts b) ∅ [] ∅ 0 0 None []).
    cbn. split; [done|]. split; [done|]. split; [done|].
    split; [|intros c Hc; by apply elem_of_nil in Hc].
    unfold priority_ok. cbn. split; [constructor|]. split; [apply NoDup_nil_2|].
    intros c. set_solver. }
  apply bind_Ok_inv in H as (shift & _ & H).
  apply bind_Ok_inv in H as (st & Hloop & H). injection H as <-. cbn.
  apply _calc_segment_contacts_ok in Hb as [Hok _].
  apply start_state_ok in Hok as [Hprio _].
  apply merge_loop_fixed_point in Hloop as [Hok' Hfix]; [|exact Hprio].
  by exists st.
Qed.

(** X18: the remaining contacts [auto_segment] returns are sorted by
    normalised cost, in non-decreasing order, and none occurs twice. *)
Theorem X18_remaining_contacts_sorted sqrt SQRT_PI hpi ord m p (r : SegmentResult) :
  auto_segment sqrt SQRT_PI hpi ord m p = Ok r →
  cost_sorted (r_contacts r) (remain_segment_contacts r)
  ∧ NoDup (remain_segment_contacts r).
Proof.
  intros H. apply auto_segment_remaining in H as (st & -> & -> & _ & Hok & _).
  by destruct Hok as (? & ? & _).
Qed.

Lemma fan_result_run :
  auto_segment approx_sqrt approx_SQRT_PI (2 # 3) descending fan (test_params 10 2 1)
  = Ok fan_result.
Proof. vm_compute. reflexivity. Qed.

Lemma X18_remaining_contacts_sorted_witness :
  cost_sorted (r_contacts fan_result) (remain_segment_contacts fan_result)
  ∧ NoDup (remain_segment_contacts fan_result).
Proof.
  apply (X18_remaining_contacts_sorted approx_sqrt approx_SQRT_PI (2 # 3) descending
           fan (test_params 10 2 1) fan_result).
  vm_compute. reflexivity.
Defined.

(** X19: when [auto_segment] returns, no remaining contact can be
    merged: each one costs more than the cost threshold or fails the
    area guard on the segments as they are returned. *)
Theorem X19_nothing_mergeable_remains sqrt SQRT_PI hpi ord m p (r : SegmentResult)
    (c : Z) :
  auto_segment sqrt SQRT_PI hpi ord m p = Ok r →
  c ∈ remain_segment_contacts r →
  (cost_threshold p < sc_cost_normalized (r_contacts r c))%Q
  ∨ ¬ area_guard p (seg_area (r_segs r (sc_segment0 (r_contacts r c))))
        (seg_area (r_segs r (sc_segment1 (r_contacts r c)))).
Proof.
  intros H Hc. apply auto_segment_remaining in H as (st & E1 & -> & -> & _ & Hfix).
  rewrite E1 in Hc. destruct (Hfix c Hc) as [Hthr|Hrej].
  - left. by apply Qgtb_true.
  - right. by apply area_rejects_true.
Qed.

Lemma X19_nothing_mergeable_remains_witness :
  (cost_threshold (test_params 10 2 1) < sc_cost_normalized (r_contacts fan_result 3))%Q
  ∨ ¬ area_guard (test_params 10 2 1)
        (seg_area (r_segs fan_result (sc_segment0 (r_contacts fan_result 3))))
        (seg_area (r_segs fan_result (sc_segment1 (r_contacts fan_result 3)))).
Proof.
  apply (X19_nothing_mergeable_remains approx_sqrt approx_SQRT_PI (2 # 3) descending
           fan (test_params 10 2 1) fan_result 3).
  - vm_compute. reflexivity.
  - apply (bool_decide_unpack _). vm_compute. exact I.
Defined.

(** ** The cost of the accepted merges *)

Lemma repoint_last (src dst : Z) (st st' : EngineState) (c : Z) :
  repoint src dst st c = Ok st' → last_merged_cost st' = last_merged_cost st.
Proof.
  unfold repoint.
  destruct (bool_decide (c ∈ sci2segment_contacts st)); [|discriminate].
  destruct (segment_replace (contacts st c) src dst) as [sc [|]];
    [|by intros [= <-]].
  destruct (bool_decide (sc_segment0 sc = sc_segment1 sc)).
  - intros H. apply bind_Ok_inv in H as (st1 & H1 & H2).
    destruct (bool_decide (src = dst)); [discriminate|]. injection H2 as <-.
    by apply _remove_segment_contact_spec in H1 as (_ & _ & _ & _ & _ & _ & ->).
  - by intros [= <-].
Qed.

Lemma fold_parallel_last sqrt SQRT_PI ord p (st st' : EngineState) (g : gset Z) :
  fold_parallel sqrt SQRT_PI ord p st g = Ok st' →
  last_merged_cost st' = last_merged_cost st.
Proof.
  unfold fold_parallel.
  destruct (size g <=? 1)%nat; [by intros [= <-]|].
  destruct (iter_set ord g) as [|merged_sc rest]; [by intros [= <-]|].
  intros H. apply bind_Ok_inv in H as (st1 & H1 & H).
  apply (for_each_invariant (λ s, last_merged_cost s = last_merged_cost st)) in H1;
    [|intros s a s' _ Hs Ha|done].
  2:{ unfold absorb in Ha.
      apply _remove_segment_contact_spec in Ha as (_ & _ & _ & _ & _ & _ & ->).
      exact Hs. }
  apply bind_Ok_inv in H as (cn & _ & H).
  destruct (loop_i _) as [i|]; [|discriminate].
  destruct (cost_sorted_segment_contacts st1 !! i) as [x|]; [|discriminate].
  injection H as <-. rewrite <- H1.
  destruct (find_from _ _ _); [done|]. by destruct (_ <? _)%nat.
Qed.

Lemma repair_last sqrt SQRT_PI ord p shift (st st' : EngineState) (dst : Z) :
  repair sqrt SQRT_PI ord p shift st dst = Ok st' →
  last_merged_cost st' = last_merged_cost st.
Proof.
  unfold repair. intros H.
  apply bind_Ok_inv in H as (st1 & H1 & H).
  apply bind_Ok_inv in H as (groups & _ & H).
  apply (for_each_invariant (λ s, last_merged_cost s = last_merged_cost st)) in H;
    [done|intros s a s' _ Hs Ha; by rewrite (fold_parallel_last _ _ _ _ _ _ _ Ha)|].
  destruct (is_not_perimeter_cost_factor_0 p); [|by injection H1 as <-].
  apply bind_Ok_inv in H1 as (total & _ & H1). by injection H1 as <-.
Qed.

Lemma scan_iter_costs sqrt SQRT_PI ord p shift (st st' : EngineState) (sci : Z)
    (ctl : control) (accepted : bool) :
  costs_logged p (merge_log st) (last_merged_cost st) →
  scan_iter sqrt SQRT_PI ord p shift st sci = Ok (ctl, accepted, st') →
  costs_logged p (merge_log st') (last_merged_cost st').
Proof.
  intros [Hall Hlast] H. destruct accepted.
  - pose proof (scan_iter_accepted _ _ _ _ _ _ _ _ _ H) as (_ & _ & _ & Hlog).
    apply scan_iter_inv in H
      as [(? & _)|(_ & Hthr & _ & st1 & st2 & H1 & H2 & H)]; [discriminate|].
    assert (Hcost : last_merged_cost st' = sc_cost_normalized (contacts st sci)).
    { apply _remove_segment_contact_spec in H1 as (_ & _ & _ & _ & _ & _ & E1).
      apply (for_each_invariant
               (λ s, last_merged_cost s = last_merged_cost st1)) in H2;
        [|intros s a s' _ Hs Ha; by rewrite (repoint_last _ _ _ _ _ Ha)|done].
      assert (E3 : last_merged_cost st' = last_merged_cost st2).
      { destruct H as [(_ & _ & ->)|(_ & _ & H)]; [done|].
        by apply repair_last in H. }
      rewrite E3, H2, E1. done. }
    unfold costs_logged. rewrite Hlog, Hcost. split.
    + apply Forall_app. split; [exact Hall|]. apply Forall_singleton. cbn.
      by apply Qgtb_false.
    + rewrite map_app. cbn [map]. by rewrite last_snoc.
  - apply scan_iter_inv in H as [(_ & -> & _)|(? & _)]; [by split|discriminate].
Qed.

(** X20: every merge [auto_segment] accepts has, when it is accepted, a
    normalised cost within the cost threshold, and the returned
    [last_merged_cost] is the cost of the last accepted merge, 0 when
    nothing was merged. *)
Theorem X20_merge_costs sqrt SQRT_PI hpi ord m p (r : SegmentResult) :
  auto_segment sqrt SQRT_PI hpi ord m p = Ok r →
  Forall (λ e, (ev_cost e <= cost_threshold p)%Q) (r_merge_log r)
  ∧ r_last_merged_cost r = default 0%Q (last (map ev_cost (r_merge_log r))).
Proof.
  unfold auto_segment. intros H.
  apply bind_Ok_inv in H as ([b n] & _ & H).
  destruct (n =? 0); [injection H as <-; by split|].
  apply bind_Ok_inv in H as (shift & _ & H).
  apply bind_Ok_inv in H as (st & Hloop & H). injection H as <-. cbn.
  apply (merge_loop_invariant
           (λ s, costs_logged p (merge_log s) (last_merged_cost s))) in Hloop;
    [exact Hloop| |by split].
  intros ? ? ? ? ? ? _. by apply scan_iter_costs.
Qed.

Lemma X20_merge_costs_witness :
  Forall (λ e, (ev_cost e <= cost_threshold (test_params 10 2 1))%Q)
    (r_merge_log fan_result)
  ∧ r_last_merged_cost fan_result
    = default 0%Q (last (map ev_cost (r_merge_log fan_result))).
Proof.
  apply (X20_merge_costs approx_sqrt approx_SQRT_PI (2 # 3) descending
           fan (test_params 10 2 1) fan_result).
  vm_compute. reflexivity.
Defined.

(** ** The merge loop raises no lookup error *)

Lemma ozd_bind {A B : Type} (P : A → Prop) (Q : B → Prop) (x : result A)
    (k : A → result B) :
  only_zero_division P x → (∀ a, x = Ok a → P a → only_zero_division Q (k a)) →
  only_zero_division Q (x ≫= k).
Proof.
  intros Hx Hk. destruct x as [a|e]; [by apply Hk|exact Hx].
Qed.

Lemma ozd_weaken {A : Type} (P Q : A → Prop) (x : result A) :
  (∀ a, x = Ok a → P a → Q a) → only_zero_division P x → only_zero_division Q x.
Proof. intros H. destruct x as [a|e]; [by apply H|done]. Qed.

Lemma graph_inv_keeps (B : Z → Prop) (st st' : EngineState) :
  keeps st st' → (∀ x, exact_at st x → exact_at st' x) →
  graph_inv B st → graph_inv B st'.
Proof.
  intros (Hsub & Hend & Hreg) Htidy (H1 & H2 & H3 & H4).
  split; [|split; [|split]].
  - intros i Hi. destruct (Hend i) as [-> ->].
    destruct (H1 i) as [R0 R1]; [set_solver|]. split; by apply Hreg.
  - intros i Hi. destruct (Hend i) as [-> ->]. apply H2. set_solver.
  - intros i x Hi Ht. apply (H3 i); [set_solver|].
    unfold touches in *. by destruct (Hend i) as [<- <-].
  - intros x Hx. by apply Htidy, H4.
Qed.

Lemma graph_ok_intro (B : Z → Prop) (st : EngineState) :
  priority_ok st → graph_inv B st → graph_ok st.
Proof.
  intros Hp (H1 & H2 & H3 & H4). split; [exact Hp|].
  split; [exact H1|]. split; [exact H2|]. split.
  - intros i x Hi Ht. by exists i.
  - intros x (i & Hi & Ht). apply H4. by apply (H3 i).
Qed.

Lemma _remove_segment_contact_live (st : EngineState) (c : Z) :
  c ∈ sci2segment_contacts st → ∃ st', _remove_segment_contact st c = Ok st'.
Proof.
  intros Hc. unfold _remove_segment_contact.
  rewrite bool_decide_eq_true_2 by done.
  destruct (find_from _ _ _); eauto.
Qed.

Lemma _remove_segment_contact_tidy (st st' : EngineState) (c x : Z) :
  _remove_segment_contact st c = Ok st' → exact_at st x → exact_at st' x.
Proof.
  intros H Hx k Hk.
  apply _remove_segment_contact_spec in H as (_ & Hkeys & Hcont & Hsegs & _).
  rewrite Hsegs, !discard_ids in Hk. rewrite Hkeys, Hcont.
  assert (Hk0 : k ∈ seg_segment_contact_ids (segs st x)).
  { repeat destruct (decide _); set_solver. }
  destruct (Hx k Hk0) as [Hlive Ht]. split; [|exact Ht].
  apply elem_of_difference. split; [exact Hlive|].
  intros Ek. apply elem_of_singleton in Ek. subst k.
  destruct Ht as [Ht|Ht]; subst x;
    repeat destruct (decide _); set_solver.
Qed.

Lemma absorb_tidy (merged_sc : Z) (st st' : EngineState) (c x : Z) :
  absorb merged_sc st c = Ok st' → exact_at st x → exact_at st' x.
Proof.
  unfold absorb. intros H Hx.
  eapply _remove_segment_contact_tidy; [exact H|].
  intros k Hk. state_simpl. destruct (Hx k Hk) as [Hl Ht]. split; [exact Hl|].
  unfold touches, upd in *. by case_bool_decide; subst.
Qed.

Lemma fold_parallel_tidy sqrt SQRT_PI ord p (st st' : EngineState) (g : gset Z)
    (x : Z) :
  fold_parallel sqrt SQRT_PI ord p st g = Ok st' → exact_at st x → exact_at st' x.
Proof.
  unfold fold_parallel.
  destruct (size g <=? 1)%nat; [by intros [= <-]|].
  destruct (iter_set ord g) as [|merged_sc rest]; [by intros [= <-]|].
  intros H Hx. apply bind_Ok_inv in H as (st1 & H1 & H).
  apply (for_each_invariant (λ s, exact_at s x)) in H1;
    [|intros s a s' _ Hs Ha; by eapply absorb_tidy|exact Hx].
  apply bind_Ok_inv in H as (cn & _ & H).
  destruct (loop_i _) as [i|]; [|discriminate].
  destruct (cost_sorted_segment_contacts st1 !! i) as [y|]; [|discriminate].
  injection H as <-. intros k Hk.
  assert (Hk1 : k ∈ seg_segment_contact_ids (segs st1 x)).
  { revert Hk. destruct (find_from _ _ _); [|destruct (_ <? _)%nat]; by state_simpl. }
  destruct (H1 k Hk1) as [Hl Ht].
  split.
  - destruct (find_from _ _ _); [|destruct (_ <? _)%nat]; by state_simpl.
  - unfold touches in *.
    destruct (find_from _ _ _); [|destruct (_ <? _)%nat]; state_simpl;
      unfold upd; by case_bool_decide; subst.
Qed.

Lemma repair_tidy sqrt SQRT_PI ord p shift (st st' : EngineState) (dst x : Z) :
  repair sqrt SQRT_PI ord p shift st dst = Ok st' → exact_at st x → exact_at st' x.
Proof.
  unfold repair. intros H Hx.
  apply bind_Ok_inv in H as (st1 & H1 & H).
  apply bind_Ok_inv in H as (groups & _ & H).
  apply (for_each_invariant (λ s, exact_at s x)) in H;
    [done|intros s a s' _ Hs Ha; by eapply fold_parallel_tidy|].
  destruct (is_not_perimeter_cost_factor_0 p); [|by injection H1 as <-].
  apply bind_Ok_inv in H1 as (total & _ & H1). injection H1 as <-.
  intros k Hk. state_simpl. apply Hx.
  revert Hk. unfold upd. by case_bool_decide; subst.
Qed.
Lemma repoint_step (src dst : Z) (s : EngineState) (c : Z) :
  src ≠ dst → c ∈ sci2segment_contacts s → touches src (contacts s c) →
  sc_segment0 (contacts s c) ≠ sc_segment1 (contacts s c) →
  ∃ s', repoint src dst s c = Ok s'
    ∧ (∀ k, k ≠ c → contacts s' k = contacts s k)
    ∧ (∀ k, k ≠ c → (k ∈ sci2segment_contacts s' ↔ k ∈ sci2segment_contacts s))
    ∧ (∀ x, x ≠ dst →
         seg_segment_contact_ids (segs s' x) = seg_segment_contact_ids (segs s x))
    ∧ (∀ k, k ≠ c →
         (k ∈ seg_segment_contact_ids (segs s' dst)
          ↔ k ∈ seg_segment_contact_ids (segs s dst)))
    ∧ (((c ∉ sci2segment_contacts s')
        ∧ (c ∉ seg_segment_contact_ids (segs s' dst))
        ∧ (∀ x, touches x (contacts s c) → x = src ∨ x = dst))
       ∨ (c ∈ sci2segment_contacts s'
          ∧ c ∈ seg_segment_contact_ids (segs s' dst)
          ∧ (¬ touches src (contacts s' c))
          ∧ touches dst (contacts s' c)
          ∧ sc_segment0 (contacts s' c) ≠ sc_segment1 (contacts s' c)
          ∧ (∀ x, touches x (contacts s' c) → x = dst ∨ touches x (contacts s c))
          ∧ (∀ x, x ≠ src → touches x (contacts s c) → touches x (contacts s' c)))).
Proof.
  intros Hsd Hc Ht Hself. unfold repoint.
  rewrite bool_decide_eq_true_2 by done.
  destruct (contacts s c) as [cost cn len a b] eqn:Ec. cbn in Ht, Hself.
  unfold touches in Ht. cbn in Ht.
  unfold segment_replace. cbn [sc_segment0 sc_segment1 sc_cost sc_cost_normalized sc_length].
  assert (Hcase : (a = src ∧ b ≠ src) ∨ (a ≠ src ∧ b = src)).
  { destruct Ht as [<-|<-]; [left|right]; split; congruence. }
  destruct Hcase as [[-> Hb]|[Ha ->]].
  - rewrite bool_decide_eq_true_2 by done. rewrite (bool_decide_eq_false_2 (b = src)) by done.
    cbn [sc_segment0 sc_segment1].
    destruct (decide (dst = b)) as [<-|Hdb].
    + rewrite bool_decide_eq_true_2 by done.
      set (s0 := set_contacts s _).
      destruct (_remove_segment_contact_live s0 c Hc) as [s1 H1].
      rewrite H1, bind_Ok. rewrite bool_decide_eq_false_2 by done.
      exists s1. split; [done|].
      apply _remove_segment_contact_spec in H1 as (_ & Hkeys & Hcont & Hsegs & _).
      subst s0. state_simpl. rewrite upd_same in Hsegs. cbn in Hsegs.
      rewrite Hkeys, Hcont, Hsegs.
      split; [intros k Hk; by apply upd_other|].
      split; [intros k Hk; set_solver|].
      split; [intros x Hx; rewrite !discard_ids; by rewrite !decide_False by done|].
      split.
      { intros k Hk. rewrite !discard_ids. rewrite !decide_True by done. set_solver. }
      left. split; [set_solver|]. split.
      { rewrite !discard_ids. rewrite !decide_True by done. set_solver. }
      unfold touches. cbn. intros x [<-|<-]; auto.
    + rewrite bool_decide_eq_false_2 by done. eexists. split; [reflexivity|].
      state_simpl.
      split; [intros k Hk; by apply upd_other|].
      split; [done|].
      split; [intros x Hx; by rewrite upd_other|].
      split; [intros k Hk; rewrite upd_same; cbn; set_solver|].
      right. rewrite !upd_same. cbn. unfold touches. cbn.
      split; [done|]. split; [set_solver|]. split; [intros [?|?]; congruence|].
      split; [auto|].
      split; [done|]. split; [intros x [<-|<-]; auto|].
      intros x Hx [<-|<-]; [done|by right].
  - rewrite (bool_decide_eq_false_2 (a = src)) by done.
    rewrite bool_decide_eq_true_2 by done.
    cbn [sc_segment0 sc_segment1].
    destruct (decide (a = dst)) as [->|Hdb].
    + rewrite bool_decide_eq_true_2 by done.
      set (s0 := set_contacts s _).
      destruct (_remove_segment_contact_live s0 c Hc) as [s1 H1].
      rewrite H1, bind_Ok. rewrite bool_decide_eq_false_2 by done.
      exists s1. split; [done|].
      apply _remove_segment_contact_spec in H1 as (_ & Hkeys & Hcont & Hsegs & _).
      subst s0. state_simpl. rewrite upd_same in Hsegs. cbn in Hsegs.
      rewrite Hkeys, Hcont, Hsegs.
      split; [intros k Hk; by apply upd_other|].
      split; [intros k Hk; set_solver|].
      split; [intros x Hx; rewrite !discard_ids; by rewrite !decide_False by done|].
      split.
      { intros k Hk. rewrite !discard_ids. rewrite !decide_True by done. set_solver. }
      left. split; [set_solver|]. split.
      { rewrite !discard_ids. rewrite !decide_True by done. set_solver. }
      unfold touches. cbn. intros x [<-|<-]; auto.
    + rewrite bool_decide_eq_false_2 by done. eexists. split; [reflexivity|].
      state_simpl.
      split; [intros k Hk; by apply upd_other|].
      split; [done|].
      split; [intros x Hx; by rewrite upd_other|].
      split; [intros k Hk; rewrite upd_same; cbn; set_solver|].
      right. rewrite !upd_same. cbn. unfold touches. cbn.
      split; [done|]. split; [set_solver|]. split; [intros [?|?]; congruence|].
      split; [auto|].
      split; [done|]. split; [intros x [<-|<-]; auto|].
      intros x Hx [<-|<-]; [by left|done].
Qed.

Lemma repoint_loop (B : Z → Prop) (src dst : Z) :
  src ≠ dst → B dst → ¬ B src →
  ∀ (rem : list Z) (s : EngineState),
  NoDup rem →
  contacts_registered s → no_self_contacts s →
  (∀ i x, i ∈ sci2segment_contacts s → touches x (contacts s i) → x = src ∨ B x) →
  (∀ x, B x → exact_at s x) →
  (∀ k, k ∈ rem → k ∈ sci2segment_contacts s ∧ touches src (contacts s k)) →
  (∀ k, k ∈ sci2segment_contacts s → touches src (contacts s k) → k ∈ rem) →
  ∃ s', for_each (repoint src dst) rem s = Ok s' ∧ graph_inv B s'
        ∧ (∀ z, z ≠ src → z ≠ dst → (active s' z ↔ active s z))
        ∧ (0 ≤ dst → nonneg_endpoints s → nonneg_endpoints s').
Proof.
  intros Hsd HBd HBs. induction rem as [|c rem IH];
    intros s Hnd Hreg Hself Hclo Hex Hrem Hsrc.
  - exists s. split; [done|]. split; [|by split].
    split; [exact Hreg|]. split; [exact Hself|].
    split; [|exact Hex]. intros i x Hi Ht.
    destruct (Hclo i x Hi Ht) as [->|HB]; [|exact HB].
    exfalso. eapply elem_of_nil, Hsrc; done.
  - apply NoDup_cons in Hnd as [Hc Hnd].
    destruct (Hrem c (list_elem_of_here _ _)) as [Hlive Htouch].
    destruct (repoint_step src dst s c Hsd Hlive Htouch (Hself c Hlive))
      as (s1 & Hstep & Fc & Fl & Fx & Fd & Fcase).
    cbn [for_each]. rewrite Hstep, bind_Ok.
    assert (Hids : ∀ x k, k ≠ c →
              (k ∈ seg_segment_contact_ids (segs s1 x)
               ↔ k ∈ seg_segment_contact_ids (segs s x))).
    { intros x k Hk. destruct (decide (x = dst)) as [->|Hx];
        [by apply Fd|by rewrite Fx]. }
    assert (Hact : ∀ z, z ≠ src → z ≠ dst → (active s1 z ↔ active s z)).
    { intros z Hzs Hzd. split; intros (i & Hi & Ht).
      - destruct (decide (i = c)) as [->|Hic].
        + destruct Fcase as [(Hn & _)|(_ & _ & _ & _ & _ & Hback & _)]; [done|].
          destruct (Hback z Ht) as [->|Ht']; [done|]. by exists c.
        + rewrite (Fc i Hic) in Ht. exists i. split; [by apply Fl|done].
      - destruct (decide (i = c)) as [->|Hic].
        + destruct Fcase as [(_ & _ & Hends)|(Hl & _ & _ & _ & _ & _ & Hfwd)].
          * destruct (Hends z Ht); done.
          * exists c. split; [exact Hl|by apply Hfwd].
        + exists i. rewrite (Fc i Hic). split; [by apply Fl|done]. }
    assert (Hnn : 0 ≤ dst → nonneg_endpoints s → nonneg_endpoints s1).
    { intros Hd Hs i Hi. destruct (decide (i = c)) as [->|Hic].
      - destruct Fcase as [(Hn & _)|(_ & _ & _ & _ & _ & Hback & _)]; [done|].
        destruct (Hs c Hlive) as [N0 N1].
        assert (Hx : ∀ x, touches x (contacts s1 c) → 0 ≤ x).
        { intros x Hx. destruct (Hback x Hx) as [->|[<-|<-]]; done. }
        split; apply Hx; [by left|by right].
      - rewrite (Fc i Hic). apply Hs. by apply Fl. }
    destruct (IH s1) as (s' & Hrun & Hinv' & Hact' & Hnn'); [exact Hnd|..];
      [| | | | | |exists s'; split; [exact Hrun|]; split; [exact Hinv'|]; split;
         [intros z Hzs Hzd; by rewrite Hact', Hact|
          intros Hd Hs; by apply Hnn', Hnn]].
    + intros i Hi. destruct (decide (i = c)) as [->|Hic].
      * destruct Fcase as [(Hn & _)|(_ & Hin & _ & _ & _ & Hback & _)]; [done|].
        assert (Hend : ∀ x, touches x (contacts s1 c) →
                            c ∈ seg_segment_contact_ids (segs s1 x)).
        { intros x Hx. destruct (decide (x = dst)) as [->|Hxd]; [exact Hin|].
          rewrite Fx by done. destruct (Hback x Hx) as [->|Ht]; [done|].
          destruct (Hreg c Hlive) as [R0 R1]. by destruct Ht as [<-|<-]. }
        split; apply Hend; [by left|by right].
      * rewrite (Fc i Hic). apply Fl in Hi; [|done].
        destruct (Hreg i Hi) as [R0 R1]. split; by apply Hids.
    + intros i Hi. destruct (decide (i = c)) as [->|Hic].
      * by destruct Fcase as [(Hn & _)|(_ & _ & _ & _ & Hne & _)].
      * rewrite (Fc i Hic). apply Hself. by apply Fl.
    + intros i x Hi Ht. destruct (decide (i = c)) as [->|Hic].
      * destruct Fcase as [(Hn & _)|(_ & _ & _ & _ & _ & Hback & _)]; [done|].
        destruct (Hback x Ht) as [->|Ht']; [by right|]. by apply (Hclo c).
      * rewrite (Fc i Hic) in Ht. apply (Hclo i); [by apply Fl|done].
    + intros x HBx k Hk.
      assert (Hxs : x ≠ src) by (by intros ->).
      destruct (decide (k = c)) as [->|Hkc].
      * destruct Fcase as [(Hn & Hnd' & Hends)|(Hl & Hin & _ & Htd & _ & _ & Hfwd)].
        -- exfalso. destruct (decide (x = dst)) as [->|Hxd]; [done|].
           rewrite Fx in Hk by done. destruct (Hex x HBx c Hk) as [_ Ht].
           destruct (Hends x Ht); done.
        -- split; [exact Hl|].
           destruct (decide (x = dst)) as [->|Hxd]; [exact Htd|].
           rewrite Fx in Hk by done. destruct (Hex x HBx c Hk) as [_ Ht].
           by apply Hfwd.
      * apply Hids in Hk; [|done]. destruct (Hex x HBx k Hk) as [Hl Ht].
        rewrite (Fc k Hkc). split; [by apply Fl|exact Ht].
    + intros k Hk.
      assert (Hkc : k ≠ c) by (by intros ->).
      destruct (Hrem k (list_elem_of_further _ _ _ Hk)) as [Hl Ht].
      rewrite (Fc k Hkc). split; [by apply Fl|exact Ht].
    + intros k Hl Ht. destruct (decide (k = c)) as [->|Hkc].
      * by destruct Fcase as [(Hn & _)|(_ & _ & Hnt & _)].
      * rewrite (Fc k Hkc) in Ht. apply Fl in Hl; [|done].
        specialize (Hsrc k Hl Ht). by apply elem_of_cons in Hsrc as [->|?].
Qed.

Lemma for_each_ok {S A : Type} (I : S → Prop) (body : S → A → result S) (l : list A) :
  (∀ s a, a ∈ l → I s → ∃ s', body s a = Ok s' ∧ I s') →
  ∀ s, I s → ∃ s', for_each body l s = Ok s' ∧ I s'.
Proof.
  induction l as [|a l IH]; intros Hbody s Hs; cbn [for_each]; [by exists s|].
  destruct (Hbody s a (list_elem_of_here _ _) Hs) as (s1 & -> & Hs1).
  rewrite bind_Ok. apply IH; [|exact Hs1].
  intros s2 b Hb. apply Hbody. by apply list_elem_of_further.
Qed.

Lemma sum_lengths_ok ord (st : EngineState) (ids : gset Z) :
  (∀ l, ord l ≡ₚ l) → (∀ c, c ∈ ids → c ∈ sci2segment_contacts st) →
  ∃ total, sum_lengths ord st ids = Ok total.
Proof.
  intros Hord Hlive. unfold sum_lengths.
  destruct (for_each_ok (λ _ : Q, True)
              (λ (acc : Q) sci,
                 if bool_decide (sci ∈ sci2segment_contacts st)
                 then Ok (acc + sc_length (contacts st sci))%Q
                 else Raise KeyError)
              (iter_set ord ids)) with (s := 0%Q) as (t & Ht & _); [|done|by exists t].
  intros acc c Hc _. unfold iter_set in Hc. rewrite Hord in Hc.
  apply elem_of_elements, Hlive in Hc.
  rewrite bool_decide_eq_true_2 by done. eauto.
Qed.

Lemma group_add_members (gs : list (Z * gset Z)) (spi c0 k c : Z) (g : gset Z) :
  (k, g) ∈ group_add gs spi c0 → c ∈ g →
  c = c0 ∨ ∃ g0, (k, g0) ∈ gs ∧ c ∈ g0.
Proof.
  induction gs as [|[k1 g1] gs IH]; cbn [group_add]; intros Hin Hc.
  - apply list_elem_of_singleton in Hin. injection Hin as -> ->. set_solver.
  - destruct (bool_decide (k1 = spi)).
    + apply elem_of_cons in Hin as [Hin|Hin].
      * injection Hin as -> ->. apply elem_of_union in Hc as [Hc|Hc]; [|set_solver].
        right. exists g1. split; [apply list_elem_of_here|done].
      * right. exists g. split; [by apply list_elem_of_further|done].
    + apply elem_of_cons in Hin as [Hin|Hin].
      * injection Hin as -> ->. right. exists g1.
        split; [apply list_elem_of_here|done].
      * destruct (IH Hin Hc) as [->|(g0 & Hg0 & Hc0)]; [by left|].
        right. exists g0. split; [by apply list_elem_of_further|done].
Qed.

Lemma collect_loop shift (st : EngineState) (l : list Z) :
  (∀ c, c ∈ l → c ∈ sci2segment_contacts st) →
  ∀ gs, (∀ k g c, (k, g) ∈ gs → c ∈ g → c ∈ sci2segment_contacts st) →
  ∃ gs', for_each (collect shift st) l gs = Ok gs'
         ∧ ∀ k g c, (k, g) ∈ gs' → c ∈ g → c ∈ sci2segment_contacts st.
Proof.
  induction l as [|c0 l IH]; intros Hl gs Hgs; cbn [for_each]; [by exists gs|].
  assert (E : collect shift st gs c0 = Ok (group_add gs (spi_of shift st c0) c0)).
  { unfold collect. by rewrite bool_decide_eq_true_2 by (apply Hl, list_elem_of_here). }
  rewrite E, bind_Ok. apply IH.
  - intros c Hc. by apply Hl, list_elem_of_further.
  - intros k g c Hin Hc.
    destruct (group_add_members _ _ _ _ _ _ Hin Hc) as [->|(g0 & Hg0 & Hc0)].
    + apply Hl, list_elem_of_here.
    + by eapply Hgs.
Qed.

Lemma new_cost_normalized_raises sqrt SQRT_PI p (st : EngineState) (c : Z) (e : exn) :
  new_cost_normalized sqrt SQRT_PI p st c = Raise e → e = ZeroDivisionError.
Proof.
  unfold new_cost_normalized.
  destruct (is_not_perimeter_cost_factor_0 p).
  - destruct (calc_perimeter_cost _ _ _ _) as [pc|e'] eqn:E.
    + rewrite !bind_Ok. destruct (fdiv _ _) as [d|e''] eqn:E'; [done|].
      rewrite bind_Raise. intros [= <-]. by eapply fdiv_raise.
    + rewrite !bind_Raise. intros [= <-]. by eapply calc_perimeter_cost_raises.
  - rewrite bind_Ok. destruct (fdiv _ _) as [d|e''] eqn:E'; [done|].
    rewrite bind_Raise. intros [= <-]. by eapply fdiv_raise.
Qed.

Lemma absorb_loop (merged_sc : Z) (rest : list Z) :
  ∀ s, NoDup rest → (∀ c, c ∈ rest → c ∈ sci2segment_contacts s) →
  ∃ s', for_each (absorb merged_sc) rest s = Ok s'
        ∧ ∀ c, c ∈ sci2segment_contacts s → c ∉ rest → c ∈ sci2segment_contacts s'.
Proof.
  induction rest as [|c0 rest IH]; intros s Hnd Hlive; cbn [for_each];
    [by exists s|].
  apply NoDup_cons in Hnd as [Hc0 Hnd].
  assert (E : ∃ s1, absorb merged_sc s c0 = Ok s1).
  { unfold absorb. apply _remove_segment_contact_live. state_simpl.
    apply Hlive, list_elem_of_here. }
  destruct E as [s1 E]. rewrite E, bind_Ok.
  pose proof E as H1. unfold absorb in H1.
  apply _remove_segment_contact_spec in H1 as (_ & Hkeys & _). state_simpl.
  destruct (IH s1 Hnd) as (s' & Hrun & Hlive').
  - intros c Hc. rewrite Hkeys. apply elem_of_difference.
    split; [by apply Hlive, list_elem_of_further|]. set_solver.
  - exists s'. split; [exact Hrun|]. intros c Hc Hnot.
    apply Hlive'; [|intros ?; apply Hnot; by apply list_elem_of_further].
    rewrite Hkeys. apply elem_of_difference. split; [exact Hc|].
    intros E'. apply elem_of_singleton in E'. subst. apply Hnot, list_elem_of_here.
Qed.

Lemma fold_parallel_safe sqrt SQRT_PI ord p (s : EngineState) (g : gset Z) :
  (∀ l, ord l ≡ₚ l) → priority_ok s →
  (∀ c, c ∈ g → c ∈ sci2segment_contacts s) →
  only_zero_division
    (λ s', ∀ c, c ∈ sci2segment_contacts s → c ∉ g → c ∈ sci2segment_contacts s')
    (fold_parallel sqrt SQRT_PI ord p s g).
Proof.
  intros Hord Hok Hlive. unfold fold_parallel.
  destruct (size g <=? 1)%nat; [by cbn|].
  destruct (iter_set ord g) as [|merged_sc rest] eqn:Eit; [by cbn|].
  assert (Hiter : ∀ c, c ∈ merged_sc :: rest ↔ c ∈ g).
  { intros c. rewrite <- Eit. unfold iter_set. by rewrite Hord, elem_of_elements. }
  assert (Hnd : NoDup (merged_sc :: rest)).
  { rewrite <- Eit. unfold iter_set. rewrite Hord. apply NoDup_elements. }
  apply NoDup_cons in Hnd as [Hm Hnd].
  destruct (absorb_loop merged_sc rest s Hnd) as (s1 & Hrun & Hlive1).
  { intros c Hc. apply Hlive, Hiter. by apply list_elem_of_further. }
  rewrite Hrun, bind_Ok.
  assert (Hok1 : priority_ok s1).
  { apply (for_each_invariant priority_ok) in Hrun;
      [done|intros ? ? ? _; apply absorb_priority|exact Hok]. }
  assert (Hml : merged_sc ∈ sci2segment_contacts s1).
  { apply Hlive1; [|exact Hm]. apply Hlive, Hiter, list_elem_of_here. }
  destruct Hok1 as (Hs & Hnd1 & Hel).
  destruct (find_in_sorted (contacts s1) (cost_sorted_segment_contacts s1)
              merged_sc Hs) as [Hfound _].
  destruct Hfound as (i & -> & Hi); [by apply Hel|].
  destruct (new_cost_normalized _ _ _ _ _) as [cn|e] eqn:Ecn.
  2:{ rewrite bind_Raise. cbn. by eapply new_cost_normalized_raises. }
  rewrite bind_Ok. state_simpl. rewrite Hi. cbn.
  intros c Hc Hnot. apply Hlive1; [exact Hc|].
  intros Hr. apply Hnot, Hiter. by apply list_elem_of_further.
Qed.

Lemma fold_groups_safe sqrt SQRT_PI ord p shift (st0 : EngineState)
    (groups : list (Z * gset Z)) :
  (∀ l, ord l ≡ₚ l) → groups_ok shift st0 groups →
  ∀ s, priority_ok s →
  (∀ k g c, (k, g) ∈ groups → c ∈ g → c ∈ sci2segment_contacts s) →
  only_zero_division (λ _, True)
    (for_each (fold_parallel sqrt SQRT_PI ord p) (map snd groups) s).
Proof.
  intros Hord. induction groups as [|[k1 g1] groups IH]; intros Hgok s Hok Hlive;
    cbn [map for_each snd]; [done|].
  destruct Hgok as [Hnd Hmem]. cbn in Hnd. apply NoDup_cons in Hnd as [Hk1 Hnd].
  pose proof (fold_parallel_safe sqrt SQRT_PI ord p s g1 Hord Hok) as Hsafe.
  destruct (fold_parallel sqrt SQRT_PI ord p s g1) as [s1|e] eqn:E1.
  2:{ rewrite bind_Raise. apply Hsafe. intros c Hc.
      eapply Hlive; [apply list_elem_of_here|done]. }
  rewrite bind_Ok. apply IH.
  - split; [exact Hnd|]. intros k g c Hin. apply Hmem. by apply list_elem_of_further.
  - by eapply fold_parallel_priority.
  - intros k g c Hin Hc. cbn in Hsafe. apply Hsafe.
    + intros c' Hc'. eapply Hlive; [apply list_elem_of_here|done].
    + eapply Hlive; [by apply list_elem_of_further|done].
    + intros Hc1. apply Hk1.
      assert (k1 = k) as ->.
      { rewrite <- (Hmem k1 g1 c (list_elem_of_here _ _) Hc1).
        apply (Hmem k g c); [by apply list_elem_of_further|done]. }
      apply list_elem_of_fmap. by exists (k, g).
Qed.

Lemma repair_safe sqrt SQRT_PI ord p shift (s : EngineState) (dst : Z) :
  (∀ l, ord l ≡ₚ l) → priority_ok s → exact_at s dst →
  only_zero_division (λ _, True) (repair sqrt SQRT_PI ord p shift s dst).
Proof.
  intros Hord Hok Hex. unfold repair.
  set (r1 := if is_not_perimeter_cost_factor_0 p then _ else _).
  assert (H1 : ∃ s1, r1 = Ok s1 ∧ priority_ok s1
                     ∧ sci2segment_contacts s1 = sci2segment_contacts s
                     ∧ seg_segment_contact_ids (segs s1 dst)
                       = seg_segment_contact_ids (segs s dst)).
  { subst r1. destruct (is_not_perimeter_cost_factor_0 p); [|by exists s].
    destruct (sum_lengths_ok ord s (seg_segment_contact_ids (segs s dst)) Hord)
      as [total ->]; [intros c Hc; by apply (Hex c)|].
    rewrite bind_Ok. eexists. split; [reflexivity|]. state_simpl.
    split; [|split; [done|by rewrite upd_same]].
    eapply priority_ok_same; [| | |exact Hok]; by state_simpl. }
  destruct H1 as (s1 & -> & Hok1 & Hkeys & Hids). rewrite bind_Ok.
  destruct (collect_loop shift s1
              (iter_set ord (seg_segment_contact_ids (segs s1 dst)))) with (gs := @nil (Z * gset Z))
    as (groups & Hcol & Hmem).
  { intros c Hc. unfold iter_set in Hc. rewrite Hord in Hc.
    apply elem_of_elements in Hc. rewrite Hids in Hc. rewrite Hkeys.
    by apply (Hex c). }
  { intros k g c Hin. by apply elem_of_nil in Hin. }
  rewrite Hcol, bind_Ok.
  apply collect_all in Hcol as (Hgok & _);
    [|split; [apply NoDup_nil_2|intros ? ? ? Hin; by apply elem_of_nil in Hin]].
  by eapply fold_groups_safe.
Qed.

Lemma accept_tidy (st : EngineState) (sci x : Z) :
  exact_at st x → exact_at (accept st sci) x.
Proof.
  intros Hx k Hk. apply Hx. revert Hk. cbn. unfold upd.
  by case_bool_decide; subst.
Qed.

(** One iteration of the scan on a consistent graph: no lookup fails,
    and the graph stays consistent. *)
Lemma scan_iter_safe sqrt SQRT_PI ord p shift (st : EngineState) (sci : Z) :
  (∀ l, ord l ≡ₚ l) → graph_ok st → sci ∈ sci2segment_contacts st →
  only_zero_division (λ r, graph_ok r.2)
    (scan_iter sqrt SQRT_PI ord p shift st sci).
Proof.
  intros Hord [Hprio Hinv] Hlive. unfold scan_iter.
  destruct (Qgtb _ _); [by split|].
  destruct (area_rejects p st sci); [by split|].
  set (dst := sc_segment0 (contacts st sci)).
  set (src := sc_segment1 (contacts st sci)).
  pose proof Hinv as (Hreg & Hself & Hclo & Hex).
  assert (Hsd : src ≠ dst) by (intros E; by apply (Hself sci Hlive)).
  assert (Hadst : active st dst) by (exists sci; split; [done|by left]).
  assert (Hasrc : active st src) by (exists sci; split; [done|by right]).
  destruct (_remove_segment_contact_live (accept st sci) sci Hlive) as [st1 H1].
  rewrite H1, bind_Ok.
  assert (Hprio1 : priority_ok st1).
  { apply _remove_segment_contact_priority in H1 as [? _]; [done|].
    eapply priority_ok_same; [| | |exact Hprio]; by state_simpl. }
  assert (Hinv1 : graph_inv (active st) st1).
  { apply (graph_inv_keeps _ st); [| |exact Hinv].
    - transitivity (accept st sci); [apply accept_keeps|].
      by apply _remove_segment_contact_keeps in H1 as [? _].
    - intros x Hx. eapply _remove_segment_contact_tidy; [exact H1|].
      by apply accept_tidy. }
  destruct Hinv1 as (Hreg1 & Hself1 & Hclo1 & Hex1).
  set (B := λ x, active st x ∧ x ≠ src).
  destruct (repoint_loop B src dst Hsd) with
    (rem := iter_set ord (seg_segment_contact_ids (segs st1 src))) (s := st1)
    as (st2 & H2 & Hinv2 & _).
  - by split.
  - by intros [_ ?].
  - unfold iter_set. rewrite Hord. apply NoDup_elements.
  - exact Hreg1.
  - exact Hself1.
  - intros i x Hi Ht. destruct (decide (x = src)) as [->|Hx]; [by left|right].
    split; [by eapply Hclo1|done].
  - intros x [Hx _]. by apply Hex1.
  - intros k Hk. unfold iter_set in Hk. rewrite Hord in Hk.
    apply elem_of_elements in Hk. by apply (Hex1 src Hasrc).
  - intros k Hk Ht. unfold iter_set. rewrite Hord. apply elem_of_elements.
    destruct (Hreg1 k Hk) as [R0 R1]. by destruct Ht as [<-|<-].
  - rewrite H2, bind_Ok.
    assert (Hprio2 : priority_ok st2).
    { apply (for_each_invariant priority_ok) in H2;
        [done|intros ? ? ? _; apply repoint_priority|exact Hprio1]. }
    destruct (_ =? _)%nat.
    + cbn. apply (graph_ok_intro B).
      * eapply priority_ok_same; [| | |exact Hprio2]; by state_simpl.
      * apply (graph_inv_keeps _ st2); [apply isolate_keeps|done|exact Hinv2].
    + pose proof (repair_safe sqrt SQRT_PI ord p shift st2 dst Hord Hprio2) as Hsafe.
      destruct (repair sqrt SQRT_PI ord p shift st2 dst) as [st3|e] eqn:E3.
      2:{ rewrite bind_Raise. apply Hsafe.
          destruct Hinv2 as (_ & _ & _ & Hex2). apply Hex2. by split. }
      rewrite bind_Ok. cbn. apply (graph_ok_intro B).
      * by eapply repair_priority.
      * apply (graph_inv_keeps _ st2); [| |exact Hinv2].
        -- by apply repair_spec in E3 as [? _].
        -- intros x. by eapply repair_tidy.
Qed.

Lemma scan_safe sqrt SQRT_PI ord p shift (fuel : nat) :
  (∀ l, ord l ≡ₚ l) →
  ∀ k merging st,
  (length (cost_sorted_segment_contacts st) - k < fuel)%nat → graph_ok st →
  only_zero_division (λ r, graph_ok r.2)
    (scan sqrt SQRT_PI ord p shift fuel k merging st).
Proof.
  intros Hord. induction fuel as [|fuel IH]; intros k mg st Hfuel Hok; [lia|].
  cbn [scan].
  destruct (cost_sorted_segment_contacts st !! k) as [sci|] eqn:Ek; [|done].
  assert (Hlive : sci ∈ sci2segment_contacts st).
  { destruct Hok as [(_ & _ & Hel) _]. apply Hel. by eapply list_elem_of_lookup_2. }
  pose proof (scan_iter_safe sqrt SQRT_PI ord p shift st sci Hord Hok Hlive) as Hsafe.
  destruct (scan_iter sqrt SQRT_PI ord p shift st sci) as [[[ctl acc] st1]|e] eqn:Eit;
    [|by rewrite bind_Raise].
  rewrite bind_Ok. cbn in Hsafe. destruct ctl; [done|].
  apply IH; [|exact Hsafe].
  apply lookup_lt_Some in Ek.
  assert (length (cost_sorted_segment_contacts st1)
          ≤ length (cost_sorted_segment_contacts st))%nat; [|lia].
  destruct acc.
  - by apply scan_iter_accepted in Eit as (_ & _ & ? & _).
  - apply scan_iter_inv in Eit as [(_ & -> & _)|(? & _)]; [done|discriminate].
Qed.

Lemma merge_loop_safe sqrt SQRT_PI ord p shift (fuel : nat) :
  (∀ l, ord l ≡ₚ l) →
  ∀ st, (size (sci2segment_contacts st) < fuel)%nat → graph_ok st →
  only_zero_division graph_ok (merge_loop sqrt SQRT_PI ord p shift fuel st).
Proof.
  intros Hord. induction fuel as [|fuel IH]; intros st Hfuel Hok; [lia|].
  cbn [merge_loop].
  pose proof (scan_safe sqrt SQRT_PI ord p shift
                (S (length (cost_sorted_segment_contacts st))) Hord 0 false st)
    as Hsafe.
  destruct (pass_spec sqrt SQRT_PI ord p shift st) as [_ Hres].
  unfold pass in *.
  destruct (scan _ _ _ _ _ _ _ _ _) as [[mg st1]|e] eqn:Ep.
  2:{ rewrite bind_Raise. apply Hsafe; [lia|exact Hok]. }
  rewrite bind_Ok. cbn.
  assert (Hok1 : graph_ok st1) by (apply Hsafe; [lia|exact Hok]).
  destruct (Hres mg st1 eq_refl) as (_ & Hmg & _).
  destruct mg; [|exact Hok1].
  apply IH; [|exact Hok1]. specialize (Hmg eq_refl). lia.
Qed.

(** X21: run on a consistent contact graph (priority list in order and
    in step with the dict, every live contact registered on its two
    distinct endpoints, exact contact sets on the segments that have
    live contacts) with sets iterated in any order, the merge loop
    raises no [KeyError], [IndexError], [UnboundLocalError] or
    [RuntimeError]: it ends with a consistent graph, or with the
    [ZeroDivisionError] of a cost computation. *)
Theorem X21_merge_loop_safe sqrt SQRT_PI ord p shift (st : EngineState) :
  (∀ l, ord l ≡ₚ l) → graph_ok st →
  match merge_loop sqrt SQRT_PI ord p shift (S (size (sci2segment_contacts st))) st with
  | Ok st' => graph_ok st'
  | Raise e => e = ZeroDivisionError
  end.
Proof.
  intros Hord Hok.
  apply (merge_loop_safe sqrt SQRT_PI ord p shift _ Hord st); [lia|exact Hok].
Qed.

Lemma start_state_graph_ok (b : BuildState) :
  build_ok b → no_self_contacts (start_state b) → graph_ok (start_state b).
Proof.
  intros Hok Hself. apply start_state_ok in Hok as (Hprio & Hreg & Hex).
  split; [exact Hprio|]. split; [exact Hreg|]. split; [exact Hself|]. split.
  - intros i x Hi Ht. by exists i.
  - intros x _ k Hk. by apply Hex.
Qed.

Lemma fan_state_built : fan_state = start_state fan_graph.1.
Proof. vm_compute. reflexivity. Qed.

Lemma fan_graph_built :
  _calc_segment_contacts approx_sqrt approx_SQRT_PI (2 # 3) (test_params 10 2 1)
    (_calc_vi2vgi2weights (deform_weights fan)
       (ignore_vertex_group_indices (test_params 10 2 1)))
    fan (calc_loop_triangles fan)
  = Ok (fan_graph.1, fan_graph.2).
Proof. vm_compute. reflexivity. Qed.

Lemma fan_state_graph_ok : graph_ok fan_state.
Proof.
  rewrite fan_state_built. apply start_state_graph_ok.
  - by destruct (_calc_segment_contacts_ok _ _ _ _ _ _ _ _ _ fan_graph_built).
  - rewrite <- fan_state_built. intros i Hi. rewrite fan_state_live in Hi.
    assert (Ei : i = 1 ∨ i = 2 ∨ i = 3) by set_solver.
    destruct Ei as [Ei|[Ei|Ei]]; subst i; vm_compute; discriminate.
Qed.

Lemma X21_merge_loop_safe_witness :
  match merge_loop approx_sqrt approx_SQRT_PI ascending (test_params 10 2 1) 2
          (S (size (sci2segment_contacts fan_state))) fan_state with
  | Ok st' => graph_ok st'
  | Raise e => e = ZeroDivisionError
  end.
Proof.
  apply (X21_merge_loop_safe approx_sqrt approx_SQRT_PI ascending
           (test_params 10 2 1) 2 fan_state).
  - intros l. apply merge_sort_Permutation.
  - apply fan_state_graph_ok.
Defined.

(** ** The exceptions of a run *)

Lemma for_each_raises {S A : Type} (P : exn → Prop) (body : S → A → result S)
    (l : list A) :
  (∀ s a e, body s a = Raise e → P e) →
  ∀ s e, for_each body l s = Raise e → P e.
Proof.
  intros Hbody. induction l as [|a l IH]; intros s e H; cbn in H; [done|].
  destruct (body s a) as [s1|e1] eqn:E1.
  - rewrite bind_Ok in H. by eapply IH.
  - rewrite bind_Raise in H. injection H as <-. by eapply Hbody.
Qed.

Lemma pair_shift_raises (n : Z) (e : exn) : pair_shift n = Raise e → e = ValueError.
Proof. unfold pair_shift. destruct (n <=? 0); [by intros [= <-]|done]. Qed.

Lemma bind_raises {A B : Type} (P : exn → Prop) (x : result A) (k : A → result B)
    (e : exn) :
  (∀ e', x = Raise e' → P e') → (∀ a e', x = Ok a → k a = Raise e' → P e') →
  (x ≫= k) = Raise e → P e.
Proof.
  intros Hx Hk. destruct x as [a|e1].
  - rewrite bind_Ok. by apply Hk.
  - rewrite bind_Raise. intros [= <-]. by apply Hx.
Qed.

Lemma radial_body_raises hpi p m vi2 vshift lshift this_face this_segment
    this_heaviest this_loop (st : LoopState) (that_loop : Z) (e : exn) :
  radial_body hpi p m vi2 vshift lshift this_face this_segment this_heaviest
    this_loop st that_loop = Raise e →
  e = ZeroDivisionError.
Proof.
  unfold radial_body. destruct st as [[b info] cp].
  destruct (bool_decide _); [done|].
  destruct (negb _); [done|].
  destruct info as [ei|].
  - destruct (_calc_heaviest_vertex_group_index _ _ _ _ _) as [h hm].
    destruct (tli2segment_get _ _) as [s b'].
    destruct (cost_vertex_group_weight _ _ _ _ _ _ _ _) as [c mm].
    apply (bind_raises (λ e, e = ZeroDivisionError));
      [intros e'; apply fdiv_raise|done].
  - destruct (this_loop_vertex_group_weight_cost _ _ _ _ _ _) as [c0 m0].
    destruct (_calc_heaviest_vertex_group_index _ _ _ _ _) as [h hm].
    destruct (tli2segment_get _ _) as [s b'].
    destruct (cost_vertex_group_weight _ _ _ _ _ _ _ _) as [c mm].
    apply (bind_raises (λ e, e = ZeroDivisionError));
      [intros e'; apply fdiv_raise|done].
Qed.

Lemma tri_body_raises hpi p m vi2 vshift lshift (b : BuildState)
    (tri_loop : Z * Z * Z) (e : exn) :
  tri_body hpi p m vi2 vshift lshift b tri_loop = Raise e → e = ZeroDivisionError.
Proof.
  unfold tri_body. destruct tri_loop as [[l0 l1] l2].
  destruct (negb _); [done|].
  destruct (_calc_heaviest_vertex_group_index _ _ _ _ _) as [h hm].
  destruct (tli2segment_get _ _) as [s b'].
  apply (bind_raises (λ e, e = ZeroDivisionError)); [|by intros [? ?]].
  intros e'. apply (for_each_raises (λ e, e = ZeroDivisionError)).
  intros st l e''. unfold loop_body.
  apply (bind_raises (λ e, e = ZeroDivisionError)); [|by intros [[? ?] ?]].
  intros e3. apply (for_each_raises (λ e, e = ZeroDivisionError)).
  intros. by eapply radial_body_raises.
Qed.

Lemma _calc_segment_contacts_raises sqrt SQRT_PI hpi p vi2 m tris (e : exn) :
  _calc_segment_contacts sqrt SQRT_PI hpi p vi2 m tris = Raise e →
  arithmetic_error e.
Proof.
  unfold _calc_segment_contacts.
  apply (bind_raises arithmetic_error);
    [intros e' H; right; by eapply pair_shift_raises|].
  intros vshift e1 _.
  apply (bind_raises arithmetic_error);
    [intros e' H; right; by eapply pair_shift_raises|].
  intros lshift e2 _.
  apply (bind_raises arithmetic_error).
  { intros e' H. left. revert H.
    apply (for_each_raises (λ e, e = ZeroDivisionError)).
    intros. by eapply tri_body_raises. }
  intros b e3 _. apply (bind_raises arithmetic_error); [|done].
  intros e'. destruct (negb _); [|done].
  intros H. left. revert H.
  apply (for_each_raises (λ e, e = ZeroDivisionError)).
  intros b' c e4. unfold add_perimeter_cost.
  apply (bind_raises (λ e, e = ZeroDivisionError)); [|done].
  intros e5. apply calc_perimeter_cost_raises.
Qed.

(** X22: on a mesh whose built graph has no contact joining a segment
    to itself, and with sets iterated in any order, [auto_segment]
    raises nothing but the errors of its arithmetic:
    [ZeroDivisionError] (a cost division by zero) or [ValueError]
    ([math.log2] of 0). *)
Theorem X22_auto_segment_exceptions sqrt SQRT_PI hpi ord m p :
  (∀ l, ord l ≡ₚ l) →
  match built_state sqrt SQRT_PI hpi m p with
  | Ok st => no_self_contacts st
  | Raise _ => True
  end →
  match auto_segment sqrt SQRT_PI hpi ord m p with
  | Ok _ => True
  | Raise e => arithmetic_error e
  end.
Proof.
  intros Hord Hself. unfold auto_segment. unfold built_state in Hself.
  destruct (_calc_segment_contacts _ _ _ _ _ _ _) as [[b n]|e] eqn:Eb.
  2:{ rewrite bind_Raise. by eapply _calc_segment_contacts_raises. }
  rewrite bind_Ok in *. cbn in Hself.
  destruct (n =? 0); [done|].
  destruct (pair_shift n) as [shift|e] eqn:Es.
  2:{ rewrite bind_Raise. right. by eapply pair_shift_raises. }
  rewrite bind_Ok.
  apply _calc_segment_contacts_ok in Eb as [Hok _].
  pose proof (merge_loop_safe sqrt SQRT_PI ord p shift
                (S (size (sci2segment_contacts (start_state b)))) Hord
                (start_state b)) as Hsafe.
  destruct (merge_loop _ _ _ _ _ _ _) as [st|e] eqn:El; [done|].
  rewrite bind_Raise. left. apply Hsafe; [lia|].
  by apply start_state_graph_ok.
Qed.

Lemma fan_built_state :
  built_state approx_sqrt approx_SQRT_PI (2 # 3) fan (test_params 10 2 1)
  = Ok fan_state.
Proof. vm_compute. reflexivity. Qed.

Lemma X22_auto_segment_exceptions_witness :
  match auto_segment approx_sqrt approx_SQRT_PI (2 # 3) ascending fan
          (test_params 10 2 1) with
  | Ok _ => True
  | Raise e => arithmetic_error e
  end.
Proof.
  apply (X22_auto_segment_exceptions approx_sqrt approx_SQRT_PI (2 # 3) ascending
           fan (test_params 10 2 1)).
  - intros l. apply merge_sort_Permutation.
  - rewrite fan_built_state. exact (proj1 (proj2 (proj2 fan_state_graph_ok))).
Defined.

(** ** The triangles of the built segments *)

Lemma tri_inv_ext (m : BMesh) (done : list (Z * Z * Z)) (b b' : BuildState) :
  b_next_segment_id b' = b_next_segment_id b →
  b_tli2segment b' = b_tli2segment b →
  (∀ s, seg_tri_loop0s (b_segs b' s) = seg_tri_loop0s (b_segs b s)) →
  tri_inv m done b → tri_inv m done b'.
Proof.
  intros En Et Es (H1 & H2 & H3 & H4). unfold tri_inv. rewrite En, Et.
  split; [done|]. split; [intros s; rewrite Es; apply H2|].
  split; [done|]. intros s t. rewrite Es. apply H4.
Qed.

Lemma upd_tris_same (sg : Z → Segment) (x : Z) (s' : Segment) (s : Z) :
  seg_tri_loop0s s' = seg_tri_loop0s (sg x) →
  seg_tri_loop0s (upd sg x s' s) = seg_tri_loop0s (sg s).
Proof.
  intros E. destruct (decide (s = x)) as [->|Hne];
    [by rewrite upd_same|by rewrite upd_other].
Qed.

Lemma tli2segment_get_tri (m : BMesh) (done : list (Z * Z * Z)) (b b' : BuildState)
    (tli s : Z) :
  tri_inv m done b → tli2segment_get b tli = (s, b') →
  tri_inv m done b' ∧ b_tli2segment b' !! tli = Some s.
Proof.
  intros (H1 & H2 & H3 & H4) H. unfold tli2segment_get in H.
  destruct (b_tli2segment b !! tli) as [s0|] eqn:E.
  - injection H as <- <-. by split.
  - injection H as <- <-. cbn. split; [|by rewrite lookup_insert_eq].
    unfold tri_inv. cbn.
    assert (Hfresh : seg_tri_loop0s (b_segs b (b_next_segment_id b + 1)) = ∅)
      by (apply H2; lia).
    assert (Htris : ∀ s, seg_tri_loop0s
                           (upd (b_segs b) (b_next_segment_id b + 1) new_Segment s)
                         = seg_tri_loop0s (b_segs b s)).
    { intros s. apply upd_tris_same. by rewrite Hfresh. }
    split.
    { intros k v Hk. destruct (decide (k = tli)) as [->|Hne].
      - rewrite lookup_insert_eq in Hk. injection Hk as <-. lia.
      - rewrite lookup_insert_ne in Hk by done. apply H1 in Hk. lia. }
    split; [intros s Hs; rewrite Htris; apply H2; lia|].
    split.
    { intros t Ht. destruct (decide (_to_tri_loop_index m t = tli)) as [->|Hne].
      - by rewrite lookup_insert_eq.
      - rewrite lookup_insert_ne by done. by apply H3. }
    intros s t. rewrite Htris, H4. split; intros [Hsel Hl]; (split; [done|]).
    + destruct (decide (_to_tri_loop_index m t = tli)) as [Ht|Hne];
        [congruence|by rewrite lookup_insert_ne].
    + destruct (decide (_to_tri_loop_index m t = tli)) as [Ht|Hne];
        [|by rewrite lookup_insert_ne in Hl].
      destruct (H3 t Hsel) as [v Hv]. congruence.
Qed.

Lemma b_add_contact_tri (m : BMesh) (done : list (Z * Z * Z)) (b : BuildState)
    (cost_total cn edge_length : Q) (this_segment that_segment : Z) :
  tri_inv m done b →
  tri_inv m done (b_add_contact b cost_total cn edge_length this_segment that_segment).
Proof.
  apply tri_inv_ext; try done.
  intros s. unfold b_add_contact. cbn.
  rewrite upd_tris_same; [apply upd_tris_same|]; try done.
Qed.

Lemma radial_body_tri hpi p m vi2 vshift lshift this_face this_segment this_heaviest
    this_loop (done : list (Z * Z * Z)) (st st' : LoopState) (that_loop : Z) :
  tri_inv m done st.1.1 →
  radial_body hpi p m vi2 vshift lshift this_face this_segment this_heaviest
    this_loop st that_loop = Ok st' →
  tri_inv m done st'.1.1.
Proof.
  destruct st as [[b info] cp]. cbn [fst]. intros Hok H.
  unfold radial_body in H.
  destruct (bool_decide _); [by injection H as <-|].
  assert (Hok0 : ∀ x, tri_inv m done (b_set_processed b x)).
  { intros x. by eapply tri_inv_ext; [..|exact Hok]. }
  destruct (negb _); [injection H as <-; cbn; apply Hok0|].
  revert H.
  set (b0 := b_set_processed b _).
  assert (Hb0 : tri_inv m done b0) by apply Hok0.
  clearbody b0.
  assert (Hgo : ∀ (b1 : BuildState) (ei : EdgeInfo),
    tri_inv m done b1 →
    (let edge_length := e_edge_length ei in
     let that_tli := _to_tri_loop_index m that_loop in
     let '(that_heaviest, hmemo) :=
       _calc_heaviest_vertex_group_index m vi2 (b_tli2heaviest_vgi b1) that_tli
         that_loop in
     let b2 := b_set_tli2heaviest_vgi b1 hmemo in
     let that_vert2 := loop_vert m (link_loop_prev m that_loop) in
     let '(that_segment, b3) := tli2segment_get b2 that_tli in
     let '(cost_vgw, memo) :=
       cost_vertex_group_weight vi2 vshift (b_vpi2weights b3) edge_length
         (e_this_loop_vertex_group_weight_cost ei) (e_vert0 ei) (e_vert1 ei)
         that_vert2 in
     let b4 := b_set_vpi2weights b3 memo in
     let cost_vertex_group_change :=
       (edge_length * (if bool_decide (this_heaviest = that_heaviest) then 0 else 1))%Q in
     let cost_face_angle :=
       (edge_length * hpi * normal_angle m this_loop that_loop)%Q in
     let cost_material_change :=
       (edge_length
        * (if bool_decide (face_material_index m this_face
                           = face_material_index m (loop_face m that_loop))
           then 0 else 1))%Q in
     let cost_total :=
       (0 + vertex_group_weight_cost_factor p * cost_vgw
        + vertex_group_change_cost_factor p * cost_vertex_group_change
        + face_angle_cost_factor p * cost_face_angle
        + material_change_cost_factor p * cost_material_change
        + edge_sharp_cost_factor p * e_cost_edge_sharp ei
        + edge_seam_cost_factor p * e_cost_edge_seam ei)%Q in
     cn ← fdiv cost_total
            (if Qgtb (contact_length_factor p) 0
             then (edge_length * contact_length_factor p)%Q else 1%Q);
     Ok (b_add_contact b4 cost_total cn edge_length this_segment that_segment,
         Some ei, (cp + edge_length)%Q)) = Ok st' →
    tri_inv m done st'.1.1).
  { intros b1 ei Hok1. cbv zeta.
    destruct (_calc_heaviest_vertex_group_index _ _ _ _ _) as [h hm].
    destruct (tli2segment_get _ _) as [that b3] eqn:Eget.
    destruct (cost_vertex_group_weight _ _ _ _ _ _ _ _) as [c mm].
    intros H. apply bind_Ok_inv in H as (cn & _ & H). injection H as <-.
    cbn [fst].
    apply (tli2segment_get_tri m done) in Eget as [Hok3 _].
    2:{ by eapply tri_inv_ext; [..|exact Hok1]. }
    apply b_add_contact_tri. by eapply tri_inv_ext; [..|exact Hok3]. }
  destruct info as [ei|].
  - apply Hgo. exact Hb0.
  - destruct (this_loop_vertex_group_weight_cost _ _ _ _ _ _) as [c0 m0].
    apply Hgo. by eapply tri_inv_ext; [..|exact Hb0].
Qed.

Lemma tri_body_tri hpi p m vi2 vshift lshift (done : list (Z * Z * Z))
    (b b' : BuildState) (tri_loop : Z * Z * Z) :
  tri_inv m done b → tri_body hpi p m vi2 vshift lshift b tri_loop = Ok b' →
  tri_inv m (done ++ [tri_loop]) b'.
Proof.
  intros Hok H. unfold tri_body in H. destruct tri_loop as [[l0 l1] l2].
  assert (Hsel : ∀ t, selected_first_loop m (done ++ [(l0, l1, l2)]) t
                      ↔ selected_first_loop m done t
                        ∨ (face_select m (loop_face m l0) = true ∧ t = l0)).
  { intros t. unfold selected_first_loop. split.
    - intros (tri & Hin & Hs & Ht). apply elem_of_app in Hin as [Hin|Hin].
      + left. by exists tri.
      + apply list_elem_of_singleton in Hin as ->. cbn in *. right. by split.
    - intros [(tri & Hin & Hs & Ht)|[Hs ->]].
      + exists tri. split; [apply elem_of_app; by left|done].
      + exists (l0, l1, l2). split; [|done].
        apply elem_of_app. right. apply list_elem_of_here. }
  destruct (face_select m (loop_face m l0)) eqn:Eface; cbn [negb] in H.
  2:{ injection H as <-. destruct Hok as (H1 & H2 & H3 & H4).
      split; [done|]. split; [done|]. split.
      - intros t Ht. apply Hsel in Ht as [Ht|[? _]]; [by apply H3|done].
      - intros s t. rewrite H4, Hsel. split; [intros [? ?]; auto|].
        by intros [[?|[? _]] ?]. }
  destruct (_calc_heaviest_vertex_group_index _ _ _ _ _) as [h hm].
  destruct (tli2segment_get _ _) as [this b1] eqn:Eget.
  apply (tli2segment_get_tri m done) in Eget as [Hok1 Hthis].
  2:{ by eapply tri_inv_ext; [..|exact Hok]. }
  apply bind_Ok_inv in H as ([b2 cp] & Hloop & H). injection H as <-.
  apply (for_each_invariant
           (λ st : BuildState * Q, tri_inv m (done ++ [(l0, l1, l2)]) st.1))
    in Hloop.
  - cbn [fst] in Hloop. eapply tri_inv_ext; [..|exact Hloop]; try done.
    intros s. cbn. by apply upd_tris_same.
  - intros [b3 cp3] l [b4 cp4] _ Hinv Hbody. unfold loop_body in Hbody.
    apply bind_Ok_inv in Hbody as ([[b5 info] cp5] & Hrad & Hbody).
    injection Hbody as <- <-. cbn [fst snd] in *.
    apply (for_each_invariant
             (λ st : LoopState, tri_inv m (done ++ [(l0, l1, l2)]) st.1.1)) in Hrad;
      [exact Hrad| |exact Hinv].
    intros st0 that st1 _. apply radial_body_tri.
  - cbn [fst]. destruct Hok1 as (H1 & H2 & H3 & H4).
    cbn in Hthis. unfold tri_inv. cbn.
    split; [done|]. split.
    { intros s Hs. destruct (decide (s = this)) as [->|Hne].
      - apply H1 in Hthis. lia.
      - rewrite upd_other by done. by apply H2. }
    split.
    { intros t Ht. apply Hsel in Ht as [Ht|[_ ->]]; [by apply H3|by rewrite Hthis]. }
    intros s t. rewrite Hsel. destruct (decide (s = this)) as [->|Hne].
    + rewrite upd_same. cbn. rewrite elem_of_union, H4, elem_of_singleton.
      split.
      * intros [[Hs Hl]|Et].
        -- split; [by left|done].
        -- subst t. split; [by right|done].
      * intros [[Hs|[_ Et]] Hl]; [by left|by right].
    + rewrite upd_other by done. rewrite H4. split.
      * intros [Hs Hl]. split; [by left|done].
      * intros [[Hs|[_ Et]] Hl]; [done|]. subst t. congruence.
Qed.

Lemma tri_loop_tri hpi p m vi2 vshift lshift (l : list (Z * Z * Z)) :
  ∀ done b b',
  tri_inv m done b →
  for_each (tri_body hpi p m vi2 vshift lshift) l b = Ok b' →
  tri_inv m (done ++ l) b'.
Proof.
  induction l as [|tri l IH]; intros done b b' Hok H; cbn in H.
  - injection H as <-. by rewrite app_nil_r.
  - apply bind_Ok_inv in H as (b1 & H1 & H).
    replace (done ++ tri :: l) with ((done ++ [tri]) ++ l)
      by (by rewrite <- app_assoc).
    eapply IH; [|exact H]. by eapply tri_body_tri.
Qed.

Lemma _calc_segment_contacts_tri sqrt SQRT_PI hpi p vi2 m tris (b : BuildState) (n : Z) :
  _calc_segment_contacts sqrt SQRT_PI hpi p vi2 m tris = Ok (b, n) →
  tri_inv m tris b.
Proof.
  intros H. unfold _calc_segment_contacts in H.
  apply bind_Ok_inv in H as (vshift & _ & H).
  apply bind_Ok_inv in H as (lshift & _ & H).
  apply bind_Ok_inv in H as (b1 & Htri & H).
  apply bind_Ok_inv in H as (b2 & Hper & H). injection H as <- <-.
  apply (tri_loop_tri _ _ _ _ _ _ _ []) in Htri.
  2:{ unfold tri_inv, init_BuildState. cbn. split; [done|]. split; [done|].
      assert (Hno : ∀ t, ¬ selected_first_loop m [] t).
      { intros t (tri & Hin & _). by apply elem_of_nil in Hin. }
      split; [intros t Ht; by apply Hno in Ht|].
      intros s t. split; [set_solver|]. intros [Ht _]. by apply Hno in Ht. }
  cbn [app] in Htri.
  destruct (negb _); [|by injection Hper as <-].
  apply (for_each_invariant (tri_inv m tris)) in Hper; [done| |exact Htri].
  intros b3 c b4 _ Hinv Hc. unfold add_perimeter_cost in Hc.
  apply bind_Ok_inv in Hc as (c' & _ & Hc). injection Hc as <-.
  by eapply tri_inv_ext; [..|exact Hinv].
Qed.

(** X23: in the graph [_calc_segment_contacts] returns, a segment holds
    exactly the first loops of the selected triangles whose tri-loop
    index is mapped to it; every selected triangle has its tri-loop
    index mapped, so it is in exactly one segment. *)
Theorem X23_built_segments_triangles sqrt SQRT_PI hpi p vi2 m tris
    (b : BuildState) (n : Z) :
  _calc_segment_contacts sqrt SQRT_PI hpi p vi2 m tris = Ok (b, n) →
  (∀ s t, t ∈ seg_tri_loop0s (b_segs b s)
          ↔ selected_first_loop m tris t
            ∧ b_tli2segment b !! _to_tri_loop_index m t = Some s)
  ∧ (∀ t, selected_first_loop m tris t →
          ∃ s, t ∈ seg_tri_loop0s (b_segs b s)
               ∧ ∀ s', t ∈ seg_tri_loop0s (b_segs b s') → s' = s).
Proof.
  intros H. apply _calc_segment_contacts_tri in H as (_ & _ & H3 & H4).
  split; [exact H4|]. intros t Ht. destruct (H3 t Ht) as [s Hs].
  exists s. split; [by apply H4|].
  intros s' Hs'. apply H4 in Hs' as [_ Hs']. congruence.
Qed.

Lemma X23_built_segments_triangles_witness :
  (∀ s t, t ∈ seg_tri_loop0s (b_segs fan_graph.1 s)
          ↔ selected_first_loop fan (calc_loop_triangles fan) t
            ∧ b_tli2segment fan_graph.1 !! _to_tri_loop_index fan t = Some s)
  ∧ (∀ t, selected_first_loop fan (calc_loop_triangles fan) t →
          ∃ s, t ∈ seg_tri_loop0s (b_segs fan_graph.1 s)
               ∧ ∀ s', t ∈ seg_tri_loop0s (b_segs fan_graph.1 s') → s' = s).
Proof.
  apply (X23_built_segments_triangles approx_sqrt approx_SQRT_PI (2 # 3)
           (test_params 10 2 1)
           (_calc_vi2vgi2weights (deform_weights fan)
              (ignore_vertex_group_indices (test_params 10 2 1)))
           fan (calc_loop_triangles fan) fan_graph.1 fan_graph.2 fan_graph_built).
Defined.

(** ** The partition of the triangles *)

#[local] Instance same_tris_refl : Reflexive same_tris.
Proof. by intros st. Qed.

#[local] Instance same_tris_trans : Transitive same_tris.
Proof.
  intros a b c [H1 H2] [H3 H4]. split; [|congruence].
  intros x. by rewrite H3, H1.
Qed.

Lemma discard_tris (sg : Z → Segment) (x c s : Z) :
  seg_tri_loop0s (discard_contact_id sg x c s) = seg_tri_loop0s (sg s).
Proof. unfold discard_contact_id. by apply upd_tris_same. Qed.

Lemma _remove_segment_contact_tris (st st' : EngineState) (c : Z) :
  _remove_segment_contact st c = Ok st' → same_tris st st'.
Proof.
  intros H.
  apply _remove_segment_contact_spec in H as (_ & _ & _ & Hsegs & _ & Hres & _).
  split; [|exact Hres]. intros x. by rewrite Hsegs, !discard_tris.
Qed.

Lemma repoint_tris (src dst : Z) (st st' : EngineState) (c : Z) :
  repoint src dst st c = Ok st' → same_tris st st'.
Proof.
  unfold repoint.
  destruct (bool_decide (c ∈ sci2segment_contacts st)); [|discriminate].
  destruct (segment_replace (contacts st c) src dst) as [sc [|]];
    [|by intros [= <-]].
  destruct (bool_decide (sc_segment0 sc = sc_segment1 sc)).
  - intros H. apply bind_Ok_inv in H as (st1 & H1 & H2).
    destruct (bool_decide (src = dst)); [discriminate|]. injection H2 as <-.
    by apply _remove_segment_contact_tris in H1.
  - intros [= <-]. split; [|done]. intros x. state_simpl. by apply upd_tris_same.
Qed.

Lemma fold_parallel_tris sqrt SQRT_PI ord p (st st' : EngineState) (g : gset Z) :
  fold_parallel sqrt SQRT_PI ord p st g = Ok st' → same_tris st st'.
Proof.
  unfold fold_parallel.
  destruct (size g <=? 1)%nat; [by intros [= <-]|].
  destruct (iter_set ord g) as [|merged_sc rest]; [by intros [= <-]|].
  intros H. apply bind_Ok_inv in H as (st1 & H1 & H).
  apply (for_each_preserves same_tris) in H1.
  2:{ intros s a s' _ Ha. unfold absorb in Ha.
      by apply _remove_segment_contact_tris in Ha. }
  apply bind_Ok_inv in H as (cn & _ & H).
  destruct (loop_i _) as [i|]; [|discriminate].
  destruct (cost_sorted_segment_contacts st1 !! i) as [y|]; [|discriminate].
  injection H as <-. transitivity st1; [exact H1|].
  destruct (find_from _ _ _); [|destruct (_ <? _)%nat]; by split.
Qed.

Lemma repair_tris sqrt SQRT_PI ord p shift (st st' : EngineState) (dst : Z) :
  repair sqrt SQRT_PI ord p shift st dst = Ok st' → same_tris st st'.
Proof.
  unfold repair. intros H.
  apply bind_Ok_inv in H as (st1 & H1 & H).
  apply bind_Ok_inv in H as (groups & _ & H).
  apply (for_each_preserves same_tris) in H;
    [|intros ? ? ? _; apply fold_parallel_tris].
  transitivity st1; [|exact H].
  destruct (is_not_perimeter_cost_factor_0 p); [|by injection H1 as <-].
  apply bind_Ok_inv in H1 as (total & _ & H1). injection H1 as <-.
  split; [|done]. intros x. state_simpl. by apply upd_tris_same.
Qed.

#[local] Instance same_area_refl : Reflexive same_area.
Proof. by intros st x. Qed.

#[local] Instance same_area_trans : Transitive same_area.
Proof. intros a b c H1 H2 x. by rewrite H2, H1. Qed.

Lemma upd_area_same (sg : Z → Segment) (x : Z) (s' : Segment) (s : Z) :
  seg_area s' = seg_area (sg x) → seg_area (upd sg x s' s) = seg_area (sg s).
Proof.
  intros E. destruct (decide (s = x)) as [->|Hne];
    [by rewrite upd_same|by rewrite upd_other].
Qed.

Lemma discard_area (sg : Z → Segment) (x c s : Z) :
  seg_area (discard_contact_id sg x c s) = seg_area (sg s).
Proof. unfold discard_contact_id. by apply upd_area_same. Qed.

Lemma _remove_segment_contact_area (st st' : EngineState) (c : Z) :
  _remove_segment_contact st c = Ok st' → same_area st st'.
Proof.
  intros H.
  apply _remove_segment_contact_spec in H as (_ & _ & _ & Hsegs & _).
  intros x. by rewrite Hsegs, !discard_area.
Qed.

Lemma repoint_area (src dst : Z) (st st' : EngineState) (c : Z) :
  repoint src dst st c = Ok st' → same_area st st'.
Proof.
  unfold repoint.
  destruct (bool_decide (c ∈ sci2segment_contacts st)); [|discriminate].
  destruct (segment_replace (contacts st c) src dst) as [sc [|]];
    [|by intros [= <-]].
  destruct (bool_decide (sc_segment0 sc = sc_segment1 sc)).
  - intros H. apply bind_Ok_inv in H as (st1 & H1 & H2).
    destruct (bool_decide (src = dst)); [discriminate|]. injection H2 as <-.
    by apply _remove_segment_contact_area in H1.
  - intros [= <-]. intros x. state_simpl. by apply upd_area_same.
Qed.

Lemma fold_parallel_area sqrt SQRT_PI ord p (st st' : EngineState) (g : gset Z) :
  fold_parallel sqrt SQRT_PI ord p st g = Ok st' → same_area st st'.
Proof.
  unfold fold_parallel.
  destruct (size g <=? 1)%nat; [by intros [= <-]|].
  destruct (iter_set ord g) as [|merged_sc rest]; [by intros [= <-]|].
  intros H. apply bind_Ok_inv in H as (st1 & H1 & H).
  apply (for_each_preserves same_area) in H1.
  2:{ intros s a s' _ Ha. unfold absorb in Ha.
      by apply _remove_segment_contact_area in Ha. }
  apply bind_Ok_inv in H as (cn & _ & H).
  destruct (loop_i _) as [i|]; [|discriminate].
  destruct (cost_sorted_segment_contacts st1 !! i) as [y|]; [|discriminate].
  injection H as <-. transitivity st1; [exact H1|].
  destruct (find_from _ _ _); [|destruct (_ <? _)%nat]; by intros x.
Qed.

Lemma repair_area sqrt SQRT_PI ord p shift (st st' : EngineState) (dst : Z) :
  repair sqrt SQRT_PI ord p shift st dst = Ok st' → same_area st st'.
Proof.
  unfold repair. intros H.
  apply bind_Ok_inv in H as (st1 & H1 & H).
  apply bind_Ok_inv in H as (groups & _ & H).
  apply (for_each_preserves same_area) in H;
    [|intros ? ? ? _; apply fold_parallel_area].
  transitivity st1; [|exact H].
  destruct (is_not_perimeter_cost_factor_0 p); [|by injection H1 as <-].
  apply bind_Ok_inv in H1 as (total & _ & H1). injection H1 as <-.
  intros x. state_simpl. by apply upd_area_same.
Qed.

Lemma pair_id_shared (d a b shift : Z) :
  0 ≤ shift → 0 ≤ d → 0 ≤ a → 0 ≤ b →
  _to_segment_pair_id d a shift = _to_segment_pair_id d b shift → a = b.
Proof.
  intros Hs Hd Ha Hb. rewrite !pair_id_value by done. intros H.
  assert (HP : 1 ≤ 2 ^ shift) by (pose proof (Z.pow_pos_nonneg 2 shift); lia).
  destruct (Z.le_gt_cases d a), (Z.le_gt_cases d b);
    rewrite ?Z.min_l, ?Z.max_r, ?Z.min_r, ?Z.max_l in H by lia; nia.
Qed.

Lemma pair_id_comm (a b shift : Z) :
  _to_segment_pair_id a b shift = _to_segment_pair_id b a shift.
Proof.
  unfold _to_segment_pair_id.
  destruct (Z.gtb_spec a b), (Z.gtb_spec b a); try lia; try done.
  by replace b with a by lia.
Qed.

(** Two contacts on [dst] with the same pair id join the same two
    segments. *)
Lemma spi_same_pair (shift dst : Z) (c c' : SegmentContact) :
  0 ≤ shift →
  0 ≤ sc_segment0 c → 0 ≤ sc_segment1 c → 0 ≤ sc_segment0 c' → 0 ≤ sc_segment1 c' →
  touches dst c → touches dst c' →
  _to_segment_pair_id (sc_segment0 c) (sc_segment1 c) shift
  = _to_segment_pair_id (sc_segment0 c') (sc_segment1 c') shift →
  same_pair c c'.
Proof.
  intros Hs H0 H1 H0' H1' Ht Ht' E. unfold same_pair.
  destruct Ht as [Ht|Ht], Ht' as [Ht'|Ht'].
  - left. split; [congruence|]. rewrite Ht, Ht' in E.
    apply (pair_id_shared dst _ _ shift); try done; lia.
  - right. split; [congruence|].
    rewrite Ht, <- Ht', (pair_id_comm (sc_segment0 c')) in E.
    rewrite Ht' in E.
    apply (pair_id_shared dst _ _ shift); try done; lia.
  - right. split; [|congruence].
    rewrite (pair_id_comm (sc_segment0 c)), Ht, Ht' in E.
    apply (pair_id_shared dst _ _ shift); try done; lia.
  - left. split; [|congruence].
    rewrite (pair_id_comm (sc_segment0 c)), (pair_id_comm (sc_segment0 c')), Ht, Ht' in E.
    apply (pair_id_shared dst _ _ shift); try done; lia.
Qed.

Lemma same_pair_touches (c c' : SegmentContact) (x : Z) :
  same_pair c c' → touches x c → touches x c'.
Proof. unfold same_pair, touches. intuition congruence. Qed.

Lemma same_pair_trans (a b c : SegmentContact) :
  same_pair a b → same_pair b c → same_pair a c.
Proof. unfold same_pair. intuition congruence. Qed.

Lemma same_pair_refl (a : SegmentContact) : same_pair a a.
Proof. by left. Qed.

Lemma collect_members shift (st : EngineState) (l : list Z) :
  ∀ gs gs', for_each (collect shift st) l gs = Ok gs' →
  ∀ k g c, (k, g) ∈ gs' → c ∈ g → c ∈ l ∨ ∃ g0, (k, g0) ∈ gs ∧ c ∈ g0.
Proof.
  induction l as [|c0 l IH]; intros gs gs' H k g c Hin Hc; cbn in H.
  - injection H as <-. right. by exists g.
  - apply bind_Ok_inv in H as (gs1 & H1 & H).
    unfold collect in H1. destruct (bool_decide _); [|discriminate].
    injection H1 as <-.
    destruct (IH _ _ H k g c Hin Hc) as [Hl|(g0 & Hg0 & Hc0)].
    + left. by apply list_elem_of_further.
    + destruct (group_add_members _ _ _ _ _ _ Hg0 Hc0) as [->|(g1 & Hg1 & Hc1)].
      * left. apply list_elem_of_here.
      * right. by exists g1.
Qed.

(** A folded group keeps one of its contacts. *)
Lemma fold_parallel_survivor sqrt SQRT_PI ord p (s s' : EngineState) (g : gset Z) :
  (∀ l, ord l ≡ₚ l) → (∀ c, c ∈ g → c ∈ sci2segment_contacts s) →
  fold_parallel sqrt SQRT_PI ord p s g = Ok s' →
  (∀ i, i ∈ g → ∃ j, j ∈ g ∧ j ∈ sci2segment_contacts s')
  ∧ (∀ c, c ∈ sci2segment_contacts s → c ∉ g → c ∈ sci2segment_contacts s').
Proof.
  intros Hord Hlive H. unfold fold_parallel in H.
  destruct (size g <=? 1)%nat.
  { injection H as <-. split; [|done]. intros i Hi. exists i. split; [done|auto]. }
  destruct (iter_set ord g) as [|merged_sc rest] eqn:Eit.
  { injection H as <-. split; [|done]. intros i Hi. exists i. split; [done|auto]. }
  assert (Hiter : ∀ c, c ∈ merged_sc :: rest ↔ c ∈ g).
  { intros c. rewrite <- Eit. unfold iter_set. by rewrite Hord, elem_of_elements. }
  assert (Hnd : NoDup (merged_sc :: rest)).
  { rewrite <- Eit. unfold iter_set. rewrite Hord. apply NoDup_elements. }
  apply NoDup_cons in Hnd as [Hm Hnd].
  destruct (absorb_loop merged_sc rest s Hnd) as (s1 & Hrun & Hlive1).
  { intros c Hc. apply Hlive, Hiter. by apply list_elem_of_further. }
  rewrite Hrun, bind_Ok in H.
  apply bind_Ok_inv in H as (cn & _ & H).
  destruct (loop_i _) as [i|]; [|discriminate].
  destruct (cost_sorted_segment_contacts s1 !! i) as [y|]; [|discriminate].
  injection H as <-.
  split.
  - intros i0 Hi0. exists merged_sc. split; [apply Hiter, list_elem_of_here|].
    assert (Hm1 : merged_sc ∈ sci2segment_contacts s1).
    { apply Hlive1; [apply Hlive, Hiter, list_elem_of_here|exact Hm]. }
    revert Hm1. destruct (find_from _ _ _); [|destruct (_ <? _)%nat]; by state_simpl.
  - intros c Hc Hnot.
    assert (Hc1 : c ∈ sci2segment_contacts s1).
    { apply Hlive1; [done|]. intros Hr. apply Hnot, Hiter.
      by apply list_elem_of_further. }
    revert Hc1. destruct (find_from _ _ _); [|destruct (_ <? _)%nat]; by state_simpl.
Qed.

Lemma fold_groups_twin sqrt SQRT_PI ord p shift (st0 : EngineState)
    (groups : list (Z * gset Z)) :
  (∀ l, ord l ≡ₚ l) → groups_ok shift st0 groups →
  (∀ k g c c', (k, g) ∈ groups → c ∈ g → c' ∈ g →
               same_pair (contacts st0 c) (contacts st0 c')) →
  ∀ s s',
  (∀ k g c, (k, g) ∈ groups → c ∈ g → c ∈ sci2segment_contacts s) →
  for_each (fold_parallel sqrt SQRT_PI ord p) (map snd groups) s = Ok s' →
  ∀ i, i ∈ sci2segment_contacts s →
       ∃ j, j ∈ sci2segment_contacts s'
            ∧ same_pair (contacts st0 j) (contacts st0 i).
Proof.
  intros Hord. induction groups as [|[k1 g1] groups IH];
    intros Hgok Hsame s s' Hlive H i Hi; cbn [map for_each snd] in H.
  - injection H as <-. exists i. split; [done|apply same_pair_refl].
  - apply bind_Ok_inv in H as (s1 & H1 & H).
    destruct Hgok as [Hnd Hmem]. cbn in Hnd. apply NoDup_cons in Hnd as [Hk1 Hnd].
    apply fold_parallel_survivor in H1 as [Hsurv Hkeep]; [|done|].
    2:{ intros c Hc. eapply Hlive; [apply list_elem_of_here|done]. }
    assert (Htail : ∀ i1, i1 ∈ sci2segment_contacts s1 →
              ∃ j, j ∈ sci2segment_contacts s'
                   ∧ same_pair (contacts st0 j) (contacts st0 i1)).
    { apply (IH (conj Hnd (λ k g c Hin, Hmem k g c (list_elem_of_further _ _ _ Hin)))
                (λ k g c c' Hin, Hsame k g c c' (list_elem_of_further _ _ _ Hin))
                s1 s'); [|exact H].
      intros k g c Hin Hc. apply Hkeep.
      - eapply Hlive; [by apply list_elem_of_further|done].
      - intros Hc1. apply Hk1.
        assert (k1 = k) as ->.
        { rewrite <- (Hmem k1 g1 c (list_elem_of_here _ _) Hc1).
          apply (Hmem k g c); [by apply list_elem_of_further|done]. }
        apply list_elem_of_fmap. by exists (k, g). }
    destruct (decide (i ∈ g1)) as [Hig|Hig].
    + destruct (Hsurv i Hig) as (m & Hmg & Hml).
      destruct (Htail m Hml) as (j & Hj & Hjm).
      exists j. split; [exact Hj|].
      eapply same_pair_trans; [exact Hjm|].
      by apply (Hsame k1 g1 m i (list_elem_of_here _ _)).
    + apply Htail. by apply Hkeep.
Qed.

(** [repair] retires no segment: a segment with a live contact before
    it has one after it. *)
Lemma repair_active sqrt SQRT_PI ord p shift (s s' : EngineState) (dst : Z) :
  (∀ l, ord l ≡ₚ l) → 0 ≤ shift → exact_at s dst → nonneg_endpoints s →
  repair sqrt SQRT_PI ord p shift s dst = Ok s' →
  ∀ x, active s' x ↔ active s x.
Proof.
  intros Hord Hshift Hex Hnn H x.
  pose proof (repair_spec sqrt SQRT_PI ord p shift s s' dst Hord H)
    as [(Hsub & Hend & _) _].
  split.
  { intros (i & Hi & Ht). exists i. split; [set_solver|].
    unfold touches in *. by destruct (Hend i) as [<- <-]. }
  intros (i & Hi & Ht). unfold repair in H.
  apply bind_Ok_inv in H as (s1 & H1 & H).
  assert (E1 : contacts s1 = contacts s
               ∧ sci2segment_contacts s1 = sci2segment_contacts s
               ∧ seg_segment_contact_ids (segs s1 dst)
                 = seg_segment_contact_ids (segs s dst)).
  { destruct (is_not_perimeter_cost_factor_0 p); [|by injection H1 as <-].
    apply bind_Ok_inv in H1 as (total & _ & H1). injection H1 as <-.
    state_simpl. by rewrite upd_same. }
  destruct E1 as (Econt & Ekeys & Eids).
  apply bind_Ok_inv in H as (groups & Hcol & H).
  pose proof (collect_members _ _ _ _ _ Hcol) as Hmem.
  apply collect_all in Hcol as (Hgok & _);
    [|split; [apply NoDup_nil_2|intros ? ? ? Hin; by apply elem_of_nil in Hin]].
  assert (Hin_dst : ∀ k g c, (k, g) ∈ groups → c ∈ g →
            c ∈ sci2segment_contacts s ∧ touches dst (contacts s c)).
  { intros k g c Hin Hc. destruct (Hmem k g c Hin Hc) as [Hl|(g0 & Hg0 & _)];
      [|by apply elem_of_nil in Hg0].
    unfold iter_set in Hl. rewrite Hord in Hl. apply elem_of_elements in Hl.
    rewrite Eids in Hl. by apply Hex. }
  destruct (fold_groups_twin sqrt SQRT_PI ord p shift s1 groups Hord Hgok)
    with (s := s1) (s' := s') (i := i) as (j & Hj & Hji).
  - intros k g c c' Hin Hc Hc'. rewrite Econt.
    destruct (Hin_dst k g c Hin Hc) as [Hl Htd].
    destruct (Hin_dst k g c' Hin Hc') as [Hl' Htd'].
    destruct (Hnn c Hl) as [N0 N1]. destruct (Hnn c' Hl') as [N0' N1'].
    apply (spi_same_pair shift dst); try done.
    destruct Hgok as [_ Hk].
    pose proof (Hk k g c Hin Hc) as E. pose proof (Hk k g c' Hin Hc') as E'.
    unfold spi_of in E, E'. rewrite Econt in E, E'. congruence.
  - intros k g c Hin Hc. rewrite Ekeys. by apply (Hin_dst k g c Hin).
  - exact H.
  - by rewrite Ekeys.
  - exists j. split; [exact Hj|].
    rewrite Econt in Hji.
    assert (Htj : touches x (contacts s j)).
    { apply (same_pair_touches (contacts s i)); [|exact Ht].
      unfold same_pair in *. intuition congruence. }
    unfold touches in *. by destruct (Hend j) as [-> ->].
Qed.

(** The states of an accepted merge up to the end of the re-pointing
    loop. *)
Lemma scan_merge_states ord (st : EngineState) (sci : Z) :
  (∀ l, ord l ≡ₚ l) → graph_ok st → sci ∈ sci2segment_contacts st →
  ∃ st1 st2,
    _remove_segment_contact (accept st sci) sci = Ok st1
    ∧ for_each (repoint (sc_segment1 (contacts st sci)) (sc_segment0 (contacts st sci)))
        (iter_set ord
           (seg_segment_contact_ids (segs st1 (sc_segment1 (contacts st sci))))) st1
      = Ok st2
    ∧ priority_ok st2
    ∧ graph_inv (λ x, active st x ∧ x ≠ sc_segment1 (contacts st sci)) st2
    ∧ (∀ z, z ≠ sc_segment1 (contacts st sci) → z ≠ sc_segment0 (contacts st sci) →
            (active st2 z ↔ active st z))
    ∧ (nonneg_endpoints st → nonneg_endpoints st2)
    ∧ same_tris (accept st sci) st2.
Proof.
  intros Hord [Hprio Hinv] Hlive.
  set (dst := sc_segment0 (contacts st sci)).
  set (src := sc_segment1 (contacts st sci)).
  pose proof Hinv as (Hreg & Hself & Hclo & Hex).
  assert (Hsd : src ≠ dst) by (intros E; by apply (Hself sci Hlive)).
  assert (Hadst : active st dst) by (exists sci; split; [done|by left]).
  assert (Hasrc : active st src) by (exists sci; split; [done|by right]).
  destruct (_remove_segment_contact_live (accept st sci) sci Hlive) as [st1 H1].
  assert (Hprio1 : priority_ok st1).
  { apply _remove_segment_contact_priority in H1 as [? _]; [done|].
    eapply priority_ok_same; [| | |exact Hprio]; by state_simpl. }
  assert (Hinv1 : graph_inv (active st) st1).
  { apply (graph_inv_keeps _ st); [| |exact Hinv].
    - transitivity (accept st sci); [apply accept_keeps|].
      by apply _remove_segment_contact_keeps in H1 as [? _].
    - intros x Hx. eapply _remove_segment_contact_tidy; [exact H1|].
      by apply accept_tidy. }
  destruct Hinv1 as (Hreg1 & Hself1 & Hclo1 & Hex1).
  pose proof (_remove_segment_contact_tris _ _ _ H1) as Htris1.
  pose proof (_remove_segment_contact_spec _ _ _ H1) as (_ & Hkeys1 & Hcont1 & _).
  cbn in Hkeys1, Hcont1.
  set (B := λ x, active st x ∧ x ≠ src).
  destruct (repoint_loop B src dst Hsd) with
    (rem := iter_set ord (seg_segment_contact_ids (segs st1 src))) (s := st1)
    as (st2 & H2 & Hinv2 & Hact2 & Hnn2).
  - by split.
  - by intros [_ ?].
  - unfold iter_set. rewrite Hord. apply NoDup_elements.
  - exact Hreg1.
  - exact Hself1.
  - intros i x Hi Ht. destruct (decide (x = src)) as [->|Hx]; [by left|right].
    split; [by eapply Hclo1|done].
  - intros x [Hx _]. by apply Hex1.
  - intros k Hk. unfold iter_set in Hk. rewrite Hord in Hk.
    apply elem_of_elements in Hk. by apply (Hex1 src Hasrc).
  - intros k Hk Ht. unfold iter_set. rewrite Hord. apply elem_of_elements.
    destruct (Hreg1 k Hk) as [R0 R1]. by destruct Ht as [<-|<-].
  - exists st1, st2. split; [exact H1|]. split; [exact H2|]. split.
    { apply (for_each_invariant priority_ok) in H2;
        [done|intros ? ? ? _; apply repoint_priority|exact Hprio1]. }
    split; [exact Hinv2|]. split; [|split].
    + intros z Hzs Hzd. rewrite (Hact2 z Hzs Hzd).
      unfold active. rewrite Hkeys1, Hcont1. split.
      * intros (i & Hi & Ht). exists i. split; [set_solver|done].
      * intros (i & Hi & Ht). exists i. split; [|done].
        apply elem_of_difference. split; [done|]. intros E.
        apply elem_of_singleton in E. subst i. by destruct Ht.
    + intros Hnn. apply Hnn2.
      * by destruct (Hnn sci Hlive).
      * intros i Hi. rewrite Hcont1. apply Hnn. set_solver.
    + transitivity st1; [exact Htris1|].
      apply (for_each_preserves same_tris) in H2; [done|].
      intros ? ? ? _. apply repoint_tris.
Qed.

Lemma scan_iter_partition sqrt SQRT_PI ord p shift (st st' : EngineState) (sci : Z)
    (ctl : control) (accepted : bool) :
  (∀ l, ord l ≡ₚ l) → 0 ≤ shift → partition_inv st →
  sci ∈ sci2segment_contacts st →
  scan_iter sqrt SQRT_PI ord p shift st sci = Ok (ctl, accepted, st') →
  partition_inv st' ∧ (∀ t, covered_tri st' t ↔ covered_tri st t)
  ∧ merged_into st st'.
Proof.
  intros Hord Hshift (Hok & Hnn & Hres & Hpart) Hlive H.
  pose proof (scan_iter_safe sqrt SQRT_PI ord p shift st sci Hord Hok Hlive) as Hok'.
  rewrite H in Hok'. cbn in Hok'.
  apply scan_iter_inv in H
    as [(_ & -> & _)|(_ & _ & _ & st1 & st2 & H1 & H2 & Hcase)];
    [split; [exact (conj Hok (conj Hnn (conj Hres Hpart)))|split; [done|by left]]|].
  destruct (scan_merge_states ord st sci Hord Hok Hlive)
    as (st1' & st2' & H1' & H2' & Hprio2 & Hinv2 & Hact2 & Hnn2 & Htris2).
  rewrite H1 in H1'. injection H1' as <-.
  rewrite H2 in H2'. injection H2' as <-.
  set (dst := sc_segment0 (contacts st sci)) in *.
  set (src := sc_segment1 (contacts st sci)) in *.
  destruct Hok as [Hprio (Hreg & Hself & Hclo & Hex)].
  assert (Hsd : src ≠ dst) by (intros E; by apply (Hself sci Hlive)).
  assert (Hadst : active st dst) by (exists sci; split; [done|by left]).
  assert (Hasrc : active st src) by (exists sci; split; [done|by right]).
  assert (Hrsrc : src ∉ result_segments st) by (intros E; by apply (Hres src)).
  assert (Hrdst : dst ∉ result_segments st) by (intros E; by apply (Hres dst)).
  destruct Hinv2 as (Hreg2 & Hself2 & Hclo2 & Hex2).
  assert (Hnsrc2 : ¬ active st2 src).
  { intros (i & Hi & Ht). by destruct (Hclo2 i src Hi Ht). }
  specialize (Hnn2 Hnn).
  (* the state after the merge, from [st2] *)
  assert (Hfinal :
    nonneg_endpoints st'
    ∧ (∀ x, seg_tri_loop0s (segs st' x) = seg_tri_loop0s (segs st2 x))
    ∧ (∀ z, z ≠ dst → (active st' z ↔ active st2 z))
    ∧ ((result_segments st' = result_segments st ∪ {[dst]} ∧ ¬ active st' dst)
       ∨ (result_segments st' = result_segments st ∧ active st' dst))).
  { destruct Htris2 as [_ Hr2]. cbn in Hr2.
    destruct Hcase as [(_ & Hsz & ->)|(_ & Hsz & H3)].
    - split; [exact Hnn2|]. split; [done|]. split; [done|]. left.
      cbn. rewrite Hr2. split; [done|].
      intros (i & Hi & Ht). apply size_empty_iff in Hsz.
      destruct (Hreg2 i Hi) as [R0 R1]. cbn in Hi, Ht.
      destruct Ht as [Ht|Ht]; rewrite Ht in *; set_solver.
    - pose proof (repair_spec _ _ _ _ _ _ _ _ Hord H3) as [(Hsub & Hend & _) _].
      pose proof (repair_tris _ _ _ _ _ _ _ _ H3) as [Ht3 Hr3].
      assert (Hact3 : ∀ x, active st' x ↔ active st2 x).
      { apply (repair_active sqrt SQRT_PI ord p shift st2 st' dst); try done.
        apply Hex2. by split. }
      split; [|split; [exact Ht3|split; [intros z _; apply Hact3|]]].
      + intros i Hi. destruct (Hend i) as [-> ->]. apply Hnn2. set_solver.
      + right. split; [congruence|]. apply Hact3.
        destruct (set_choose_or_empty (seg_segment_contact_ids (segs st2 dst)))
          as [[k Hk]|Hemp].
        * assert (Hexd : exact_at st2 dst) by (apply Hex2; by split).
          destruct (Hexd k Hk) as [Hl Ht]. by exists k.
        * exfalso. apply Hsz. rewrite Hemp. apply size_empty. }
  destruct Hfinal as (Hnn' & Htris' & Hact' & Hresult).
  (* triangles and activity of [st'] in terms of [st] *)
  assert (HT : ∀ x, seg_tri_loop0s (segs st' x)
                    = if decide (x = dst)
                      then seg_tri_loop0s (segs st dst) ∪ seg_tri_loop0s (segs st src)
                      else seg_tri_loop0s (segs st x)).
  { intros x. rewrite Htris'. destruct Htris2 as [-> _]. cbn. fold dst src.
    destruct (decide (x = dst)) as [->|Hx]; [by rewrite upd_same|by rewrite upd_other]. }
  assert (Hact : ∀ z, z ≠ src → z ≠ dst → (active st' z ↔ active st z)).
  { intros z Hzs Hzd. by rewrite Hact', Hact2. }
  assert (Hnsrc : ¬ active st' src) by (by rewrite Hact').
  assert (Hrsub : ∀ x, x ∈ result_segments st' ↔ x ∈ result_segments st
                        ∨ (x = dst ∧ ¬ active st' dst)).
  { intros x. destruct Hresult as [[-> Hn]|[-> Hy]]; set_solver. }
  assert (A1 : ∀ z, z ≠ src → z ≠ dst → (alive st' z ↔ alive st z)).
  { intros z Hzs Hzd. unfold alive. rewrite Hrsub, (Hact z Hzs Hzd). tauto. }
  assert (A2 : alive st' dst).
  { unfold alive. destruct Hresult as [[-> _]|[_ ?]]; [left; set_solver|by right]. }
  assert (A3 : ¬ alive st' src).
  { unfold alive. rewrite Hrsub. intros [[?|[? _]]|?]; done. }
  assert (A4 : alive st src) by (by right).
  assert (A5 : alive st dst) by (by right).
  assert (HA : ∀ x, seg_area (segs st' x)
                    = if decide (x = dst)
                      then (seg_area (segs st dst) + seg_area (segs st src))%Q
                      else seg_area (segs st x)).
  { assert (HA2 : same_area (accept st sci) st').
    { transitivity st1; [by apply _remove_segment_contact_area in H1|].
      transitivity st2.
      - apply (for_each_preserves same_area) in H2; [exact H2|].
        intros ? ? ? _. apply repoint_area.
      - destruct Hcase as [(_ & _ & ->)|(_ & _ & H3)]; [by intros x|].
        by apply repair_area in H3. }
    intros x. rewrite HA2. cbn. fold dst src.
    destruct (decide (x = dst)) as [->|Hx]; [by rewrite upd_same|by rewrite upd_other]. }
  split; [split; [exact Hok'|split; [exact Hnn'|split]]|split].
  4:{ right. exists dst, src. by repeat (split; [done|]). }
  - intros x Hx. apply Hrsub in Hx as [Hx|[-> Hx]]; [|exact Hx].
    assert (x ≠ src) by (by intros ->). assert (x ≠ dst) by (by intros ->).
    rewrite Hact by done. by apply Hres.
  - intros x y t Hx Hy Htx Hty. rewrite HT in Htx, Hty.
    assert (Hxs : x ≠ src) by (by intros ->).
    assert (Hys : y ≠ src) by (by intros ->).
    destruct (decide (x = dst)) as [->|Hxd]; destruct (decide (y = dst)) as [->|Hyd];
      [done| | |].
    + apply A1 in Hy; [|done|done]. exfalso.
      apply elem_of_union in Htx as [Htx|Htx].
      * apply Hyd. by apply (Hpart y dst t).
      * apply Hys. by apply (Hpart y src t).
    + apply A1 in Hx; [|done|done]. exfalso.
      apply elem_of_union in Hty as [Hty|Hty].
      * apply Hxd. by apply (Hpart x dst t).
      * apply Hxs. by apply (Hpart x src t).
    + apply A1 in Hx; [|done|done]. apply A1 in Hy; [|done|done].
      by apply (Hpart x y t).
  - intros t. split.
    + intros (x & Hx & Ht). rewrite HT in Ht.
      destruct (decide (x = dst)) as [->|Hxd].
      * apply elem_of_union in Ht as [Ht|Ht]; [by exists dst|by exists src].
      * assert (Hxs : x ≠ src) by (by intros ->).
        exists x. split; [by apply A1|done].
    + intros (x & Hx & Ht).
      destruct (decide (x = dst)) as [->|Hxd];
        [|destruct (decide (x = src)) as [->|Hxs]].
      * exists dst. split; [done|]. rewrite HT.
        destruct (decide (dst = dst)); [set_solver|done].
      * exists dst. split; [done|]. rewrite HT.
        destruct (decide (dst = dst)); [set_solver|done].
      * exists x. split; [by apply A1|]. rewrite HT.
        by destruct (decide (x = dst)).
Qed.

Lemma merge_loop_partition sqrt SQRT_PI ord p shift (fuel : nat)
    (st0 st st' : EngineState) :
  (∀ l, ord l ≡ₚ l) → 0 ≤ shift →
  partition_inv st → (∀ t, covered_tri st t ↔ covered_tri st0 t) →
  merge_loop sqrt SQRT_PI ord p shift fuel st = Ok st' →
  partition_inv st' ∧ ∀ t, covered_tri st' t ↔ covered_tri st0 t.
Proof.
  intros Hord Hshift Hinv Hcov H.
  apply (merge_loop_invariant
           (λ s, partition_inv s ∧ ∀ t, covered_tri s t ↔ covered_tri st0 t)
           sqrt SQRT_PI ord p shift) in H; [exact H| |by split].
  intros s sci ctl acc s' [Hs Hc] Hin Hit.
  assert (Hlive : sci ∈ sci2segment_contacts s).
  { destruct Hs as ([(_ & _ & Hel) _] & _). by apply Hel. }
  destruct (scan_iter_partition _ _ _ _ _ _ _ _ _ _ Hord Hshift Hs Hlive Hit)
    as (Hs' & Hc' & _).
  split; [exact Hs'|]. intros t. by rewrite Hc', Hc.
Qed.

Lemma pair_shift_nonneg (n shift : Z) : pair_shift n = Ok shift → 0 ≤ shift.
Proof.
  unfold pair_shift. destruct (n <=? 0); [done|]. intros [= <-].
  pose proof (Z.log2_nonneg n). pose proof (Z.div_pos (Z.log2 n) 2). lia.
Qed.

Lemma elem_of_endpoints (cs : Z → SegmentContact) (a : list Z) (x : Z) :
  x ∈ endpoints cs a ↔ ∃ c, c ∈ a ∧ touches x (cs c).
Proof.
  unfold endpoints, touches. rewrite elem_of_list_to_set. split.
  - intros Hx. apply list_elem_of_In, in_concat in Hx as (l & Hl & Hx).
    apply in_map_iff in Hl as (c & <- & Hc). apply list_elem_of_In in Hc.
    exists c. split; [done|]. cbn in Hx. intuition congruence.
  - intros (c & Hc & Hx). apply list_elem_of_In, in_concat.
    exists [sc_segment0 (cs c); sc_segment1 (cs c)]. split.
    + apply in_map_iff. exists c. split; [done|]. by apply list_elem_of_In.
    + cbn. intuition.
Qed.

Lemma start_state_partition (m : BMesh) (tris : list (Z * Z * Z)) (b : BuildState) :
  build_ok b → tri_inv m tris b → no_self_contacts (start_state b) →
  partition_inv (start_state b).
Proof.
  intros Hok Htri Hself. split; [by apply start_state_graph_ok|].
  destruct Hok as (_ & _ & _ & _ & H5 & _). destruct Htri as (_ & _ & _ & H4).
  split; [|split].
  - intros i Hi. cbn in *. apply elem_of_list_to_set in Hi.
    destruct (H5 i Hi) as (? & ? & _). lia.
  - intros x Hx. cbn in Hx. set_solver.
  - intros x y t _ _ Hx Hy. cbn in Hx, Hy.
    apply H4 in Hx as [_ Hx]. apply H4 in Hy as [_ Hy]. congruence.
Qed.

(** X24: the segments [auto_segment] returns partition the triangles of
    the segments that had a contact when the graph was built: no
    triangle is in two returned segments, and a triangle is in a
    returned segment exactly if the segment built for it had a contact.
    (Sets iterated in any order; built graph without a contact from a
    segment to itself.) *)
Theorem X24_result_partition sqrt SQRT_PI hpi ord m p (st0 : EngineState)
    (r : SegmentResult) :
  (∀ l, ord l ≡ₚ l) →
  built_state sqrt SQRT_PI hpi m p = Ok st0 →
  no_self_contacts st0 →
  auto_segment sqrt SQRT_PI hpi ord m p = Ok r →
  (∀ x y t, x ∈ segments r → y ∈ segments r →
            t ∈ seg_tri_loop0s (r_segs r x) → t ∈ seg_tri_loop0s (r_segs r y) →
            x = y)
  ∧ (∀ t, (∃ x, x ∈ segments r ∧ t ∈ seg_tri_loop0s (r_segs r x))
          ↔ (∃ x, active st0 x ∧ t ∈ seg_tri_loop0s (segs st0 x))).
Proof.
  intros Hord Hbuilt Hself H. unfold built_state in Hbuilt. unfold auto_segment in H.
  cbv zeta in H.
  destruct (_calc_segment_contacts _ _ _ _ _ _ _) as [[b n]|e] eqn:Eb; [|done].
  rewrite bind_Ok in Hbuilt. rewrite bind_Ok in H.
  injection Hbuilt as <-. cbn [fst] in *.
  pose proof (_calc_segment_contacts_tri _ _ _ _ _ _ _ _ _ Eb) as Htri.
  apply _calc_segment_contacts_ok in Eb as [Hok ->].
  destruct (b_next_segment_id b =? 0) eqn:En.
  { injection H as <-. cbn. apply Z.eqb_eq in En. split; [set_solver|].
    intros t. split; [set_solver|]. intros (x & (i & Hi & _) & _). exfalso.
    cbn in Hi. apply elem_of_list_to_set in Hi.
    destruct Hok as (_ & _ & _ & _ & H5 & _). destruct (H5 i Hi) as (? & _). lia. }
  apply bind_Ok_inv in H as (shift & Hshift & H).
  apply bind_Ok_inv in H as (st & Hloop & H). injection H as <-. cbn.
  apply pair_shift_nonneg in Hshift.
  pose proof (start_state_partition m _ b Hok Htri Hself) as Hinv0.
  destruct (merge_loop_partition _ _ _ _ _ _ (start_state b) _ _ Hord Hshift Hinv0
              (λ t, iff_refl _) Hloop) as [(Hgok & _ & Hres & Hpart) Hcov].
  assert (Halive : ∀ x,
            x ∈ result_segments st
                ∪ endpoints (contacts st) (cost_sorted_segment_contacts st)
            ↔ alive st x).
  { intros x. rewrite elem_of_union, elem_of_endpoints. unfold alive, active.
    destruct Hgok as [(_ & _ & Hel) _]. by setoid_rewrite Hel. }
  split.
  - intros x y t Hx Hy. apply Hpart; by apply Halive.
  - intros t.
    assert (Hnr : ∀ x, alive (start_state b) x ↔ active (start_state b) x).
    { intros x. unfold alive. cbn. set_solver. }
    transitivity (covered_tri st t).
    { unfold covered_tri. by setoid_rewrite Halive. }
    rewrite (Hcov t). unfold covered_tri. by setoid_rewrite Hnr.
Qed.

Lemma X24_result_partition_witness :
  (∀ x y t, x ∈ segments fan_result → y ∈ segments fan_result →
            t ∈ seg_tri_loop0s (r_segs fan_result x) →
            t ∈ seg_tri_loop0s (r_segs fan_result y) → x = y)
  ∧ (∀ t, (∃ x, x ∈ segments fan_result ∧ t ∈ seg_tri_loop0s (r_segs fan_result x))
          ↔ (∃ x, active fan_state x ∧ t ∈ seg_tri_loop0s (segs fan_state x))).
Proof.
  apply (X24_result_partition approx_sqrt approx_SQRT_PI (2 # 3) descending fan
           (test_params 10 2 1) fan_state fan_result).
  - intros l. apply merge_sort_Permutation.
  - exact fan_built_state.
  - exact (proj1 (proj2 (proj2 fan_state_graph_ok))).
  - exact fan_result_run.
Defined.

(** ** Area and perimeters of the built segments *)

Lemma contact_length_from_ext (cs cs' : Z → SegmentContact) (keys : list Z) (s : Z) :
  (∀ k, k ∈ keys → sc_segment0 (cs' k) = sc_segment0 (cs k)
                   ∧ sc_length (cs' k) = sc_length (cs k)) →
  contact_length_from cs' keys s = contact_length_from cs keys s.
Proof.
  unfold contact_length_from, Qsum. induction keys as [|k keys IH]; intros H; [done|].
  rewrite !filter_cons.
  destruct (H k (list_elem_of_here _ _)) as [E0 El]. rewrite E0.
  assert (IH' := IH (λ k' Hk', H k' (list_elem_of_further _ _ _ Hk'))).
  destruct (decide (sc_segment0 (cs k) = s)); cbn [map fold_right]; [|exact IH'].
  by rewrite El, IH'.
Qed.

Lemma contact_length_from_snoc (cs : Z → SegmentContact) (keys : list Z) (k s : Z) :
  (contact_length_from cs (keys ++ [k]) s
   == contact_length_from cs keys s
      + (if decide (sc_segment0 (cs k) = s) then sc_length (cs k) else 0))%Q.
Proof.
  unfold contact_length_from, Qsum. rewrite filter_app, map_app.
  induction (filter (λ k0, sc_segment0 (cs k0) = s) keys) as [|y l IH];
    cbn [app map fold_right].
  - rewrite filter_cons, filter_nil.
    destruct (decide (sc_segment0 (cs k) = s)); cbn [map fold_right]; ring.
  - rewrite IH. ring.
Qed.

Lemma measured_ext (m : BMesh) (b b' : BuildState) (tri : Z * Z * Z) (s : Z) :
  b_sci_keys b' = b_sci_keys b →
  (∀ k, k ∈ b_sci_keys b → sc_segment0 (b_contacts b' k) = sc_segment0 (b_contacts b k)
                            ∧ sc_length (b_contacts b' k) = sc_length (b_contacts b k)) →
  seg_area (b_segs b' s) = seg_area (b_segs b s) →
  seg_perimeter (b_segs b' s) = seg_perimeter (b_segs b s) →
  seg_non_contact_perimeter (b_segs b' s) = seg_non_contact_perimeter (b_segs b s) →
  measured m b tri s → measured m b' tri s.
Proof.
  intros Ek Ec Ea Ep En (H1 & H2 & H3). unfold measured.
  rewrite Ea, Ep, En, Ek, (contact_length_from_ext _ _ _ _ Ec). done.
Qed.

Lemma measuring_ext (m : BMesh) (done : list (Z * Z * Z)) (tri : Z * Z * Z)
    (this : Z) (b b' : BuildState) (cp : Q) :
  b_sci_keys b' = b_sci_keys b →
  b_next_segment_contact_id b' = b_next_segment_contact_id b →
  b_next_segment_id b' = b_next_segment_id b →
  b_tli2segment b' = b_tli2segment b →
  b_segs b' = b_segs b →
  b_contacts b' = b_contacts b →
  measuring m done tri this b cp → measuring m done tri this b' cp.
Proof.
  intros Ek Ec En Et Es Eco (H1 & H2 & H3 & H4 & H5 & H6 & H7 & H8 & H9).
  unfold measuring, tli_injective, measured in *.
  rewrite Ek, En, Et, Es, Eco.
  split; [|done]. eapply build_ok_ext; [..|exact H1]; try done.
  - intros s. by rewrite Es.
  - intros k. by rewrite Eco.
Qed.

Lemma tli2segment_get_meas (m : BMesh) (done : list (Z * Z * Z)) (tri : Z * Z * Z)
    (this : Z) (b b' : BuildState) (cp : Q) (tli s : Z) :
  measuring m done tri this b cp → tli2segment_get b tli = (s, b') →
  measuring m done tri this b' cp ∧ 1 ≤ s ≤ b_next_segment_id b'.
Proof.
  intros (H1 & H2 & H3 & H4 & H5 & H6 & H7 & H8 & H9) H.
  pose proof (tli2segment_get_ok b b' tli s H1 H) as (Hok' & Hs & Hle).
  split; [|exact Hs].
  unfold tli2segment_get in H.
  destruct (b_tli2segment b !! tli) as [s0|] eqn:E.
  { injection H as <- <-.
    exact (conj H1 (conj H2 (conj H3 (conj H4 (conj H5 (conj H6 (conj H7 (conj H8 H9)))))))). }
  injection H as <- <-.
  pose proof H1 as (_ & _ & _ & Hval & _).
  assert (Hmono : ∀ k v, b_tli2segment b !! k = Some v →
                         <[tli := b_next_segment_id b + 1]> (b_tli2segment b) !! k = Some v).
  { intros k v Hk. rewrite lookup_insert_ne; [done|]. intros ->. congruence. }
  assert (Hsegs : ∀ x, x ≤ b_next_segment_id b →
                       upd (b_segs b) (b_next_segment_id b + 1) new_Segment x = b_segs b x).
  { intros x Hx. apply upd_other. lia. }
  split; [exact Hok'|]. unfold tli_injective in *. cbn in *.
  split; [lia|]. split.
  { intros k k' v Hk Hk'.
    destruct (decide (k = tli)) as [->|Hne]; destruct (decide (k' = tli)) as [->|Hne'];
      [done| | |].
    - rewrite lookup_insert_eq in Hk. rewrite lookup_insert_ne in Hk' by done.
      injection Hk as <-. apply Hval in Hk'. lia.
    - rewrite lookup_insert_eq in Hk'. rewrite lookup_insert_ne in Hk by done.
      injection Hk' as <-. apply Hval in Hk. lia.
    - rewrite lookup_insert_ne in Hk, Hk' by done. by eapply H3. }
  split.
  { intros c Hc. destruct (H4 c Hc) as [(tri' & Hin & Hsel & Hl)|Hthis]; [left|by right].
    exists tri'. split; [done|]. split; [done|]. by apply Hmono. }
  split.
  { intros tri' Hin Hsel. destruct (H5 tri' Hin Hsel) as (s & Hne & Hl & Hm).
    exists s. split; [done|]. split; [by apply Hmono|].
    pose proof (Hval _ _ Hl) as Hsle.
    unfold measured. cbn. rewrite Hsegs by lia. exact Hm. }
  split; [by apply Hmono|]. split; [exact H7|].
  rewrite Hsegs by lia. by split.
Qed.

Lemma b_add_contact_meas (m : BMesh) (done : list (Z * Z * Z)) (tri : Z * Z * Z)
    (this : Z) (b : BuildState) (cp cost_total cn edge_length : Q) (that : Z) :
  measuring m done tri this b cp → 1 ≤ that ≤ b_next_segment_id b →
  measuring m done tri this (b_add_contact b cost_total cn edge_length this that)
    (cp + edge_length)%Q.
Proof.
  intros (H1 & H2 & H3 & H4 & H5 & H6 & H7 & H8 & H9) Hthat.
  pose proof (b_add_contact_ok b cost_total cn edge_length this that H1 H2 Hthat) as Hok'.
  pose proof H1 as (Hkeys & Hnc & _).
  set (id := b_next_segment_contact_id b + 1).
  set (b' := b_add_contact b cost_total cn edge_length this that) in *.
  assert (Ek : b_sci_keys b' = b_sci_keys b ++ [id]) by reflexivity.
  assert (Eco : b_contacts b'
                = upd (b_contacts b) id
                    (mkSegmentContact cost_total cn edge_length this that))
    by reflexivity.
  assert (Et : b_tli2segment b' = b_tli2segment b) by reflexivity.
  assert (En : b_next_segment_id b' = b_next_segment_id b) by reflexivity.
  assert (Hold : ∀ k, k ∈ b_sci_keys b → k ≠ id).
  { intros k Hk. rewrite Hkeys in Hk. apply elem_of_seq_keys in Hk. unfold id. lia. }
  assert (Hcs : ∀ k, k ∈ b_sci_keys b → b_contacts b' k = b_contacts b k).
  { intros k Hk. rewrite Eco. apply upd_other. by apply Hold. }
  assert (Hnew : b_contacts b' id
                 = mkSegmentContact cost_total cn edge_length this that).
  { rewrite Eco. apply upd_same. }
  assert (Hmeasure : ∀ x, seg_area (b_segs b' x) = seg_area (b_segs b x)
                         ∧ seg_perimeter (b_segs b' x) = seg_perimeter (b_segs b x)
                         ∧ seg_non_contact_perimeter (b_segs b' x)
                           = seg_non_contact_perimeter (b_segs b x)).
  { intros x. unfold b', b_add_contact. cbn. unfold upd.
    repeat case_bool_decide; subst; cbn; done. }
  clearbody b'.
  assert (Hclf : ∀ s,
    (contact_length_from (b_contacts b') (b_sci_keys b') s
     == contact_length_from (b_contacts b) (b_sci_keys b) s
        + (if decide (this = s) then edge_length else 0))%Q).
  { intros s. rewrite Ek, contact_length_from_snoc, Hnew.
    cbn [sc_segment0 sc_length].
    rewrite (contact_length_from_ext (b_contacts b) (b_contacts b')); [reflexivity|].
    intros k Hk. by rewrite Hcs. }
  unfold measuring, tli_injective. rewrite Et, En.
  split; [exact Hok'|]. split; [done|]. split; [done|]. split.
  { intros c Hc. rewrite Ek in Hc. apply elem_of_app in Hc as [Hc|Hc].
    - rewrite Hcs by done. apply H4, Hc.
    - apply list_elem_of_singleton in Hc as ->. rewrite Hnew. by right. }
  split.
  { intros tri' Hin Hsel. destruct (H5 tri' Hin Hsel) as (s & Hne & Hl & Hm1 & Hm2 & Hm3).
    exists s. split; [done|]. split; [done|].
    destruct (Hmeasure s) as (Ea & Ep & Enc).
    unfold measured. rewrite Ea, Ep, Enc. split; [done|]. split; [done|].
    rewrite (Hclf s). destruct (decide (this = s)); [congruence|]. rewrite Hm3. ring. }
  split; [done|]. split.
  { rewrite (Hclf this). destruct (decide (this = this)); [|done]. rewrite H7. ring. }
  destruct (Hmeasure this) as (Ea & Ep & _). by rewrite Ea, Ep.
Qed.

Lemma radial_body_meas hpi p m vi2 vshift lshift this_face this this_heaviest
    this_loop (done : list (Z * Z * Z)) (tri : Z * Z * Z) (st st' : LoopState)
    (that_loop : Z) :
  measuring m done tri this st.1.1 st.2 →
  radial_body hpi p m vi2 vshift lshift this_face this this_heaviest
    this_loop st that_loop = Ok st' →
  measuring m done tri this st'.1.1 st'.2.
Proof.
  destruct st as [[b info] cp]. cbn [fst snd]. intros Hok H.
  unfold radial_body in H.
  destruct (bool_decide _); [by injection H as <-|].
  assert (Hok0 : ∀ x, measuring m done tri this (b_set_processed b x) cp).
  { intros x. by eapply measuring_ext; [..|exact Hok]. }
  destruct (negb _); [injection H as <-; cbn; apply Hok0|].
  revert H.
  set (b0 := b_set_processed b _).
  assert (Hb0 : measuring m done tri this b0 cp) by apply Hok0.
  clearbody b0.
  assert (Hgo : ∀ (b1 : BuildState) (ei : EdgeInfo),
    measuring m done tri this b1 cp →
    (let edge_length := e_edge_length ei in
     let that_tli := _to_tri_loop_index m that_loop in
     let '(that_heaviest, hmemo) :=
       _calc_heaviest_vertex_group_index m vi2 (b_tli2heaviest_vgi b1) that_tli
         that_loop in
     let b2 := b_set_tli2heaviest_vgi b1 hmemo in
     let that_vert2 := loop_vert m (link_loop_prev m that_loop) in
     let '(that_segment, b3) := tli2segment_get b2 that_tli in
     let '(cost_vgw, memo) :=
       cost_vertex_group_weight vi2 vshift (b_vpi2weights b3) edge_length
         (e_this_loop_vertex_group_weight_cost ei) (e_vert0 ei) (e_vert1 ei)
         that_vert2 in
     let b4 := b_set_vpi2weights b3 memo in
     let cost_vertex_group_change :=
       (edge_length * (if bool_decide (this_heaviest = that_heaviest) then 0 else 1))%Q in
     let cost_face_angle :=
       (edge_length * hpi * normal_angle m this_loop that_loop)%Q in
     let cost_material_change :=
       (edge_length
        * (if bool_decide (face_material_index m this_face
                           = face_material_index m (loop_face m that_loop))
           then 0 else 1))%Q in
     let cost_total :=
       (0 + vertex_group_weight_cost_factor p * cost_vgw
        + vertex_group_change_cost_factor p * cost_vertex_group_change
        + face_angle_cost_factor p * cost_face_angle
        + material_change_cost_factor p * cost_material_change
        + edge_sharp_cost_factor p * e_cost_edge_sharp ei
        + edge_seam_cost_factor p * e_cost_edge_seam ei)%Q in
     cn ← fdiv cost_total
            (if Qgtb (contact_length_factor p) 0
             then (edge_length * contact_length_factor p)%Q else 1%Q);
     Ok (b_add_contact b4 cost_total cn edge_length this that_segment,
         Some ei, (cp + edge_length)%Q)) = Ok st' →
    measuring m done tri this st'.1.1 st'.2).
  { intros b1 ei Hok1. cbv zeta.
    destruct (_calc_heaviest_vertex_group_index _ _ _ _ _) as [h hm].
    destruct (tli2segment_get _ _) as [that b3] eqn:Eget.
    destruct (cost_vertex_group_weight _ _ _ _ _ _ _ _) as [c mm].
    intros H. apply bind_Ok_inv in H as (cn & _ & H). injection H as <-.
    cbn [fst snd].
    apply (tli2segment_get_meas m done tri this _ _ cp) in Eget as [Hok3 Hthat].
    2:{ by eapply measuring_ext; [..|exact Hok1]. }
    apply b_add_contact_meas; [by eapply measuring_ext; [..|exact Hok3]|exact Hthat]. }
  destruct info as [ei|].
  - apply Hgo. exact Hb0.
  - destruct (this_loop_vertex_group_weight_cost _ _ _ _ _ _) as [c0 m0].
    apply Hgo. by eapply measuring_ext; [..|exact Hb0].
Qed.

Lemma tli2segment_get_lookup (b b' : BuildState) (tli s : Z) :
  tli2segment_get b tli = (s, b') →
  b_tli2segment b' !! tli = Some s
  ∧ b_sci_keys b' = b_sci_keys b ∧ b_contacts b' = b_contacts b
  ∧ (∀ k v, b_tli2segment b !! k = Some v → b_tli2segment b' !! k = Some v)
  ∧ (∀ x, x ≤ b_next_segment_id b → b_segs b' x = b_segs b x)
  ∧ (∀ k k' v, (∀ k0 v0, b_tli2segment b !! k0 = Some v0 → v0 ≤ b_next_segment_id b) →
       tli_injective b → b_tli2segment b' !! k = Some v →
       b_tli2segment b' !! k' = Some v → k = k').
Proof.
  unfold tli2segment_get. intros H.
  destruct (b_tli2segment b !! tli) as [s0|] eqn:E.
  { injection H as <- <-. repeat split; try done. intros k k' v _ Hinj. apply Hinj. }
  injection H as <- <-. cbn.
  split; [by rewrite lookup_insert_eq|]. split; [done|]. split; [done|].
  split.
  { intros k v Hk. rewrite lookup_insert_ne; [done|]. intros ->. congruence. }
  split; [intros x Hx; apply upd_other; lia|].
  intros k k' v Hval Hinj Hk Hk'.
  destruct (decide (k = tli)) as [->|Hne]; destruct (decide (k' = tli)) as [->|Hne'];
    [done| | |].
  - rewrite lookup_insert_eq in Hk. rewrite lookup_insert_ne in Hk' by done.
    injection Hk as <-. apply Hval in Hk'. lia.
  - rewrite lookup_insert_eq in Hk'. rewrite lookup_insert_ne in Hk by done.
    injection Hk' as <-. apply Hval in Hk. lia.
  - rewrite lookup_insert_ne in Hk, Hk' by done. by eapply Hinj.
Qed.

Lemma tri_body_meas hpi p m vi2 vshift lshift (done : list (Z * Z * Z))
    (b b' : BuildState) (tri : Z * Z * Z) :
  measures_inv m done b →
  (selected_tri m tri →
   ∀ tri', tri' ∈ done → selected_tri m tri' →
           _to_tri_loop_index m tri'.1.1 ≠ _to_tri_loop_index m tri.1.1) →
  tri_body hpi p m vi2 vshift lshift b tri = Ok b' →
  measures_inv m (done ++ [tri]) b'.
Proof.
  intros (Hok & Hinj & Hcre & Hmeas) Hfresh H. unfold tri_body in H.
  destruct tri as [[l0 l1] l2]. unfold selected_tri in Hfresh. cbn [fst snd] in Hfresh.
  destruct (face_select m (loop_face m l0)) eqn:Eface; cbn [negb] in H.
  2:{ injection H as <-. split; [exact Hok|]. split; [exact Hinj|]. split.
      - intros c Hc. destruct (Hcre c Hc) as (tri' & Hin & Hsel & Hl).
        exists tri'. split; [apply elem_of_app; by left|done].
      - intros tri' Hin Hsel. apply elem_of_app in Hin as [Hin|Hin]; [by apply Hmeas|].
        apply list_elem_of_singleton in Hin as ->.
        unfold selected_tri in Hsel. cbn in Hsel. congruence. }
  specialize (Hfresh eq_refl).
  destruct (_calc_heaviest_vertex_group_index _ _ _ _ _) as [h hm].
  destruct (tli2segment_get _ _) as [this b1] eqn:Eget.
  pose proof (tli2segment_get_lookup _ _ _ _ Eget)
    as (Hthis & Ekeys & Econt & Hmono & Hsegs & Hinj1).
  cbn [b_tli2segment b_sci_keys b_contacts b_next_segment_id b_segs
       b_set_tli2heaviest_vgi] in Hthis, Ekeys, Econt, Hmono, Hsegs, Hinj1.
  pose proof Hok as (_ & _ & _ & Hval & _).
  apply tli2segment_get_ok in Eget as (Hok1 & Hthis_range & _).
  2:{ by eapply build_ok_ext; [..|exact Hok]. }
  assert (Hinj1' : tli_injective b1).
  { intros k k' v. apply Hinj1; [|exact Hinj].
    intros k0 v0 Hk0. apply Hval in Hk0. lia. }
  assert (Hother : ∀ tri', tri' ∈ done → selected_tri m tri' →
            ∃ s, s ≠ this
                 ∧ b_tli2segment b1 !! _to_tri_loop_index m tri'.1.1 = Some s
                 ∧ measured m b tri' s ∧ s ≤ b_next_segment_id b).
  { intros tri' Hin Hsel. destruct (Hmeas tri' Hin Hsel) as (s & Hl & Hm).
    exists s. split; [|split; [by apply Hmono|split; [exact Hm|]]].
    2:{ apply Hval in Hl. lia. }
    intros ->. apply (Hfresh tri' Hin Hsel).
    apply (Hinj1' _ _ this); [by apply Hmono|exact Hthis]. }
  apply bind_Ok_inv in H as ([b2 cp] & Hloop & H). injection H as <-.
  apply (for_each_invariant
           (λ st : BuildState * Q, measuring m done (l0, l1, l2) this st.1 st.2))
    in Hloop.
  - cbn [fst snd] in Hloop.
    destruct Hloop as (M1 & M2 & M3 & M4 & M5 & M6 & M7 & M8 & M9).
    split.
    { eapply build_ok_ext; [..|exact M1]; try done.
      intros s. cbn. by apply upd_ids_same. }
    split; [exact M3|]. cbn [b_sci_keys b_contacts b_tli2segment b_set_segs]. split.
    + intros c Hc. destruct (M4 c Hc) as [(tri' & Hin & Hsel & Hl)|Hc0].
      * exists tri'. split; [apply elem_of_app; by left|done].
      * exists (l0, l1, l2). split; [apply elem_of_app; right; apply list_elem_of_here|].
        split; [exact Eface|]. by rewrite Hc0.
    + intros tri' Hin Hsel. apply elem_of_app in Hin as [Hin|Hin].
      * destruct (M5 tri' Hin Hsel) as (s & Hne & Hl & Hm).
        exists s. split; [exact Hl|].
        refine (measured_ext m b2 _ tri' s _ _ _ _ _ Hm); try done;
          cbn [b_segs b_set_segs]; by rewrite upd_other.
      * apply list_elem_of_singleton in Hin as ->. exists this. split; [exact M6|].
        unfold measured. cbn. rewrite upd_same. cbn. rewrite M8, M9.
        split; [done|]. split; [done|]. by rewrite M7.
  - intros [b3 cp3] l [b4 cp4] _ Hinv Hbody. unfold loop_body in Hbody.
    apply bind_Ok_inv in Hbody as ([[b5 info] cp5] & Hrad & Hbody).
    injection Hbody as <- <-. cbn [fst snd] in *.
    apply (for_each_invariant
             (λ st : LoopState, measuring m done (l0, l1, l2) this st.1.1 st.2))
      in Hrad; [exact Hrad| |exact Hinv].
    intros st0 that st1 _. apply radial_body_meas.
  - cbn [fst snd]. split.
    { eapply build_ok_ext; [..|exact Hok1]; try done.
      intros s. cbn. by apply upd_ids_same. }
    cbn [b_next_segment_id b_tli2segment b_sci_keys b_contacts b_set_segs b_segs].
    split; [exact Hthis_range|]. split; [exact Hinj1'|].
    rewrite Ekeys, Econt. split.
    { intros c Hc. left. destruct (Hcre c Hc) as (tri' & Hin & Hsel & Hl).
      exists tri'. split; [done|]. split; [done|]. by apply Hmono. }
    split.
    { intros tri' Hin Hsel. destruct (Hother tri' Hin Hsel) as (s & Hne & Hl & Hm & Hs).
      exists s. split; [done|]. split; [done|].
      refine (measured_ext m b _ tri' s _ _ _ _ _ Hm);
        cbn [b_segs b_contacts b_sci_keys b_set_segs]; [exact Ekeys|..];
        [intros k _; by rewrite Econt|..];
        rewrite upd_other by done; by rewrite Hsegs. }
    split; [exact Hthis|]. split.
    { assert (Hnone : filter (λ k, sc_segment0 (b_contacts b k) = this) (b_sci_keys b)
                      = []).
      { destruct (filter _ _) as [|c l] eqn:E; [done|exfalso].
        assert (Hc : c ∈ filter (λ k, sc_segment0 (b_contacts b k) = this)
                       (b_sci_keys b)) by (rewrite E; apply list_elem_of_here).
        apply list_elem_of_filter in Hc as [Hc0 Hc].
        destruct (Hcre c Hc) as (tri' & Hin & Hsel & Hl).
        destruct (Hother tri' Hin Hsel) as (s & Hne & Hl' & _).
        apply Hmono in Hl. rewrite Hc0 in Hl. congruence. }
      unfold contact_length_from. rewrite Hnone. reflexivity. }
    rewrite upd_same. by cbn.
Qed.

Lemma distinct_triangles_fresh (m : BMesh) (done l : list (Z * Z * Z))
    (tri : Z * Z * Z) :
  distinct_triangles m (done ++ tri :: l) → selected_tri m tri →
  ∀ tri', tri' ∈ done → selected_tri m tri' →
          _to_tri_loop_index m tri'.1.1 ≠ _to_tri_loop_index m tri.1.1.
Proof.
  unfold distinct_triangles, selected_tri. intros Hnd Hsel tri' Hin Hsel' Heq.
  rewrite filter_app, map_app in Hnd. apply NoDup_app in Hnd as (_ & Hdis & _).
  apply (Hdis (_to_tri_loop_index m tri'.1.1)).
  - apply list_elem_of_fmap. exists tri'. split; [done|].
    by apply list_elem_of_filter.
  - rewrite Heq. apply list_elem_of_fmap. exists tri. split; [done|].
    apply list_elem_of_filter. split; [done|apply list_elem_of_here].
Qed.

Lemma tri_loop_meas hpi p m vi2 vshift lshift (l : list (Z * Z * Z)) :
  ∀ done b b',
  measures_inv m done b → distinct_triangles m (done ++ l) →
  for_each (tri_body hpi p m vi2 vshift lshift) l b = Ok b' →
  measures_inv m (done ++ l) b'.
Proof.
  induction l as [|tri l IH]; intros done b b' Hok Hnd H; cbn in H.
  - injection H as <-. by rewrite app_nil_r.
  - apply bind_Ok_inv in H as (b1 & H1 & H).
    assert (E : done ++ tri :: l = (done ++ [tri]) ++ l) by (by rewrite <- app_assoc).
    rewrite E. eapply IH; [|by rewrite <- E|exact H].
    eapply tri_body_meas; [exact Hok| |exact H1].
    intros Hsel. by eapply distinct_triangles_fresh.
Qed.

Lemma add_perimeter_cost_meas sqrt SQRT_PI p m (done : list (Z * Z * Z))
    (b b' : BuildState) (c : Z) :
  measures_inv m done b → add_perimeter_cost sqrt SQRT_PI p b c = Ok b' →
  measures_inv m done b'.
Proof.
  intros (Hok & Hinj & Hcre & Hmeas) Hc.
  pose proof (add_perimeter_cost_ok sqrt SQRT_PI p b b' c Hok Hc) as Hok'.
  unfold add_perimeter_cost in Hc.
  apply bind_Ok_inv in Hc as (c' & _ & Hc). injection Hc as <-.
  assert (E0 : ∀ k, sc_segment0 (b_contacts
             (b_set_contacts b (upd (b_contacts b) c
                (set_cost_normalized (b_contacts b c)
                   (sc_cost_normalized (b_contacts b c)
                    + perimeter_cost_factor p * c')%Q))) k)
           = sc_segment0 (b_contacts b k)
           ∧ sc_length (b_contacts
             (b_set_contacts b (upd (b_contacts b) c
                (set_cost_normalized (b_contacts b c)
                   (sc_cost_normalized (b_contacts b c)
                    + perimeter_cost_factor p * c')%Q))) k)
           = sc_length (b_contacts b k)).
  { intros k. cbn [b_contacts b_set_contacts].
    destruct (decide (k = c)) as [->|Hne];
      [by rewrite upd_same|by rewrite upd_other]. }
  split; [exact Hok'|]. split; [exact Hinj|]. split.
  - intros k Hk. destruct (Hcre k Hk) as (tri & Hin & Hsel & Hl).
    exists tri. split; [done|]. split; [done|].
    rewrite (proj1 (E0 k)). exact Hl.
  - intros tri Hin Hsel. destruct (Hmeas tri Hin Hsel) as (s & Hl & Hm).
    exists s. split; [exact Hl|].
    refine (measured_ext m b _ tri s _ _ _ _ _ Hm); done.
Qed.

Lemma _calc_segment_contacts_meas sqrt SQRT_PI hpi p vi2 m tris (b : BuildState)
    (n : Z) :
  distinct_triangles m tris →
  _calc_segment_contacts sqrt SQRT_PI hpi p vi2 m tris = Ok (b, n) →
  measures_inv m tris b.
Proof.
  intros Hnd H. unfold _calc_segment_contacts in H.
  apply bind_Ok_inv in H as (vshift & _ & H).
  apply bind_Ok_inv in H as (lshift & _ & H).
  apply bind_Ok_inv in H as (b1 & Htri & H).
  apply bind_Ok_inv in H as (b2 & Hper & H). injection H as <- <-.
  apply (tri_loop_meas _ _ _ _ _ _ _ []) in Htri; [|
    |exact Hnd].
  2:{ split; [exact init_BuildState_ok|]. split; [intros k k' v Hk; done|].
      split; [intros c Hc; by apply elem_of_nil in Hc|].
      intros tri Hin. by apply elem_of_nil in Hin. }
  cbn [app] in Htri.
  destruct (negb _); [|by injection Hper as <-].
  apply (for_each_invariant (measures_inv m tris)) in Hper; [done| |exact Htri].
  intros b3 c b4 _. apply add_perimeter_cost_meas.
Qed.

(** X25: when no two selected triangles of the list share a tri-loop
    index, the graph [_calc_segment_contacts] returns maps every selected
    triangle to a segment whose area is the triangle's area, whose
    perimeter is the sum of its three edge lengths, and whose non-contact
    perimeter is that perimeter less the summed length of the contacts
    that have the segment as first endpoint. *)
Theorem X25_built_segment_measures sqrt SQRT_PI hpi p vi2 m tris
    (b : BuildState) (n : Z) :
  distinct_triangles m tris →
  _calc_segment_contacts sqrt SQRT_PI hpi p vi2 m tris = Ok (b, n) →
  ∀ tri, tri ∈ tris → selected_tri m tri →
    ∃ s, b_tli2segment b !! _to_tri_loop_index m tri.1.1 = Some s
         ∧ measured m b tri s.
Proof.
  intros Hnd H tri Hin Hsel.
  apply _calc_segment_contacts_meas in H as (_ & _ & _ & H); [|exact Hnd].
  by apply H.
Qed.

Lemma fan_distinct_triangles : distinct_triangles fan (calc_loop_triangles fan).
Proof.
  unfold distinct_triangles. apply (bool_decide_unpack _). vm_compute. exact I.
Qed.

Lemma X25_built_segment_measures_witness :
  distinct_triangles fan (calc_loop_triangles fan)
  ∧ ∀ tri, tri ∈ calc_loop_triangles fan → selected_tri fan tri →
      ∃ s, b_tli2segment fan_graph.1 !! _to_tri_loop_index fan tri.1.1 = Some s
           ∧ measured fan fan_graph.1 tri s.
Proof.
  split; [exact fan_distinct_triangles|].
  apply (X25_built_segment_measures approx_sqrt approx_SQRT_PI (2 # 3)
           (test_params 10 2 1)
           (_calc_vi2vgi2weights (deform_weights fan)
              (ignore_vertex_group_indices (test_params 10 2 1)))
           fan (calc_loop_triangles fan) fan_graph.1 fan_graph.2
           fan_distinct_triangles fan_graph_built).
Defined.

(** ** The non-contact perimeter through the merges *)

#[local] Instance same_ncp_refl : Reflexive same_ncp.
Proof. by intros st x. Qed.

#[local] Instance same_ncp_trans : Transitive same_ncp.
Proof. intros a b c H1 H2 x. by rewrite H2, H1. Qed.

Lemma upd_ncp_same (sg : Z → Segment) (x : Z) (s' : Segment) (s : Z) :
  seg_non_contact_perimeter s' = seg_non_contact_perimeter (sg x) →
  seg_non_contact_perimeter (upd sg x s' s) = seg_non_contact_perimeter (sg s).
Proof.
  intros E. destruct (decide (s = x)) as [->|Hne];
    [by rewrite upd_same|by rewrite upd_other].
Qed.

Lemma discard_ncp (sg : Z → Segment) (x c s : Z) :
  seg_non_contact_perimeter (discard_contact_id sg x c s)
  = seg_non_contact_perimeter (sg s).
Proof. unfold discard_contact_id. by apply upd_ncp_same. Qed.

Lemma _remove_segment_contact_ncp (st st' : EngineState) (c : Z) :
  _remove_segment_contact st c = Ok st' → same_ncp st st'.
Proof.
  intros H.
  apply _remove_segment_contact_spec in H as (_ & _ & _ & Hsegs & _).
  intros x. by rewrite Hsegs, !discard_ncp.
Qed.

Lemma repoint_ncp (src dst : Z) (st st' : EngineState) (c : Z) :
  repoint src dst st c = Ok st' → same_ncp st st'.
Proof.
  unfold repoint.
  destruct (bool_decide (c ∈ sci2segment_contacts st)); [|discriminate].
  destruct (segment_replace (contacts st c) src dst) as [sc [|]];
    [|by intros [= <-]].
  destruct (bool_decide (sc_segment0 sc = sc_segment1 sc)).
  - intros H. apply bind_Ok_inv in H as (st1 & H1 & H2).
    destruct (bool_decide (src = dst)); [discriminate|]. injection H2 as <-.
    by apply _remove_segment_contact_ncp in H1.
  - intros [= <-]. intros x. state_simpl. by apply upd_ncp_same.
Qed.

Lemma fold_parallel_ncp sqrt SQRT_PI ord p (st st' : EngineState) (g : gset Z) :
  fold_parallel sqrt SQRT_PI ord p st g = Ok st' → same_ncp st st'.
Proof.
  unfold fold_parallel.
  destruct (size g <=? 1)%nat; [by intros [= <-]|].
  destruct (iter_set ord g) as [|merged_sc rest]; [by intros [= <-]|].
  intros H. apply bind_Ok_inv in H as (st1 & H1 & H).
  apply (for_each_preserves same_ncp) in H1.
  2:{ intros s a s' _ Ha. unfold absorb in Ha.
      by apply _remove_segment_contact_ncp in Ha. }
  apply bind_Ok_inv in H as (cn & _ & H).
  destruct (loop_i _) as [i|]; [|discriminate].
  destruct (cost_sorted_segment_contacts st1 !! i) as [y|]; [|discriminate].
  injection H as <-. transitivity st1; [exact H1|].
  destruct (find_from _ _ _); [|destruct (_ <? _)%nat]; by intros x.
Qed.

Lemma repair_ncp sqrt SQRT_PI ord p shift (st st' : EngineState) (dst : Z) :
  repair sqrt SQRT_PI ord p shift st dst = Ok st' → same_ncp st st'.
Proof.
  unfold repair. intros H.
  apply bind_Ok_inv in H as (st1 & H1 & H).
  apply bind_Ok_inv in H as (groups & _ & H).
  apply (for_each_preserves same_ncp) in H;
    [|intros ? ? ? _; apply fold_parallel_ncp].
  transitivity st1; [|exact H].
  destruct (is_not_perimeter_cost_factor_0 p); [|by injection H1 as <-].
  apply bind_Ok_inv in H1 as (total & _ & H1). injection H1 as <-.
  intros x. state_simpl. by apply upd_ncp_same.
Qed.

Lemma scan_iter_ncp sqrt SQRT_PI ord p shift (st st' : EngineState) (sci : Z)
    (ctl : control) (accepted : bool) :
  scan_iter sqrt SQRT_PI ord p shift st sci = Ok (ctl, accepted, st') →
  same_ncp st st'.
Proof.
  unfold scan_iter. intros H.
  destruct (Qgtb _ _); [by injection H as <- <- <-|].
  destruct (area_rejects _ _ _); [by injection H as <- <- <-|].
  apply bind_Ok_inv in H as (st1 & H1 & H).
  apply bind_Ok_inv in H as (st2 & H2 & H).
  apply _remove_segment_contact_ncp in H1.
  apply (for_each_preserves same_ncp) in H2;
    [|intros ? ? ? _; apply repoint_ncp].
  assert (H0 : same_ncp st (accept st sci)).
  { intros x. state_simpl. by apply upd_ncp_same. }
  assert (H02 : same_ncp st st2).
  { transitivity (accept st sci); [exact H0|]. by transitivity st1. }
  destruct (_ =? _)%nat.
  - injection H as <- <- <-. intros x. state_simpl. apply H02.
  - apply bind_Ok_inv in H as (st3 & H3 & H). injection H as <- <- <-.
    apply repair_ncp in H3. by transitivity st2.
Qed.

(** X26: the merges never change a non-contact perimeter: every segment
    [auto_segment] returns, merged or not, has the non-contact perimeter
    it had in the graph [_calc_segment_contacts] built. *)
Theorem X26_non_contact_perimeter_kept sqrt SQRT_PI hpi ord m p
    (b : BuildState) (n : Z) (r : SegmentResult) :
  _calc_segment_contacts sqrt SQRT_PI hpi p
    (_calc_vi2vgi2weights (deform_weights m) (ignore_vertex_group_indices p))
    m (calc_loop_triangles m) = Ok (b, n) →
  auto_segment sqrt SQRT_PI hpi ord m p = Ok r →
  ∀ s, seg_non_contact_perimeter (r_segs r s)
       = seg_non_contact_perimeter (b_segs b s).
Proof.
  intros Hb H. unfold auto_segment in H. cbv zeta in H.
  rewrite Hb, bind_Ok in H.
  destruct (n =? 0); [by injection H as <-|].
  apply bind_Ok_inv in H as (shift & _ & H).
  apply bind_Ok_inv in H as (st & Hloop & H). injection H as <-. cbn [r_segs].
  apply (merge_loop_invariant (same_ncp (start_state b))) in Hloop;
    [exact Hloop| |reflexivity].
  intros st0 sci ctl acc st1 H0 _ H1. apply scan_iter_ncp in H1.
  by transitivity st0.
Qed.

Lemma X26_non_contact_perimeter_kept_witness :
  seg_tri_loop0s (r_segs fan_result 1) ≠ seg_tri_loop0s (b_segs fan_graph.1 1)
  ∧ ∀ s, seg_non_contact_perimeter (r_segs fan_result s)
         = seg_non_contact_perimeter (b_segs fan_graph.1 s).
Proof.
  split; [vm_compute; discriminate|].
  apply (X26_non_contact_perimeter_kept approx_sqrt approx_SQRT_PI (2 # 3) descending
           fan (test_params 10 2 1) fan_graph.1 fan_graph.2 fan_result
           fan_graph_built fan_result_run).
Defined.

(** ** The total area through the merges *)

Lemma Qsum_perm (l l' : list Q) : l ≡ₚ l' → (Qsum l == Qsum l')%Q.
Proof.
  unfold Qsum. induction 1 as [|x l l' _ IH|x y l|l l' l'' _ IH1 _ IH2];
    cbn [fold_right].
  - reflexivity.
  - by rewrite IH.
  - ring.
  - by rewrite IH1.
Qed.

Lemma total_area_merge (sg sg' : Z → Segment) (X : gset Z) (dst src : Z) :
  src ≠ dst → src ∈ X → dst ∈ X →
  (∀ x, seg_area (sg' x)
        = if decide (x = dst) then (seg_area (sg dst) + seg_area (sg src))%Q
          else seg_area (sg x)) →
  (total_area sg' (X ∖ {[src]}) == total_area sg X)%Q.
Proof.
  intros Hsd Hs Hd HA. unfold total_area.
  set (Y := X ∖ {[src]} ∖ {[dst]}).
  assert (E1 : X ∖ {[src]} = {[dst]} ∪ Y).
  { apply set_eq. intros z. unfold Y. destruct (decide (z = dst)); set_solver. }
  assert (E2 : X = {[src]} ∪ ({[dst]} ∪ Y)).
  { apply set_eq. intros z. unfold Y.
    destruct (decide (z = dst)); destruct (decide (z = src)); set_solver. }
  assert (HdY : dst ∉ Y) by (unfold Y; set_solver).
  assert (HsY : src ∉ {[dst]} ∪ Y) by (unfold Y; set_solver).
  clearbody Y. rewrite E1. rewrite E2 at 1.
  assert (P1 : map (λ s, seg_area (sg' s)) (elements ({[dst]} ∪ Y))
               ≡ₚ map (λ s, seg_area (sg' s)) (dst :: elements Y)).
  { apply Permutation_map. by apply elements_union_singleton. }
  assert (P2 : map (λ s, seg_area (sg s)) (elements ({[src]} ∪ ({[dst]} ∪ Y)))
               ≡ₚ map (λ s, seg_area (sg s)) (src :: dst :: elements Y)).
  { apply Permutation_map.
    etrans; [by apply elements_union_singleton|].
    apply Permutation_skip. by apply elements_union_singleton. }
  rewrite (Qsum_perm _ _ P1), (Qsum_perm _ _ P2).
  cbn [map]. unfold Qsum. cbn [fold_right].
  rewrite (HA dst). destruct (decide (dst = dst)); [|done].
  assert (E : map (λ s, seg_area (sg' s)) (elements Y)
              = map (λ s, seg_area (sg s)) (elements Y)).
  { apply map_ext_in. intros z Hz. apply list_elem_of_In, elem_of_elements in Hz.
    rewrite HA. destruct (decide (z = dst)) as [->|]; [done|done]. }
  rewrite E. ring.
Qed.

Lemma answer_alive (st : EngineState) (x : Z) :
  priority_ok st → x ∈ answer st ↔ alive st x.
Proof.
  intros (_ & _ & Hel). unfold answer, alive, active.
  rewrite elem_of_union, elem_of_endpoints. by setoid_rewrite Hel.
Qed.

Lemma merged_into_area (st st' : EngineState) :
  priority_ok st → priority_ok st' → merged_into st st' →
  (total_area (segs st') (answer st') == total_area (segs st) (answer st))%Q.
Proof.
  intros Hp Hp' [->|(dst & src & Hsd & Hs & Hd & Hd' & Hs' & Hz & HA)];
    [reflexivity|].
  assert (E : answer st' = answer st ∖ {[src]}).
  { apply set_eq. intros z. rewrite elem_of_difference, elem_of_singleton.
    rewrite !answer_alive by done.
    destruct (decide (z = src)) as [->|Hzs]; [tauto|].
    destruct (decide (z = dst)) as [->|Hzd]; [tauto|].
    rewrite (Hz z Hzs Hzd). tauto. }
  rewrite E. apply (total_area_merge _ _ _ dst); try done; by apply answer_alive.
Qed.

Lemma merge_loop_area sqrt SQRT_PI ord p shift (fuel : nat) (st st' : EngineState) :
  (∀ l, ord l ≡ₚ l) → 0 ≤ shift → partition_inv st →
  merge_loop sqrt SQRT_PI ord p shift fuel st = Ok st' →
  (total_area (segs st') (answer st') == total_area (segs st) (answer st))%Q.
Proof.
  intros Hord Hshift Hinv H.
  apply (merge_loop_invariant
           (λ s, partition_inv s
                 ∧ (total_area (segs s) (answer s)
                    == total_area (segs st) (answer st))%Q)
           sqrt SQRT_PI ord p shift) in H; [by destruct H| |by split].
  intros s sci ctl acc s' [Hs Hc] Hin Hit.
  assert (Hlive : sci ∈ sci2segment_contacts s).
  { destruct Hs as ([(_ & _ & Hel) _] & _). by apply Hel. }
  destruct (scan_iter_partition _ _ _ _ _ _ _ _ _ _ Hord Hshift Hs Hlive Hit)
    as (Hs' & _ & Hm).
  split; [exact Hs'|]. rewrite <- Hc. apply merged_into_area; [..|exact Hm].
  - by destruct Hs as ([? _] & _).
  - by destruct Hs' as ([? _] & _).
Qed.

(** X27: merging loses and adds no area: the areas of the segments
    [auto_segment] returns sum to the summed area of the built segments
    that had a contact.  (Sets iterated in any order; built graph without
    a contact from a segment to itself.) *)
Theorem X27_total_area_kept sqrt SQRT_PI hpi ord m p (st0 : EngineState)
    (r : SegmentResult) :
  (∀ l, ord l ≡ₚ l) →
  built_state sqrt SQRT_PI hpi m p = Ok st0 →
  no_self_contacts st0 →
  auto_segment sqrt SQRT_PI hpi ord m p = Ok r →
  (total_area (r_segs r) (segments r)
   == total_area (segs st0)
        (endpoints (contacts st0) (cost_sorted_segment_contacts st0)))%Q.
Proof.
  intros Hord Hbuilt Hself H. unfold built_state in Hbuilt. unfold auto_segment in H.
  cbv zeta in H.
  destruct (_calc_segment_contacts _ _ _ _ _ _ _) as [[b n]|e] eqn:Eb; [|done].
  rewrite bind_Ok in Hbuilt. rewrite bind_Ok in H.
  injection Hbuilt as <-. cbn [fst] in *.
  pose proof (_calc_segment_contacts_tri _ _ _ _ _ _ _ _ _ Eb) as Htri.
  apply _calc_segment_contacts_ok in Eb as [Hok ->].
  destruct (b_next_segment_id b =? 0) eqn:En.
  { injection H as <-. cbn [r_segs segments]. apply Z.eqb_eq in En.
    assert (E : endpoints (contacts (start_state b))
                  (cost_sorted_segment_contacts (start_state b)) = ∅).
    { apply set_eq. intros x. rewrite elem_of_endpoints. split; [|set_solver].
      intros (c & Hc & _). exfalso. cbn in Hc.
      rewrite (proj2 (sorted_by_cost_spec _ _)) in Hc.
      destruct Hok as (_ & _ & _ & _ & H5 & _). destruct (H5 c Hc) as (? & _). lia. }
    rewrite E. reflexivity. }
  apply bind_Ok_inv in H as (shift & Hshift & H).
  apply bind_Ok_inv in H as (st & Hloop & H). injection H as <-.
  cbn [r_segs segments].
  apply pair_shift_nonneg in Hshift.
  pose proof (start_state_partition m _ b Hok Htri Hself) as Hinv0.
  pose proof (merge_loop_area _ _ _ _ _ _ _ _ Hord Hshift Hinv0 Hloop) as HA.
  unfold answer in HA at 1. rewrite HA. unfold answer. cbn [result_segments start_state].
  by rewrite (left_id_L ∅ (∪)).
Qed.

Lemma X27_total_area_kept_witness :
  (total_area (r_segs fan_result) (segments fan_result)
   == total_area (segs fan_state)
        (endpoints (contacts fan_state) (cost_sorted_segment_contacts fan_state)))%Q.
Proof.
  apply (X27_total_area_kept approx_sqrt approx_SQRT_PI (2 # 3) descending fan
           (test_params 10 2 1) fan_state fan_result).
  - intros l. apply merge_sort_Permutation.
  - exact fan_built_state.
  - exact (proj1 (proj2 (proj2 fan_state_graph_ok))).
  - exact fan_result_run.
Defined.

(** ** The cost of a built contact *)

#[local] Instance b_extends_refl : Reflexive b_extends.
Proof. intros b. by repeat split. Qed.

#[local] Instance b_extends_trans : Transitive b_extends.
Proof.
  intros a b c (H1 & H2 & H3) (H4 & H5 & H6). split; [|split].
  - intros k v Hk. by apply H4, H1.
  - intros k v Hk. by apply H5, H2.
  - intros k Hk. destruct (H3 k Hk) as (Hk' & E1 & E2 & E3 & E4).
    destruct (H6 k Hk') as (Hk'' & E1' & E2' & E3' & E4').
    split; [done|]. repeat split; congruence.
Qed.



















#[local] Instance Qeq_decision : RelDecision Qeq := Qeq_dec.



(** ** The cost and the length between two segments *)

Lemma joins_true (a b : Z) (c : SegmentContact) :
  joins a b c = true
  ↔ (sc_segment0 c = a ∧ sc_segment1 c = b) ∨ (sc_segment0 c = b ∧ sc_segment1 c = a).
Proof.
  unfold joins. rewrite orb_true_iff, !bool_decide_eq_true. done.
Qed.

Lemma joins_ext (a b : Z) (c c' : SegmentContact) :
  sc_segment0 c' = sc_segment0 c → sc_segment1 c' = sc_segment1 c →
  joins a b c' = joins a b c.
Proof. unfold joins. by intros -> ->. Qed.

Lemma joins_same_pair (a b : Z) (c c' : SegmentContact) :
  same_pair c c' → joins a b c = joins a b c'.
Proof.
  intros H. apply eq_true_iff_eq. rewrite !joins_true.
  unfold same_pair in H. intuition congruence.
Qed.

Lemma joins_self (a b : Z) (c : SegmentContact) :
  a ≠ b → sc_segment0 c = sc_segment1 c → joins a b c = false.
Proof.
  intros Hab E. apply not_true_is_false. rewrite joins_true. intuition congruence.
Qed.

Lemma pair_sum_ext (f : SegmentContact → Q) (view view' : SegmentContact → SegmentContact)
    (cs cs' : Z → SegmentContact) (X : gset Z) (a b : Z) :
  (∀ k, k ∈ X → joins a b (view' (cs' k)) = joins a b (view (cs k))
                 ∧ f (cs' k) = f (cs k)) →
  pair_sum f view' cs' X a b = pair_sum f view cs X a b.
Proof.
  intros H. unfold pair_sum. f_equal. apply map_ext_in. intros k Hk.
  apply list_elem_of_In, elem_of_elements in Hk. destruct (H k Hk) as [-> ->]. done.
Qed.

Lemma pair_sum_remove (f : SegmentContact → Q) (view : SegmentContact → SegmentContact)
    (cs : Z → SegmentContact) (X : gset Z) (a b k : Z) :
  k ∈ X →
  (pair_sum f view cs X a b
   == (if joins a b (view (cs k)) then f (cs k) else 0)
      + pair_sum f view cs (X ∖ {[k]}) a b)%Q.
Proof.
  intros Hk. unfold pair_sum.
  assert (E : X = {[k]} ∪ X ∖ {[k]}).
  { apply set_eq. intros z. destruct (decide (z = k)); set_solver. }
  assert (Hnk : k ∉ X ∖ {[k]}) by set_solver.
  set (h := λ k0, if joins a b (view (cs k0)) then f (cs k0) else 0%Q).
  assert (P : map h (elements X) ≡ₚ map h (k :: elements (X ∖ {[k]}))).
  { apply Permutation_map. rewrite E at 1. by apply elements_union_singleton. }
  rewrite (Qsum_perm _ _ P). reflexivity.
Qed.

Lemma pair_sum_zero (f : SegmentContact → Q) (view : SegmentContact → SegmentContact)
    (cs : Z → SegmentContact) (X : gset Z) (a b : Z) :
  (∀ k, k ∈ X → joins a b (view (cs k)) = false) →
  (pair_sum f view cs X a b == 0)%Q.
Proof.
  intros H. unfold pair_sum.
  assert (E : ∀ l : list Z, (∀ k, k ∈ l → joins a b (view (cs k)) = false) →
            (Qsum (map (λ k, if joins a b (view (cs k)) then f (cs k) else 0%Q) l)
             == 0)%Q).
  { induction l as [|x l IH]; intros Hl; [reflexivity|].
    cbn [map]. unfold Qsum in *. cbn [fold_right].
    rewrite (Hl x (list_elem_of_here _ _)), IH; [ring|].
    intros k Hk. apply Hl. by apply list_elem_of_further. }
  apply E. intros k Hk. apply H. by apply elem_of_elements.
Qed.

Lemma cost_or_length_normalized (f : SegmentContact → Q) (c : SegmentContact) (v : Q) :
  cost_or_length f → f (set_cost_normalized c v) = f c.
Proof. by intros [-> | ->]. Qed.

Lemma cost_or_length_replace (f : SegmentContact → Q) (c : SegmentContact)
    (src dst : Z) :
  cost_or_length f → f (segment_replace c src dst).1 = f c.
Proof. intros [-> | ->]; unfold segment_replace; by repeat case_bool_decide. Qed.

Lemma cost_or_length_add (f : SegmentContact → Q) (m c : SegmentContact) :
  cost_or_length f →
  f (set_cost_length m (sc_cost m + sc_cost c) (sc_length m + sc_length c))
  = (f m + f c)%Q.
Proof. by intros [-> | ->]. Qed.

Lemma absorb_total (f : SegmentContact → Q) (a b merged_sc c : Z)
    (s s' : EngineState) :
  cost_or_length f → merged_sc ≠ c →
  merged_sc ∈ sci2segment_contacts s → c ∈ sci2segment_contacts s →
  same_pair (contacts s merged_sc) (contacts s c) →
  absorb merged_sc s c = Ok s' →
  (pair_total f s' a b == pair_total f s a b)%Q.
Proof.
  intros Hf Hne Hm Hc Hsame H. unfold absorb in H.
  apply _remove_segment_contact_spec in H as (_ & Hlive & Hcont & _).
  cbn in Hlive, Hcont. unfold pair_total. rewrite Hlive, Hcont.
  set (X := sci2segment_contacts s).
  set (cs := contacts s).
  set (m' := set_cost_length (cs merged_sc) (sc_cost (cs merged_sc) + sc_cost (cs c))
               (sc_length (cs merged_sc) + sc_length (cs c))).
  rewrite (pair_sum_remove f _ cs X a b c Hc).
  assert (Hm' : merged_sc ∈ X ∖ {[c]}) by set_solver.
  rewrite (pair_sum_remove f _ cs (X ∖ {[c]}) a b merged_sc Hm').
  rewrite (pair_sum_remove f _ (upd cs merged_sc m') (X ∖ {[c]}) a b merged_sc Hm').
  rewrite (pair_sum_ext f (λ c0, c0) (λ c0, c0) cs (upd cs merged_sc m')
             (X ∖ {[c]} ∖ {[merged_sc]}) a b).
  2:{ intros k Hk. rewrite upd_other by set_solver. done. }
  rewrite upd_same.
  assert (E1 : joins a b m' = joins a b (cs merged_sc)) by (by apply joins_ext).
  assert (E2 : joins a b (cs c) = joins a b (cs merged_sc)).
  { symmetry. by apply joins_same_pair. }
  rewrite E1, E2. unfold m'. rewrite (cost_or_length_add f _ _ Hf).
  destruct (joins a b (cs merged_sc)); ring.
Qed.

Lemma absorb_rest_total (f : SegmentContact → Q) (a b merged_sc : Z) (rest : list Z) :
  cost_or_length f →
  ∀ s s',
  NoDup (merged_sc :: rest) →
  (∀ c, c ∈ merged_sc :: rest → c ∈ sci2segment_contacts s) →
  (∀ c, c ∈ rest → same_pair (contacts s merged_sc) (contacts s c)) →
  for_each (absorb merged_sc) rest s = Ok s' →
  (pair_total f s' a b == pair_total f s a b)%Q.
Proof.
  intros Hf. induction rest as [|c rest IH]; intros s s' Hnd Hlive Hsame H; cbn in H.
  - injection H as <-. reflexivity.
  - apply bind_Ok_inv in H as (s1 & H1 & H).
    apply NoDup_cons in Hnd as [Hm Hnd]. apply NoDup_cons in Hnd as [Hc Hnd].
    assert (Hmc : merged_sc ≠ c) by (intros ->; apply Hm, list_elem_of_here).
    pose proof (absorb_total f a b merged_sc c s s1 Hf Hmc
                  (Hlive _ (list_elem_of_here _ _))
                  (Hlive _ (list_elem_of_further _ _ _ (list_elem_of_here _ _)))
                  (Hsame _ (list_elem_of_here _ _)) H1) as E1.
    apply absorb_keeps in H1 as [(_ & Hends & _) Hl1].
    rewrite <- E1. apply (IH s1 s'); [| | |exact H].
    + apply NoDup_cons. split; [|exact Hnd].
      intros Hin. apply Hm. by apply list_elem_of_further.
    + intros k Hk. rewrite Hl1. apply elem_of_difference. split.
      * apply Hlive. apply elem_of_cons in Hk as [->|Hk];
          [apply list_elem_of_here|by do 2 apply list_elem_of_further].
      * apply not_elem_of_singleton. intros ->.
        apply elem_of_cons in Hk as [E|Hk]; [by apply Hmc|by apply Hc].
    + intros k Hk. unfold same_pair.
      rewrite !(proj1 (Hends _)), !(proj2 (Hends _)).
      apply Hsame. by apply list_elem_of_further.
Qed.

Lemma fold_parallel_total sqrt SQRT_PI ord p (f : SegmentContact → Q) (a b : Z)
    (s s' : EngineState) (g : gset Z) :
  (∀ l, ord l ≡ₚ l) → cost_or_length f →
  (∀ c, c ∈ g → c ∈ sci2segment_contacts s) →
  (∀ c c', c ∈ g → c' ∈ g → same_pair (contacts s c) (contacts s c')) →
  fold_parallel sqrt SQRT_PI ord p s g = Ok s' →
  (pair_total f s' a b == pair_total f s a b)%Q.
Proof.
  intros Hord Hf Hlive Hsame H. unfold fold_parallel in H.
  destruct (size g <=? 1)%nat; [by injection H as <-|].
  destruct (iter_set ord g) as [|merged_sc rest] eqn:Eit; [by injection H as <-|].
  assert (Hiter : ∀ c, c ∈ merged_sc :: rest ↔ c ∈ g).
  { intros c. rewrite <- Eit. unfold iter_set. by rewrite Hord, elem_of_elements. }
  assert (Hnd : NoDup (merged_sc :: rest)).
  { rewrite <- Eit. unfold iter_set. rewrite Hord. apply NoDup_elements. }
  apply bind_Ok_inv in H as (s1 & H1 & H).
  apply (absorb_rest_total f a b merged_sc rest Hf s s1 Hnd) in H1.
  2:{ intros c Hc. by apply Hlive, Hiter. }
  2:{ intros c Hc. apply Hsame; apply Hiter;
        [apply list_elem_of_here|by apply list_elem_of_further]. }
  apply bind_Ok_inv in H as (cn & _ & H).
  destruct (loop_i _) as [i|]; [|discriminate].
  destruct (cost_sorted_segment_contacts s1 !! i) as [y|]; [|discriminate].
  injection H as <-. rewrite <- H1. unfold pair_total.
  assert (E : ∀ s2 : EngineState,
            sci2segment_contacts s2 = sci2segment_contacts s1 →
            contacts s2 = contacts s1 →
            pair_sum f (λ c, c)
              (upd (contacts s2) merged_sc
                 (set_cost_normalized (contacts s2 merged_sc) cn))
              (sci2segment_contacts s2) a b
            = pair_sum f (λ c, c) (contacts s1) (sci2segment_contacts s1) a b).
  { intros s2 -> ->. apply pair_sum_ext. intros k _. unfold upd.
    destruct (bool_decide (k = merged_sc)) eqn:Ek; [|done].
    apply bool_decide_eq_true in Ek. subst k.
    split; [by apply joins_ext|by apply cost_or_length_normalized]. }
  state_simpl. rewrite <- (E s1 eq_refl eq_refl).
  destruct (find_from _ _ _); [|destruct (_ <? _)%nat]; reflexivity.
Qed.

Lemma fold_groups_total sqrt SQRT_PI ord p shift (f : SegmentContact → Q) (a b : Z)
    (st0 : EngineState) (groups : list (Z * gset Z)) :
  (∀ l, ord l ≡ₚ l) → cost_or_length f → groups_ok shift st0 groups →
  (∀ k g c c', (k, g) ∈ groups → c ∈ g → c' ∈ g →
               same_pair (contacts st0 c) (contacts st0 c')) →
  ∀ s s',
  (∀ c, sc_segment0 (contacts s c) = sc_segment0 (contacts st0 c)
        ∧ sc_segment1 (contacts s c) = sc_segment1 (contacts st0 c)) →
  (∀ k g c, (k, g) ∈ groups → c ∈ g → c ∈ sci2segment_contacts s) →
  for_each (fold_parallel sqrt SQRT_PI ord p) (map snd groups) s = Ok s' →
  (pair_total f s' a b == pair_total f s a b)%Q.
Proof.
  intros Hord Hf. induction groups as [|[k1 g1] groups IH];
    intros Hgok Hsame s s' Hends Hlive H; cbn [map for_each snd] in H.
  - injection H as <-. reflexivity.
  - apply bind_Ok_inv in H as (s1 & H1 & H).
    destruct Hgok as [Hnd Hmem]. cbn in Hnd. apply NoDup_cons in Hnd as [Hk1 Hnd].
    pose proof (fold_parallel_total sqrt SQRT_PI ord p f a b s s1 g1 Hord Hf) as E1.
    pose proof (fold_parallel_spec sqrt SQRT_PI ord p s s1 g1 Hord H1)
      as [(_ & Hends1 & _) _].
    pose proof (fold_parallel_survivor sqrt SQRT_PI ord p s s1 g1 Hord) as Hsurv.
    assert (Hlive1 : ∀ c, c ∈ g1 → c ∈ sci2segment_contacts s).
    { intros c Hc. eapply Hlive; [apply list_elem_of_here|done]. }
    destruct (Hsurv Hlive1 H1) as [_ Hkeep].
    rewrite <- E1; [|exact Hlive1| |exact H1].
    2:{ intros c c' Hc Hc'. unfold same_pair.
        rewrite !(proj1 (Hends _)), !(proj2 (Hends _)).
        by apply (Hsame k1 g1 c c' (list_elem_of_here _ _)). }
    apply (IH (conj Hnd (λ k g c Hin, Hmem k g c (list_elem_of_further _ _ _ Hin)))
              (λ k g c c' Hin, Hsame k g c c' (list_elem_of_further _ _ _ Hin))
              s1 s'); [| |exact H].
    + intros c. rewrite (proj1 (Hends1 c)), (proj2 (Hends1 c)). apply Hends.
    + intros k g c Hin Hc. apply Hkeep.
      * eapply Hlive; [by apply list_elem_of_further|done].
      * intros Hc1. apply Hk1.
        assert (k1 = k) as ->.
        { rewrite <- (Hmem k1 g1 c (list_elem_of_here _ _) Hc1).
          apply (Hmem k g c); [by apply list_elem_of_further|done]. }
        apply list_elem_of_fmap. by exists (k, g).
Qed.

Lemma repair_total sqrt SQRT_PI ord p shift (f : SegmentContact → Q) (a b : Z)
    (s s' : EngineState) (dst : Z) :
  (∀ l, ord l ≡ₚ l) → cost_or_length f → 0 ≤ shift →
  exact_at s dst → nonneg_endpoints s →
  repair sqrt SQRT_PI ord p shift s dst = Ok s' →
  (pair_total f s' a b == pair_total f s a b)%Q.
Proof.
  intros Hord Hf Hshift Hex Hnn H. unfold repair in H.
  apply bind_Ok_inv in H as (s1 & H1 & H).
  assert (E1 : contacts s1 = contacts s
               ∧ sci2segment_contacts s1 = sci2segment_contacts s
               ∧ seg_segment_contact_ids (segs s1 dst)
                 = seg_segment_contact_ids (segs s dst)).
  { destruct (is_not_perimeter_cost_factor_0 p); [|by injection H1 as <-].
    apply bind_Ok_inv in H1 as (total & _ & H1). injection H1 as <-.
    state_simpl. by rewrite upd_same. }
  destruct E1 as (Econt & Ekeys & Eids).
  apply bind_Ok_inv in H as (groups & Hcol & H).
  pose proof (collect_members _ _ _ _ _ Hcol) as Hmem.
  apply collect_all in Hcol as (Hgok & _);
    [|split; [apply NoDup_nil_2|intros ? ? ? Hin; by apply elem_of_nil in Hin]].
  assert (Hin_dst : ∀ k g c, (k, g) ∈ groups → c ∈ g →
            c ∈ sci2segment_contacts s ∧ touches dst (contacts s c)).
  { intros k g c Hin Hc. destruct (Hmem k g c Hin Hc) as [Hl|(g0 & Hg0 & _)];
      [|by apply elem_of_nil in Hg0].
    unfold iter_set in Hl. rewrite Hord in Hl. apply elem_of_elements in Hl.
    rewrite Eids in Hl. by apply Hex. }
  assert (E0 : pair_total f s1 a b = pair_total f s a b).
  { unfold pair_total. by rewrite Econt, Ekeys. }
  rewrite <- E0.
  apply (fold_groups_total sqrt SQRT_PI ord p shift f a b s1 groups Hord Hf Hgok);
    [|done| |exact H].
  - intros k g c c' Hin Hc Hc'. rewrite Econt.
    destruct (Hin_dst k g c Hin Hc) as [Hl Htd].
    destruct (Hin_dst k g c' Hin Hc') as [Hl' Htd'].
    destruct (Hnn c Hl) as [N0 N1]. destruct (Hnn c' Hl') as [N0' N1'].
    apply (spi_same_pair shift dst); try done.
    destruct Hgok as [_ Hk].
    pose proof (Hk k g c Hin Hc) as E. pose proof (Hk k g c' Hin Hc') as E'.
    unfold spi_of in E, E'. rewrite Econt in E, E'. congruence.
  - intros k g c Hin Hc. rewrite Ekeys. by apply (Hin_dst k g c Hin).
Qed.

Lemma segment_replace_idem (c : SegmentContact) (src dst : Z) :
  src ≠ dst →
  (segment_replace (segment_replace c src dst).1 src dst).1
  = (segment_replace c src dst).1.
Proof.
  intros Hsd. unfold segment_replace.
  destruct (bool_decide (sc_segment0 c = src)) eqn:E0;
    destruct (bool_decide (sc_segment1 c = src)) eqn:E1; cbn [sc_segment1 fst];
    rewrite ?E1; cbn [fst sc_segment0 sc_segment1];
    rewrite ?E0, ?E1, ?(bool_decide_eq_false_2 (dst = src)) by (by intros ->);
    reflexivity.
Qed.

Lemma segment_replace_away (c : SegmentContact) (src dst : Z) :
  sc_segment0 c ≠ src → sc_segment1 c ≠ src → (segment_replace c src dst).1 = c.
Proof.
  intros H0 H1. unfold segment_replace.
  by rewrite !bool_decide_eq_false_2.
Qed.

Lemma repoint_merged_total (f : SegmentContact → Q) (a b src dst : Z)
    (s s' : EngineState) (c : Z) :
  cost_or_length f → src ≠ dst → a ≠ b →
  repoint src dst s c = Ok s' →
  (merged_total f s' src dst a b == merged_total f s src dst a b)%Q.
Proof.
  intros Hf Hsd Hab H. unfold repoint in H.
  destruct (bool_decide (c ∈ sci2segment_contacts s)) eqn:Ec; [|discriminate].
  apply bool_decide_eq_true in Ec.
  pose proof (segment_replace_idem (contacts s c) src dst Hsd) as Hidem.
  pose proof (cost_or_length_replace f (contacts s c) src dst Hf) as Hfc.
  destruct (segment_replace (contacts s c) src dst) as [sc replaced] eqn:Erep.
  cbn [fst] in Hidem, Hfc.
  set (s1 := set_contacts s (upd (contacts s) c sc)) in *.
  assert (E1 : merged_total f s1 src dst a b = merged_total f s src dst a b).
  { unfold merged_total. apply pair_sum_ext. intros k _. subst s1. state_simpl.
    unfold upd. destruct (bool_decide (k = c)) eqn:Ek; [|done].
    apply bool_decide_eq_true in Ek. subst k. split; [|exact Hfc].
    by rewrite Hidem, Erep. }
  destruct replaced; [|injection H as <-; by rewrite E1].
  destruct (bool_decide (sc_segment0 sc = sc_segment1 sc)) eqn:Eself.
  - apply bool_decide_eq_true in Eself.
    apply bind_Ok_inv in H as (s2 & H2 & H).
    destruct (bool_decide (src = dst)); [discriminate|]. injection H as <-.
    apply _remove_segment_contact_spec in H2 as (_ & Hlive & Hcont & _).
    rewrite <- E1. unfold merged_total. rewrite Hlive, Hcont.
    rewrite (pair_sum_remove f _ (contacts s1) (sci2segment_contacts s1) a b c)
      by (subst s1; by state_simpl).
    assert (Ez : joins a b (segment_replace (contacts s1 c) src dst).1 = false).
    { subst s1. state_simpl. rewrite upd_same, Hidem. by apply joins_self. }
    rewrite Ez. ring.
  - injection H as <-. by rewrite <- E1.
Qed.

Lemma scan_iter_totals sqrt SQRT_PI ord p shift (f : SegmentContact → Q)
    (st st' : EngineState) (sci : Z) (ctl : control) :
  (∀ l, ord l ≡ₚ l) → cost_or_length f → 0 ≤ shift →
  graph_ok st → nonneg_endpoints st →
  scan_iter sqrt SQRT_PI ord p shift st sci = Ok (ctl, true, st') →
  ∀ a b, a ≠ b →
    (pair_total f st' a b
     == merged_total f st (sc_segment1 (contacts st sci))
          (sc_segment0 (contacts st sci)) a b)%Q.
Proof.
  intros Hord Hf Hshift Hok Hnn H a b Hab.
  apply scan_iter_inv in H
    as [(? & _)|(_ & _ & _ & st1 & st2 & H1 & H2 & Hcase)]; [discriminate|].
  assert (Hlive : sci ∈ sci2segment_contacts st).
  { by apply _remove_segment_contact_spec in H1 as (? & _). }
  destruct (scan_merge_states ord st sci Hord Hok Hlive)
    as (st1' & st2' & H1' & H2' & _ & Hinv2 & _ & Hnn2 & _).
  rewrite H1 in H1'. injection H1' as <-.
  rewrite H2 in H2'. injection H2' as <-.
  set (dst := sc_segment0 (contacts st sci)) in *.
  set (src := sc_segment1 (contacts st sci)) in *.
  destruct Hok as [_ (_ & Hself & _ & _)].
  assert (Hsd : src ≠ dst) by (intros E; by apply (Hself sci Hlive)).
  destruct Hinv2 as (_ & _ & Hclo2 & Hex2).
  assert (Hadst : active st dst) by (exists sci; split; [done|by left]).
  (* the accepted contact leaves *)
  assert (E1 : (merged_total f st1 src dst a b == merged_total f st src dst a b)%Q).
  { apply _remove_segment_contact_spec in H1 as (_ & Hl1 & Hc1 & _).
    cbn in Hl1, Hc1. unfold merged_total. rewrite Hl1, Hc1.
    rewrite (pair_sum_remove f _ (contacts st) (sci2segment_contacts st) a b sci Hlive).
    assert (Ez : joins a b (segment_replace (contacts st sci) src dst).1 = false).
    { apply joins_self; [done|]. unfold segment_replace. fold dst src.
      rewrite (bool_decide_eq_false_2 (dst = src)) by (by intros E; apply Hsd).
      by rewrite (bool_decide_eq_true_2 (src = src)). }
    rewrite Ez. ring. }
  (* the contacts of [src] are re-pointed *)
  assert (E2 : (merged_total f st2 src dst a b == merged_total f st1 src dst a b)%Q).
  { apply (for_each_invariant
             (λ s, (merged_total f s src dst a b
                    == merged_total f st1 src dst a b)%Q)) in H2;
      [exact H2| |reflexivity].
    intros s c s' _ Hs Hc. rewrite <- Hs.
    by apply (repoint_merged_total f a b src dst s s' c). }
  (* nothing touches [src] any more *)
  assert (E3 : pair_total f st2 a b = merged_total f st2 src dst a b).
  { unfold pair_total, merged_total. apply pair_sum_ext. intros k Hk.
    rewrite segment_replace_away; [done| |].
    - intros E. by destruct (Hclo2 k src Hk (or_introl E)).
    - intros E. by destruct (Hclo2 k src Hk (or_intror E)). }
  rewrite <- E1, <- E2, <- E3.
  destruct Hcase as [(_ & _ & ->)|(_ & _ & H3)]; [reflexivity|].
  apply (repair_total sqrt SQRT_PI ord p shift f a b st2 st' dst); try done.
  - apply Hex2. by split.
  - by apply Hnn2.
Qed.

Lemma pair_total_single (f : SegmentContact → Q) (s : EngineState) (k : Z) :
  no_parallel_contacts s → k ∈ sci2segment_contacts s →
  (pair_total f s (sc_segment0 (contacts s k)) (sc_segment1 (contacts s k))
   == f (contacts s k))%Q.
Proof.
  intros Hnp Hk. unfold pair_total.
  rewrite (pair_sum_remove f _ (contacts s) (sci2segment_contacts s) _ _ k Hk).
  assert (E1 : joins (sc_segment0 (contacts s k)) (sc_segment1 (contacts s k))
                 (contacts s k) = true).
  { apply joins_true. by left. }
  rewrite E1, pair_sum_zero; [ring|].
  intros j Hj. apply not_true_is_false. intros E. apply joins_true in E.
  assert (j = k); [|set_solver].
  apply Hnp; [set_solver|done|exact E].
Qed.

(** C4 (amended): the builder makes one contact per shared edge and folds
    nothing; an iteration of the scan, however, keeps the graph free of
    parallel contacts: if every live contact is registered on both its
    endpoints and no two live contacts connect the same unordered pair of
    segments before it, the same holds after it, whatever order the sets
    are iterated in.  And the survivor of a fold is aggregated: on a
    consistent graph, after an accepted merge every live contact carries
    the summed cost and the summed length of the contacts that joined its
    two segments before the merge, the source counted as the
    destination. *)
Theorem C4_no_parallel_contacts_preserved sqrt SQRT_PI ord p shift
    (st st' : EngineState) (sci : Z) (ctl : control) (accepted : bool) :
  (∀ l, ord l ≡ₚ l) →
  contacts_registered st →
  no_parallel_contacts st →
  scan_iter sqrt SQRT_PI ord p shift st sci = Ok (ctl, accepted, st') →
  contacts_registered st' ∧ no_parallel_contacts st'
  ∧ (0 ≤ shift → graph_ok st → nonneg_endpoints st → accepted = true →
     ∀ k, k ∈ sci2segment_contacts st' →
       let dst := sc_segment0 (contacts st sci) in
       let src := sc_segment1 (contacts st sci) in
       let a := sc_segment0 (contacts st' k) in
       let b := sc_segment1 (contacts st' k) in
       (sc_cost (contacts st' k) == merged_total sc_cost st src dst a b)%Q
       ∧ (sc_length (contacts st' k) == merged_total sc_length st src dst a b)%Q).
Proof.
  intros Hord Hreg Hnp H.
  destruct (scan_iter_no_parallel sqrt SQRT_PI ord p shift st st' sci ctl accepted
              Hord Hreg Hnp H) as [Hreg' Hnp'].
  split; [exact Hreg'|]. split; [exact Hnp'|].
  intros Hshift Hok Hnn -> k Hk dst src a b.
  assert (Hlive : sci ∈ sci2segment_contacts st).
  { pose proof H as H0.
    apply scan_iter_inv in H0
      as [(? & _)|(_ & _ & _ & st1 & st2 & H1 & _)]; [discriminate|].
    by apply _remove_segment_contact_spec in H1 as (? & _). }
  pose proof (scan_iter_safe sqrt SQRT_PI ord p shift st sci Hord Hok Hlive) as Hok'.
  rewrite H in Hok'. cbn in Hok'. destruct Hok' as [_ (_ & Hself' & _)].
  assert (Hab : a ≠ b) by (by apply Hself').
  split.
  - transitivity (pair_total sc_cost st' a b).
    + symmetry. by apply pair_total_single.
    + exact (scan_iter_totals sqrt SQRT_PI ord p shift sc_cost st st' sci ctl
               Hord (or_introl eq_refl) Hshift Hok Hnn H a b Hab).
  - transitivity (pair_total sc_length st' a b).
    + symmetry. by apply pair_total_single.
    + exact (scan_iter_totals sqrt SQRT_PI ord p shift sc_length st st' sci ctl
               Hord (or_intror eq_refl) Hshift Hok Hnn H a b Hab).
Qed.

Lemma fan_state_nonneg : nonneg_endpoints fan_state.
Proof.
  intros i Hi. rewrite fan_state_live in Hi.
  assert (Ei : i = 1 ∨ i = 2 ∨ i = 3) by set_solver.
  destruct Ei as [Ei|[Ei|Ei]]; subst i; split; by vm_compute.
Qed.

Lemma C4_no_parallel_contacts_preserved_witness :
  contacts_registered fan_merged_state ∧ no_parallel_contacts fan_merged_state
  ∧ ∀ k, k ∈ sci2segment_contacts fan_merged_state →
      let dst := sc_segment0 (contacts fan_state 1) in
      let src := sc_segment1 (contacts fan_state 1) in
      let a := sc_segment0 (contacts fan_merged_state k) in
      let b := sc_segment1 (contacts fan_merged_state k) in
      (sc_cost (contacts fan_merged_state k)
       == merged_total sc_cost fan_state src dst a b)%Q
      ∧ (sc_length (contacts fan_merged_state k)
         == merged_total sc_length fan_state src dst a b)%Q.
Proof.
  destruct (C4_no_parallel_contacts_preserved approx_sqrt approx_SQRT_PI ascending
              (test_params 10 2 1) 2 fan_state fan_merged_state 1 Break true)
    as (Hreg & Hnp & Hsum).
  - intros l. apply merge_sort_Permutation.
  - intros i Hi. rewrite fan_state_live in Hi.
    assert (Ei : i = 1 ∨ i = 2 ∨ i = 3) by set_solver.
    destruct Ei as [Ei|[Ei|Ei]]; subst i;
      split; apply (bool_decide_unpack _); vm_compute; exact I.
  - intros i j Hi Hj Hsame. rewrite fan_state_live in Hi, Hj.
    assert (Ei : i = 1 ∨ i = 2 ∨ i = 3) by set_solver.
    assert (Ej : j = 1 ∨ j = 2 ∨ j = 3) by set_solver.
    destruct Ei as [Ei|[Ei|Ei]]; destruct Ej as [Ej|[Ej|Ej]]; subst i j;
      try reflexivity; exfalso;
      destruct Hsame as [[E1 E2]|[E1 E2]]; vm_compute in E1, E2; congruence.
  - vm_compute. reflexivity.
  - split; [exact Hreg|]. split; [exact Hnp|].
    apply Hsum; [lia|exact fan_state_graph_ok|exact fan_state_nonneg|reflexivity].
Defined.
